(** * mi-top: parsers, utilization history and process table

    A shallow embedding of the Go sources of the dashboard
    (gpu_metrics.go in its two versions, and main.go) together with the
    properties of its specification.

    Conventions.
    - Go's [int] and [int64] are 64-bit (the Makefile builds linux/amd64):
      they are values of [Z], and arithmetic that can leave the range is
      written with [wrap64].
    - Go strings are byte strings: Rocq's [string].
    - [float64] is Rocq's primitive binary64 [float].
    - A run of Go code ends normally, returns a non-nil [error], or panics:
      the type [Res].
    - The text a command printed reaches the parsers through a
      [bufio.Scanner] (one string per line) or a [csv.Reader] (one row of
      fields per record); the embedding starts from what these readers
      yield.
    - The functions of Go's library that the sources call (packages
      strings, strconv, fmt, sort and encoding/csv) are written out after
      their documentation and sources, each in a module of its name. *)

From Stdlib Require Import ZArith List String Ascii Bool Lia Sorted OrderedTypeEx.
From Stdlib Require Import PrimFloat FloatOps SpecFloat.
From stdpp Require Import prelude.

Local Open Scope string_scope.
Local Open Scope list_scope.
Local Open Scope Z_scope.

(** ** Outcomes of Go code *)

Inductive GoPanic : Type :=
| IndexOutOfRange (i len : Z)
| SliceBoundsOutOfRange (i len : Z)
| DivideByZero
| MakeLenOutOfRange
| NilDereference.

Inductive NumErrKind : Type := ErrSyntax | ErrRange.

Inductive CsvErrKind : Type := ErrFieldCount | ErrBareQuote | ErrQuote.

Inductive GoError : Type :=
| ExecFailed (msg : string)
| CsvHeaderFailed (cause : option CsvErrKind)
| CsvRecordFailed (e : CsvErrKind).

Inductive Res (A : Type) : Type :=
| Done (a : A)
| Failed (e : GoError)
| Panicked (p : GoPanic).
Arguments Done {A} a.
Arguments Failed {A} e.
Arguments Panicked {A} p.

Definition res_bind {A B} (m : Res A) (k : A -> Res B) : Res B :=
  match m with
  | Done a => k a
  | Failed e => Failed e
  | Panicked p => Panicked p
  end.

Declare Scope res_scope.
Delimit Scope res_scope with res.
Notation "'let*' x ':=' m 'in' k" := (res_bind m (fun x => k))
  (at level 10, x pattern, m at level 100, k at level 200) : res_scope.
Local Open Scope res_scope.

(** [xs[i]] on a slice held as a list: a panic out of range. *)
Definition index {A} (xs : list A) (i : Z) : Res A :=
  if (0 <=? i) && (i <? Z.of_nat (length xs)) then
    match xs !! Z.to_nat i with
    | Some x => Done x
    | None => Panicked (IndexOutOfRange i (Z.of_nat (length xs)))
    end
  else Panicked (IndexOutOfRange i (Z.of_nat (length xs))).

(** Two's complement wrap-around of 64-bit signed arithmetic. *)
Definition wrap64 (z : Z) : Z := (z + 2 ^ 63) mod 2 ^ 64 - 2 ^ 63.

Definition MaxInt64 : Z := 2 ^ 63 - 1.
Definition MinInt64 : Z := - 2 ^ 63.
Definition MaxUint64 : Z := 2 ^ 64 - 1.

(** ** Package strings *)

Module strings.

Definition code (c : ascii) : N := N_of_ascii c.

Fixpoint HasPrefix (s prefix : string) : bool :=
  match prefix, s with
  | EmptyString, _ => true
  | String p prefix', String c s' => Ascii.eqb c p && HasPrefix s' prefix'
  | String _ _, EmptyString => false
  end.

Fixpoint Contains (s substr : string) : bool :=
  HasPrefix s substr ||
  match s with
  | EmptyString => false
  | String _ s' => Contains s' substr
  end.

Fixpoint revString (s acc : string) : string :=
  match s with
  | EmptyString => acc
  | String c s' => revString s' (String c acc)
  end.

Definition HasSuffix (s suffix : string) : bool :=
  HasPrefix (revString s "") (revString suffix "").

(** [strings.TrimSuffix]: [s] without the trailing [suffix], or [s]. *)
Definition TrimSuffix (s suffix : string) : string :=
  if HasSuffix s suffix
  then String.substring 0 (String.length s - String.length suffix) s
  else s.

(** [strings.Split(s, sep)] for a separator of one byte, which is what both
    parsers pass (a colon, a comma): the pieces between the separators, one
    more than there are separators. *)
Fixpoint Split (s : string) (sep : ascii) : list string :=
  match s with
  | EmptyString => [EmptyString]
  | String c s' =>
      if Ascii.eqb c sep then EmptyString :: Split s' sep
      else match Split s' sep with
           | f :: fs => String c f :: fs
           | [] => [String c EmptyString]
           end
  end.

(** White space as [unicode.IsSpace] has it, read off the UTF-8 bytes.
    The one-byte runes are tab, line feed, vertical tab, form feed,
    carriage return and space; U+0085 and U+00A0 take two bytes; U+1680,
    U+2000..U+200A, U+2028, U+2029, U+202F, U+205F and U+3000 take three.
    Each of these encodings starts with a byte that is no continuation
    byte, so it is a rune of the string wherever it occurs. *)
Definition asciiSpace (c : ascii) : bool :=
  let n := code c in
  ((9 <=? n) && (n <=? 13) || (n =? 32))%N.

Definition space2 (c0 c1 : ascii) : bool :=
  ((code c0 =? 194) && ((code c1 =? 133) || (code c1 =? 160)))%N.

Definition space3 (c0 c1 c2 : ascii) : bool :=
  let '(a, b, c) := (code c0, code c1, code c2) in
  ((a =? 225) && (b =? 154) && (c =? 128)
   || (a =? 226) && (b =? 128)
      && ((128 <=? c) && (c <=? 138) || (c =? 168) || (c =? 169) || (c =? 175))
   || (a =? 226) && (b =? 129) && (c =? 159)
   || (a =? 227) && (b =? 128) && (c =? 128))%N.

Fixpoint trimLeftSpace (s : string) : string :=
  match s with
  | EmptyString => EmptyString
  | String c0 r0 =>
      if asciiSpace c0 then trimLeftSpace r0 else
      match r0 with
      | String c1 r1 =>
          if space2 c0 c1 then trimLeftSpace r1 else
          match r1 with
          | String c2 r2 => if space3 c0 c1 c2 then trimLeftSpace r2 else s
          | EmptyString => s
          end
      | EmptyString => s
      end
  end.

(** The same from the end, on the reversed string: the last byte first. *)
Fixpoint trimLeftSpaceRev (s : string) : string :=
  match s with
  | EmptyString => EmptyString
  | String c0 r0 =>
      if asciiSpace c0 then trimLeftSpaceRev r0 else
      match r0 with
      | String c1 r1 =>
          if space2 c1 c0 then trimLeftSpaceRev r1 else
          match r1 with
          | String c2 r2 => if space3 c2 c1 c0 then trimLeftSpaceRev r2 else s
          | EmptyString => s
          end
      | EmptyString => s
      end
  end.

Definition trimRightSpace (s : string) : string :=
  revString (trimLeftSpaceRev (revString s "")) "".

(** [strings.TrimSpace]. *)
Definition TrimSpace (s : string) : string :=
  trimRightSpace (trimLeftSpace s).

(** [strings.Fields]: the maximal runs of bytes between white space.
    [cur] is the field being read, last byte first. *)
Fixpoint fieldsFrom (s cur : string) : list string :=
  let flush rest :=
    match cur with
    | EmptyString => rest
    | _ => revString cur "" :: rest
    end in
  match s with
  | EmptyString => flush []
  | String c0 r0 =>
      if asciiSpace c0 then flush (fieldsFrom r0 "") else
      match r0 with
      | String c1 r1 =>
          if space2 c0 c1 then flush (fieldsFrom r1 "") else
          match r1 with
          | String c2 r2 =>
              if space3 c0 c1 c2 then flush (fieldsFrom r2 "")
              else fieldsFrom r0 (String c0 cur)
          | EmptyString => fieldsFrom r0 (String c0 cur)
          end
      | EmptyString => fieldsFrom r0 (String c0 cur)
      end
  end.

Definition Fields (s : string) : list string := fieldsFrom s "".

(** Go's [<] on strings: the order of the bytes, a proper prefix first. *)
Definition less (s t : string) : bool :=
  match String.compare s t with Lt => true | _ => false end.

End strings.

(** ** Package strconv *)

Module strconv.

Definition digit (c : ascii) : option Z :=
  let n := Z.of_N (N_of_ascii c) in
  if (48 <=? n) && (n <=? 57) then Some (n - 48) else None.

(** The number a string of decimal digits writes, most significant digit
    first, in front of which [acc] was read: [None] when a byte is no
    digit. *)
Fixpoint digits (s : string) (acc : Z) : option Z :=
  match s with
  | EmptyString => Some acc
  | String c s' =>
      match digit c with
      | Some d => digits s' (10 * acc + d)
      | None => None
      end
  end.

(** The loop of [ParseUint(s, 10, 64)] over the bytes of [s], from the
    left, with [n] read so far. A byte that is no digit ends it with
    [ErrSyntax] and 0; digits that leave the range end it with [ErrRange]
    and the largest value, before the bytes that follow are looked at
    ([n >= cutoff], and then [n1 < n || n1 > maxVal] for the sum that wraps
    around). *)
Fixpoint uintLoop (s : string) (n : Z) : Z * option NumErrKind :=
  match s with
  | EmptyString => (n, None)
  | String c s' =>
      match digit c with
      | None => (0, Some ErrSyntax)
      | Some d =>
          let cutoff := MaxUint64 / 10 + 1 in
          if cutoff <=? n then (MaxUint64, Some ErrRange)
          else
            let n1 := 10 * n + d in
            if MaxUint64 <? n1 then (MaxUint64, Some ErrRange)
            else uintLoop s' n1
      end
  end.

(** [ParseUint(s, 10, 64)]: the value and the error. *)
Definition ParseUint (s : string) : Z * option NumErrKind :=
  match s with
  | EmptyString => (0, Some ErrSyntax)
  | _ => uintLoop s 0
  end.

(** [ParseInt(s, 10, 64)]. *)
Definition ParseInt (s : string) : Z * option NumErrKind :=
  match s with
  | EmptyString => (0, Some ErrSyntax)
  | String c s' =>
      let neg := Ascii.eqb c "-" in
      let body := if Ascii.eqb c "+" || neg then s' else s in
      match ParseUint body with
      | (_, Some ErrSyntax) => (0, Some ErrSyntax)
      | (un, _) =>
          let cutoff := 2 ^ 63 in
          if negb neg && (cutoff <=? un) then (cutoff - 1, Some ErrRange)
          else if neg && (cutoff <? un) then (- cutoff, Some ErrRange)
          else (if neg then - un else un, None)
      end
  end.

(** [Atoi(s)] is [ParseInt(s, 10, 0)] converted to [int], of 64 bits here. *)
Definition Atoi (s : string) : Z * option NumErrKind := ParseInt s.

(** The digits and the point of a decimal numeral: the digits read as an
    integer and the number of them behind the point ([None] before the
    point), [None] for any other byte and for a second point. *)
Fixpoint decimal (s : string) (mant : Z) (frac : option Z) (seen : bool)
    : option (Z * Z) :=
  match s with
  | EmptyString => if seen then Some (mant, default 0 frac) else None
  | String c s' =>
      match digit c with
      | Some d => decimal s' (10 * mant + d) (Z.succ <$> frac) true
      | None =>
          if Ascii.eqb c "." then
            match frac with
            | None => decimal s' mant (Some 0) seen
            | Some _ => None
            end
          else None
      end
  end.

(** [ParseFloat(s, 64)] on a decimal numeral without exponent: a sign, digits
    and at most one point. The value is the nearest binary64, ties to even,
    and a value past the range is an infinity with [ErrRange]. Go reads
    more than this (exponents, hexadecimal numerals, underscores, [Inf],
    [NaN]), which this function reports as [ErrSyntax]: it is the parser
    the sample inputs below are run with, on numerals of this form, and
    every property is proved for all parsers, or for all that return what
    the documentation of [strconv.ParseFloat] says they return beside an
    error. *)
Definition ParseFloatDecimal (s : string) : float * option NumErrKind :=
  match s with
  | EmptyString => (0%float, Some ErrSyntax)
  | String c s' =>
      let neg := Ascii.eqb c "-" in
      let body := if Ascii.eqb c "+" || neg then s' else s in
      match decimal body 0 None false with
      | None => (0%float, Some ErrSyntax)
      | Some (mant, frac) =>
          let v :=
            match mant with
            | Z.pos m =>
                SFdiv prec emax (S754_finite neg m 0)
                      (S754_finite false (Z.to_pos (10 ^ frac)) 0)
            | _ => S754_zero neg
            end in
          match v with
          | S754_infinity _ => (SF2Prim v, Some ErrRange)
          | _ => (SF2Prim v, None)
          end
      end
  end.

End strconv.

(** ** Package fmt, as far as the parsers use it *)

Module fmt.

Definition digitChar (d : Z) : ascii := ascii_of_N (Z.to_N (48 + d)).

(** The decimal digits of [n], written from the last one, in front of
    [acc]; [fuel] bounds their number. *)
Fixpoint utoa (fuel : nat) (n : Z) (acc : string) : string :=
  match fuel with
  | O => acc
  | S fuel' =>
      let acc' := String (digitChar (n mod 10)) acc in
      if n <? 10 then acc' else utoa fuel' (n / 10) acc'
  end.

(** The verb [%d], and [strconv.Itoa]. *)
Definition itoa (n : Z) : string :=
  let digits := utoa (S (Z.to_nat (Z.log2 (Z.abs n)))) (Z.abs n) "" in
  if n <? 0 then String "-" digits else digits.

(** Conversion [float64(n)] of an integer: the nearest binary64, ties to
    even. *)
Definition float64 (n : Z) : float :=
  SF2Prim (binary_normalize prec emax n 0 false).

(** The tenths nearest to [m * 2^e], ties to the even one: the digits
    [strconv.FormatFloat(x, 'f', 1, 64)] prints. *)
Definition tenths (m e : Z) : Z :=
  if 0 <=? e then 10 * m * 2 ^ e
  else
    let d := 2 ^ (- e) in
    let q := (10 * m) / d in
    let r := (10 * m) mod d in
    if 2 * r <? d then q
    else if d <? 2 * r then q + 1
    else if Z.even q then q else q + 1.

(** The verb [%.1f]. *)
Definition fixed1 (x : float) : string :=
  match Prim2SF x with
  | S754_nan => "NaN"
  | S754_infinity false => "+Inf"
  | S754_infinity true => "-Inf"
  | S754_zero s => ((if s then "-" else "") ++ "0.0")%string
  | S754_finite s m e =>
      let t := tenths (Z.pos m) e in
      ((if s then "-" else "") ++ itoa (t / 10)%Z ++ "." ++ itoa (t mod 10)%Z)%string
  end.

(** The integer nearest to [m * 2^e], ties to the even one: the digits
    [strconv.FormatFloat(x, 'f', 0, 64)] prints. *)
Definition units (m e : Z) : Z :=
  if 0 <=? e then m * 2 ^ e
  else
    let d := 2 ^ (- e) in
    let q := m / d in
    let r := m mod d in
    if 2 * r <? d then q
    else if d <? 2 * r then q + 1
    else if Z.even q then q else q + 1.

(** The verb [%.0f]. *)
Definition fixed0 (x : float) : string :=
  match Prim2SF x with
  | S754_nan => "NaN"
  | S754_infinity false => "+Inf"
  | S754_infinity true => "-Inf"
  | S754_zero s => ((if s then "-" else "") ++ "0")%string
  | S754_finite s m e => ((if s then "-" else "") ++ itoa (units (Z.pos m) e))%string
  end.

End fmt.

(** ** The records of gpu_metrics.go *)

Record GPUMetrics : Type := {
  ID : Z;
  Power : float;
  GPUTemp : float;
  MemTemp : float;
  GFXUtil : float;
  GFXClock : float;
  MemUtil : float;
  MemClock : float;
  VRAMUsed : float;
  VRAMTotal : float
}.

Record ProcessInfo : Type := {
  GPU : Z;
  Name : string;
  PID : string;
  GTTMem : float;
  CPUMem : float;
  VRAMMem : float;
  TotalMem : float;
  GFXUsage : string
}.

(** [ProcessInfo{GPU: gpu}]: every other field has its zero value. *)
Definition ProcessInfo_zero (gpu : Z) : ProcessInfo :=
  {| GPU := gpu; Name := ""; PID := ""; GTTMem := 0; CPUMem := 0;
     VRAMMem := 0; TotalMem := 0; GFXUsage := "" |}.

Definition set_Name (v : string) (p : ProcessInfo) : ProcessInfo :=
  {| GPU := GPU p; Name := v; PID := PID p; GTTMem := GTTMem p; CPUMem := CPUMem p;
     VRAMMem := VRAMMem p; TotalMem := TotalMem p; GFXUsage := GFXUsage p |}.
Definition set_PID (v : string) (p : ProcessInfo) : ProcessInfo :=
  {| GPU := GPU p; Name := Name p; PID := v; GTTMem := GTTMem p; CPUMem := CPUMem p;
     VRAMMem := VRAMMem p; TotalMem := TotalMem p; GFXUsage := GFXUsage p |}.
Definition set_GTTMem (v : float) (p : ProcessInfo) : ProcessInfo :=
  {| GPU := GPU p; Name := Name p; PID := PID p; GTTMem := v; CPUMem := CPUMem p;
     VRAMMem := VRAMMem p; TotalMem := TotalMem p; GFXUsage := GFXUsage p |}.
Definition set_CPUMem (v : float) (p : ProcessInfo) : ProcessInfo :=
  {| GPU := GPU p; Name := Name p; PID := PID p; GTTMem := GTTMem p; CPUMem := v;
     VRAMMem := VRAMMem p; TotalMem := TotalMem p; GFXUsage := GFXUsage p |}.
Definition set_VRAMMem (v : float) (p : ProcessInfo) : ProcessInfo :=
  {| GPU := GPU p; Name := Name p; PID := PID p; GTTMem := GTTMem p; CPUMem := CPUMem p;
     VRAMMem := v; TotalMem := TotalMem p; GFXUsage := GFXUsage p |}.
Definition set_TotalMem (v : float) (p : ProcessInfo) : ProcessInfo :=
  {| GPU := GPU p; Name := Name p; PID := PID p; GTTMem := GTTMem p; CPUMem := CPUMem p;
     VRAMMem := VRAMMem p; TotalMem := v; GFXUsage := GFXUsage p |}.
Definition set_GFXUsage (v : string) (p : ProcessInfo) : ProcessInfo :=
  {| GPU := GPU p; Name := Name p; PID := PID p; GTTMem := GTTMem p; CPUMem := CPUMem p;
     VRAMMem := VRAMMem p; TotalMem := TotalMem p; GFXUsage := v |}.

(** What [cmd.Output()] gave: the output as its reader yields it, or the
    error of a command that could not run or failed. *)
Inductive CmdResult (A : Type) : Type :=
| CmdOutput (out : A)
| CmdError (msg : string).
Arguments CmdOutput {A} out.
Arguments CmdError {A} msg.

(** [strconv.ParseFloat(s, 64)] is taken as it is: a function from the text
    to a value and an error. Both parsers drop the error and keep the
    value. *)
Definition FloatParser : Type := string -> float * option NumErrKind.

(** ** src/gpu_metrics.go *)

Module gpu_metrics.

(** One round of the loop of [getGPUMetrics] (lines 48 to 79): the record
    of a row, [None] for a row that is skipped. *)
Definition metricsRow (ParseFloat : FloatParser) (line : string) : Res (option GPUMetrics) :=
  let fields := strings.Split line "," in
  if Z.of_nat (length fields) <? 17 then Done None
  else
    let* f0 := index fields 0 in
    let id := fst (strconv.Atoi f0) in
    let* f1 := index fields 1 in
    let power := fst (ParseFloat f1) in
    let* f2 := index fields 2 in
    let gpuTemp := fst (ParseFloat f2) in
    let* f3 := index fields 3 in
    let memTemp := fst (ParseFloat f3) in
    let* f4 := index fields 4 in
    let gfxUtil := fst (ParseFloat f4) in
    let* f5 := index fields 5 in
    let gfxClock := fst (ParseFloat f5) in
    let* f6 := index fields 6 in
    let memUtil := fst (ParseFloat f6) in
    let* f7 := index fields 7 in
    let memClock := fst (ParseFloat f7) in
    let* f15 := index fields 15 in
    let vramUsed := fst (ParseFloat f15) in
    let* f16 := index fields 16 in
    let vramTotal := fst (ParseFloat f16) in
    Done (Some {| ID := id; Power := power; GPUTemp := gpuTemp; MemTemp := memTemp;
                  GFXUtil := gfxUtil; GFXClock := gfxClock; MemUtil := memUtil;
                  MemClock := memClock; VRAMUsed := vramUsed; VRAMTotal := vramTotal |}).

Fixpoint metricsLoop (ParseFloat : FloatParser) (lines : list string)
    (metrics : list GPUMetrics) : Res (list GPUMetrics) :=
  match lines with
  | [] => Done metrics
  | line :: rest =>
      let* r := metricsRow ParseFloat line in
      match r with
      | None => metricsLoop ParseFloat rest metrics
      | Some m => metricsLoop ParseFloat rest (metrics ++ [m])
      end
  end.

(** [getGPUMetrics]: the first line the scanner yields is the header. *)
Definition getGPUMetrics (ParseFloat : FloatParser) (output : CmdResult (list string))
    : Res (list GPUMetrics) :=
  match output with
  | CmdError msg => Failed (ExecFailed msg)
  | CmdOutput lines => metricsLoop ParseFloat (tail lines) []
  end.

(** The state of the loop of [getProcessInfo]. *)
Record scanState : Type := {
  processes : list ProcessInfo;
  currentGPU : Z;
  currentProcess : ProcessInfo
}.

(** [strings.Split(line, ":")[1]]. *)
Definition colonField (line : string) : Res string :=
  index (strings.Split line ":") 1.

(** The two arms of lines 125 to 129, from the text left of the unit. *)
Definition gfxUsage (gfxStr : string) : string :=
  match strconv.ParseInt gfxStr with
  | (gfxTime, None) =>
      if 0 <? gfxTime
      then (fmt.fixed1 (fmt.float64 gfxTime / 1e9 * 100)%float ++ "%")%string
      else "0.0%"
  | (_, Some _) => "0.0%"
  end.

Definition memValue (ParseFloat : FloatParser) (line : string) : Res float :=
  let* f := colonField line in
  let memStr := strings.TrimSpace f in
  Done (fst (ParseFloat (strings.TrimSuffix memStr " MB"))).

(** One round of the loop of [getProcessInfo] (lines 97 to 131). *)
Definition scanLine (ParseFloat : FloatParser) (st : scanState) (line : string) : Res scanState :=
  let cur := currentProcess st in
  let with_cur p :=
    {| processes := processes st; currentGPU := currentGPU st; currentProcess := p |} in
  if strings.HasPrefix line "GPU:" then
    let fields := strings.Fields line in
    let* f := index fields 1 in
    Done {| processes := processes st;
            currentGPU := fst (strconv.Atoi f);
            currentProcess := cur |}
  else if strings.Contains line "NAME:" then
    let processes' :=
      if String.eqb (Name cur) "" then processes st else processes st ++ [cur] in
    let fresh := ProcessInfo_zero (currentGPU st) in
    let* f := colonField line in
    Done {| processes := processes';
            currentGPU := currentGPU st;
            currentProcess := set_Name (strings.TrimSpace f) fresh |}
  else if strings.Contains line "PID:" then
    let* f := colonField line in
    Done (with_cur (set_PID (strings.TrimSpace f) cur))
  else if strings.Contains line "GTT_MEM:" then
    let* v := memValue ParseFloat line in
    Done (with_cur (set_GTTMem v cur))
  else if strings.Contains line "CPU_MEM:" then
    let* v := memValue ParseFloat line in
    Done (with_cur (set_CPUMem v cur))
  else if strings.Contains line "VRAM_MEM:" then
    let* v := memValue ParseFloat line in
    Done (with_cur (set_VRAMMem v cur))
  else if strings.Contains line "MEM_USAGE:" then
    let* v := memValue ParseFloat line in
    Done (with_cur (set_TotalMem v cur))
  else if strings.Contains line "GFX:" then
    let* f := colonField line in
    let gfxStr := strings.TrimSuffix (strings.TrimSpace f) " ns" in
    Done (with_cur (set_GFXUsage (gfxUsage gfxStr) cur))
  else Done st.

Fixpoint scanLines (ParseFloat : FloatParser) (st : scanState) (lines : list string)
    : Res scanState :=
  match lines with
  | [] => Done st
  | line :: rest =>
      let* st' := scanLine ParseFloat st line in
      scanLines ParseFloat st' rest
  end.

Definition initialState : scanState :=
  {| processes := []; currentGPU := -1; currentProcess := ProcessInfo_zero 0 |}.

(** Lines 133 to 136: the record in progress joins the result. *)
Definition flushLast (st : scanState) : list ProcessInfo :=
  if String.eqb (Name (currentProcess st)) "" then processes st
  else processes st ++ [currentProcess st].

Definition getProcessInfo (ParseFloat : FloatParser) (output : CmdResult (list string))
    : Res (list ProcessInfo) :=
  match output with
  | CmdError msg => Failed (ExecFailed msg)
  | CmdOutput lines =>
      let* st := scanLines ParseFloat initialState lines in
      Done (flushLast st)
  end.

End gpu_metrics.

(** ** The later gpu_metrics.go: process usage from [amd-smi process --csv]

    [getGPUMetrics] is the same function in both versions of the file. *)

Module gpu_metrics_csv.

(** What the [csv.Reader] makes of the next record of its input, before it
    counts the fields: the fields, or a quoting error together with the
    fields read up to it. *)
Inductive CsvRecord : Type :=
| CsvFields (fields : list string)
| CsvMalformed (e : CsvErrKind) (partial : list string).

(** [reader.Read()] on a pending record. The reader is built by
    [csv.NewReader], whose [FieldsPerRecord] is 0: the first record sets
    the number of fields, and a later record with another number is
    returned with [ErrFieldCount]. The result is the record, the error
    and the new [FieldsPerRecord]. *)
Definition Read (rec : CsvRecord) (FieldsPerRecord : Z)
    : list string * option CsvErrKind * Z :=
  let '(dst, err) :=
    match rec with
    | CsvFields fields => (fields, None)
    | CsvMalformed e partial => (partial, Some e)
    end in
  let n := Z.of_nat (length dst) in
  if 0 <? FieldsPerRecord then
    match err with
    | None => if n =? FieldsPerRecord then (dst, None, FieldsPerRecord)
              else (dst, Some ErrFieldCount, FieldsPerRecord)
    | Some e => (dst, Some e, FieldsPerRecord)
    end
  else if FieldsPerRecord =? 0 then (dst, err, n)
  else (dst, err, FieldsPerRecord).

Definition noProcesses : string := "No running processes detected".

(** The body of the loop after a successful read (lines 486 to 513):
    [None] for a row that is passed over. *)
Definition processRecord (ParseFloat : FloatParser) (record : list string)
    : Res (option ProcessInfo) :=
  let* r1 := index record 1 in
  if strings.Contains r1 noProcesses then Done None
  else
    let* r0 := index record 0 in
    match strconv.Atoi r0 with
    | (_, Some _) => Done None
    | (gpuID, None) =>
        let* r2 := index record 2 in
        let vramMem := fst (ParseFloat r2) in
        let* r5 := index record 5 in
        let cpuMem := fst (ParseFloat r5) in
        let* r7 := index record 7 in
        let gttMem := fst (ParseFloat r7) in
        let* r8 := index record 8 in
        let totalMem := fst (ParseFloat r8) in
        let* r3 := index record 3 in
        let* r4 := index record 4 in
        let* r6 := index record 6 in
        Done (Some {| GPU := gpuID; Name := r3; PID := r4;
                      GFXUsage := (r6 ++ "%")%string;
                      VRAMMem := (vramMem / 1024 / 1024)%float;
                      CPUMem := (cpuMem / 1024 / 1024)%float;
                      GTTMem := (gttMem / 1024 / 1024)%float;
                      TotalMem := (totalMem / 1024 / 1024)%float |})
    end.

(** The loop of lines 477 to 514: [pending] is what the reader has left. *)
Fixpoint readLoop (ParseFloat : FloatParser) (pending : list CsvRecord)
    (FieldsPerRecord : Z) (processes : list ProcessInfo) : Res (list ProcessInfo) :=
  match pending with
  | [] => Done processes
  | rec :: rest =>
      match Read rec FieldsPerRecord with
      | (_, Some e, _) => Failed (CsvRecordFailed e)
      | (record, None, fpr) =>
          let* r := processRecord ParseFloat record in
          match r with
          | None => readLoop ParseFloat rest fpr processes
          | Some process => readLoop ParseFloat rest fpr (processes ++ [process])
          end
      end
  end.

Definition getProcessInfo (ParseFloat : FloatParser) (output : CmdResult (list CsvRecord))
    : Res (list ProcessInfo) :=
  match output with
  | CmdError msg => Failed (ExecFailed msg)
  | CmdOutput [] => Failed (CsvHeaderFailed None)
  | CmdOutput (header :: rest) =>
      match Read header 0 with
      | (_, Some e, _) => Failed (CsvHeaderFailed (Some e))
      | (_, None, fpr) => readLoop ParseFloat rest fpr []
      end
  end.

End gpu_metrics_csv.

(** ** main.go: the utilization history

    A [*GPUHistory] points to a struct whose [values] is a slice, a window
    on a backing array. Structs and arrays live in a heap, so that what a
    method changes, and what the slice it returns shares, can be told. *)

Module history.

Record Slice : Type := { array : nat; low : nat; len : nat }.

Record GPUHistory : Type := { values : Slice; maxLen : Z; index : Z }.

Record Heap : Type := { arrays : list (list float); structs : list GPUHistory }.

Definition emptyHeap : Heap := {| arrays := []; structs := [] |}.

(** Go code that reads and writes the heap. *)
Definition M (A : Type) : Type := Heap -> Res (A * Heap).

Definition ret {A} (a : A) : M A := fun h => Done (a, h).
Definition bind {A B} (m : M A) (k : A -> M B) : M B :=
  fun h => match m h with
           | Done (a, h') => k a h'
           | Failed e => Failed e
           | Panicked p => Panicked p
           end.
Definition panic {A} (p : GoPanic) : M A := fun _ => Panicked p.

Declare Scope heap_scope.
Delimit Scope heap_scope with heap.
Notation "x <- m ;; k" := (bind m (fun x => k))
  (at level 100, m at next level, right associativity) : heap_scope.
Notation "m ;; k" := (bind m (fun _ => k))
  (at level 100, right associativity) : heap_scope.
Local Open Scope heap_scope.

(** [make([]float64, n)]: a new array of zeros and the slice of all of it. *)
Definition make (n : Z) : M Slice :=
  fun h =>
    if n <? 0 then Panicked MakeLenOutOfRange
    else Done ({| array := length (arrays h); low := 0; len := Z.to_nat n |},
               {| arrays := arrays h ++ [replicate (Z.to_nat n) 0%float];
                  structs := structs h |}).

(** [s[i]]. *)
Definition load (s : Slice) (i : Z) : M float :=
  fun h =>
    if (0 <=? i) && (i <? Z.of_nat (len s)) then
      match arrays h !! array s with
      | Some a =>
          match a !! (low s + Z.to_nat i)%nat with
          | Some v => Done (v, h)
          | None => Panicked NilDereference
          end
      | None => Panicked NilDereference
      end
    else Panicked (IndexOutOfRange i (Z.of_nat (len s))).

(** [s[i] = v]. *)
Definition store (s : Slice) (i : Z) (v : float) : M unit :=
  fun h =>
    if (0 <=? i) && (i <? Z.of_nat (len s)) then
      match arrays h !! array s with
      | Some a =>
          Done (tt, {| arrays := <[array s := <[(low s + Z.to_nat i)%nat := v]> a]> (arrays h);
                       structs := structs h |})
      | None => Panicked NilDereference
      end
    else Panicked (IndexOutOfRange i (Z.of_nat (len s))).

(** [s[lo:]] and [s[:hi]]. The slices of this program are made with their
    capacity equal to their length. *)
Definition sliceFrom (s : Slice) (lo : Z) : M Slice :=
  if (0 <=? lo) && (lo <=? Z.of_nat (len s))
  then ret {| array := array s; low := (low s + Z.to_nat lo)%nat;
              len := (len s - Z.to_nat lo)%nat |}
  else panic (SliceBoundsOutOfRange lo (Z.of_nat (len s))).

Definition sliceTo (s : Slice) (hi : Z) : M Slice :=
  if (0 <=? hi) && (hi <=? Z.of_nat (len s))
  then ret {| array := array s; low := low s; len := Z.to_nat hi |}
  else panic (SliceBoundsOutOfRange hi (Z.of_nat (len s))).

(** The elements a slice shows, for a slice that lies within its array. *)
Definition window (h : Heap) (s : Slice) : option (list float) :=
  match arrays h !! array s with
  | Some a => if (low s + len s <=? length a)%nat
              then Some (take (len s) (drop (low s) a)) else None
  | None => None
  end.

Definition contents (s : Slice) : M (list float) :=
  fun h => match window h s with
           | Some vs => Done (vs, h)
           | None => Panicked NilDereference
           end.

(** [copy(dst, src)]: as many elements as the shorter of the two has. *)
Definition copy (dst src : Slice) : M Z :=
  vs <- contents src ;;
  let n := Nat.min (len dst) (len src) in
  fun h =>
    match arrays h !! array dst with
    | Some a =>
        Done (Z.of_nat n,
              {| arrays := <[array dst := take (low dst) a ++ take n vs
                                            ++ drop (low dst + n) a]> (arrays h);
                 structs := structs h |})
    | None => Panicked NilDereference
    end.

(** Reading and writing the struct behind a [*GPUHistory]. *)
Definition deref (gh : nat) : M GPUHistory :=
  fun h => match structs h !! gh with
           | Some s => Done (s, h)
           | None => Panicked NilDereference
           end.

Definition assign (gh : nat) (s : GPUHistory) : M unit :=
  fun h => Done (tt, {| arrays := arrays h; structs := <[gh := s]> (structs h) |}).

Definition new (s : GPUHistory) : M nat :=
  fun h => Done (length (structs h),
                 {| arrays := arrays h; structs := structs h ++ [s] |}).

(** [newGPUHistory] (lines 212 to 218). *)
Definition newGPUHistory (maxLen : Z) : M nat :=
  vs <- make maxLen ;;
  new {| values := vs; maxLen := maxLen; index := 0 |}.

(** [add] (lines 219 to 222). Go's [%] is the remainder of the division
    that truncates. *)
Definition add (gh : nat) (value : float) : M unit :=
  s <- deref gh ;;
  store (values s) (index s) value ;;
  s <- deref gh ;;
  if maxLen s =? 0 then panic DivideByZero
  else assign gh {| values := values s; maxLen := maxLen s;
                    index := Z.rem (wrap64 (index s + 1)) (maxLen s) |}.

(** [getData] (lines 225 to 233). *)
Definition getData (gh : nat) : M Slice :=
  s <- deref gh ;;
  if index s =? 0 then ret (values s)
  else
    result <- make (maxLen s) ;;
    src <- sliceFrom (values s) (index s) ;;
    copy result src ;;
    dst <- sliceFrom result (wrap64 (maxLen s - index s)) ;;
    src <- sliceTo (values s) (index s) ;;
    copy dst src ;;
    ret result.

(** [calculateDataPoints] (lines 236 to 246). *)
Definition calculateDataPoints (width : Z) : Z :=
  let usableWidth := wrap64 (width - 4) in
  if usableWidth <? 50 then 50
  else if 500 <? usableWidth then 500
  else usableWidth.

(** [for _, v := range data { body(v) }]: the length is read once, each
    element when its turn comes. *)
Fixpoint rangeFrom (data : Slice) (i : Z) (n : nat) (body : float -> M unit) : M unit :=
  match n with
  | O => ret tt
  | S n' => v <- load data i ;; body v ;; rangeFrom data (i + 1) n' body
  end.

Definition range (data : Slice) (body : float -> M unit) : M unit :=
  rangeFrom data 0 (len data) body.

(** The history part of the resize branch of [main] (lines 332 to 338) for
    one device: the pointer that replaces [gpuHistories[i]]. *)
Definition resize (old : nat) (newDataPoints : Z) : M nat :=
  newHistory <- newGPUHistory newDataPoints ;;
  oldData <- getData old ;;
  range oldData (fun v => add newHistory v) ;;
  ret newHistory.

(** Calling [add] for each value of a list in turn. *)
Fixpoint addAll (gh : nat) (vs : list float) : M unit :=
  match vs with
  | [] => ret tt
  | v :: rest => add gh v ;; addAll gh rest
  end.

(** What a caller sees of [getData]: the elements of the slice it returns. *)
Definition linearize (gh : nat) : M (list float) :=
  data <- getData gh ;; contents data.

(** The loop of lines 292 to 294 of [main],
    [for j := 0; j < dataPoints; j++ { gpuHistories[i].add(0) }]: it ends
    when [j] reaches [dataPoints], which takes [dataPoints] rounds from 0,
    the number [n] is given at the start. *)
Fixpoint addZeros (n : nat) (gh : nat) (j dataPoints : Z) : M unit :=
  match n with
  | O => ret tt
  | S n' =>
      if j <? dataPoints
      then add gh 0%float ;; addZeros n' gh (wrap64 (j + 1)) dataPoints
      else ret tt
  end.

(** Lines 290 to 294 of [main] for one device: the history of its chart. *)
Definition initHistory (dataPoints : Z) : M nat :=
  gh <- newGPUHistory dataPoints ;;
  addZeros (Z.to_nat dataPoints) gh 0 dataPoints ;;
  ret gh.

End history.

(** ** Package sort: [sort.Slice]

    [sort.Slice(x, less)] (Go 1.19 and later) runs the pattern-defeating
    quicksort of sort/zsortfunc.go on the slice, in place, through
    [less(i, j)] and [swap(i, j)] on indices. The slice is a list here and
    [less] compares two of its elements, as the function literal of
    [updateProcessList] does. Every loop is bounded by the length of the
    range it works on; the recursion of [pdqsort_func] carries its bound
    as [fuel], and [None] stands for a bound that was too small. *)

Module sort.

Inductive sortedHint : Type := unknownHint | increasingHint | decreasingHint.

(** [bits.Len]. *)
Definition bitsLen (x : Z) : Z := if x <=? 0 then 0 else Z.log2 x + 1.

(** [xorshift.Next]: the new state, which is also the value returned. *)
Definition xorshiftNext (r : Z) : Z :=
  let r := Z.lxor r (Z.shiftl r 13 mod 2 ^ 64) in
  let r := Z.lxor r (Z.shiftr r 7) in
  Z.lxor r (Z.shiftl r 17 mod 2 ^ 64).

Section Slice.

Context {A : Type} (less : A -> A -> bool).

Definition at_ (data : list A) (i : Z) : option A :=
  if i <? 0 then None else data !! Z.to_nat i.

Definition Less (data : list A) (i j : Z) : bool :=
  match at_ data i, at_ data j with
  | Some x, Some y => less x y
  | _, _ => false
  end.

Definition Swap (data : list A) (i j : Z) : list A :=
  match at_ data i, at_ data j with
  | Some x, Some y => <[Z.to_nat i := y]> (<[Z.to_nat j := x]> data)
  | _, _ => data
  end.

(** [for j := i; j > a && less(j, j-1); j-- { swap(j, j-1) }]. *)
Fixpoint insertDown (n : nat) (data : list A) (a j : Z) : list A :=
  match n with
  | O => data
  | S n' =>
      if (a <? j) && Less data j (j - 1)
      then insertDown n' (Swap data j (j - 1)) a (j - 1)
      else data
  end.

(** [for i := a + 1; i < b; i++]. *)
Fixpoint insertionLoop (n : nat) (data : list A) (a b i : Z) : list A :=
  match n with
  | O => data
  | S n' =>
      if i <? b
      then insertionLoop n' (insertDown (Z.to_nat (i - a)) data a i) a b (i + 1)
      else data
  end.

Definition insertionSort_func (data : list A) (a b : Z) : list A :=
  insertionLoop (Z.to_nat (b - a)) data a b (a + 1).

Fixpoint siftDown_loop (n : nat) (data : list A) (root hi first : Z) : list A :=
  match n with
  | O => data
  | S n' =>
      let child := 2 * root + 1 in
      if hi <=? child then data
      else
        let child :=
          if (child + 1 <? hi) && Less data (first + child) (first + child + 1)
          then child + 1 else child in
        if negb (Less data (first + root) (first + child)) then data
        else siftDown_loop n' (Swap data (first + root) (first + child)) child hi first
  end.

Definition siftDown_func (data : list A) (lo hi first : Z) : list A :=
  siftDown_loop (Z.to_nat hi) data lo hi first.

(** [for i := (hi - 1) / 2; i >= 0; i--]. *)
Fixpoint heapBuild (n : nat) (data : list A) (i hi first : Z) : list A :=
  match n with
  | O => data
  | S n' =>
      if 0 <=? i then heapBuild n' (siftDown_func data i hi first) (i - 1) hi first
      else data
  end.

(** [for i := hi - 1; i >= 0; i--]. *)
Fixpoint heapPop (n : nat) (data : list A) (i first : Z) : list A :=
  match n with
  | O => data
  | S n' =>
      if 0 <=? i
      then heapPop n' (siftDown_func (Swap data first (first + i)) 0 i first) (i - 1) first
      else data
  end.

Definition heapSort_func (data : list A) (a b : Z) : list A :=
  let first := a in
  let lo := 0 in
  let hi := b - a in
  let data := heapBuild (Z.to_nat hi) data (Z.quot (hi - 1) 2) hi first in
  heapPop (Z.to_nat hi) data (hi - 1) first.

(** [for i <= j && cond(i) { i++ }] and [for i <= j && cond(j) { j-- }]. *)
Fixpoint countUp (n : nat) (cond : Z -> bool) (i j : Z) : Z :=
  match n with
  | O => i
  | S n' => if (i <=? j) && cond i then countUp n' cond (i + 1) j else i
  end.

Fixpoint countDown (n : nat) (cond : Z -> bool) (i j : Z) : Z :=
  match n with
  | O => j
  | S n' => if (i <=? j) && cond j then countDown n' cond i (j - 1) else j
  end.

Definition steps (i j : Z) : nat := Z.to_nat (j - i + 1).

(** The last loop of [partition_func]. *)
Fixpoint partitionLoop (n : nat) (data : list A) (a i j : Z) : list A * Z :=
  match n with
  | O => (data, j)
  | S n' =>
      let i := countUp (steps i j) (fun i => Less data i a) i j in
      let j := countDown (steps i j) (fun j => negb (Less data j a)) i j in
      if j <? i then (data, j)
      else partitionLoop n' (Swap data i j) a (i + 1) (j - 1)
  end.

Definition partition_func (data : list A) (a b pivot : Z) : list A * Z * bool :=
  let data := Swap data a pivot in
  let i := a + 1 in
  let j := b - 1 in
  let i := countUp (steps i j) (fun i => Less data i a) i j in
  let j := countDown (steps i j) (fun j => negb (Less data j a)) i j in
  if j <? i then (Swap data j a, j, true)
  else
    let data := Swap data i j in
    let '(data, j) := partitionLoop (S (steps (i + 1) (j - 1))) data a (i + 1) (j - 1) in
    (Swap data j a, j, false).

Fixpoint partitionEqualLoop (n : nat) (data : list A) (a i j : Z) : list A * Z :=
  match n with
  | O => (data, i)
  | S n' =>
      let i := countUp (steps i j) (fun i => negb (Less data a i)) i j in
      let j := countDown (steps i j) (fun j => Less data a j) i j in
      if j <? i then (data, i)
      else partitionEqualLoop n' (Swap data i j) a (i + 1) (j - 1)
  end.

Definition partitionEqual_func (data : list A) (a b pivot : Z) : list A * Z :=
  let data := Swap data a pivot in
  partitionEqualLoop (S (steps (a + 1) (b - 1))) data a (a + 1) (b - 1).

(** The loops of [partialInsertionSort_func] that shift one element. *)
Fixpoint shiftLeft (n : nat) (data : list A) (j : Z) : list A :=
  match n with
  | O => data
  | S n' =>
      if 1 <=? j then
        if negb (Less data j (j - 1)) then data
        else shiftLeft n' (Swap data j (j - 1)) (j - 1)
      else data
  end.

Fixpoint shiftRight (n : nat) (data : list A) (j b : Z) : list A :=
  match n with
  | O => data
  | S n' =>
      if j <? b then
        if negb (Less data j (j - 1)) then data
        else shiftRight n' (Swap data j (j - 1)) (j + 1) b
      else data
  end.

(** [for j := 0; j < maxSteps; j++] of [partialInsertionSort_func], with
    [n] rounds left. *)
Fixpoint partialInsertionLoop (n : nat) (data : list A) (a b i : Z) : list A * bool :=
  match n with
  | O => (data, false)
  | S n' =>
      let i := countUp (steps i (b - 1)) (fun i => negb (Less data i (i - 1))) i (b - 1) in
      if i =? b then (data, true)
      else if b - a <? 50 then (data, false)
      else
        let data := Swap data i (i - 1) in
        let data :=
          if 2 <=? i - a then shiftLeft (Z.to_nat i) data (i - 1) else data in
        let data :=
          if 2 <=? b - i then shiftRight (Z.to_nat (b - i)) data (i + 1) b else data in
        partialInsertionLoop n' data a b i
  end.

Definition partialInsertionSort_func (data : list A) (a b : Z) : list A * bool :=
  partialInsertionLoop 5 data a b (a + 1).

(** [for i := 0; i < 3; i++] of [breakPatterns_func], with [n] rounds left:
    the three elements from [idx] on, in the middle of the range, change
    places with three chosen by the generator. *)
Fixpoint breakLoop (n : nat) (data : list A) (a length idx modulus random i : Z) : list A :=
  match n with
  | O => data
  | S n' =>
      let random := xorshiftNext random in
      let other := Z.land random (modulus - 1) in
      let other := if length <=? other then other - length else other in
      breakLoop n' (Swap data (idx + i) (a + other)) a length idx modulus random (i + 1)
  end.

Definition breakPatterns_func (data : list A) (a b : Z) : list A :=
  let length := b - a in
  if 8 <=? length then
    let random := length in
    let modulus := Z.shiftl 1 (bitsLen length) in
    let idx := a + (length / 4) * 2 - 1 in
    breakLoop 3 data a length idx modulus random 0
  else data.

(** [order2_func]: the two indices in order, and the count of swaps. *)
Definition order2_func (data : list A) (a b swaps : Z) : Z * Z * Z :=
  if Less data b a then (b, a, swaps + 1) else (a, b, swaps).

Definition median_func (data : list A) (a b c swaps : Z) : Z * Z :=
  let '(a, b, swaps) := order2_func data a b swaps in
  let '(b, c, swaps) := order2_func data b c swaps in
  let '(a, b, swaps) := order2_func data a b swaps in
  (b, swaps).

Definition medianAdjacent_func (data : list A) (a swaps : Z) : Z * Z :=
  median_func data (a - 1) a (a + 1) swaps.

Definition choosePivot_func (data : list A) (a b : Z) : Z * sortedHint :=
  let l := b - a in
  let swaps := 0 in
  let i := a + l / 4 * 1 in
  let j := a + l / 4 * 2 in
  let k := a + l / 4 * 3 in
  let '(j, swaps) :=
    if 8 <=? l then
      let '(i, j, k, swaps) :=
        if 50 <=? l then
          let '(i, swaps) := medianAdjacent_func data i swaps in
          let '(j, swaps) := medianAdjacent_func data j swaps in
          let '(k, swaps) := medianAdjacent_func data k swaps in
          (i, j, k, swaps)
        else (i, j, k, swaps) in
      median_func data i j k swaps
    else (j, swaps) in
  if swaps =? 0 then (j, increasingHint)
  else if swaps =? 12 then (j, decreasingHint)
  else (j, unknownHint).

Fixpoint reverseLoop (n : nat) (data : list A) (i j : Z) : list A :=
  match n with
  | O => data
  | S n' => if i <? j then reverseLoop n' (Swap data i j) (i + 1) (j - 1) else data
  end.

Definition reverseRange_func (data : list A) (a b : Z) : list A :=
  reverseLoop (Z.to_nat (b - a)) data a (b - 1).

Definition isIncreasing (h : sortedHint) : bool :=
  match h with increasingHint => true | _ => false end.

Definition isDecreasing (h : sortedHint) : bool :=
  match h with decreasingHint => true | _ => false end.

(** [pdqsort_func]: one round of its loop for each unit of [fuel], and one
    for each call of itself. *)
Fixpoint pdqsort_func (fuel : nat) (data : list A) (a b limit : Z)
    (wasBalanced wasPartitioned : bool) : option (list A) :=
  match fuel with
  | O => None
  | S fuel' =>
      let length := b - a in
      if length <=? 12 then Some (insertionSort_func data a b)
      else if limit =? 0 then Some (heapSort_func data a b)
      else
        let '(data, limit) :=
          if negb wasBalanced then (breakPatterns_func data a b, limit - 1)
          else (data, limit) in
        let '(pivot, hint) := choosePivot_func data a b in
        let '(data, pivot, hint) :=
          if isDecreasing hint
          then (reverseRange_func data a b, (b - 1) - (pivot - a), increasingHint)
          else (data, pivot, hint) in
        let '(data, sorted) :=
          if wasBalanced && wasPartitioned && isIncreasing hint
          then partialInsertionSort_func data a b
          else (data, false) in
        if sorted then Some data
        else if (0 <? a) && negb (Less data (a - 1) pivot) then
          let '(data, mid) := partitionEqual_func data a b pivot in
          pdqsort_func fuel' data mid b limit wasBalanced wasPartitioned
        else
          let '(data, mid, alreadyPartitioned) := partition_func data a b pivot in
          let wasPartitioned := alreadyPartitioned in
          let leftLen := mid - a in
          let rightLen := b - mid in
          let balanceThreshold := length / 8 in
          if leftLen <? rightLen then
            let wasBalanced := balanceThreshold <=? leftLen in
            match pdqsort_func fuel' data a mid limit true true with
            | Some data => pdqsort_func fuel' data (mid + 1) b limit wasBalanced wasPartitioned
            | None => None
            end
          else
            let wasBalanced := balanceThreshold <=? rightLen in
            match pdqsort_func fuel' data (mid + 1) b limit true true with
            | Some data => pdqsort_func fuel' data a mid limit wasBalanced wasPartitioned
            | None => None
            end
  end.

(** [sort.Slice]. A range shrinks in every round and every call of
    [pdqsort_func], so the length bounds them. *)
Definition Slice (x : list A) : option (list A) :=
  let length := Z.of_nat (List.length x) in
  let limit := bitsLen length in
  pdqsort_func (S (List.length x)) x 0 length limit true true.

End Slice.

End sort.

(** ** main.go: the process table *)

Module process_list.

(** [utf8.RuneCountInString]: a byte that starts no well-formed encoding
    counts as one rune. *)
Definition continuation (lo hi : N) (c : ascii) : bool :=
  ((lo <=? strings.code c) && (strings.code c <=? hi))%N.

Fixpoint RuneCountInString (s : string) : Z :=
  match s with
  | EmptyString => 0
  | String c0 r0 =>
      let b := strings.code c0 in
      let one := 1 + RuneCountInString r0 in
      match r0 with
      | String c1 r1 =>
          if ((194 <=? b) && (b <=? 223))%N && continuation 128 191 c1
          then 1 + RuneCountInString r1
          else
            match r1 with
            | String c2 r2 =>
                let lo3 := (if b =? 224 then 160 else 128)%N in
                let hi3 := (if b =? 237 then 159 else 191)%N in
                if ((224 <=? b) && (b <=? 239))%N
                   && continuation lo3 hi3 c1 && continuation 128 191 c2
                then 1 + RuneCountInString r2
                else
                  match r2 with
                  | String c3 r3 =>
                      let lo4 := (if b =? 240 then 144 else 128)%N in
                      let hi4 := (if b =? 244 then 143 else 191)%N in
                      if ((240 <=? b) && (b <=? 244))%N
                         && continuation lo4 hi4 c1 && continuation 128 191 c2
                         && continuation 128 191 c3
                      then 1 + RuneCountInString r3
                      else one
                  | EmptyString => one
                  end
            | EmptyString => one
            end
      | EmptyString => one
      end
  end.

Fixpoint spaces (n : nat) : string :=
  match n with
  | O => EmptyString
  | S n' => String " " (spaces n')
  end.

(** The padding of a verb with a width: on the left, or on the right for
    the flag [-]; the width counts runes. *)
Definition padLeft (width : Z) (s : string) : string :=
  (spaces (Z.to_nat (width - RuneCountInString s)) ++ s)%string.

Definition padRight (width : Z) (s : string) : string :=
  (s ++ spaces (Z.to_nat (width - RuneCountInString s)))%string.

Fixpoint Repeat (s : string) (count : nat) : string :=
  match count with
  | O => EmptyString
  | S n => (s ++ Repeat s n)%string
  end.

Record ProcessListItem : Type := {
  gpu : Z;
  name : string;
  pid : string;
  usage : string;
  display : string
}.

(** The row of the table (line 132). *)
Definition displayOf (maxNameLen maxPIDLen : Z) (proc : ProcessInfo) : string :=
  ("[" ++ padLeft 2 (fmt.itoa (GPU proc)) ++ "] "
   ++ padRight maxNameLen (Name proc)
   ++ " │ PID: " ++ padRight maxPIDLen (PID proc)
   ++ " │ MEM: " ++ padLeft 6 (fmt.fixed1 (TotalMem proc))
   ++ " MB (VRAM: " ++ padLeft 6 (fmt.fixed1 (VRAMMem proc))
   ++ " MB, GTT: " ++ padLeft 6 (fmt.fixed1 (GTTMem proc))
   ++ " MB, CPU: " ++ padLeft 6 (fmt.fixed1 (CPUMem proc))
   ++ " MB) │ GFX: " ++ padLeft 6 (GFXUsage proc))%string.

(** The first loop (lines 122 to 143): the width of the name column grows
    as the loop meets longer names. *)
Fixpoint collect (processes : list ProcessInfo) (maxNameLen maxPIDLen : Z)
    (items : list ProcessListItem) : list ProcessListItem * Z :=
  match processes with
  | [] => (items, maxNameLen)
  | proc :: rest =>
      let maxNameLen :=
        if maxNameLen <? Z.of_nat (String.length (Name proc))
        then Z.of_nat (String.length (Name proc)) else maxNameLen in
      let item := {| gpu := GPU proc; name := Name proc; pid := PID proc;
                     usage := GFXUsage proc;
                     display := displayOf maxNameLen maxPIDLen proc |} in
      collect rest maxNameLen maxPIDLen (items ++ [item])
  end.

Definition headerOf (maxNameLen maxPIDLen : Z) : string :=
  ("[GPU] " ++ padRight maxNameLen "NAME"
   ++ " │ " ++ padRight (maxPIDLen + 5) "PID"
   ++ " │ " ++ padRight 58 "MEMORY USAGE"
   ++ " │ " ++ padRight 10 "GPU USAGE")%string.

(** The function literal handed to [sort.Slice] (lines 151 to 167), on the
    two elements its indices name. *)
Definition itemLess (selectedColumn : Z) (sortReverse : bool)
    (x y : ProcessListItem) : bool :=
  let result :=
    if selectedColumn =? 0 then gpu x <? gpu y
    else if selectedColumn =? 1 then strings.less (name x) (name y)
    else if selectedColumn =? 2 then strings.less (pid x) (pid y)
    else if selectedColumn =? 3 then strings.less (usage x) (usage y)
    else false in
  if sortReverse then negb result else result.

(** The widget [processList] and the globals of main.go. *)
Record Globals : Type := {
  Rows : list string;
  SelectedRow : Z;
  Title : string;
  selectedColumn : Z;
  sortReverse : bool
}.

Definition columns : list string := ["GPU"; "Name"; "PID"; "Usage"].

(** The items in the order [sort.Slice] leaves them in. *)
Definition sortedItems (selectedColumn : Z) (sortReverse : bool)
    (processes : list ProcessInfo) : option (list ProcessListItem) :=
  let '(items, _) := collect processes 20 8 [] in
  sort.Slice (itemLess selectedColumn sortReverse) items.

(** [updateProcessList] (lines 117 to 175). *)
Definition updateProcessList (g : Globals) (processes : list ProcessInfo) : option Globals :=
  let '(_, maxNameLen) := collect processes 20 8 [] in
  let header := headerOf maxNameLen 8 in
  match sortedItems (selectedColumn g) (sortReverse g) processes with
  | Some items =>
      Some {| Rows := header :: Repeat "─" (String.length header) :: map display items;
              SelectedRow := SelectedRow g;
              Title := Title g;
              selectedColumn := selectedColumn g;
              sortReverse := sortReverse g |}
  | None => None
  end.

(** The title of lines 189 to 191 and 196 to 198. *)
Definition titleOf (selectedColumn : Z) (sortReverse : bool) : Res string :=
  let* column := index columns selectedColumn in
  Done ("Process List (Sort: " ++ column ++ (if sortReverse then " ↓" else " ↑") ++ ")")%string.

(** [handleProcessListEvents] (lines 176 to 203), on the [ID] of the event. *)
Definition handleProcessListEvents (e : string) (g : Globals) : Res Globals :=
  if String.eqb e "<Up>" then
    Done (if 0 <? SelectedRow g
          then {| Rows := Rows g; SelectedRow := wrap64 (SelectedRow g - 1); Title := Title g;
                  selectedColumn := selectedColumn g; sortReverse := sortReverse g |}
          else g)
  else if String.eqb e "<Down>" then
    Done (if SelectedRow g <? Z.of_nat (length (Rows g)) - 1
          then {| Rows := Rows g; SelectedRow := wrap64 (SelectedRow g + 1); Title := Title g;
                  selectedColumn := selectedColumn g; sortReverse := sortReverse g |}
          else g)
  else if String.eqb e "<Left>" then
    if 0 <? selectedColumn g then
      let column := wrap64 (selectedColumn g - 1) in
      let* title := titleOf column (sortReverse g) in
      Done {| Rows := Rows g; SelectedRow := SelectedRow g; Title := title;
              selectedColumn := column; sortReverse := sortReverse g |}
    else Done g
  else if String.eqb e "<Right>" then
    if selectedColumn g <? Z.of_nat (length columns) - 1 then
      let column := wrap64 (selectedColumn g + 1) in
      let* title := titleOf column (sortReverse g) in
      Done {| Rows := Rows g; SelectedRow := SelectedRow g; Title := title;
              selectedColumn := column; sortReverse := sortReverse g |}
    else Done g
  else if String.eqb e "<Enter>" || String.eqb e "<Space>" then
    Done {| Rows := Rows g; SelectedRow := SelectedRow g; Title := Title g;
            selectedColumn := selectedColumn g; sortReverse := negb (sortReverse g) |}
  else Done g.

(** The globals when the loop of [main] starts (lines 103, 104 and 297 to
    303). *)
Definition initial : Globals :=
  {| Rows := []; SelectedRow := 0; Title := "Process List (Sort: GPU ↑)";
     selectedColumn := 0; sortReverse := false |}.

(** The events of a session, one after the other. *)
Fixpoint handleAll (es : list string) (g : Globals) : Res Globals :=
  match es with
  | [] => Done g
  | e :: rest =>
      let* g' := handleProcessListEvents e g in
      handleAll rest g'
  end.

End process_list.

(** ** main.go: the charts in the loop of [main]

    A chart is a [*widgets.SparklineGroup] with one sparkline. Of the two
    widgets the loop assigns the title of the group and the [Data] and
    [MaxVal] of the sparkline; the record [Chart] holds these three.
    [gpuCharts] and [gpuHistories] are the slices of [main], of one length
    (lines 269 and 270). Drawing ([SetRect], [ui.Render]) is left out. *)

Module dashboard.

(** [xs[i]] of the slices of [main]: [index], under a name that the
    field [index] of a history does not hide. *)
Local Abbreviation elementAt := index (only parsing).

Import history.
Local Open Scope heap_scope.

Record Chart : Type := { chartTitle : string; Data : Slice; MaxVal : float }.

(** Code that does not touch the heap, run in it. *)
Definition lift {A} (r : Res A) : M A :=
  fun h => match r with
           | Done a => Done (a, h)
           | Failed e => Failed e
           | Panicked p => Panicked p
           end.

(** The title of lines 362 and 363. *)
Definition chartTitleOf (metric : GPUMetrics) : string :=
  ("GPU " ++ fmt.itoa (ID metric) ++ " - " ++ fmt.fixed1 (Power metric) ++ "W, "
   ++ fmt.fixed1 (GPUTemp metric) ++ "°C, " ++ fmt.fixed1 (GFXUtil metric)
   ++ "% Util, VRAM: " ++ fmt.fixed0 (VRAMUsed metric) ++ "/"
   ++ fmt.fixed0 (VRAMTotal metric) ++ " MB")%string.

(** The loop of lines 352 to 364, [for i, metric := range metrics], from
    the index [i] on. *)
Fixpoint updateCharts (metrics : list GPUMetrics) (i : Z) (gpuCharts : list Chart)
    (gpuHistories : list nat) : M (list Chart) :=
  match metrics with
  | [] => ret gpuCharts
  | metric :: rest =>
      if Z.of_nat (length gpuCharts) <=? i then ret gpuCharts
      else
        gh <- lift (elementAt gpuHistories i) ;;
        add gh (GFXUtil metric) ;;
        chart <- lift (elementAt gpuCharts i) ;;
        gh <- lift (elementAt gpuHistories i) ;;
        data <- getData gh ;;
        let chart := {| chartTitle := chartTitle chart; Data := data;
                        MaxVal := MaxVal chart |} in
        let chart := {| chartTitle := chartTitle chart; Data := Data chart;
                        MaxVal := 100 |} in
        let chart := {| chartTitle := chartTitleOf metric; Data := Data chart;
                        MaxVal := MaxVal chart |} in
        updateCharts rest (i + 1) (<[Z.to_nat i := chart]> gpuCharts) gpuHistories
  end.

(** The loop of lines 331 to 341, [for i := 0; i < numGPUs; i++], from the
    index [i] on: it ends when [i] reaches [numGPUs], after the [n] rounds
    that are left. *)
Fixpoint resizeCharts (n : nat) (i numGPUs newDataPoints : Z) (gpuCharts : list Chart)
    (gpuHistories : list nat) : M (list Chart * list nat) :=
  match n with
  | O => ret (gpuCharts, gpuHistories)
  | S n' =>
      if i <? numGPUs then
        newHistory <- newGPUHistory newDataPoints ;;
        old <- lift (elementAt gpuHistories i) ;;
        oldData <- getData old ;;
        range oldData (fun v => add newHistory v) ;;
        _ <- lift (elementAt gpuHistories i) ;;
        let gpuHistories := <[Z.to_nat i := newHistory]> gpuHistories in
        chart <- lift (elementAt gpuCharts i) ;;
        data <- make newDataPoints ;;
        let chart := {| chartTitle := chartTitle chart; Data := data;
                        MaxVal := MaxVal chart |} in
        resizeCharts n' (i + 1) numGPUs newDataPoints
          (<[Z.to_nat i := chart]> gpuCharts) gpuHistories
      else ret (gpuCharts, gpuHistories)
  end.

(** Lines 350 to 365: the charts follow the metrics when [getGPUMetrics]
    returned no error. *)
Definition tickCharts (result : Res (list GPUMetrics)) (gpuCharts : list Chart)
    (gpuHistories : list nat) : M (list Chart) :=
  match result with
  | Done metrics => updateCharts metrics 0 gpuCharts gpuHistories
  | Failed _ => ret gpuCharts
  | Panicked p => panic p
  end.

End dashboard.

(** * Properties

    ** Vocabulary of the statements *)

(** The lines of the labeled-block output as [getProcessInfo] tells them
    apart: a line that begins with the device marker is a device line
    whatever else it holds; a name line is a line that holds the name
    marker and is no device line. *)
Definition deviceLine (line : string) : bool := strings.HasPrefix line "GPU:".

Definition holdsNameMarker (line : string) : bool := strings.Contains line "NAME:".

Definition nameLine (line : string) : bool :=
  negb (deviceLine line) && holdsNameMarker line.

(** The text the parser takes for the name: what stands between the first
    colon and the second, without the white space around it. *)
Definition nameText (line : string) : string :=
  strings.TrimSpace (nth 1 (strings.Split line ":") "").

Definition nonEmpty (s : string) : bool := negb (String.eqb s "").

(** A name line whose name is not empty: the lines that start a record. *)
Definition startsRecord (line : string) : bool :=
  nameLine line && nonEmpty (nameText line).

(** The device index is the second field of a device line; a device line
    without one cannot be read ([fields[1]] panics). *)
Definition readable (line : string) : bool :=
  negb (deviceLine line) || (2 <=? length (strings.Fields line))%nat.

(** A line that reaches the GFX arm of the loop. *)
Definition gfxLine (line : string) : bool :=
  negb (deviceLine line)
  && negb (strings.Contains line "NAME:")
  && negb (strings.Contains line "PID:")
  && negb (strings.Contains line "GTT_MEM:")
  && negb (strings.Contains line "CPU_MEM:")
  && negb (strings.Contains line "VRAM_MEM:")
  && negb (strings.Contains line "MEM_USAGE:")
  && strings.Contains line "GFX:".

(** The fields of a row of the device metrics, and the rows that have the
    seventeen the parser asks for. *)
Definition fieldOf (line : string) (k : nat) : string :=
  nth k (strings.Split line ",") "".

Definition wideRow (line : string) : bool :=
  (17 <=? length (strings.Split line ","))%nat.

(** The record of a row, field by field: each is the value its conversion
    returned, whatever the error beside it. For the device index that is 0
    beside a syntax error and the nearest bound of [int] beside a range
    error. *)
Definition rowRecord (ParseFloat : FloatParser) (line : string) (m : GPUMetrics) : Prop :=
  ID m = fst (strconv.Atoi (fieldOf line 0))
  /\ (snd (strconv.Atoi (fieldOf line 0)) = Some ErrSyntax -> ID m = 0)
  /\ (snd (strconv.Atoi (fieldOf line 0)) = Some ErrRange ->
      ID m = MaxInt64 \/ ID m = MinInt64)
  /\ Power m = fst (ParseFloat (fieldOf line 1))
  /\ GPUTemp m = fst (ParseFloat (fieldOf line 2))
  /\ MemTemp m = fst (ParseFloat (fieldOf line 3))
  /\ GFXUtil m = fst (ParseFloat (fieldOf line 4))
  /\ GFXClock m = fst (ParseFloat (fieldOf line 5))
  /\ MemUtil m = fst (ParseFloat (fieldOf line 6))
  /\ MemClock m = fst (ParseFloat (fieldOf line 7))
  /\ VRAMUsed m = fst (ParseFloat (fieldOf line 15))
  /\ VRAMTotal m = fst (ParseFloat (fieldOf line 16)).

(** What [strconv.ParseFloat] returns beside an error, as its
    documentation has it: 0 beside a syntax error, an infinity beside a
    range error. *)
Definition parsesAsGo (ParseFloat : FloatParser) : Prop :=
  forall s : string,
    (snd (ParseFloat s) = Some ErrSyntax -> fst (ParseFloat s) = 0%float)
    /\ (snd (ParseFloat s) = Some ErrRange ->
        fst (ParseFloat s) = infinity \/ fst (ParseFloat s) = neg_infinity).

(** The floating-point fields of a record, each with the column it is
    read from. *)
Definition floatFields (m : GPUMetrics) : list (nat * float) :=
  [(1, Power m); (2, GPUTemp m); (3, MemTemp m); (4, GFXUtil m); (5, GFXClock m);
   (6, MemUtil m); (7, MemClock m); (15, VRAMUsed m); (16, VRAMTotal m)]%nat.

(** What a field that does not parse leaves in the record of its row:
    0 when it is no number, and when it is out of range the nearest bound
    of [int] in the device index, an infinity in a floating-point field. *)
Definition rowDefaults (ParseFloat : FloatParser) (line : string) (m : GPUMetrics) : Prop :=
  (snd (strconv.Atoi (fieldOf line 0)) = Some ErrSyntax -> ID m = 0)
  /\ (snd (strconv.Atoi (fieldOf line 0)) = Some ErrRange ->
      ID m = MaxInt64 \/ ID m = MinInt64)
  /\ forall (k : nat) (v : float),
      In (k, v) (floatFields m) ->
      (snd (ParseFloat (fieldOf line k)) = Some ErrSyntax -> v = 0%float)
      /\ (snd (ParseFloat (fieldOf line k)) = Some ErrRange ->
          v = infinity \/ v = neg_infinity).

(** The rows of the process table in CSV form that become records: no
    marker of an idle device in the second field, and a device index that
    parses. *)
Definition accepted (record : list string) : bool :=
  negb (strings.Contains (nth 1 record "") gpu_metrics_csv.noProcesses)
  && match snd (strconv.Atoi (nth 0 record "")) with None => true | Some _ => false end.

Definition processRecordOf (ParseFloat : FloatParser) (record : list string)
    (p : ProcessInfo) : Prop :=
  let MB (k : nat) := (fst (ParseFloat (nth k record "")) / 1024 / 1024)%float in
  GPU p = fst (strconv.Atoi (nth 0 record ""))
  /\ Name p = nth 3 record ""
  /\ PID p = nth 4 record ""
  /\ GFXUsage p = (nth 6 record "" ++ "%")%string
  /\ VRAMMem p = MB 2%nat /\ CPUMem p = MB 5%nat
  /\ GTTMem p = MB 7%nat /\ TotalMem p = MB 8%nat.

(** What a history holds, apart from where it lives: the elements of
    [values] and the cursor [index]. [ringAdd] is what [add] does to it and
    [linear] the order [getData] returns. *)
Definition ring : Type := list float * Z.

Definition ringOk (r : ring) : Prop :=
  0 <= r.2 < Z.of_nat (length r.1) /\ Z.of_nat (length r.1) <= MaxInt64.

Definition ringAdd (r : ring) (v : float) : ring :=
  (<[Z.to_nat r.2 := v]> r.1, (r.2 + 1) mod Z.of_nat (length r.1)).

Definition linear (r : ring) : list float :=
  drop (Z.to_nat r.2) r.1 ++ take (Z.to_nat r.2) r.1.

(** The struct behind [gh] is a history that holds [r]: its slice is the
    whole of an array of [maxLen] elements. *)
Definition holds (h : history.Heap) (gh : nat) (a : nat) (r : ring) : Prop :=
  history.structs h !! gh
  = Some {| history.values := {| history.array := a; history.low := 0;
                                 history.len := length r.1 |};
            history.maxLen := Z.of_nat (length r.1);
            history.index := r.2 |}
  /\ history.arrays h !! a = Some r.1
  /\ ringOk r.

(** Insertion sort as [insertionSort_func] runs it, told on lists. The
    sorted part is kept last element first: a new element passes the
    elements it is [less] than and stops at the first it is not. *)
Fixpoint insertBack {A} (less : A -> A -> bool) (x : A) (q : list A) : list A :=
  match q with
  | [] => [x]
  | y :: q' => if less x y then y :: insertBack less x q' else x :: q
  end.

Fixpoint insertionSorted {A} (less : A -> A -> bool) (q rest : list A) : list A :=
  match rest with
  | [] => rev q
  | x :: rest' => insertionSorted less (insertBack less x q) rest'
  end.

(** A process with a name and an identifier, for sample tables. *)
Definition sampleProcess (gpu : Z) (name pid usage : string) : ProcessInfo :=
  {| GPU := gpu; Name := name; PID := pid; GTTMem := 0; CPUMem := 0;
     VRAMMem := 0; TotalMem := 0; GFXUsage := usage |}.

(** Thirteen processes of one name. *)
Definition thirteen : list ProcessInfo :=
  map (fun pid => sampleProcess 0 "python" pid "0.0%")
      ["101"; "102"; "103"; "104"; "105"; "106"; "107"; "108"; "109"; "110";
       "111"; "112"; "113"].

(** The selected column names one of the four columns. *)
Definition columnInRange (g : process_list.Globals) : Prop :=
  0 <= process_list.selectedColumn g <= 3.

(** The most recent [k] values of a series, oldest first. *)
Definition lastN {A} (k : nat) (l : list A) : list A := drop (length l - k) l.

(** A run of heap code from [h] ends normally with the value [a]. *)
Definition returns {A} (m : history.M A) (h : history.Heap) (a : A) : Prop :=
  exists h', m h = Done (a, h').

(** The struct of a history and the elements of its array. *)
Definition state (gh : nat) : history.M (history.GPUHistory * list float) :=
  history.bind (history.deref gh) (fun s =>
  history.bind (history.contents (history.values s)) (fun vs =>
  history.ret (s, vs))).

Fixpoint hasByte (c : ascii) (s : string) : bool :=
  match s with
  | EmptyString => false
  | String c' s' => Ascii.eqb c' c || hasByte c s'
  end.

(** Two states of the loop of [getProcessInfo] that lead to the same
    result: the records emitted and the device in force are the same, and
    the records in progress are the same or both without a name. *)
Definition sameResult (st1 st2 : gpu_metrics.scanState) : Prop :=
  gpu_metrics.processes st1 = gpu_metrics.processes st2
  /\ gpu_metrics.currentGPU st1 = gpu_metrics.currentGPU st2
  /\ (gpu_metrics.currentProcess st1 = gpu_metrics.currentProcess st2
      \/ (Name (gpu_metrics.currentProcess st1) = ""
          /\ Name (gpu_metrics.currentProcess st2) = "")).

(** The index a device line sets. *)
Definition deviceIndex (line : string) : Z :=
  fst (strconv.Atoi (nth 1 (strings.Fields line) "")).

(** The fields of a row of the device metrics that [getGPUMetrics] reads. *)
Definition metricsFields : list nat := [0; 1; 2; 3; 4; 5; 6; 7; 15; 16]%nat.

(** Two rows that [getGPUMetrics] cannot tell apart: both are passed over
    or both are read, and the fields it reads are the same. *)
Definition sameMetricsRow (l1 l2 : string) : Prop :=
  wideRow l1 = wideRow l2
  /\ (wideRow l1 = true ->
      forall k : nat, In k metricsFields -> fieldOf l1 k = fieldOf l2 k).

(** The first index the CSV process parser asks of a record of [n] fields
    and does not find: it reads the fields 1, 0, 2, 5, 7, 8, 3, 4 and 6, in
    this order. *)
Definition firstMissing (n : Z) : Z :=
  if n <? 2 then 1 else if n <? 3 then 2 else if n <? 6 then 5
  else if n <? 8 then 7 else 8.

(** Two items that have the same key in a column: neither comes before
    the other. *)
Definition sameKey (column : Z) (k x : process_list.ProcessListItem) : bool :=
  negb (process_list.itemLess column false k x)
  && negb (process_list.itemLess column false x k).

(** The selected row is a row of the table, or 0 in a table without rows. *)
Definition rowInRange (g : process_list.Globals) : Prop :=
  0 <= process_list.SelectedRow g
    <= Z.max 0 (Z.of_nat (length (process_list.Rows g)) - 1).

(** The width of the name column after the processes [ps]: the longest of
    their names, in bytes, and 20 at least. *)
Definition nameWidth (ps : list ProcessInfo) : Z :=
  fold_left (fun w p => Z.max w (Z.of_nat (String.length (Name p)))) ps 20.

(** The histories [ghs] are histories of their own: their structs and
    their arrays [arrs] are all different, and the history behind [ghs[i]]
    holds [rs[i]] in the array [arrs[i]]. *)
Definition eachHolds (h : history.Heap) (ghs arrs : list nat) (rs : list ring) : Prop :=
  NoDup ghs /\ NoDup arrs
  /\ length arrs = length ghs /\ length rs = length ghs
  /\ forall (i g a : nat) (r : ring),
      ghs !! i = Some g -> arrs !! i = Some a -> rs !! i = Some r -> holds h g a r.

(** A chart shows the metric [m] of a device whose history held [r]. *)
Definition showsMetric (h : history.Heap) (c : dashboard.Chart) (m : GPUMetrics)
    (r : ring) : Prop :=
  history.window h (dashboard.Data c) = Some (linear (ringAdd r (GFXUtil m)))
  /\ dashboard.MaxVal c = 100%float
  /\ dashboard.chartTitle c = dashboard.chartTitleOf m.

(** A heap with two histories of capacity 2, and the metrics of one
    device, for sample ticks. *)
Definition twoHistories : history.Heap :=
  {| history.arrays := [[1; 2]%float; [3; 4]%float];
     history.structs :=
       [{| history.values := {| history.array := 0; history.low := 0; history.len := 2 |};
           history.maxLen := 2; history.index := 1 |};
        {| history.values := {| history.array := 1; history.low := 0; history.len := 2 |};
           history.maxLen := 2; history.index := 0 |}] |}.

Definition twoCharts : list dashboard.Chart :=
  [{| dashboard.chartTitle := "GPU 0";
      dashboard.Data := {| history.array := 0; history.low := 0; history.len := 2 |};
      dashboard.MaxVal := 100 |};
   {| dashboard.chartTitle := "GPU 1";
      dashboard.Data := {| history.array := 1; history.low := 0; history.len := 2 |};
      dashboard.MaxVal := 100 |}].

Definition sampleMetric : GPUMetrics :=
  {| ID := 0; Power := 95; GPUTemp := 41; MemTemp := 38; GFXUtil := 12; GFXClock := 132;
     MemUtil := 0; MemClock := 900; VRAMUsed := 283; VRAMTotal := 196592 |}.

(** The history that the resize branch of [main] makes of a history that
    holds [r], for the capacity [m]: [m] zeros, and the values of [r]
    appended in the order of their age. *)
Definition resized (m : Z) (r : ring) : ring :=
  fold_left ringAdd (linear r) (replicate (Z.to_nat m) 0%float, 0).

(** The element at index [i], for the proofs about ranges of a slice;
    [dflt] stands where the index is out of range. *)
Definition sel {A} (dflt : A) (data : list A) (i : Z) : A :=
  List.nth (Z.to_nat i) data dflt.

(** Where index [k] is after indices [i] and [j] were swapped. *)
Definition transp (i j k : Z) : Z :=
  if k =? i then j else if k =? j then i else k.

(** [x] may stand before [y] in a slice sorted with [less]: it comes
    before [y], or [y] does not come before it. For an order this is that
    [y] does not come before [x]; for the negation of an order, that [x]
    does not come before [y] in the order. *)
Definition notAfter {A} (less : A -> A -> bool) (x y : A) : Prop :=
  less x y = true \/ less y x = false.

(** Between [a] and [b] the slice is in the order of [less]. *)
Definition sortedRange {A} (less : A -> A -> bool) (dflt : A) (data : list A) (a b : Z) : Prop :=
  forall i j, a <= i -> i < j -> j < b -> notAfter less (sel dflt data i) (sel dflt data j).

(** No element between [a] and [b] comes before the element that stands
    before the range. *)
Definition lowerBound {A} (less : A -> A -> bool) (dflt : A) (data : list A) (a b : Z) : Prop :=
  0 < a -> forall i, a <= i -> i < b ->
    less (sel dflt data i) (sel dflt data (a - 1)) = false.

(** [data'] differs from [data] between [a] and [b] only, and what it has
    there it has from there. *)
Definition within {A} (dflt : A) (a b : Z) (data data' : list A) : Prop :=
  length data' = length data
  /\ (forall k, 0 <= k -> ~ (a <= k < b) -> sel dflt data' k = sel dflt data k)
  /\ (forall k, a <= k -> k < b -> exists k', a <= k' /\ k' < b /\ sel dflt data' k = sel dflt data k').

(** The heap of [heapSort_func] on the first [hi] elements from [first]:
    from node [lo] on, every child may stand before its parent; node
    [skip] is left out. *)
Definition heapFrom {A} (less : A -> A -> bool) (dflt : A) (data : list A)
    (first lo hi skip : Z) : Prop :=
  forall i c, lo <= i -> i <> skip -> (c = 2 * i + 1 \/ c = 2 * i + 2) -> c < hi ->
    notAfter less (sel dflt data (first + c)) (sel dflt data (first + i)).

(** The element at [mid] has the elements that come before it on its
    left, between [a] and [mid], and no such element on its right, up to
    [b]. *)
Definition partitioned {A} (less : A -> A -> bool) (dflt : A) (data : list A)
    (a mid b : Z) : Prop :=
  (forall k, a <= k -> k < mid -> less (sel dflt data k) (sel dflt data mid) = true)
  /\ (forall k, mid < k -> k < b -> less (sel dflt data k) (sel dflt data mid) = false).

(** A row [x] of the process table may stand above a row [y]: in rising
    order [y] does not come before [x] in the column, in falling order [x]
    does not come before [y]. *)
Definition inOrder (column : Z) (reverse : bool) (x y : process_list.ProcessListItem) : Prop :=
  if reverse then process_list.itemLess column false x y = false
  else process_list.itemLess column false y x = false.

(** The text of [k] tenths of a percent, as [%.1f] and the percent sign
    write it. *)
Definition percentOfTenths (k : Z) : string :=
  (fmt.itoa (k / 10) ++ "." ++ fmt.itoa (k mod 10) ++ "%")%string.

(** [s] comes before [t] byte by byte: in the first place in which they
    differ [s] has the smaller byte, or [s] ends there and [t] goes on. *)
Definition bytesBefore (s t : string) : Prop :=
  exists (p s' t' : string),
    s = (p ++ s')%string /\ t = (p ++ t')%string
    /\ match s', t' with
       | EmptyString, String _ _ => True
       | String a _, String b _ => (N_of_ascii a < N_of_ascii b)%N
       | _, _ => False
       end.

(** The column, the direction of the sort and the direction the arrow of
    the title stands for, after the event [e]: the arrow is written anew
    when the column changes, with the direction of that moment, and
    [<Enter>] and [<Space>] turn the direction without it. *)
Definition afterEvent (s : Z * bool * bool) (e : string) : Z * bool * bool :=
  let '(column, reverse, arrow) := s in
  if String.eqb e "<Left>" then
    if 0 <? column then (column - 1, reverse, reverse) else s
  else if String.eqb e "<Right>" then
    if column <? 3 then (column + 1, reverse, reverse) else s
  else if String.eqb e "<Enter>" || String.eqb e "<Space>" then (column, negb reverse, arrow)
  else s.

(** The title that names the column [column] with the arrow of the
    direction [arrow]. *)
Definition titleText (column : Z) (arrow : bool) : string :=
  ("Process List (Sort: " ++ nth (Z.to_nat column) process_list.columns ""
   ++ (if arrow then " ↓" else " ↑") ++ ")")%string.

(** ** Slices and strings *)

Lemma index_in_range {A} (xs : list A) (i : Z) (d : A) :
  0 <= i < Z.of_nat (length xs) -> index xs i = Done (nth (Z.to_nat i) xs d).
Proof.
  intros Hi. unfold index.
  replace ((0 <=? i) && (i <? Z.of_nat (length xs))) with true
    by (symmetry; apply andb_true_iff; split; [apply Z.leb_le | apply Z.ltb_lt]; lia).
  destruct (xs !! Z.to_nat i) as [x|] eqn:E.
  - f_equal. symmetry. apply nth_lookup_Some with (d := d) in E. exact E.
  - apply lookup_ge_None in E. lia.
Qed.

Lemma index_out_of_range {A} (xs : list A) (i : Z) :
  Z.of_nat (length xs) <= i ->
  index xs i = Panicked (IndexOutOfRange i (Z.of_nat (length xs))).
Proof.
  intros Hi. unfold index.
  replace (i <? Z.of_nat (length xs)) with false by (symmetry; apply Z.ltb_ge; lia).
  now rewrite andb_false_r.
Qed.

Lemma HasPrefix_hasByte (c : ascii) (p s : string) :
  strings.HasPrefix s p = true -> hasByte c p = true -> hasByte c s = true.
Proof.
  revert s. induction p as [|a p IH]; intros s Hp Hc; simpl in *; [discriminate|].
  destruct s as [|b s]; [discriminate|].
  apply andb_true_iff in Hp as [Hab Hp]. simpl.
  apply orb_true_iff in Hc as [Hc|Hc].
  - apply Ascii.eqb_eq in Hab. subst b. now rewrite Hc.
  - rewrite (IH s Hp Hc). apply orb_true_r.
Qed.

Lemma Contains_hasByte (c : ascii) (sub s : string) :
  strings.Contains s sub = true -> hasByte c sub = true -> hasByte c s = true.
Proof.
  intros Hs Hc. induction s as [|b s IH]; simpl in Hs.
  - rewrite orb_false_r in Hs. eapply HasPrefix_hasByte; eauto.
  - apply orb_true_iff in Hs as [Hs|Hs].
    + eapply HasPrefix_hasByte; eauto.
    + simpl. rewrite (IH Hs). apply orb_true_r.
Qed.

Lemma Split_nonempty (s : string) (c : ascii) : (1 <= length (strings.Split s c))%nat.
Proof.
  induction s as [|b s IH]; simpl; [lia|].
  destruct (Ascii.eqb b c); simpl; [lia|].
  destruct (strings.Split s c); simpl in *; lia.
Qed.

Lemma Split_hasByte (s : string) (c : ascii) :
  hasByte c s = true -> (2 <= length (strings.Split s c))%nat.
Proof.
  induction s as [|b s IH]; simpl; [discriminate|].
  intros H. destruct (Ascii.eqb b c) eqn:E; simpl.
  - pose proof (Split_nonempty s c). lia.
  - simpl in H. specialize (IH H).
    destruct (strings.Split s c); simpl in *; lia.
Qed.

(** A line that holds a marker ending in a colon has a second piece. *)
Lemma colonField_marker (line marker : string) :
  strings.Contains line marker = true -> hasByte ":" marker = true ->
  gpu_metrics.colonField line = Done (nth 1 (strings.Split line ":") "").
Proof.
  intros Hm Hc. unfold gpu_metrics.colonField.
  pose proof (Split_hasByte line ":" (Contains_hasByte _ _ _ Hm Hc)) as Hlen.
  rewrite (index_in_range _ 1 ""); [reflexivity | lia].
Qed.

(** ** The labeled-block process parser (src/gpu_metrics.go) *)

Section BlockParser.

Variable ParseFloat : FloatParser.

Import gpu_metrics.

Lemma memValue_marker (line marker : string) :
  strings.Contains line marker = true -> hasByte ":" marker = true ->
  exists v, memValue ParseFloat line = Done v.
Proof.
  intros Hm Hc. unfold memValue.
  rewrite (colonField_marker line marker Hm Hc). simpl. eauto.
Qed.

(** The three kinds of rounds of the loop. *)
Lemma scanLine_device (st : scanState) (line : string) :
  deviceLine line = true -> readable line = true ->
  exists gpu, scanLine ParseFloat st line =
    Done {| processes := processes st; currentGPU := gpu;
            currentProcess := currentProcess st |}.
Proof.
  intros Hd Hr. unfold scanLine. unfold deviceLine in Hd. rewrite Hd.
  unfold readable, deviceLine in Hr. rewrite Hd in Hr. cbn [negb orb] in Hr.
  apply Nat.leb_le in Hr.
  rewrite (index_in_range _ 1 "") by lia. simpl. eauto.
Qed.

Lemma scanLine_device_panics (st : scanState) (line : string) :
  deviceLine line = true -> readable line = false ->
  exists p, scanLine ParseFloat st line = Panicked p.
Proof.
  intros Hd Hr. unfold scanLine. unfold deviceLine in Hd. rewrite Hd.
  unfold readable, deviceLine in Hr. rewrite Hd in Hr. cbn [negb orb] in Hr.
  apply Nat.leb_gt in Hr.
  rewrite index_out_of_range by lia. simpl. eauto.
Qed.

Lemma scanLine_name (st : scanState) (line : string) :
  nameLine line = true ->
  scanLine ParseFloat st line =
    Done {| processes :=
              if String.eqb (Name (currentProcess st)) ""
              then processes st else processes st ++ [currentProcess st];
            currentGPU := currentGPU st;
            currentProcess := set_Name (nameText line) (ProcessInfo_zero (currentGPU st)) |}.
Proof.
  intros Hn. apply andb_true_iff in Hn as [Hd Hn].
  apply negb_true_iff in Hd. unfold deviceLine in Hd. unfold holdsNameMarker in Hn.
  unfold scanLine. rewrite Hd, Hn.
  rewrite (colonField_marker line "NAME:" Hn eq_refl). reflexivity.
Qed.

Lemma scanLine_other (st : scanState) (line : string) :
  deviceLine line = false -> holdsNameMarker line = false ->
  exists cur,
    scanLine ParseFloat st line =
      Done {| processes := processes st; currentGPU := currentGPU st;
              currentProcess := cur |}
    /\ GPU cur = GPU (currentProcess st) /\ Name cur = Name (currentProcess st).
Proof.
  intros Hd Hn. unfold deviceLine in Hd. unfold holdsNameMarker in Hn.
  unfold scanLine. rewrite Hd, Hn.
  repeat match goal with
  | |- context [if strings.Contains line ?m then _ else _] =>
      let E := fresh "E" in
      destruct (strings.Contains line m) eqn:E;
      [ first
          [ rewrite (colonField_marker line m E eq_refl)
          | let v := fresh "v" in let Hv := fresh "Hv" in
            destruct (memValue_marker line m E eq_refl) as [v Hv]; rewrite Hv ];
        simpl; eexists; split; [reflexivity | split; reflexivity]
      | ]
  end.
  destruct st; simpl. eexists; split; [reflexivity | split; reflexivity].
Qed.

(** Every line falls under one of the three. *)
Lemma line_kinds (line : string) :
  deviceLine line = true \/ nameLine line = true
  \/ (deviceLine line = false /\ holdsNameMarker line = false).
Proof.
  unfold nameLine. destruct (deviceLine line), (holdsNameMarker line); auto.
Qed.

Lemma startsRecord_nameLine (line : string) :
  startsRecord line = true -> nameLine line = true.
Proof. unfold startsRecord. intros H. now apply andb_true_iff in H. Qed.

(** The records a state stands for: those emitted and the one in progress. *)
Lemma flushLast_length (st : scanState) :
  length (flushLast st) =
  (length (processes st) + if nonEmpty (Name (currentProcess st)) then 1 else 0)%nat.
Proof.
  unfold flushLast, nonEmpty.
  destruct (String.eqb (Name (currentProcess st)) ""); simpl.
  - lia.
  - rewrite length_app. simpl. lia.
Qed.

Lemma scanLine_count (st st' : scanState) (line : string) :
  scanLine ParseFloat st line = Done st' ->
  length (flushLast st') =
  (length (flushLast st) + if startsRecord line then 1 else 0)%nat.
Proof.
  intros H. rewrite !flushLast_length.
  destruct (line_kinds line) as [Hd | [Hn | [Hd Hn]]].
  - assert (startsRecord line = false) as ->
      by (unfold startsRecord, nameLine; now rewrite Hd).
    destruct (readable line) eqn:Hr.
    + destruct (scanLine_device st line Hd Hr) as [gpu E].
      rewrite E in H. injection H as <-. simpl. lia.
    + destruct (scanLine_device_panics st line Hd Hr) as [p E]. congruence.
  - rewrite (scanLine_name st line Hn) in H. injection H as <-.
    unfold startsRecord. rewrite Hn. simpl. unfold nonEmpty.
    destruct (String.eqb (Name (currentProcess st)) ""); simpl;
      rewrite ?length_app; simpl; lia.
  - assert (startsRecord line = false) as ->
      by (unfold startsRecord, nameLine; now rewrite Hn, andb_false_r).
    destruct (scanLine_other st line Hd Hn) as (cur & E & _ & Hname).
    rewrite E in H. injection H as <-. simpl. rewrite Hname. lia.
Qed.

Lemma scanLines_count (lines : list string) (st st' : scanState) :
  scanLines ParseFloat st lines = Done st' ->
  length (flushLast st') =
  (length (flushLast st) + length (List.filter startsRecord lines))%nat.
Proof.
  revert st. induction lines as [|line rest IH]; intros st H; simpl in H.
  - injection H as <-. simpl. lia.
  - destruct (scanLine ParseFloat st line) as [st1| |] eqn:E; simpl in H; try discriminate.
    rewrite (IH _ H), (scanLine_count _ _ _ E). simpl.
    destruct (startsRecord line); simpl; lia.
Qed.

Lemma scanLine_total (st : scanState) (line : string) :
  readable line = true -> exists st', scanLine ParseFloat st line = Done st'.
Proof.
  intros Hr. destruct (line_kinds line) as [Hd | [Hn | [Hd Hn]]].
  - destruct (scanLine_device st line Hd Hr) as [gpu E]. eauto.
  - rewrite (scanLine_name st line Hn). eauto.
  - destruct (scanLine_other st line Hd Hn) as (cur & E & _). eauto.
Qed.

Lemma scanLines_total (lines : list string) (st : scanState) :
  forallb readable lines = true -> exists st', scanLines ParseFloat st lines = Done st'.
Proof.
  revert st. induction lines as [|line rest IH]; intros st H; simpl in *.
  - eauto.
  - apply andb_true_iff in H as [Hr H].
    destruct (scanLine_total st line Hr) as [st1 E]. rewrite E. simpl. now apply IH.
Qed.

Lemma scanLines_app (xs ys : list string) (st : scanState) :
  scanLines ParseFloat st (xs ++ ys) =
  res_bind (scanLines ParseFloat st xs) (fun st1 => scanLines ParseFloat st1 ys).
Proof.
  revert st. induction xs as [|x xs IH]; intros st; simpl; [reflexivity|].
  destruct (scanLine ParseFloat st x); simpl; auto.
Qed.

(** The device in force changes on device lines only. *)
Lemma scanLines_no_device (lines : list string) (st st' : scanState) :
  forallb (fun l => negb (deviceLine l)) lines = true ->
  scanLines ParseFloat st lines = Done st' ->
  currentGPU st' = currentGPU st.
Proof.
  revert st. induction lines as [|line rest IH]; intros st Hnd H; simpl in *.
  - now injection H as <-.
  - apply andb_true_iff in Hnd as [Hd Hnd]. apply negb_true_iff in Hd.
    destruct (scanLine ParseFloat st line) as [st1| |] eqn:E; simpl in H; try discriminate.
    rewrite (IH _ Hnd H).
    destruct (holdsNameMarker line) eqn:Hn.
    + rewrite scanLine_name in E by (unfold nameLine; now rewrite Hd, Hn).
      now injection E as <-.
    + destruct (scanLine_other st line Hd Hn) as (cur & E' & _).
      rewrite E' in E. now injection E as <-.
Qed.

(** Records leave the loop in the order they were started, and stay. *)
Lemma scanLine_extends (st st' : scanState) (line : string) :
  scanLine ParseFloat st line = Done st' ->
  exists ext, processes st' = processes st ++ ext.
Proof.
  intros H. destruct (line_kinds line) as [Hd | [Hn | [Hd Hn]]].
  - destruct (readable line) eqn:Hr.
    + destruct (scanLine_device st line Hd Hr) as [gpu E].
      rewrite E in H. injection H as <-. exists []. simpl. now rewrite app_nil_r.
    + destruct (scanLine_device_panics st line Hd Hr) as [p E]. congruence.
  - rewrite (scanLine_name st line Hn) in H. injection H as <-. simpl.
    destruct (String.eqb (Name (currentProcess st)) "").
    + exists []. now rewrite app_nil_r.
    + eauto.
  - destruct (scanLine_other st line Hd Hn) as (cur & E & _).
    rewrite E in H. injection H as <-. exists []. simpl. now rewrite app_nil_r.
Qed.

Lemma scanLines_extends (lines : list string) (st st' : scanState) :
  scanLines ParseFloat st lines = Done st' ->
  exists ext, flushLast st' = processes st ++ ext.
Proof.
  revert st. induction lines as [|line rest IH]; intros st H; simpl in H.
  - injection H as <-. unfold flushLast.
    destruct (String.eqb (Name (currentProcess st)) "").
    + exists []. now rewrite app_nil_r.
    + eauto.
  - destruct (scanLine ParseFloat st line) as [st1| |] eqn:E; simpl in H; try discriminate.
    destruct (scanLine_extends _ _ _ E) as [e1 E1].
    destruct (IH _ H) as [e2 E2]. exists (e1 ++ e2). now rewrite E2, E1, app_assoc.
Qed.

(** The record in progress, once it has a name, is in the result with the
    device and the name it was started with. *)
Lemma scanLines_pending (lines : list string) (st st' : scanState) :
  nonEmpty (Name (currentProcess st)) = true ->
  scanLines ParseFloat st lines = Done st' ->
  exists r ext,
    flushLast st' = processes st ++ r :: ext
    /\ GPU r = GPU (currentProcess st) /\ Name r = Name (currentProcess st).
Proof.
  revert st. induction lines as [|line rest IH]; intros st Hne H; simpl in H.
  - injection H as <-. unfold flushLast. unfold nonEmpty in Hne.
    apply negb_true_iff in Hne. rewrite Hne. eauto.
  - destruct (scanLine ParseFloat st line) as [st1| |] eqn:E; simpl in H; try discriminate.
    destruct (line_kinds line) as [Hd | [Hn | [Hd Hn]]].
    + destruct (readable line) eqn:Hr.
      * destruct (scanLine_device st line Hd Hr) as [gpu E'].
        rewrite E' in E. injection E as <-. refine (IH _ _ H). exact Hne.
      * destruct (scanLine_device_panics st line Hd Hr) as [p E']. congruence.
    + rewrite (scanLine_name st line Hn) in E. injection E as <-.
      destruct (scanLines_extends _ _ _ H) as [ext E2]. simpl in E2.
      unfold nonEmpty in Hne. apply negb_true_iff in Hne. rewrite Hne in E2.
      exists (currentProcess st), ext. rewrite E2, <- app_assoc. auto.
    + destruct (scanLine_other st line Hd Hn) as (cur & E' & Hg & Hname).
      rewrite E' in E. injection E as <-.
      assert (nonEmpty (Name cur) = true) as Hne' by now rewrite Hname.
      destruct (IH {| processes := processes st; currentGPU := currentGPU st;
                      currentProcess := cur |} Hne' H) as (r & ext & E2 & Hg2 & Hn2).
      simpl in *. exists r, ext. rewrite E2, Hg2, Hn2. auto.
Qed.

(** C3 (amended): whenever every device line has its index field, the
    labeled-block parser returns, and the number of records it returns is
    the number of lines that do not begin with the device marker, hold the
    name marker, and have a name text that is not empty; the record in
    progress after the last line is among them. *)
Theorem C3_one_record_per_name_line (lines : list string) :
  forallb readable lines = true ->
  exists recs,
    getProcessInfo ParseFloat (CmdOutput lines) = Done recs
    /\ length recs = length (List.filter startsRecord lines).
Proof.
  intros Hr. unfold getProcessInfo.
  destruct (scanLines_total lines initialState Hr) as [st E]. rewrite E. simpl.
  eexists. split; [reflexivity|].
  now rewrite (scanLines_count _ _ _ E).
Qed.

(** C10: a name line that comes before any device line starts a record
    whose device index is -1, the device in force when the loop starts; the
    record is in the result, at the place its line has among the lines
    that start records. *)
Theorem C10_name_before_device_is_minus_one (pre post : list string) (line : string) :
  forallb (fun l => negb (deviceLine l)) pre = true ->
  startsRecord line = true ->
  forallb readable post = true ->
  exists recs r,
    getProcessInfo ParseFloat (CmdOutput (pre ++ line :: post)) = Done recs
    /\ recs !! length (List.filter startsRecord pre) = Some r
    /\ GPU r = -1 /\ Name r = nameText line.
Proof.
  intros Hpre Hline Hpost.
  assert (forallb readable pre = true) as Hrpre.
  { clear -Hpre. induction pre as [|l pre IH]; simpl in *; [reflexivity|].
    apply andb_true_iff in Hpre as [H1 H2]. unfold readable. rewrite H1. simpl. auto. }
  destruct (scanLines_total pre initialState Hrpre) as [st1 E1].
  pose proof (scanLines_no_device _ _ _ Hpre E1) as Hgpu. simpl in Hgpu.
  pose proof (scanLines_count _ _ _ E1) as Hcount. simpl in Hcount.
  pose proof (startsRecord_nameLine _ Hline) as Hn.
  pose proof (scanLine_name st1 line Hn) as E2.
  set (st2 := {| processes := _ |}) in E2.
  destruct (scanLines_total post st2 Hpost) as [st3 E3].
  assert (nonEmpty (Name (currentProcess st2)) = true) as Hne.
  { simpl. unfold startsRecord in Hline. now apply andb_true_iff in Hline. }
  destruct (scanLines_pending _ _ _ Hne E3) as (r & ext & E4 & Hg & Hname).
  exists (flushLast st3), r. repeat split.
  - unfold getProcessInfo. rewrite scanLines_app, E1. simpl. rewrite E2. simpl.
    now rewrite E3.
  - rewrite E4.
    assert (length (processes st2) = length (List.filter startsRecord pre)) as <-.
    { rewrite <- Hcount. reflexivity. }
    now rewrite list_lookup_middle.
  - rewrite Hg. simpl. exact Hgpu.
  - rewrite Hname. reflexivity.
Qed.

End BlockParser.

(** C3, as the specification has it, counts every line that holds the name
    marker. A line that begins with the device marker is read as a device
    line even when it holds the name marker too, and starts no record. *)
Lemma C3_counterexample_device_line_with_name :
  gpu_metrics.getProcessInfo strconv.ParseFloatDecimal (CmdOutput ["GPU: 0 NAME: x"])
  = Done []
  /\ List.filter (fun l => holdsNameMarker l && nonEmpty (nameText l)) ["GPU: 0 NAME: x"]
    = ["GPU: 0 NAME: x"].
Proof. split; vm_compute; reflexivity. Qed.

Lemma C3_witness :
  forallb readable ["GPU: 0"; "    NAME: python"; "    PID: 4242"; "    NAME: N/A"] = true
  /\ exists recs,
      gpu_metrics.getProcessInfo strconv.ParseFloatDecimal
        (CmdOutput ["GPU: 0"; "    NAME: python"; "    PID: 4242"; "    NAME: N/A"])
      = Done recs
      /\ length recs
         = length (List.filter startsRecord
                     ["GPU: 0"; "    NAME: python"; "    PID: 4242"; "    NAME: N/A"]).
Proof.
  split; [reflexivity|].
  apply (C3_one_record_per_name_line strconv.ParseFloatDecimal). reflexivity.
Defined.

Lemma C10_witness :
  exists recs r,
    gpu_metrics.getProcessInfo strconv.ParseFloatDecimal
      (CmdOutput (["PROCESS_INFO:"] ++ "    NAME: python" :: ["    PID: 4242"; "GPU: 0"]))
    = Done recs
    /\ recs !! length (List.filter startsRecord ["PROCESS_INFO:"]) = Some r
    /\ GPU r = -1 /\ Name r = nameText "    NAME: python".
Proof.
  apply (C10_name_before_device_is_minus_one strconv.ParseFloatDecimal); reflexivity.
Defined.

(** ** Package strconv *)

Lemma uintLoop_syntax (s : string) :
  forall n v : Z, strconv.uintLoop s n = (v, Some ErrSyntax) -> v = 0.
Proof.
  induction s as [|c s IH]; intros n v; cbn [strconv.uintLoop]; [congruence|].
  destruct (strconv.digit c) as [d|]; [|congruence]. cbv zeta.
  destruct (_ <=? n); [congruence|].
  destruct (_ <? 10 * n + d); [congruence|]. apply IH.
Qed.

Lemma ParseUint_syntax (s : string) (n : Z) :
  strconv.ParseUint s = (n, Some ErrSyntax) -> n = 0.
Proof.
  unfold strconv.ParseUint. destruct s; [congruence|]. apply uintLoop_syntax.
Qed.

Lemma uintLoop_range (s : string) :
  forall n v : Z, strconv.uintLoop s n = (v, Some ErrRange) -> v = MaxUint64.
Proof.
  induction s as [|c s IH]; intros n v; cbn [strconv.uintLoop]; [congruence|].
  destruct (strconv.digit c) as [d|]; [|congruence]. cbv zeta.
  destruct (_ <=? n); [congruence|].
  destruct (_ <? 10 * n + d); [congruence|]. apply IH.
Qed.

Lemma digit_bounds (c : ascii) (d : Z) : strconv.digit c = Some d -> 0 <= d <= 9.
Proof.
  unfold strconv.digit.
  destruct ((48 <=? _) && (_ <=? 57)) eqn:E; [|discriminate].
  apply andb_true_iff in E as [E1 E2]. apply Z.leb_le in E1, E2.
  intros [= <-]. lia.
Qed.

Lemma digits_ge (s : string) :
  forall n v : Z, 0 <= n -> strconv.digits s n = Some v -> n <= v.
Proof.
  induction s as [|c s IH]; intros n v Hn; cbn [strconv.digits]; [intros [= <-]; lia|].
  destruct (strconv.digit c) as [d|] eqn:Ed; [|discriminate].
  apply digit_bounds in Ed. intros H. apply IH in H; lia.
Qed.

(** On a string of digits the loop gives the number they write, cut off
    at the range. *)
Lemma uintLoop_digits (s : string) :
  forall n v : Z,
    0 <= n <= MaxUint64 -> strconv.digits s n = Some v ->
    strconv.uintLoop s n
    = if v <=? MaxUint64 then (v, None) else (MaxUint64, Some ErrRange).
Proof.
  induction s as [|c s IH]; intros n v Hn; cbn [strconv.digits strconv.uintLoop].
  - intros [= <-]. now replace (n <=? MaxUint64) with true by (symmetry; apply Z.leb_le; lia).
  - destruct (strconv.digit c) as [d|] eqn:Ed; [|discriminate].
    apply digit_bounds in Ed. intros H. cbv zeta.
    pose proof (digits_ge s (10 * n + d) v ltac:(lia) H) as Hv.
    unfold MaxUint64 in *.
    destruct (Z.leb_spec ((2 ^ 64 - 1) / 10 + 1) n) as [Hc|Hc].
    { replace (v <=? 2 ^ 64 - 1) with false; [reflexivity|].
      symmetry. apply Z.leb_gt. change ((2 ^ 64 - 1) / 10 + 1) with 1844674407370955162 in Hc.
      lia. }
    destruct (Z.ltb_spec (2 ^ 64 - 1) (10 * n + d)) as [Ho|Ho].
    { replace (v <=? 2 ^ 64 - 1) with false; [reflexivity|].
      symmetry. apply Z.leb_gt. lia. }
    apply IH; [lia | exact H].
Qed.

Lemma ParseInt_syntax (s : string) :
  snd (strconv.ParseInt s) = Some ErrSyntax -> fst (strconv.ParseInt s) = 0.
Proof.
  unfold strconv.ParseInt. destruct s as [|c s]; [reflexivity|].
  destruct (strconv.ParseUint _) as [un [[]|]]; simpl; try reflexivity;
    repeat match goal with |- context [if ?b then _ else _] => destruct b end;
    simpl; congruence.
Qed.

Lemma ParseInt_range (s : string) :
  snd (strconv.ParseInt s) = Some ErrRange ->
  fst (strconv.ParseInt s) = MaxInt64 \/ fst (strconv.ParseInt s) = MinInt64.
Proof.
  unfold strconv.ParseInt, MaxInt64, MinInt64. destruct s as [|c s]; [discriminate|].
  destruct (strconv.ParseUint _) as [un [[]|]]; simpl; try discriminate;
    repeat match goal with |- context [if ?b then _ else _] => destruct b end;
    simpl; auto; discriminate.
Qed.

(** Integers in decimal are read back as they were written, or cut off at
    the range. *)
Lemma digit_digitChar (d : Z) :
  0 <= d <= 9 -> strconv.digit (fmt.digitChar d) = Some d.
Proof.
  intros H.
  assert (d = 0 \/ d = 1 \/ d = 2 \/ d = 3 \/ d = 4 \/ d = 5 \/ d = 6 \/ d = 7
          \/ d = 8 \/ d = 9) as Hd by lia.
  repeat (destruct Hd as [->|Hd]; [reflexivity|]). now subst d.
Qed.

Lemma digitChar_no_sign (d : Z) :
  0 <= d <= 9 ->
  Ascii.eqb (fmt.digitChar d) "-" = false /\ Ascii.eqb (fmt.digitChar d) "+" = false.
Proof.
  intros H.
  assert (d = 0 \/ d = 1 \/ d = 2 \/ d = 3 \/ d = 4 \/ d = 5 \/ d = 6 \/ d = 7
          \/ d = 8 \/ d = 9) as Hd by lia.
  repeat (destruct Hd as [->|Hd]; [split; reflexivity|]). subst d. split; reflexivity.
Qed.

Lemma digits_utoa (fuel : nat) :
  forall (n : Z) (acc : string) (a : Z),
    0 <= n < 10 ^ Z.of_nat fuel ->
    exists k, 0 <= k /\
      strconv.digits (fmt.utoa fuel n acc) a = strconv.digits acc (a * 10 ^ k + n).
Proof.
  induction fuel as [|fuel IH]; intros n acc a Hn.
  - exists 0. simpl in *. split; [lia|]. f_equal. lia.
  - cbn [fmt.utoa]. destruct (n <? 10) eqn:E.
    + apply Z.ltb_lt in E. exists 1. split; [lia|]. cbn [strconv.digits].
      rewrite Z.mod_small by lia. rewrite digit_digitChar by lia. f_equal. lia.
    + apply Z.ltb_ge in E.
      destruct (IH (n / 10) (String (fmt.digitChar (n mod 10)) acc) a) as (k & Hk & Ek).
      { split; [apply Z.div_pos; lia|].
        apply Z.div_lt_upper_bound; [lia|].
        replace (Z.of_nat (S fuel)) with (Z.of_nat fuel + 1) in Hn by lia.
        rewrite Z.pow_add_r, Z.pow_1_r in Hn by lia. lia. }
      exists (k + 1). split; [lia|]. rewrite Ek. cbn [strconv.digits].
      pose proof (Z.mod_pos_bound n 10 ltac:(lia)).
      rewrite digit_digitChar by lia. f_equal.
      rewrite Z.pow_add_r, Z.pow_1_r by lia.
      pose proof (Z.div_mod n 10 ltac:(lia)). lia.
Qed.

Lemma utoa_head (fuel : nat) (n : Z) (acc : string) :
  0 <= n ->
  exists d rest, 0 <= d <= 9 /\ fmt.utoa (S fuel) n acc = String (fmt.digitChar d) rest.
Proof.
  revert n acc. induction fuel as [|fuel IH]; intros n acc Hn.
  - pose proof (Z.mod_pos_bound n 10 ltac:(lia)).
    exists (n mod 10), acc. split; [lia|].
    cbn [fmt.utoa]. now destruct (n <? 10).
  - pose proof (Z.mod_pos_bound n 10 ltac:(lia)).
    change (fmt.utoa (S (S fuel)) n acc)
      with (let acc' := String (fmt.digitChar (n mod 10)) acc in
            if n <? 10 then acc' else fmt.utoa (S fuel) (n / 10) acc').
    cbv zeta. destruct (n <? 10).
    + exists (n mod 10), acc. split; [lia | reflexivity].
    + apply IH. apply Z.div_pos; lia.
Qed.

Lemma ParseUint_digits (c : ascii) (s : string) (n : Z) :
  strconv.digits (String c s) 0 = Some n ->
  strconv.ParseUint (String c s)
  = if n <=? MaxUint64 then (n, None) else (MaxUint64, Some ErrRange).
Proof.
  intros H. unfold strconv.ParseUint. apply uintLoop_digits; [|exact H].
  unfold MaxUint64. lia.
Qed.

Lemma ParseUint_utoa (n : Z) :
  0 <= n ->
  strconv.ParseUint (fmt.utoa (S (Z.to_nat (Z.log2 n))) n "")
  = if n <=? MaxUint64 then (n, None) else (MaxUint64, Some ErrRange).
Proof.
  intros Hn.
  destruct (utoa_head (Z.to_nat (Z.log2 n)) n "" Hn) as (d & rest & Hd & E).
  assert (0 <= n < 10 ^ Z.of_nat (S (Z.to_nat (Z.log2 n)))) as Hb.
  { split; [lia|].
    destruct (Z.eq_dec n 0) as [->|Hz]; [reflexivity|].
    pose proof (Z.log2_spec n ltac:(lia)) as [_ Hl].
    pose proof (Z.log2_nonneg n).
    replace (Z.of_nat (S (Z.to_nat (Z.log2 n)))) with (Z.succ (Z.log2 n)) by lia.
    eapply Z.lt_le_trans; [exact Hl|].
    apply Z.pow_le_mono_l. lia. }
  destruct (digits_utoa (S (Z.to_nat (Z.log2 n))) n "" 0 Hb) as (k & _ & Ek).
  cbn [strconv.digits] in Ek. replace (0 * 10 ^ k + n) with n in Ek by lia.
  rewrite E in *. now apply ParseUint_digits.
Qed.

Lemma ParseInt_minus (body : string) :
  strconv.ParseInt (String "-" body)
  = match strconv.ParseUint body with
    | (_, Some ErrSyntax) => (0, Some ErrSyntax)
    | (un, _) => if 2 ^ 63 <? un then (- 2 ^ 63, Some ErrRange) else (- un, None)
    end.
Proof.
  unfold strconv.ParseInt. cbv zeta.
  change (Ascii.eqb "-" "+") with false. change (Ascii.eqb "-" "-") with true.
  cbn [orb negb andb].
  destruct (strconv.ParseUint body) as [un [[]|]]; reflexivity.
Qed.

Lemma ParseInt_unsigned (d : Z) (rest : string) :
  0 <= d <= 9 ->
  strconv.ParseInt (String (fmt.digitChar d) rest)
  = match strconv.ParseUint (String (fmt.digitChar d) rest) with
    | (_, Some ErrSyntax) => (0, Some ErrSyntax)
    | (un, _) => if 2 ^ 63 <=? un then (2 ^ 63 - 1, Some ErrRange) else (un, None)
    end.
Proof.
  intros Hd. destruct (digitChar_no_sign d Hd) as [Hm Hp].
  unfold strconv.ParseInt. cbv zeta. rewrite Hm, Hp. cbn [orb negb andb].
  destruct (strconv.ParseUint _) as [un [[]|]]; reflexivity.
Qed.

Lemma ParseInt_itoa (n : Z) :
  strconv.ParseInt (fmt.itoa n)
  = if n <? MinInt64 then (MinInt64, Some ErrRange)
    else if MaxInt64 <? n then (MaxInt64, Some ErrRange)
    else (n, None).
Proof.
  unfold fmt.itoa, MinInt64, MaxInt64.
  destruct (n <? 0) eqn:Eneg.
  - apply Z.ltb_lt in Eneg.
    rewrite ParseInt_minus, ParseUint_utoa by lia. unfold MaxUint64.
    destruct (Z.abs n <=? 2 ^ 64 - 1) eqn:E1;
      [apply Z.leb_le in E1 | apply Z.leb_gt in E1].
    + destruct (2 ^ 63 <? Z.abs n) eqn:E2;
        [apply Z.ltb_lt in E2 | apply Z.ltb_ge in E2].
      * replace (n <? - 2 ^ 63) with true by (symmetry; apply Z.ltb_lt; lia).
        reflexivity.
      * replace (n <? - 2 ^ 63) with false by (symmetry; apply Z.ltb_ge; lia).
        replace (2 ^ 63 - 1 <? n) with false by (symmetry; apply Z.ltb_ge; lia).
        f_equal. lia.
    + replace (n <? - 2 ^ 63) with true by (symmetry; apply Z.ltb_lt; lia).
      reflexivity.
  - apply Z.ltb_ge in Eneg.
    destruct (utoa_head (Z.to_nat (Z.log2 (Z.abs n))) (Z.abs n) "" ltac:(lia))
      as (d & rest & Hd & E).
    rewrite E, (ParseInt_unsigned d rest Hd), <- E.
    rewrite ParseUint_utoa by lia. unfold MaxUint64.
    replace (n <? - 2 ^ 63) with false by (symmetry; apply Z.ltb_ge; lia).
    rewrite Z.abs_eq by lia.
    destruct (n <=? 2 ^ 64 - 1) eqn:E1;
      [apply Z.leb_le in E1 | apply Z.leb_gt in E1].
    + destruct (2 ^ 63 <=? n) eqn:E2;
        [apply Z.leb_le in E2 | apply Z.leb_gt in E2].
      * now replace (2 ^ 63 - 1 <? n) with true by (symmetry; apply Z.ltb_lt; lia).
      * now replace (2 ^ 63 - 1 <? n) with false by (symmetry; apply Z.ltb_ge; lia).
    + replace (2 ^ 63 - 1 <? n) with true by (symmetry; apply Z.ltb_lt; lia).
      reflexivity.
Qed.

(** Every integer that is zero or negative, written in decimal, is shown
    as no usage, whatever its size. *)
Lemma gfxUsage_not_positive (n : Z) :
  n <= 0 -> gpu_metrics.gfxUsage (fmt.itoa n) = "0.0%".
Proof.
  intros Hn. unfold gpu_metrics.gfxUsage. rewrite ParseInt_itoa.
  unfold MinInt64, MaxInt64.
  destruct (n <? - 2 ^ 63); [reflexivity|].
  replace (2 ^ 63 - 1 <? n) with false by (symmetry; apply Z.ltb_ge; lia).
  now replace (0 <? n) with false by (symmetry; apply Z.ltb_ge; lia).
Qed.

(** ** The GFX arm of the labeled-block parser *)

Section GfxArm.

Variable ParseFloat : FloatParser.

Import gpu_metrics.

Lemma gfxUsage_positive (gfxStr : string) (n : Z) :
  strconv.ParseInt gfxStr = (n, None) -> 0 < n ->
  gfxUsage gfxStr = (fmt.fixed1 (fmt.float64 n / 1e9 * 100)%float ++ "%")%string.
Proof.
  intros E Hn. unfold gfxUsage. rewrite E.
  now replace (0 <? n) with true by (symmetry; apply Z.ltb_lt; lia).
Qed.

Lemma gfxUsage_milliseconds :
  forallb (fun k => String.eqb (gfxUsage (fmt.itoa (Z.of_nat k * 1000000)))
                               (percentOfTenths (Z.of_nat k)))
          (seq 1 2000) = true.
Proof. vm_compute. reflexivity. Qed.

(** C4: in the GFX arm the nanoseconds become the percentage of a second,
    with one decimal: 500000000 (5e8) give "50.0%"; every positive [int64]
    gives the value over 1e9 times 100 in binary64, printed by [%.1f], which
    for the whole milliseconds up to two seconds is the tenth of a percent
    for every millisecond ("0.1%" for 1000000, "100.0%" for 1000000000,
    "200.0%" for 2000000000). Zero, every negative number and every text
    that [strconv.ParseInt] does not accept (no integer, or out of the
    range of [int64]) give "0.0%". The arm is the one taken by every line
    that reaches the GFX marker, on the text between its first two colons
    without the unit. *)
Theorem C4_gfx_usage (st : scanState) (line : string) :
  gfxUsage "500000000" = "50.0%"
  /\ (exists st',
        scanLine ParseFloat st "            GFX: 500000000 ns" = Done st'
        /\ GFXUsage (currentProcess st') = "50.0%")
  /\ gfxUsage "0" = "0.0%" /\ gfxUsage "-250" = "0.0%" /\ gfxUsage "N/A" = "0.0%"
  /\ (forall gfxStr : string,
        snd (strconv.ParseInt gfxStr) <> None \/ fst (strconv.ParseInt gfxStr) <= 0 ->
        gfxUsage gfxStr = "0.0%")
  /\ (gfxLine line = true ->
      exists f,
        colonField line = Done f
        /\ scanLine ParseFloat st line =
           Done {| processes := processes st; currentGPU := currentGPU st;
                   currentProcess :=
                     set_GFXUsage
                       (gfxUsage (strings.TrimSuffix (strings.TrimSpace f) " ns"))
                       (currentProcess st) |})
  /\ (forall n : Z,
        gfxUsage (fmt.itoa n)
        = if (0 <? n) && (n <=? MaxInt64)
          then (fmt.fixed1 (fmt.float64 n / 1e9 * 100)%float ++ "%")%string
          else "0.0%")
  /\ (forall (gfxStr : string) (n : Z),
        strconv.ParseInt gfxStr = (n, None) -> 0 < n ->
        gfxUsage gfxStr = (fmt.fixed1 (fmt.float64 n / 1e9 * 100)%float ++ "%")%string)
  /\ (forall k : Z,
        1 <= k <= 2000 -> gfxUsage (fmt.itoa (k * 1000000)) = percentOfTenths k)
  /\ gfxUsage "1000000" = "0.1%" /\ gfxUsage "123456789" = "12.3%"
  /\ gfxUsage "1000000000" = "100.0%" /\ gfxUsage "+250000000" = "25.0%"
  /\ gfxUsage "9223372036854775807" = "922337203685.5%"
  /\ gfxUsage "9223372036854775808" = "0.0%".
Proof.
  split; [vm_compute; reflexivity|].
  split; [eexists; split; vm_compute; reflexivity|].
  split; [vm_compute; reflexivity|].
  split; [vm_compute; reflexivity|].
  split; [vm_compute; reflexivity|].
  split.
  { intros gfxStr H. unfold gfxUsage.
    destruct (strconv.ParseInt gfxStr) as [n [e|]]; simpl in H; [reflexivity|].
    destruct H as [H|H]; [congruence|].
    now replace (0 <? n) with false by (symmetry; apply Z.ltb_ge; lia). }
  split.
  { intros Hg. unfold gfxLine in Hg.
    repeat (apply andb_true_iff in Hg as [Hg ?]).
    repeat match goal with H : negb _ = true |- _ => apply negb_true_iff in H end.
    unfold deviceLine in Hg.
    exists (nth 1 (strings.Split line ":") "").
    assert (colonField line = Done (nth 1 (strings.Split line ":") "")) as E
      by (apply (colonField_marker line "GFX:"); auto).
    split; [exact E|].
    unfold scanLine.
    repeat match goal with H : _ = false |- _ => rewrite H; clear H end.
    match goal with H : _ = true |- _ => rewrite H end.
    rewrite E. reflexivity. }
  split.
  { intros n. unfold gfxUsage. rewrite ParseInt_itoa. unfold MinInt64, MaxInt64.
    destruct (Z.ltb_spec n (- 2 ^ 63)).
    - now replace (0 <? n) with false by (symmetry; apply Z.ltb_ge; lia).
    - destruct (Z.ltb_spec (2 ^ 63 - 1) n).
      + replace (n <=? 2 ^ 63 - 1) with false by (symmetry; apply Z.leb_gt; lia).
        now rewrite andb_false_r.
      + replace (n <=? 2 ^ 63 - 1) with true by (symmetry; apply Z.leb_le; lia).
        now rewrite andb_true_r. }
  split; [exact gfxUsage_positive|].
  split.
  { intros k Hk. apply String.eqb_eq.
    pose proof gfxUsage_milliseconds as H.
    rewrite List.forallb_forall in H.
    specialize (H (Z.to_nat k)). rewrite Z2Nat.id in H by lia.
    apply H. apply in_seq. lia. }
  repeat split; vm_compute; reflexivity.
Qed.

End GfxArm.

(** ** The device metrics parser *)

Section MetricsParser.

Variable ParseFloat : FloatParser.

Import gpu_metrics.

Lemma metricsRow_narrow (line : string) :
  wideRow line = false -> metricsRow ParseFloat line = Done None.
Proof.
  unfold wideRow, metricsRow. intros H. apply Nat.leb_gt in H.
  now replace (Z.of_nat (length (strings.Split line ",")) <? 17) with true
    by (symmetry; apply Z.ltb_lt; lia).
Qed.

Lemma metricsRow_wide (line : string) :
  wideRow line = true ->
  exists m, metricsRow ParseFloat line = Done (Some m) /\ rowRecord ParseFloat line m.
Proof.
  unfold wideRow, metricsRow. intros H. apply Nat.leb_le in H.
  replace (Z.of_nat (length (strings.Split line ",")) <? 17) with false
    by (symmetry; apply Z.ltb_ge; lia).
  repeat match goal with
  | |- context [index (strings.Split line ",") ?k] =>
      rewrite (index_in_range (strings.Split line ",") k "") by lia; cbn [res_bind]
  end.
  eexists. split; [reflexivity|].
  unfold rowRecord, fieldOf. cbn [ID Power GPUTemp MemTemp GFXUtil GFXClock MemUtil
    MemClock VRAMUsed VRAMTotal].
  change (Z.to_nat 0) with 0%nat.
  repeat split; auto using ParseInt_syntax, ParseInt_range.
Qed.

Lemma metricsLoop_rows (rows : list string) (acc : list GPUMetrics) :
  exists recs,
    metricsLoop ParseFloat rows acc = Done (acc ++ recs)
    /\ Forall2 (rowRecord ParseFloat) (List.filter wideRow rows) recs.
Proof.
  revert acc. induction rows as [|row rows IH]; intros acc; simpl.
  - exists []. rewrite app_nil_r. auto.
  - destruct (wideRow row) eqn:W.
    + destruct (metricsRow_wide row W) as (m & E & Hm). rewrite E. simpl.
      destruct (IH (acc ++ [m])) as (recs & E' & HF).
      exists (m :: recs). rewrite E', <- app_assoc. auto.
    + rewrite (metricsRow_narrow row W). simpl. apply IH.
Qed.

Hypothesis ParseFloat_asGo : parsesAsGo ParseFloat.

Lemma rowRecord_defaults (line : string) (m : GPUMetrics) :
  rowRecord ParseFloat line m -> rowDefaults ParseFloat line m.
Proof.
  intros (E0 & Hs & Hr & E1 & E2 & E3 & E4 & E5 & E6 & E7 & E15 & E16).
  split; [exact Hs|]. split; [exact Hr|].
  intros k v Hin. cbn [floatFields In] in Hin.
  repeat (destruct Hin as [[= <- <-]|Hin];
          [match goal with E : ?f m = _ |- context [?f m] => rewrite E end;
           apply ParseFloat_asGo|]).
  destruct Hin.
Qed.


End MetricsParser.

Lemma ParseFloatDecimal_asGo : parsesAsGo strconv.ParseFloatDecimal.
Proof.
  intros s. unfold strconv.ParseFloatDecimal.
  destruct s as [|c s]; [split; [reflexivity | discriminate]|].
  destruct (strconv.decimal _ _ _ _) as [[mant frac]|];
    [|split; [reflexivity | discriminate]].
  cbv zeta.
  match goal with |- context [match ?v with S754_infinity _ => _ | _ => _ end] =>
    destruct v as [| [|] | |] end; cbn [fst snd];
    split; try discriminate; intros _; auto.
Qed.



(** ** The CSV process parser *)

Section CsvParser.

Variable ParseFloat : FloatParser.

Import gpu_metrics_csv.

Lemma processRecord_rejected (record : list string) :
  (2 <= length record)%nat -> accepted record = false ->
  processRecord ParseFloat record = Done None.
Proof.
  intros Hlen Ha. unfold processRecord, accepted in *.
  rewrite (index_in_range record 1 "") by lia. cbn [res_bind].
  change (Z.to_nat 1) with 1%nat.
  destruct (strings.Contains (nth 1 record "") noProcesses); [reflexivity|].
  rewrite (index_in_range record 0 "") by lia. cbn [res_bind].
  change (Z.to_nat 0) with 0%nat.
  destruct (strconv.Atoi (nth 0 record "")) as [gpuID [e|]]; [reflexivity|discriminate].
Qed.

Lemma processRecord_accepted (record : list string) :
  (9 <= length record)%nat -> accepted record = true ->
  exists p, processRecord ParseFloat record = Done (Some p)
            /\ processRecordOf ParseFloat record p.
Proof.
  intros Hlen Ha. unfold processRecord, accepted in *.
  apply andb_true_iff in Ha as [Hm Hi]. apply negb_true_iff in Hm.
  repeat match goal with
  | |- context [index record ?k] =>
      rewrite (index_in_range record k "") by lia
  end.
  cbn [res_bind].
  change (Z.to_nat 1) with 1%nat. change (Z.to_nat 0) with 0%nat.
  rewrite Hm.
  destruct (strconv.Atoi (nth 0 record "")) as [gpuID [e|]] eqn:EA; [discriminate|].
  cbn [res_bind]. eexists. split; [reflexivity|].
  unfold processRecordOf. rewrite EA. cbn. repeat split.
Qed.

Lemma Read_same_count (record : list string) (n : Z) :
  0 < n -> Z.of_nat (length record) = n ->
  Read (CsvFields record) n = (record, None, n).
Proof.
  intros Hn Hl. unfold Read. rewrite Hl.
  replace (0 <? n) with true by (symmetry; apply Z.ltb_lt; lia).
  now rewrite Z.eqb_refl.
Qed.

Lemma Read_other_count (record : list string) (n : Z) :
  0 < n -> Z.of_nat (length record) <> n ->
  Read (CsvFields record) n = (record, Some ErrFieldCount, n).
Proof.
  intros Hn Hl. unfold Read.
  replace (0 <? n) with true by (symmetry; apply Z.ltb_lt; lia).
  now replace (Z.of_nat (length record) =? n) with false
    by (symmetry; apply Z.eqb_neq; lia).
Qed.

Lemma readLoop_rows (n : nat) (rows : list (list string)) (pending : list CsvRecord)
    (acc : list ProcessInfo) :
  (9 <= n)%nat -> Forall (fun r => length r = n) rows ->
  exists recs,
    readLoop ParseFloat (map CsvFields rows ++ pending) (Z.of_nat n) acc
    = readLoop ParseFloat pending (Z.of_nat n) (acc ++ recs)
    /\ Forall2 (processRecordOf ParseFloat) (List.filter accepted rows) recs.
Proof.
  intros Hn. revert acc. induction rows as [|row rows IH]; intros acc Hrows.
  - exists []. rewrite app_nil_r. auto.
  - apply Forall_cons in Hrows as [Hrow Hrows]. cbn [map app readLoop List.filter].
    rewrite Read_same_count by lia.
    destruct (accepted row) eqn:Ha.
    + destruct (processRecord_accepted row ltac:(lia) Ha) as (p & E & Hp).
      rewrite E. cbn [res_bind].
      destruct (IH (acc ++ [p]) Hrows) as (recs & E' & HF).
      exists (p :: recs). rewrite E', <- app_assoc. auto.
    + rewrite (processRecord_rejected row ltac:(lia) Ha). cbn [res_bind].
      now apply IH.
Qed.


End CsvParser.



(** ** The utilization history *)

Section Ring.

Lemma ringAdd_length (r : ring) (v : float) : length (ringAdd r v).1 = length r.1.
Proof. unfold ringAdd. simpl. apply length_insert. Qed.

Lemma ringAdd_ok (r : ring) (v : float) : ringOk r -> ringOk (ringAdd r v).
Proof.
  intros [Hi Hm]. split; rewrite ringAdd_length; [|exact Hm].
  unfold ringAdd. simpl. apply Z.mod_pos_bound. lia.
Qed.

Lemma linear_length (r : ring) : ringOk r -> length (linear r) = length r.1.
Proof.
  intros [Hi _]. unfold linear. rewrite length_app, length_drop, length_take. lia.
Qed.

(** An append drops the oldest value and puts the new one last. *)
Lemma linear_ringAdd (r : ring) (v : float) :
  ringOk r -> linear (ringAdd r v) = drop 1 (linear r) ++ [v].
Proof.
  destruct r as [vs i]. intros [Hi Hm]. unfold linear, ringAdd. simpl in *.
  set (k := Z.to_nat i). assert (k < length vs)%nat as Hk by lia.
  assert (vs = take k vs ++ drop k vs) as Hsplit by (symmetry; apply take_drop).
  destruct (drop k vs) as [|x tl] eqn:Hd.
  { apply (f_equal length) in Hd. rewrite length_drop in Hd. simpl in Hd. lia. }
  assert (length (take k vs) = k) as Hlk by (rewrite length_take; lia).
  assert (<[k := v]> vs = take k vs ++ v :: tl) as Hins.
  { rewrite Hsplit at 1. rewrite insert_app_r_alt by lia.
    rewrite Hlk, Nat.sub_diag. reflexivity. }
  assert (length tl = (length vs - k - 1)%nat) as Htl.
  { apply (f_equal length) in Hd. rewrite length_drop in Hd. simpl in Hd. lia. }
  assert (drop 1 ((x :: tl) ++ take k vs) = tl ++ take k vs) as -> by reflexivity.
  rewrite Hins.
  replace (take k vs ++ v :: tl) with ((take k vs ++ [v]) ++ tl)
    by (now rewrite <- app_assoc).
  assert (length (take k vs ++ [v]) = S k) as Hlkv by (rewrite length_app; simpl; lia).
  destruct (decide (i + 1 = Z.of_nat (length vs))) as [Hlast|Hlast].
  - rewrite Hlast, Z.mod_same by lia. change (Z.to_nat 0) with 0%nat.
    assert (tl = []) as -> by (apply length_zero_iff_nil; lia).
    rewrite drop_0, take_0, !app_nil_r. reflexivity.
  - rewrite Z.mod_small by lia.
    replace (Z.to_nat (i + 1)) with (S k) by lia.
    rewrite drop_app_length', take_app_length' by lia.
    now rewrite app_assoc.
Qed.

Lemma fold_ringAdd_ok (vs : list float) (r : ring) :
  ringOk r -> ringOk (fold_left ringAdd vs r).
Proof. revert r. induction vs; simpl; auto using ringAdd_ok. Qed.

Lemma fold_ringAdd_length (vs : list float) (r : ring) :
  length (fold_left ringAdd vs r).1 = length r.1.
Proof.
  revert r. induction vs as [|v vs IH]; intros r; simpl; [reflexivity|].
  now rewrite IH, ringAdd_length.
Qed.

(** After a run of appends the history shows the last values of what it
    showed followed by what was appended. *)
Lemma linear_fold (vs : list float) (r : ring) :
  ringOk r -> linear (fold_left ringAdd vs r) = drop (length vs) (linear r ++ vs).
Proof.
  revert r. induction vs as [|v vs IH]; intros r Hr; simpl.
  - now rewrite app_nil_r.
  - rewrite IH by now apply ringAdd_ok. rewrite linear_ringAdd by exact Hr.
    pose proof (linear_length r Hr) as Hl. destruct Hr as [Hi _].
    destruct (linear r) as [|x tl]; [simpl in Hl; lia|]. simpl.
    rewrite drop_0. now rewrite <- app_assoc.
Qed.

End Ring.

Section History.

Import history.
Local Open Scope heap_scope.

Lemma bind_done {A B} (m : M A) (k : A -> M B) (h h' : Heap) (a : A) :
  m h = Done (a, h') -> bind m k h = k a h'.
Proof. intros E. unfold bind. now rewrite E. Qed.

Lemma wrap64_small (z : Z) : MinInt64 <= z <= MaxInt64 -> wrap64 z = z.
Proof.
  unfold wrap64, MinInt64, MaxInt64. intros H.
  rewrite Z.mod_small by lia. lia.
Qed.

Lemma holds_array_length (h : Heap) (gh a : nat) (r : ring) :
  holds h gh a r -> (a < length (arrays h))%nat.
Proof. intros (_ & Ha & _). now apply lookup_lt_Some in Ha. Qed.

Lemma holds_struct_length (h : Heap) (gh a : nat) (r : ring) :
  holds h gh a r -> (gh < length (structs h))%nat.
Proof. intros (Hs & _). now apply lookup_lt_Some in Hs. Qed.

(** A heap that only grew still holds what it held. *)
Lemma holds_grow (h h' : Heap) (gh a : nat) (r : ring) (xs : list (list float))
    (ys : list GPUHistory) :
  arrays h' = arrays h ++ xs -> structs h' = structs h ++ ys ->
  holds h gh a r -> holds h' gh a r.
Proof.
  intros Ea Es (Hs & Ha & Hr). unfold holds. rewrite Ea, Es.
  repeat split; try apply Hr.
  - now apply lookup_app_l_Some.
  - now apply lookup_app_l_Some.
Qed.

Lemma window_grow (h h' : Heap) (s : Slice) (ws : list float) (xs : list (list float)) :
  arrays h' = arrays h ++ xs -> window h s = Some ws -> window h' s = Some ws.
Proof.
  unfold window. intros Ea H. rewrite Ea.
  destruct (arrays h !! array s) as [arr|] eqn:E; [|discriminate].
  now rewrite (lookup_app_l_Some _ _ _ _ E).
Qed.

Lemma newGPUHistory_spec (n : Z) (h : Heap) :
  1 <= n <= MaxInt64 ->
  exists h',
    newGPUHistory n h = Done (length (structs h), h')
    /\ holds h' (length (structs h)) (length (arrays h)) (replicate (Z.to_nat n) 0%float, 0)
    /\ arrays h' = arrays h ++ [replicate (Z.to_nat n) 0%float]
    /\ exists s, structs h' = structs h ++ [s].
Proof.
  intros Hn. unfold newGPUHistory, bind, make, new.
  replace (n <? 0) with false by (symmetry; apply Z.ltb_ge; lia). simpl.
  eexists. split; [reflexivity|]. simpl. split; [|eauto].
  unfold holds, ringOk. simpl. rewrite length_replicate.
  rewrite !lookup_app_r, !Nat.sub_diag by lia. simpl.
  rewrite Z2Nat.id by lia. repeat split; lia.
Qed.

Lemma add_spec (h : Heap) (gh a : nat) (r : ring) (v : float) :
  holds h gh a r ->
  exists h',
    add gh v h = Done (tt, h')
    /\ holds h' gh a (ringAdd r v)
    /\ length (arrays h') = length (arrays h)
    /\ (forall s, array s <> a -> window h' s = window h s).
Proof.
  intros (Hs & Ha & Hi & Hm). destruct r as [vs i]. simpl in *.
  unfold add, bind, deref, store, assign. rewrite Hs. simpl.
  replace ((0 <=? i) && (i <? Z.of_nat (length vs))) with true
    by (symmetry; apply andb_true_iff; split; [apply Z.leb_le | apply Z.ltb_lt]; lia).
  rewrite Ha. simpl. rewrite Hs. simpl.
  replace (Z.of_nat (length vs) =? 0) with false by (symmetry; apply Z.eqb_neq; lia).
  eexists. split; [reflexivity|].
  pose proof (lookup_lt_Some _ _ _ Ha) as Hla.
  pose proof (lookup_lt_Some _ _ _ Hs) as Hls.
  split; [|split].
  - unfold holds, ringAdd, ringOk. simpl. rewrite !length_insert.
    rewrite list_lookup_insert_eq by lia.
    rewrite list_lookup_insert_eq by lia.
    rewrite wrap64_small by (unfold MinInt64, MaxInt64 in *; lia).
    rewrite Z.rem_mod_nonneg by lia.
    repeat split; try lia; apply Z.mod_pos_bound; lia.
  - simpl. now rewrite length_insert.
  - intros s Hne. unfold window. simpl.
    now rewrite list_lookup_insert_ne by congruence.
Qed.

Lemma addAll_spec (vs : list float) (h : Heap) (gh a : nat) (r : ring) :
  holds h gh a r ->
  exists h',
    addAll gh vs h = Done (tt, h')
    /\ holds h' gh a (fold_left ringAdd vs r)
    /\ length (arrays h') = length (arrays h)
    /\ (forall s, array s <> a -> window h' s = window h s).
Proof.
  revert h r. induction vs as [|v vs IH]; intros h r H; simpl.
  - exists h. unfold ret. auto.
  - destruct (add_spec h gh a r v H) as (h1 & E1 & H1 & L1 & F1).
    destruct (IH h1 _ H1) as (h2 & E2 & H2 & L2 & F2).
    exists h2. rewrite (bind_done _ _ _ _ _ E1).
    split; [exact E2|]. split; [exact H2|]. split; [congruence|].
    intros s Hs. now rewrite F2, F1.
Qed.

Lemma window_whole (h : Heap) (a : nat) (vs : list float) :
  arrays h !! a = Some vs ->
  window h {| array := a; low := 0; len := length vs |} = Some vs.
Proof.
  intros Ha. unfold window. simpl. rewrite Ha, Nat.leb_refl.
  now rewrite drop_0, firstn_all.
Qed.

Lemma state_spec (h : Heap) (gh a : nat) (r : ring) :
  holds h gh a r ->
  state gh h
  = Done ({| values := {| array := a; low := 0; len := length r.1 |};
             maxLen := Z.of_nat (length r.1); index := r.2 |}, r.1, h).
Proof.
  intros (Hs & Ha & _). unfold state, bind, deref, contents, ret. rewrite Hs.
  simpl. now rewrite (window_whole _ _ _ Ha).
Qed.

Lemma make_spec (n : nat) (h : Heap) :
  make (Z.of_nat n) h
  = Done ({| array := length (arrays h); low := 0; len := n |},
          {| arrays := arrays h ++ [replicate n 0%float]; structs := structs h |}).
Proof.
  unfold make. replace (Z.of_nat n <? 0) with false by (symmetry; apply Z.ltb_ge; lia).
  now rewrite Nat2Z.id.
Qed.

Lemma sliceFrom_spec (s : Slice) (lo : nat) (h : Heap) :
  (lo <= len s)%nat ->
  sliceFrom s (Z.of_nat lo) h
  = Done ({| array := array s; low := low s + lo; len := len s - lo |}, h).
Proof.
  intros H. unfold sliceFrom.
  replace ((0 <=? Z.of_nat lo) && (Z.of_nat lo <=? Z.of_nat (len s))) with true
    by (symmetry; apply andb_true_iff; split; apply Z.leb_le; lia).
  now rewrite Nat2Z.id.
Qed.

Lemma sliceTo_spec (s : Slice) (hi : nat) (h : Heap) :
  (hi <= len s)%nat ->
  sliceTo s (Z.of_nat hi) h = Done ({| array := array s; low := low s; len := hi |}, h).
Proof.
  intros H. unfold sliceTo.
  replace ((0 <=? Z.of_nat hi) && (Z.of_nat hi <=? Z.of_nat (len s))) with true
    by (symmetry; apply andb_true_iff; split; apply Z.leb_le; lia).
  now rewrite Nat2Z.id.
Qed.

Lemma copy_spec (dst src : Slice) (h : Heap) (ws arr : list float) :
  window h src = Some ws -> arrays h !! array dst = Some arr ->
  copy dst src h
  = Done (Z.of_nat (Nat.min (len dst) (len src)),
          {| arrays := <[array dst := take (low dst) arr
                                      ++ take (Nat.min (len dst) (len src)) ws
                                      ++ drop (low dst + Nat.min (len dst) (len src)) arr]>
                         (arrays h);
             structs := structs h |}).
Proof.
  intros Hw Ha. unfold copy, bind, contents. now rewrite Hw, Ha.
Qed.

Lemma insert_last {A} (l : list A) (x y : A) : <[length l := x]> (l ++ [y]) = l ++ [x].
Proof. rewrite insert_app_r_alt by lia. now rewrite Nat.sub_diag. Qed.

Lemma window_part (h : Heap) (a lo n : nat) (vs : list float) :
  arrays h !! a = Some vs -> (lo + n <= length vs)%nat ->
  window h {| array := a; low := lo; len := n |} = Some (take n (drop lo vs)).
Proof.
  intros Ha Hn. unfold window. simpl. rewrite Ha.
  now replace (lo + n <=? length vs)%nat with true by (symmetry; apply Nat.leb_le; lia).
Qed.

(** [getData] returns the values in the order of their age, in a slice
    that is either the history's own or a new array; it leaves the structs
    and the arrays there were as they are. *)
Lemma getData_spec (h : Heap) (gh a : nat) (r : ring) :
  holds h gh a r ->
  exists s h',
    getData gh h = Done (s, h')
    /\ window h' s = Some (linear r)
    /\ structs h' = structs h
    /\ (exists xs, arrays h' = arrays h ++ xs)
    /\ (array s = a \/ array s = length (arrays h)).
Proof.
  intros (Hs & Ha & Hi & Hm). destruct r as [vs i]. simpl in *.
  pose proof (lookup_lt_Some _ _ _ Ha) as Hla.
  unfold getData. unfold bind at 1. unfold deref. rewrite Hs. cbn [index values maxLen].
  destruct (decide (i = 0)) as [->|Hnz].
  - rewrite Z.eqb_refl. unfold ret. eexists _, h. split; [reflexivity|].
    split; [|split; [reflexivity | split; [exists []; now rewrite app_nil_r | now left]]].
    rewrite (window_whole _ _ _ Ha). unfold linear. simpl.
    now rewrite drop_0, app_nil_r.
  - replace (i =? 0) with false by (symmetry; apply Z.eqb_neq; lia).
    set (n := length vs) in *. set (k := Z.to_nat i).
    assert (0 < k < n)%nat as Hk by lia.
    assert (i = Z.of_nat k) as Ei by lia.
    rewrite (bind_done _ _ _ _ _ (make_spec n h)).
    set (R := {| array := length (arrays h); low := 0; len := n |}).
    set (h1 := {| arrays := arrays h ++ [replicate n 0%float]; structs := structs h |}).
    rewrite Ei.
    assert (k <= n)%nat as Hkn by lia.
    rewrite (bind_done _ _ _ _ _ (sliceFrom_spec {| array := a; low := 0; len := n |} k h1 Hkn)).
    cbn [array low len].
    assert (arrays h1 !! a = Some vs) as Ha1 by (now apply lookup_app_l_Some).
    assert (arrays h1 !! array R = Some (replicate n 0%float)) as HR1.
    { simpl. rewrite lookup_app_r by lia. now rewrite Nat.sub_diag. }
    erewrite (bind_done (copy R _)); cycle 1.
    { apply copy_spec with (ws := drop k vs) (arr := replicate n 0%float); [|exact HR1].
      rewrite (window_part h1 a (0 + k) (n - k) vs Ha1) by (fold n; lia).
      f_equal. apply take_ge. rewrite length_drop. fold n. lia. }
    cbn [array low len arrays structs R h1].
    rewrite insert_last.
    replace (take 0 (replicate n 0%float) ++ take (Nat.min n (n - k)) (drop k vs)
             ++ drop (0 + Nat.min n (n - k)) (replicate n 0%float))
      with (drop k vs ++ replicate k 0%float); cycle 1.
    { rewrite take_0, app_nil_l. f_equal.
      - symmetry. apply take_ge. rewrite length_drop. fold n. lia.
      - rewrite drop_replicate. f_equal. lia. }
    set (h2 := {| arrays := arrays h ++ [drop k vs ++ replicate k 0%float];
                  structs := structs h |}).
    rewrite wrap64_small by (unfold MinInt64, MaxInt64 in *; lia).
    replace (Z.of_nat n - Z.of_nat k) with (Z.of_nat (n - k)) by lia.
    assert (n - k <= len R)%nat as Hnk by (simpl; lia).
    rewrite (bind_done _ _ _ _ _ (sliceFrom_spec R (n - k) h2 Hnk)).
    rewrite (bind_done _ _ _ _ _
               (sliceTo_spec {| array := a; low := 0; len := n |} k h2 Hkn)).
    cbn [array low len R].
    assert (arrays h2 !! a = Some vs) as Ha2 by (now apply lookup_app_l_Some).
    assert (arrays h2 !! length (arrays h) = Some (drop k vs ++ replicate k 0%float)) as HR2.
    { simpl. rewrite lookup_app_r by lia. now rewrite Nat.sub_diag. }
    erewrite (bind_done (copy _ _)); cycle 1.
    { apply copy_spec with (ws := take k vs) (arr := drop k vs ++ replicate k 0%float);
        [|exact HR2].
      rewrite (window_part h2 a 0 k vs Ha2) by (fold n; lia).
      now rewrite drop_0. }
    cbn [array low len arrays structs h2].
    rewrite insert_last.
    assert (length (drop k vs) = (n - k)%nat) as Hld by (rewrite length_drop; reflexivity).
    replace (take (0 + (n - k)) (drop k vs ++ replicate k 0%float)
             ++ take (Nat.min (n - (n - k)) k) (take k vs)
             ++ drop (0 + (n - k) + Nat.min (n - (n - k)) k)
                     (drop k vs ++ replicate k 0%float))
      with (drop k vs ++ take k vs); cycle 1.
    { rewrite take_app_length' by (simpl; lia).
      replace (Nat.min (n - (n - k)) k) with k by lia.
      rewrite (take_ge (take k vs)) by (rewrite length_take; lia).
      rewrite (drop_ge (drop k vs ++ replicate k 0%float))
        by (rewrite length_app, length_replicate; lia).
      now rewrite app_nil_r. }
    unfold ret. eexists _, _. split; [reflexivity|].
    split; [|split; [reflexivity | split; [eauto | now right]]].
    assert (length (drop k vs ++ take k vs) = n) as Hl
      by (rewrite length_app, length_drop, length_take; fold n; lia).
    subst R. rewrite (window_part _ _ 0 n (drop k vs ++ take k vs)).
    + rewrite drop_0, take_ge by lia. unfold linear. simpl. now rewrite Nat2Z.id.
    + simpl. rewrite lookup_app_r by lia. now rewrite Nat.sub_diag.
    + lia.
Qed.

Lemma window_length (h : Heap) (s : Slice) (ws : list float) :
  window h s = Some ws -> length ws = len s.
Proof.
  unfold window. destruct (arrays h !! array s) as [arr|]; [|discriminate].
  destruct (low s + len s <=? length arr)%nat eqn:E; [|discriminate].
  apply Nat.leb_le in E. intros [= <-]. rewrite length_take, length_drop. lia.
Qed.

Lemma load_window (h : Heap) (s : Slice) (ws : list float) (k : nat) :
  window h s = Some ws -> (k < len s)%nat ->
  exists v, ws !! k = Some v /\ load s (Z.of_nat k) h = Done (v, h).
Proof.
  unfold window, load. intros Hw Hk.
  destruct (arrays h !! array s) as [arr|]; [|discriminate].
  destruct (low s + len s <=? length arr)%nat eqn:E; [|discriminate].
  apply Nat.leb_le in E. injection Hw as <-.
  replace ((0 <=? Z.of_nat k) && (Z.of_nat k <? Z.of_nat (len s))) with true
    by (symmetry; apply andb_true_iff; split; [apply Z.leb_le | apply Z.ltb_lt]; lia).
  rewrite Nat2Z.id.
  destruct (arr !! (low s + k)%nat) as [v|] eqn:Ev.
  - exists v. split; [|reflexivity].
    rewrite lookup_take_lt by lia. now rewrite lookup_drop.
  - apply lookup_ge_None in Ev. lia.
Qed.

(** The loop that replays the old values into the new history. *)
Lemma rangeFrom_spec (s : Slice) (ws : list float) (q aq : nat) (n : nat) :
  forall (k : nat) (h : Heap) (rq : ring),
    window h s = Some ws -> array s <> aq -> holds h q aq rq ->
    (k + n = length ws)%nat ->
    exists h',
      rangeFrom s (Z.of_nat k) n (fun v => add q v) h = Done (tt, h')
      /\ holds h' q aq (fold_left ringAdd (drop k ws) rq).
Proof.
  induction n as [|n IH]; intros k h rq Hw Hne Hq Hkn.
  - exists h. simpl. unfold ret. rewrite drop_ge by lia. auto.
  - pose proof (window_length _ _ _ Hw) as Hlen.
    destruct (load_window h s ws k Hw ltac:(lia)) as (v & Hv & El).
    destruct (add_spec h q aq rq v Hq) as (h1 & Ea & Hq1 & _ & Hf).
    destruct (IH (S k) h1 (ringAdd rq v)) as (h2 & E2 & Hq2); try lia; auto.
    { now rewrite Hf. }
    exists h2. cbn [rangeFrom].
    rewrite (bind_done _ _ _ _ _ El), (bind_done _ _ _ _ _ Ea).
    replace (Z.of_nat k + 1) with (Z.of_nat (S k)) by lia.
    split; [exact E2|].
    now rewrite (drop_S _ _ _ Hv).
Qed.

Lemma resize_spec (h : Heap) (gh a : nat) (r : ring) (m : Z) :
  holds h gh a r -> 1 <= m <= MaxInt64 ->
  exists q aq h',
    resize gh m h = Done (q, h')
    /\ holds h' q aq (fold_left ringAdd (linear r) (replicate (Z.to_nat m) 0%float, 0)).
Proof.
  intros Hg Hm.
  destruct (newGPUHistory_spec m h Hm) as (h1 & E1 & Hq1 & Ea1 & s1 & Es1).
  pose proof (holds_grow h h1 gh a r _ _ Ea1 Es1 Hg) as Hg1.
  destruct (getData_spec h1 gh a r Hg1) as (s & h2 & E2 & Hw & Es2 & (xs & Ea2) & Harr).
  assert (holds h2 (length (structs h)) (length (arrays h))
            (replicate (Z.to_nat m) 0%float, 0)) as Hq2.
  { apply (holds_grow h1 h2 _ _ _ xs []); auto. now rewrite app_nil_r. }
  assert (array s <> length (arrays h)) as Hne.
  { pose proof (holds_array_length _ _ _ _ Hg).
    destruct Harr as [->| ->]; [lia|]. rewrite Ea1, length_app. simpl. lia. }
  pose proof (window_length _ _ _ Hw) as Hlen.
  destruct (rangeFrom_spec s (linear r) _ _ (len s) 0 h2 _ Hw Hne Hq2 ltac:(lia))
    as (h3 & E3 & Hq3).
  exists (length (structs h)), (length (arrays h)), h3.
  unfold resize. rewrite (bind_done _ _ _ _ _ E1), (bind_done _ _ _ _ _ E2).
  unfold range. change 0 with (Z.of_nat 0). rewrite (bind_done _ _ _ _ _ E3).
  unfold ret. now rewrite drop_0 in Hq3.
Qed.

Lemma linearize_spec (h : Heap) (gh a : nat) (r : ring) :
  holds h gh a r ->
  exists h', linearize gh h = Done (linear r, h') /\ holds h' gh a r.
Proof.
  intros Hg.
  destruct (getData_spec h gh a r Hg) as (s & h' & E & Hw & Es & (xs & Ea) & _).
  exists h'. unfold linearize. rewrite (bind_done _ _ _ _ _ E).
  unfold contents. rewrite Hw. split; [reflexivity|].
  apply (holds_grow h h' _ _ _ xs []); auto. now rewrite app_nil_r.
Qed.

(** A history that was made with capacity [n] and given the values [xs]
    shows the last [n] of [n] zeros followed by [xs]. *)
Lemma linear_fresh (n : nat) (xs : list float) :
  (1 <= n)%nat -> Z.of_nat n <= MaxInt64 ->
  ringOk (replicate n 0%float, 0)
  /\ linear (fold_left ringAdd xs (replicate n 0%float, 0))
     = drop (length xs) (replicate n 0%float ++ xs).
Proof.
  intros Hn Hm.
  assert (ringOk (replicate n 0%float, 0)) as Hok
    by (unfold ringOk; simpl; rewrite length_replicate; lia).
  split; [exact Hok|]. rewrite linear_fold by exact Hok.
  unfold linear at 1. simpl. now rewrite drop_0, app_nil_r.
Qed.

(** The capacity [main] asks for lies between 50 and 500, whatever the
    width of the terminal. *)
Lemma calculateDataPoints_bounds (width : Z) :
  50 <= calculateDataPoints width <= 500.
Proof.
  unfold calculateDataPoints.
  destruct (wrap64 (width - 4) <? 50) eqn:E1; [lia|].
  destruct (500 <? wrap64 (width - 4)) eqn:E2; [lia|].
  apply Z.ltb_ge in E1, E2. lia.
Qed.

(** With the cursor at 0 the slice [getData] returns is the history's own
    [values]: a later [add] shows through it. With the cursor elsewhere it
    is a copy. *)
Lemma getData_shares_at_zero :
  returns (g <- newGPUHistory 2 ;; add g 1%float ;; add g 2%float ;;
           data <- getData g ;; add g 3%float ;; contents data) emptyHeap
    [3; 2]%float
  /\ returns (g <- newGPUHistory 2 ;; add g 1%float ;;
              data <- getData g ;; add g 2%float ;; contents data) emptyHeap
       [0; 1]%float.
Proof. split; eexists; vm_compute; reflexivity. Qed.

(** A history right after [newGPUHistory] and a run of [add]. *)
Lemma built_spec (n : Z) (xs : list float) (h : Heap) :
  1 <= n <= MaxInt64 ->
  exists g a h1 h2,
    newGPUHistory n h = Done (g, h1)
    /\ addAll g xs h1 = Done (tt, h2)
    /\ holds h2 g a (fold_left ringAdd xs (replicate (Z.to_nat n) 0%float, 0)).
Proof.
  intros Hn.
  destruct (newGPUHistory_spec n h Hn) as (h1 & E1 & Hq1 & _).
  destruct (addAll_spec xs h1 _ _ _ Hq1) as (h2 & E2 & Hq2 & _).
  eauto 10.
Qed.

(** C2: [n] values appended to a new history of capacity [n] come back
    from [getData] in the order they were appended; after [k] more, what
    comes back is the last [n] of all the values, the oldest [k] gone; and
    [getData] changes neither the struct of the history nor its array, and
    returns the same values when it is called again. *)
Theorem C2_history_round_trip (n : Z) (vs ws : list float) (h : Heap) :
  1 <= n <= MaxInt64 ->
  Z.of_nat (length vs) = n ->
  (length ws <= length vs)%nat ->
  returns (g <- newGPUHistory n ;; addAll g vs ;; linearize g) h vs
  /\ returns (g <- newGPUHistory n ;; addAll g vs ;; addAll g ws ;; linearize g) h
       (lastN (length vs) (vs ++ ws))
  /\ lastN (length vs) (vs ++ ws) = drop (length ws) (vs ++ ws)
  /\ exists st l,
      returns (g <- newGPUHistory n ;; addAll g vs ;; addAll g ws ;;
               before <- state g ;; first <- linearize g ;;
               after <- state g ;; second <- linearize g ;;
               ret (before, first, after, second)) h
        (st, l, st, l).
Proof.
  intros Hn Hvs Hws.
  assert (Z.to_nat n = length vs) as En by lia.
  assert (1 <= length vs)%nat as H1 by lia.
  assert (Z.of_nat (length vs) <= MaxInt64) as H2 by lia.
  destruct (newGPUHistory_spec n h Hn) as (h1 & E1 & Hq1 & _).
  rewrite En in Hq1.
  destruct (addAll_spec vs h1 _ _ _ Hq1) as (h2 & E2 & Hq2 & _).
  destruct (addAll_spec ws h2 _ _ _ Hq2) as (h3 & E3 & Hq3 & _).
  rewrite <- fold_left_app in Hq3.
  destruct (linear_fresh (length vs) vs H1 H2) as [_ Lvs].
  destruct (linear_fresh (length vs) (vs ++ ws) H1 H2) as [_ Lall].
  assert (lastN (length vs) (vs ++ ws) = drop (length ws) (vs ++ ws)) as Elast.
  { unfold lastN. rewrite length_app. f_equal. lia. }
  split; [|split; [|split; [exact Elast|]]].
  - destruct (linearize_spec h2 _ _ _ Hq2) as (h' & E & _).
    exists h'. rewrite (bind_done _ _ _ _ _ E1), (bind_done _ _ _ _ _ E2), E.
    rewrite Lvs. rewrite drop_app_length' by (now rewrite length_replicate).
    reflexivity.
  - destruct (linearize_spec h3 _ _ _ Hq3) as (h' & E & _).
    exists h'.
    rewrite (bind_done _ _ _ _ _ E1), (bind_done _ _ _ _ _ E2), (bind_done _ _ _ _ _ E3), E.
    rewrite Lall, Elast, length_app.
    rewrite <- drop_drop. rewrite drop_app_length' by (now rewrite length_replicate).
    reflexivity.
  - destruct (linearize_spec h3 _ _ _ Hq3) as (h4 & E4 & Hq4).
    destruct (linearize_spec h4 _ _ _ Hq4) as (h5 & E5 & _).
    eexists _, _. exists h5.
    rewrite (bind_done _ _ _ _ _ E1), (bind_done _ _ _ _ _ E2), (bind_done _ _ _ _ _ E3).
    rewrite (bind_done _ _ _ _ _ (state_spec _ _ _ _ Hq3)), (bind_done _ _ _ _ _ E4).
    rewrite (bind_done _ _ _ _ _ (state_spec _ _ _ _ Hq4)), (bind_done _ _ _ _ _ E5).
    reflexivity.
Qed.

(** C1: a history of capacity 10 that was given 1 to 10 last, rebuilt for
    capacity 5 as the resize branch of [main] does it, shows 6 to 10. In
    general the rebuilt history has the new capacity, and the most recent
    min(old capacity, new capacity) values of the old one are its most
    recent values, in the same order. *)
Theorem C1_resize_keeps_most_recent (n m : Z) (pre xs : list float) (h : Heap) :
  1 <= n <= MaxInt64 ->
  1 <= m <= MaxInt64 ->
  returns (g <- newGPUHistory 10 ;;
           addAll g (pre ++ [1; 2; 3; 4; 5; 6; 7; 8; 9; 10]%float) ;;
           g' <- resize g 5 ;; linearize g') h
    [6; 7; 8; 9; 10]%float
  /\ exists old new,
      returns (g <- newGPUHistory n ;; addAll g xs ;;
               old <- linearize g ;;
               g' <- resize g m ;; new <- linearize g' ;;
               ret (old, new)) h
        (old, new)
      /\ length old = Z.to_nat n /\ length new = Z.to_nat m
      /\ lastN (Z.to_nat (Z.min n m)) new = lastN (Z.to_nat (Z.min n m)) old.
Proof.
  intros Hn Hm.
  assert (forall (n m : Z) (ys : list float),
             1 <= n <= MaxInt64 -> 1 <= m <= MaxInt64 ->
             exists old,
               returns (g <- newGPUHistory n ;; addAll g ys ;;
                        old <- linearize g ;;
                        g' <- resize g m ;; new <- linearize g' ;;
                        ret (old, new)) h
                 (old, drop (length old) (replicate (Z.to_nat m) 0%float ++ old))
               /\ old = drop (length ys) (replicate (Z.to_nat n) 0%float ++ ys)
               /\ returns (g <- newGPUHistory n ;; addAll g ys ;;
                           g' <- resize g m ;; linearize g') h
                    (drop (length old) (replicate (Z.to_nat m) 0%float ++ old)))
    as General.
  { clear. intros n m ys Hn Hm.
    destruct (built_spec n ys h Hn) as (g & a & h1 & h2 & E1 & E2 & Hg).
    destruct (linear_fresh (Z.to_nat n) ys ltac:(lia) ltac:(lia)) as [Hok Lold].
    destruct (linear_fresh (Z.to_nat m) (linear (fold_left ringAdd ys (replicate (Z.to_nat n) 0%float, 0)))
                ltac:(lia) ltac:(lia)) as [_ Lnew].
    destruct (linearize_spec h2 _ _ _ Hg) as (h3 & E3 & Hg3).
    destruct (resize_spec h3 _ _ _ m Hg3 Hm) as (q & aq & h4 & E4 & Hq).
    destruct (linearize_spec h4 _ _ _ Hq) as (h5 & E5 & _).
    destruct (resize_spec h2 _ _ _ m Hg Hm) as (q' & aq' & h4' & E4' & Hq').
    destruct (linearize_spec h4' _ _ _ Hq') as (h5' & E5' & _).
    eexists. split; [|split].
    - exists h5.
      rewrite (bind_done _ _ _ _ _ E1), (bind_done _ _ _ _ _ E2), (bind_done _ _ _ _ _ E3).
      rewrite (bind_done _ _ _ _ _ E4), (bind_done _ _ _ _ _ E5).
      unfold ret. rewrite Lnew. reflexivity.
    - exact Lold.
    - exists h5'.
      rewrite (bind_done _ _ _ _ _ E1), (bind_done _ _ _ _ _ E2).
      rewrite (bind_done _ _ _ _ _ E4'), E5', Lnew. reflexivity. }
  split.
  - destruct (General 10 5 (pre ++ [1; 2; 3; 4; 5; 6; 7; 8; 9; 10]%float))
      as (old & _ & Eold & R); [unfold MaxInt64; lia | unfold MaxInt64; lia |].
    assert (old = [1; 2; 3; 4; 5; 6; 7; 8; 9; 10]%float) as ->.
    { rewrite Eold, app_assoc. apply drop_app_length'.
      rewrite !length_app, length_replicate. simpl. lia. }
    exact R.
  - destruct (General n m xs Hn Hm) as (old & R & Eold & _).
    assert (length old = Z.to_nat n) as Lo.
    { rewrite Eold, length_drop, length_app, length_replicate. lia. }
    exists old, (drop (length old) (replicate (Z.to_nat m) 0%float ++ old)).
    split; [exact R|]. split; [exact Lo|].
    assert (length (drop (length old) (replicate (Z.to_nat m) 0%float ++ old)) = Z.to_nat m)
      as Ln by (rewrite length_drop, length_app, length_replicate; lia).
    split; [exact Ln|].
    unfold lastN. rewrite Ln, Lo, drop_drop.
    rewrite drop_app_ge by (rewrite length_replicate; lia).
    rewrite length_replicate. f_equal. lia.
Qed.

End History.

Lemma C2_witness :
  returns (history.bind (history.newGPUHistory 3) (fun g =>
           history.bind (history.addAll g [7; 8; 9]%float) (fun _ =>
           history.linearize g))) history.emptyHeap [7; 8; 9]%float.
Proof.
  apply (C2_history_round_trip 3 [7; 8; 9]%float [1; 2]%float history.emptyHeap);
    [unfold MaxInt64; lia | reflexivity | simpl; lia].
Defined.

Lemma C1_witness :
  returns (history.bind (history.newGPUHistory 10) (fun g =>
           history.bind (history.addAll g ([0; 0]%float ++ [1; 2; 3; 4; 5; 6; 7; 8; 9; 10]%float))
             (fun _ =>
           history.bind (history.resize g 5) (fun g' => history.linearize g'))))
    history.emptyHeap [6; 7; 8; 9; 10]%float.
Proof.
  apply (C1_resize_keeps_most_recent 50 500 [0; 0]%float [] history.emptyHeap);
    unfold MaxInt64; lia.
Defined.

(** ** The process table: events *)

Section Events.

Import process_list.

Lemma titleOf_in_range (column : Z) (reverse : bool) :
  0 <= column <= 3 -> exists title, titleOf column reverse = Done title.
Proof.
  intros H.
  assert (column = 0 \/ column = 1 \/ column = 2 \/ column = 3) as Hc by lia.
  destruct Hc as [->|[->|[->| ->]]]; eexists; reflexivity.
Qed.

(** One event keeps the column in range, and never panics there. *)
Lemma handleProcessListEvents_in_range (e : string) (g : Globals) :
  columnInRange g ->
  exists g', handleProcessListEvents e g = Done g' /\ columnInRange g'.
Proof.
  unfold columnInRange. intros H. unfold handleProcessListEvents.
  destruct (String.eqb e "<Up>").
  { eexists. split; [reflexivity|]. destruct (0 <? SelectedRow g); exact H. }
  destruct (String.eqb e "<Down>").
  { eexists. split; [reflexivity|].
    destruct (SelectedRow g <? Z.of_nat (length (Rows g)) - 1); exact H. }
  destruct (String.eqb e "<Left>").
  { destruct (0 <? selectedColumn g) eqn:E; [|eauto].
    apply Z.ltb_lt in E.
    assert (wrap64 (selectedColumn g - 1) = selectedColumn g - 1) as ->.
    { unfold wrap64. rewrite Z.mod_small; lia. }
    destruct (titleOf_in_range (selectedColumn g - 1) (sortReverse g)) as [t ->]; [lia|].
    simpl. eexists. split; [reflexivity|]. simpl. lia. }
  destruct (String.eqb e "<Right>").
  { change (Z.of_nat (length columns) - 1) with 3.
    destruct (selectedColumn g <? 3) eqn:E; [|eauto].
    apply Z.ltb_lt in E.
    assert (wrap64 (selectedColumn g + 1) = selectedColumn g + 1) as ->.
    { unfold wrap64. rewrite Z.mod_small; lia. }
    destruct (titleOf_in_range (selectedColumn g + 1) (sortReverse g)) as [t ->]; [lia|].
    simpl. eexists. split; [reflexivity|]. simpl. lia. }
  destruct (String.eqb e "<Enter>" || String.eqb e "<Space>"); eauto.
Qed.

Lemma handleAll_in_range (es : list string) (g : Globals) :
  columnInRange g -> exists g', handleAll es g = Done g' /\ columnInRange g'.
Proof.
  revert g. induction es as [|e es IH]; intros g H; simpl; [eauto|].
  destruct (handleProcessListEvents_in_range e g H) as (g1 & -> & H1). simpl.
  now apply IH.
Qed.

(** C9: whatever the events, from the globals [main] starts with the
    selected column is one of 0 to 3 after each of them; the left arrow at
    column 0 and the right arrow at column 3 change nothing. *)
Theorem C9_selected_column_in_range (es : list string) (g : Globals) :
  (exists g', handleAll es initial = Done g' /\ 0 <= selectedColumn g' <= 3)
  /\ (selectedColumn g = 0 -> handleProcessListEvents "<Left>" g = Done g)
  /\ (selectedColumn g = Z.of_nat (length columns) - 1 ->
      handleProcessListEvents "<Right>" g = Done g)
  /\ Z.of_nat (length columns) - 1 = 3.
Proof.
  split; [|split; [|split]].
  - apply handleAll_in_range. unfold columnInRange. simpl. lia.
  - intros H. unfold handleProcessListEvents. simpl. now rewrite H.
  - intros H. unfold handleProcessListEvents. simpl. now rewrite H.
  - reflexivity.
Qed.

End Events.

(** ** [sort.Slice] on short slices *)

Section InsertionSort.

Context {A : Type} (less : A -> A -> bool).

Lemma at_app_here (l1 l2 : list A) (x : A) :
  sort.at_ (l1 ++ x :: l2) (Z.of_nat (length l1)) = Some x.
Proof.
  unfold sort.at_.
  replace (Z.of_nat (length l1) <? 0) with false by (symmetry; apply Z.ltb_ge; lia).
  rewrite Nat2Z.id. now rewrite list_lookup_middle.
Qed.

Lemma Less_adjacent (l1 l2 : list A) (x y : A) :
  sort.Less less (l1 ++ y :: x :: l2) (Z.of_nat (S (length l1))) (Z.of_nat (S (length l1)) - 1)
  = less x y.
Proof.
  unfold sort.Less.
  replace (Z.of_nat (S (length l1)) - 1) with (Z.of_nat (length l1)) by lia.
  rewrite at_app_here.
  replace (l1 ++ y :: x :: l2) with ((l1 ++ [y]) ++ x :: l2) by (now rewrite <- app_assoc).
  replace (S (length l1)) with (length (l1 ++ [y])) by (rewrite length_app; simpl; lia).
  now rewrite at_app_here.
Qed.

Lemma Swap_adjacent (l1 l2 : list A) (x y : A) :
  sort.Swap (l1 ++ y :: x :: l2) (Z.of_nat (S (length l1))) (Z.of_nat (S (length l1)) - 1)
  = l1 ++ x :: y :: l2.
Proof.
  unfold sort.Swap.
  replace (Z.of_nat (S (length l1)) - 1) with (Z.of_nat (length l1)) by lia.
  rewrite at_app_here.
  assert (sort.at_ (l1 ++ y :: x :: l2) (Z.of_nat (S (length l1))) = Some x) as ->.
  { replace (l1 ++ y :: x :: l2) with ((l1 ++ [y]) ++ x :: l2) by (now rewrite <- app_assoc).
    replace (S (length l1)) with (length (l1 ++ [y])) by (rewrite length_app; simpl; lia).
    apply at_app_here. }
  rewrite !Nat2Z.id.
  rewrite (insert_app_r_alt l1) by lia. rewrite Nat.sub_diag. cbn [insert list_insert].
  rewrite (insert_app_r_alt l1) by lia.
  replace (S (length l1) - length l1)%nat with 1%nat by lia. reflexivity.
Qed.

Lemma insertBack_length (x : A) (q : list A) :
  length (insertBack less x q) = S (length q).
Proof.
  induction q as [|y q IH]; simpl; [reflexivity|].
  destruct (less x y); simpl; auto.
Qed.

(** The inner loop puts the element after the sorted part in its place. *)
Lemma insertDown_spec (q : list A) :
  forall (x : A) (rest : list A) (n : nat),
    (length q <= n)%nat ->
    sort.insertDown less n (rev q ++ x :: rest) 0 (Z.of_nat (length q))
    = rev (insertBack less x q) ++ rest.
Proof.
  induction q as [|y q IH]; intros x rest n Hn.
  - destruct n; reflexivity.
  - destruct n as [|n]; [simpl in Hn; lia|].
    cbn [sort.insertDown rev insertBack length].
    replace (0 <? Z.of_nat (S (length q))) with true by (symmetry; apply Z.ltb_lt; lia).
    rewrite <- (length_rev q), <- app_assoc. cbn [app andb].
    rewrite Less_adjacent.
    destruct (less x y).
    + rewrite Swap_adjacent.
      replace (Z.of_nat (S (length (rev q))) - 1) with (Z.of_nat (length q))
        by (rewrite length_rev; lia).
      rewrite IH by (simpl in Hn; lia).
      cbn [rev]. now rewrite <- app_assoc.
    + cbn [rev]. now rewrite <- !app_assoc.
Qed.

Lemma insertionLoop_spec (rest : list A) :
  forall (q : list A) (n : nat),
    (length rest <= n)%nat ->
    sort.insertionLoop less n (rev q ++ rest) 0
      (Z.of_nat (length q + length rest)) (Z.of_nat (length q))
    = insertionSorted less q rest.
Proof.
  induction rest as [|x rest IH]; intros q n Hn.
  - cbn [insertionSorted]. rewrite app_nil_r. destruct n; [reflexivity|].
    cbn [sort.insertionLoop length].
    now replace (Z.of_nat (length q) <? Z.of_nat (length q + 0)) with false
      by (symmetry; apply Z.ltb_ge; lia).
  - destruct n as [|n]; [simpl in Hn; lia|].
    cbn [sort.insertionLoop insertionSorted length].
    replace (Z.of_nat (length q) <? Z.of_nat (length q + S (length rest))) with true
      by (symmetry; apply Z.ltb_lt; lia).
    replace (Z.to_nat (Z.of_nat (length q) - 0)) with (length q) by lia.
    rewrite insertDown_spec by lia.
    replace (Z.of_nat (length q + S (length rest)))
      with (Z.of_nat (length (insertBack less x q) + length rest))
      by (rewrite insertBack_length; lia).
    replace (Z.of_nat (length q) + 1) with (Z.of_nat (length (insertBack less x q)))
      by (rewrite insertBack_length; lia).
    apply IH. simpl in Hn. lia.
Qed.

Lemma insertionSort_func_spec (l : list A) :
  sort.insertionSort_func less l 0 (Z.of_nat (length l)) = insertionSorted less [] l.
Proof.
  unfold sort.insertionSort_func. destruct l as [|x l]; [reflexivity|].
  replace (Z.to_nat (Z.of_nat (length (x :: l)) - 0)) with (S (length l)) by (simpl; lia).
  change (x :: l) with (rev [x] ++ l) at 1.
  change (Z.of_nat (length (x :: l))) with (Z.of_nat (length [x] + length l)).
  change (0 + 1) with (Z.of_nat (length [x])).
  rewrite insertionLoop_spec by lia. reflexivity.
Qed.

(** Up to twelve elements [sort.Slice] is the insertion sort. *)
Lemma Slice_short (l : list A) :
  (length l <= 12)%nat -> sort.Slice less l = Some (insertionSorted less [] l).
Proof.
  intros H. unfold sort.Slice. cbn [sort.pdqsort_func].
  replace (Z.of_nat (length l) - 0 <=? 12) with true by (symmetry; apply Z.leb_le; lia).
  now rewrite insertionSort_func_spec.
Qed.

End InsertionSort.

(** ** [sort.Slice] returns

    The bound [sort.Slice] hands to [pdqsort_func] is never too small:
    the indices a partition returns lie in the range it was given, so that
    each round and each call work on a shorter range. *)

Section SliceTotal.

Context {A : Type} (less : A -> A -> bool).

Lemma countUp_bounds (n : nat) (cond : Z -> bool) (i j : Z) :
  i <= sort.countUp n cond i j <= Z.max i (j + 1).
Proof.
  revert i. induction n as [|n IH]; intros i; simpl; [lia|].
  destruct (i <=? j) eqn:E; simpl; [|lia].
  apply Z.leb_le in E. destruct (cond i); [|lia].
  specialize (IH (i + 1)). lia.
Qed.

Lemma countDown_bounds (n : nat) (cond : Z -> bool) (i j : Z) :
  Z.min (i - 1) j <= sort.countDown n cond i j <= j.
Proof.
  revert j. induction n as [|n IH]; intros j; simpl; [lia|].
  destruct (i <=? j) eqn:E; simpl; [|lia].
  apply Z.leb_le in E. destruct (cond j); [|lia].
  specialize (IH (j - 1)). lia.
Qed.

Lemma partitionLoop_bounds (n : nat) :
  forall (data : list A) (a i j : Z),
    Z.min (i - 1) j <= (sort.partitionLoop less n data a i j).2 <= j.
Proof.
  induction n as [|n IH]; intros data a i j; cbn [sort.partitionLoop]; [simpl; lia|].
  set (i1 := sort.countUp _ _ i j).
  set (j1 := sort.countDown _ _ i1 j).
  pose proof (countUp_bounds (sort.steps i j) (fun i => sort.Less less data i a) i j) as Hi.
  pose proof (countDown_bounds (sort.steps i1 j)
                (fun j => negb (sort.Less less data j a)) i1 j) as Hj.
  fold i1 in Hi. fold j1 in Hj.
  destruct (j1 <? i1) eqn:E; simpl.
  - lia.
  - apply Z.ltb_ge in E.
    specialize (IH (sort.Swap data i1 j1) a (i1 + 1) (j1 - 1)). lia.
Qed.

(** The new place of the pivot lies in the range. *)
Lemma partition_func_bounds (data : list A) (a b pivot : Z) :
  a + 1 <= b ->
  a <= (sort.partition_func less data a b pivot).1.2 <= b - 1.
Proof.
  intros Hab. unfold sort.partition_func.
  set (d0 := sort.Swap data a pivot).
  set (i1 := sort.countUp _ _ (a + 1) (b - 1)).
  set (j1 := sort.countDown _ _ i1 (b - 1)).
  pose proof (countUp_bounds (sort.steps (a + 1) (b - 1))
                (fun i => sort.Less less d0 i a) (a + 1) (b - 1)) as Hi.
  pose proof (countDown_bounds (sort.steps i1 (b - 1))
                (fun j => negb (sort.Less less d0 j a)) i1 (b - 1)) as Hj.
  fold i1 in Hi. fold j1 in Hj.
  destruct (j1 <? i1) eqn:E.
  - cbn [fst snd]. lia.
  - apply Z.ltb_ge in E.
    pose proof (partitionLoop_bounds (S (sort.steps (i1 + 1) (j1 - 1)))
                  (sort.Swap d0 i1 j1) a (i1 + 1) (j1 - 1)) as Hl.
    destruct (sort.partitionLoop less (S _) _ _ _ _) as [d j]. cbn [fst snd] in *. lia.
Qed.

Lemma partitionEqualLoop_bounds (n : nat) :
  forall (data : list A) (a i j : Z),
    i <= (sort.partitionEqualLoop less n data a i j).2.
Proof.
  induction n as [|n IH]; intros data a i j; cbn [sort.partitionEqualLoop]; [simpl; lia|].
  set (i1 := sort.countUp _ _ i j).
  set (j1 := sort.countDown _ _ i1 j).
  pose proof (countUp_bounds (sort.steps i j)
                (fun i => negb (sort.Less less data a i)) i j) as Hi.
  fold i1 in Hi.
  destruct (j1 <? i1); simpl; [lia|].
  specialize (IH (sort.Swap data i1 j1) a (i1 + 1) (j1 - 1)). lia.
Qed.

Lemma partitionEqual_func_bounds (data : list A) (a b pivot : Z) :
  a + 1 <= (sort.partitionEqual_func less data a b pivot).2.
Proof. unfold sort.partitionEqual_func. apply partitionEqualLoop_bounds. Qed.

Lemma pdqsort_func_returns (fuel : nat) :
  forall (data : list A) (a b limit : Z) (wasBalanced wasPartitioned : bool),
    (Z.to_nat (b - a) < fuel)%nat ->
    exists sorted,
      sort.pdqsort_func less fuel data a b limit wasBalanced wasPartitioned = Some sorted.
Proof.
  induction fuel as [|fuel IH]; intros data a b limit wb wp Hf; [lia|].
  cbn [sort.pdqsort_func].
  destruct (b - a <=? 12) eqn:E12; [eauto|]. apply Z.leb_gt in E12.
  destruct (limit =? 0); [eauto|].
  destruct (if negb wb then _ else _) as [d1 limit1].
  destruct (sort.choosePivot_func less d1 a b) as [pivot hint].
  destruct (if sort.isDecreasing hint then _ else _) as [[d2 pivot2] hint2].
  destruct (if wb && wp && sort.isIncreasing hint2 then _ else _) as [d3 sorted].
  destruct sorted; [eauto|].
  destruct ((0 <? a) && negb (sort.Less less d3 (a - 1) pivot2)).
  - pose proof (partitionEqual_func_bounds d3 a b pivot2) as Hm.
    destruct (sort.partitionEqual_func less d3 a b pivot2) as [d4 mid]. simpl in Hm.
    apply IH. lia.
  - pose proof (partition_func_bounds d3 a b pivot2 ltac:(lia)) as Hm.
    destruct (sort.partition_func less d3 a b pivot2) as [[d4 mid] already]. simpl in Hm.
    destruct (mid - a <? b - mid).
    + destruct (IH d4 a mid limit1 true true ltac:(lia)) as [d5 ->].
      apply IH. lia.
    + destruct (IH d4 (mid + 1) b limit1 true true ltac:(lia)) as [d5 ->].
      apply IH. lia.
Qed.

(** [sort.Slice] returns on every slice and with every comparison. *)
Lemma Slice_returns (x : list A) : exists sorted, sort.Slice less x = Some sorted.
Proof. unfold sort.Slice. apply pdqsort_func_returns. lia. Qed.

End SliceTotal.

(** ** [sort.Slice] keeps the length

    Every change to the slice is a [Swap]. *)

Section SliceLength.

Context {A : Type} (less : A -> A -> bool).

Lemma Swap_length (data : list A) (i j : Z) :
  length (sort.Swap data i j) = length data.
Proof.
  unfold sort.Swap. destruct (sort.at_ data i), (sort.at_ data j); auto.
  now rewrite !length_insert.
Qed.

Ltac loop_length IH :=
  repeat match goal with
         | |- context [if ?b then _ else _] => destruct b
         end;
  rewrite ?IH, ?Swap_length; auto.

Lemma insertDown_length (n : nat) :
  forall (data : list A) (a j : Z),
    length (sort.insertDown less n data a j) = length data.
Proof. induction n as [|n IH]; intros; simpl; loop_length IH. Qed.

Lemma insertionLoop_length (n : nat) :
  forall (data : list A) (a b i : Z),
    length (sort.insertionLoop less n data a b i) = length data.
Proof.
  induction n as [|n IH]; intros; simpl; loop_length IH. apply insertDown_length.
Qed.

Lemma insertionSort_func_length (data : list A) (a b : Z) :
  length (sort.insertionSort_func less data a b) = length data.
Proof. apply insertionLoop_length. Qed.

Lemma siftDown_loop_length (n : nat) :
  forall (data : list A) (root hi first : Z),
    length (sort.siftDown_loop less n data root hi first) = length data.
Proof. induction n as [|n IH]; intros; simpl; loop_length IH. Qed.

Lemma heapBuild_length (n : nat) :
  forall (data : list A) (i hi first : Z),
    length (sort.heapBuild less n data i hi first) = length data.
Proof.
  induction n as [|n IH]; intros; simpl; loop_length IH. apply siftDown_loop_length.
Qed.

Lemma heapPop_length (n : nat) :
  forall (data : list A) (i first : Z),
    length (sort.heapPop less n data i first) = length data.
Proof.
  induction n as [|n IH]; intros; simpl; loop_length IH.
  unfold sort.siftDown_func. now rewrite siftDown_loop_length, Swap_length.
Qed.

Lemma heapSort_func_length (data : list A) (a b : Z) :
  length (sort.heapSort_func less data a b) = length data.
Proof. unfold sort.heapSort_func. now rewrite heapPop_length, heapBuild_length. Qed.

Lemma partitionLoop_length (n : nat) :
  forall (data : list A) (a i j : Z),
    length (sort.partitionLoop less n data a i j).1 = length data.
Proof. induction n as [|n IH]; intros; cbn [sort.partitionLoop]; loop_length IH. Qed.

Lemma partition_func_length (data : list A) (a b pivot : Z) :
  length (sort.partition_func less data a b pivot).1.1 = length data.
Proof.
  unfold sort.partition_func.
  match goal with |- context [if ?b then _ else _] => destruct b end.
  - cbn [fst]. now rewrite !Swap_length.
  - match goal with
    | |- context [sort.partitionLoop less ?n ?d ?a ?i ?j] =>
        pose proof (partitionLoop_length n d a i j) as H;
        destruct (sort.partitionLoop less n d a i j) as [d' j']
    end.
    cbn [fst] in *. now rewrite Swap_length, H, !Swap_length.
Qed.

Lemma partitionEqualLoop_length (n : nat) :
  forall (data : list A) (a i j : Z),
    length (sort.partitionEqualLoop less n data a i j).1 = length data.
Proof. induction n as [|n IH]; intros; cbn [sort.partitionEqualLoop]; loop_length IH. Qed.

Lemma partitionEqual_func_length (data : list A) (a b pivot : Z) :
  length (sort.partitionEqual_func less data a b pivot).1 = length data.
Proof. unfold sort.partitionEqual_func. now rewrite partitionEqualLoop_length, Swap_length. Qed.

Lemma shiftLeft_length (n : nat) :
  forall (data : list A) (j : Z), length (sort.shiftLeft less n data j) = length data.
Proof. induction n as [|n IH]; intros; simpl; loop_length IH. Qed.

Lemma shiftRight_length (n : nat) :
  forall (data : list A) (j b : Z), length (sort.shiftRight less n data j b) = length data.
Proof. induction n as [|n IH]; intros; simpl; loop_length IH. Qed.

Lemma partialInsertionLoop_length (n : nat) :
  forall (data : list A) (a b i : Z),
    length (sort.partialInsertionLoop less n data a b i).1 = length data.
Proof.
  induction n as [|n IH]; intros; cbn [sort.partialInsertionLoop]; [reflexivity|].
  repeat match goal with
         | |- context [if ?b then _ else _] => destruct b
         end;
    rewrite ?IH, ?shiftRight_length, ?shiftLeft_length, ?Swap_length; auto.
Qed.

Lemma breakLoop_length (n : nat) :
  forall (data : list A) (a length0 idx modulus random i : Z),
    length (sort.breakLoop n data a length0 idx modulus random i) = length data.
Proof. induction n as [|n IH]; intros; simpl; loop_length IH. Qed.

Lemma breakPatterns_func_length (data : list A) (a b : Z) :
  length (sort.breakPatterns_func data a b) = length data.
Proof.
  unfold sort.breakPatterns_func. destruct (8 <=? b - a); [|reflexivity].
  apply breakLoop_length.
Qed.

Lemma reverseLoop_length (n : nat) :
  forall (data : list A) (i j : Z), length (sort.reverseLoop n data i j) = length data.
Proof. induction n as [|n IH]; intros; simpl; loop_length IH. Qed.

Lemma pdqsort_func_length (fuel : nat) :
  forall (data sorted : list A) (a b limit : Z) (wasBalanced wasPartitioned : bool),
    sort.pdqsort_func less fuel data a b limit wasBalanced wasPartitioned = Some sorted ->
    length sorted = length data.
Proof.
  induction fuel as [|fuel IH]; intros data sorted a b limit wb wp H; [discriminate|].
  cbn [sort.pdqsort_func] in H.
  destruct (b - a <=? 12).
  { injection H as <-. apply insertionSort_func_length. }
  destruct (limit =? 0).
  { injection H as <-. apply heapSort_func_length. }
  assert (length (if negb wb then (sort.breakPatterns_func data a b, limit - 1)
                  else (data, limit)).1 = length data) as L1.
  { destruct wb; simpl; [reflexivity | apply breakPatterns_func_length]. }
  destruct (if negb wb then _ else _) as [d1 limit1]. cbn [fst] in L1.
  destruct (sort.choosePivot_func less d1 a b) as [pivot hint].
  assert (length (if sort.isDecreasing hint
                  then (sort.reverseRange_func d1 a b, b - 1 - (pivot - a),
                        sort.increasingHint)
                  else (d1, pivot, hint)).1.1 = length data) as L2.
  { destruct (sort.isDecreasing hint); cbn [fst]; [|exact L1].
    unfold sort.reverseRange_func. now rewrite reverseLoop_length. }
  destruct (if sort.isDecreasing hint then _ else _) as [[d2 pivot2] hint2].
  cbn [fst] in L2.
  assert (length (if wb && wp && sort.isIncreasing hint2
                  then sort.partialInsertionSort_func less d2 a b
                  else (d2, false)).1 = length data) as L3.
  { destruct (wb && wp && sort.isIncreasing hint2); cbn [fst]; [|exact L2].
    unfold sort.partialInsertionSort_func. now rewrite partialInsertionLoop_length. }
  destruct (if wb && wp && sort.isIncreasing hint2 then _ else _) as [d3 done].
  cbn [fst] in L3.
  destruct done; [now injection H as <-|].
  destruct ((0 <? a) && negb (sort.Less less d3 (a - 1) pivot2)).
  - pose proof (partitionEqual_func_length d3 a b pivot2) as L4.
    destruct (sort.partitionEqual_func less d3 a b pivot2) as [d4 mid]. cbn [fst] in L4.
    rewrite (IH _ _ _ _ _ _ _ H). congruence.
  - pose proof (partition_func_length d3 a b pivot2) as L4.
    destruct (sort.partition_func less d3 a b pivot2) as [[d4 mid] already].
    cbn [fst] in L4.
    destruct (mid - a <? b - mid).
    + destruct (sort.pdqsort_func less fuel d4 a mid limit1 true true) as [d5|] eqn:E5;
        [|discriminate].
      rewrite (IH _ _ _ _ _ _ _ H), (IH _ _ _ _ _ _ _ E5). congruence.
    + destruct (sort.pdqsort_func less fuel d4 (mid + 1) b limit1 true true) as [d5|] eqn:E5;
        [|discriminate].
      rewrite (IH _ _ _ _ _ _ _ H), (IH _ _ _ _ _ _ _ E5). congruence.
Qed.

Lemma Slice_length (x sorted : list A) :
  sort.Slice less x = Some sorted -> length sorted = length x.
Proof. unfold sort.Slice. apply pdqsort_func_length. Qed.

End SliceLength.

(** What the reversed comparison does to the insertion sort, for a
    [less] that is a strict weak order. *)
Section Reversed.

Context {A : Type} (less : A -> A -> bool).

Hypothesis less_asym : forall x y, less x y = true -> less y x = false.
Hypothesis less_negtrans :
  forall x y z, less x y = false -> less y z = false -> less x z = false.

Let notLess (x y : A) : bool := negb (less x y).

Let descending : list A -> Prop := StronglySorted (fun u v => less u v = false).

Lemma insertBack_Forall (P : A -> Prop) (f : A -> A -> bool) (x : A) (q : list A) :
  P x -> Forall P q -> Forall P (insertBack f x q).
Proof.
  intros Hx Hq. induction Hq as [|y q Hy Hq IH]; simpl; [auto|].
  destruct (f x y); auto.
Qed.

Lemma insertBack_descending (x : A) (q : list A) :
  descending q -> descending (insertBack less x q).
Proof.
  unfold descending. induction 1 as [|y q Hq IH Hy]; simpl.
  - repeat constructor.
  - destruct (less x y) eqn:E.
    + constructor; [exact IH|]. apply insertBack_Forall; auto.
    + constructor; [now constructor|]. constructor; [exact E|].
      eapply Forall_impl; [exact Hy|]. intros z Hz. simpl in Hz. eauto.
Qed.

Lemma insertBack_stop (f : A -> A -> bool) (x y : A) (l : list A) :
  f x y = false -> insertBack f x (l ++ [y]) = insertBack f x l ++ [y].
Proof.
  intros H. induction l as [|z l IH]; simpl; [now rewrite H|].
  destruct (f x z); simpl; [now rewrite IH | reflexivity].
Qed.

Lemma insertBack_pass (f : A -> A -> bool) (x : A) (l : list A) :
  Forall (fun z => f x z = true) l -> insertBack f x l = l ++ [x].
Proof.
  induction 1 as [|z l Hz Hl IH]; simpl; [reflexivity|]. now rewrite Hz, IH.
Qed.

Lemma insertBack_rev (x : A) (q : list A) :
  descending q -> rev (insertBack less x q) = insertBack notLess x (rev q).
Proof.
  unfold descending. induction 1 as [|y q Hq IH Hy]; [reflexivity|].
  cbn [insertBack rev]. destruct (less x y) eqn:E.
  - cbn [rev]. rewrite IH. symmetry. apply insertBack_stop.
    unfold notLess. now rewrite E.
  - cbn [rev]. symmetry.
    rewrite <- app_assoc. change ([y] ++ [x]) with ([y; x]).
    replace (rev q ++ [y; x]) with ((rev q ++ [y]) ++ [x]) by (now rewrite <- app_assoc).
    apply insertBack_pass. apply Forall_app. split.
    + apply Forall_rev. eapply Forall_impl; [exact Hy|].
      intros z Hz. simpl in Hz. unfold notLess. erewrite less_negtrans; eauto.
    + constructor; [|constructor]. unfold notLess. now rewrite E.
Qed.

Lemma insertionSorted_reversed (rest : list A) :
  forall q : list A,
    descending q ->
    insertionSorted notLess (rev q) rest = rev (insertionSorted less q rest).
Proof.
  induction rest as [|x rest IH]; intros q Hq; cbn [insertionSorted].
  - reflexivity.
  - rewrite <- insertBack_rev by exact Hq.
    apply IH. now apply insertBack_descending.
Qed.

(** On up to twelve elements, sorting with the comparison negated gives
    the reverse of sorting with the comparison. *)
Lemma Slice_short_reversed (l : list A) :
  (length l <= 12)%nat ->
  exists sorted,
    sort.Slice less l = Some sorted
    /\ sort.Slice (fun x y => negb (less x y)) l = Some (rev sorted).
Proof.
  intros H. exists (insertionSorted less [] l).
  rewrite !Slice_short by exact H. split; [reflexivity|]. f_equal.
  apply (insertionSorted_reversed l []). constructor.
Qed.

End Reversed.

(** ** The order of strings *)

Lemma less_iff (s t : string) : strings.less s t = true <-> String.compare s t = Lt.
Proof. unfold strings.less. destruct (String.compare s t); split; congruence. Qed.

Lemma less_asym (s t : string) : strings.less s t = true -> strings.less t s = false.
Proof.
  unfold strings.less. rewrite (String.compare_antisym t s).
  destruct (String.compare s t); simpl; congruence.
Qed.

Lemma less_negtrans (x y z : string) :
  strings.less x y = false -> strings.less y z = false -> strings.less x z = false.
Proof.
  intros Hxy Hyz. destruct (strings.less x z) eqn:Hxz; [exfalso|reflexivity].
  apply less_iff in Hxz.
  unfold strings.less in Hxy, Hyz.
  destruct (String.compare x y) eqn:Exy; try discriminate.
  - apply String.compare_eq_iff in Exy. subst y. now rewrite Hxz in Hyz.
  - destruct (String.compare y z) eqn:Eyz; try discriminate.
    + apply String.compare_eq_iff in Eyz. subst z. congruence.
    + assert (String.compare y x = Lt) as Lyx
        by (rewrite String.compare_antisym, Exy; reflexivity).
      assert (String.compare z y = Lt) as Lzy
        by (rewrite String.compare_antisym, Eyz; reflexivity).
      apply String_as_OT.cmp_lt in Lyx, Lzy.
      pose proof (String_as_OT.lt_trans _ _ _ Lzy Lyx) as Lzx.
      apply String_as_OT.cmp_lt in Lzx. unfold String_as_OT.cmp in Lzx.
      rewrite String.compare_antisym, Lzx in Hxz. discriminate.
Qed.

(** ** The process table: sorting *)

Section Sorting.

Import process_list.

Lemma itemLess_reversed (column : Z) (x y : ProcessListItem) :
  itemLess column true x y = negb (itemLess column false x y).
Proof. reflexivity. Qed.

Lemma itemLess_asym (column : Z) (x y : ProcessListItem) :
  itemLess column false x y = true -> itemLess column false y x = false.
Proof.
  unfold itemLess.
  repeat match goal with |- context [if ?b then _ else _] => destruct b end;
    auto using less_asym.
  intros H. apply Z.ltb_lt in H. apply Z.ltb_ge. lia.
Qed.

Lemma itemLess_negtrans (column : Z) (x y z : ProcessListItem) :
  itemLess column false x y = false -> itemLess column false y z = false ->
  itemLess column false x z = false.
Proof.
  unfold itemLess.
  repeat match goal with |- context [if ?b then _ else _] => destruct b end;
    eauto using less_negtrans.
  intros H1 H2. apply Z.ltb_ge in H1, H2. apply Z.ltb_ge. lia.
Qed.

Lemma collect_length (processes : list ProcessInfo) :
  forall (maxNameLen maxPIDLen : Z) (items : list ProcessListItem),
    length (collect processes maxNameLen maxPIDLen items).1
    = (length items + length processes)%nat.
Proof.
  induction processes as [|proc rest IH]; intros; simpl; [lia|].
  rewrite IH, length_app. simpl. lia.
Qed.

(** Up to twelve rows, the table in reverse order is the reverse of the
    table, whatever the column. *)
Lemma sortedItems_reversed (column : Z) (processes : list ProcessInfo) :
  (length processes <= 12)%nat ->
  exists items,
    sortedItems column false processes = Some items
    /\ sortedItems column true processes = Some (rev items).
Proof.
  intros H. unfold sortedItems.
  pose proof (collect_length processes 20 8 []) as Hl.
  destruct (collect processes 20 8 []) as [items w]. simpl in Hl.
  apply (Slice_short_reversed (itemLess column false)).
  - apply itemLess_asym.
  - apply itemLess_negtrans.
  - lia.
Qed.

(** [updateProcessList] returns, and leaves the selection and the sort
    state as they are. *)
Lemma updateProcessList_returns (g : Globals) (processes : list ProcessInfo) :
  exists g',
    updateProcessList g processes = Some g'
    /\ selectedColumn g' = selectedColumn g
    /\ sortReverse g' = sortReverse g
    /\ SelectedRow g' = SelectedRow g
    /\ length (Rows g') = (length processes + 2)%nat.
Proof.
  unfold updateProcessList, sortedItems.
  pose proof (collect_length processes 20 8 []) as Hl.
  destruct (collect processes 20 8 []) as [items w]. simpl in Hl.
  destruct (Slice_returns (itemLess (selectedColumn g) (sortReverse g)) items) as [sorted E].
  rewrite E. eexists. repeat split. simpl. rewrite length_map.
  rewrite (Slice_length _ _ _ E). lia.
Qed.

End Sorting.

(** C7, as the specification has it, holds for every list. With thirteen
    processes of one name [sort.Slice] leaves its insertion sort: sorted by
    name the rows keep their order, and sorted in reverse they do not come
    out in the reverse of it. *)
Lemma C7_counterexample_thirteen_ties :
  fmap (M := option) (map process_list.pid) (process_list.sortedItems 1 false thirteen)
  = Some ["101"; "102"; "103"; "104"; "105"; "106"; "107"; "108"; "109"; "110";
          "111"; "112"; "113"]
  /\ fmap (M := option) (map process_list.pid) (process_list.sortedItems 1 true thirteen)
    = Some ["112"; "111"; "110"; "109"; "108"; "101"; "106"; "105"; "104"; "103";
            "102"; "113"; "107"]
  /\ fmap (M := option) (@rev _) (process_list.sortedItems 1 false thirteen)
     <> process_list.sortedItems 1 true thirteen.
Proof.
  split; [vm_compute; reflexivity|]. split; [vm_compute; reflexivity|].
  vm_compute. discriminate.
Qed.

(** * Further properties of the sources

    ** The labeled-block process parser: panics, names and devices *)

Lemma fieldsFrom_pending (s : string) :
  forall (c : ascii) (cur : string), strings.fieldsFrom s (String c cur) <> [].
Proof.
  induction s as [|c0 r0 IH]; intros c cur; cbn [strings.fieldsFrom]; [discriminate|].
  destruct (strings.asciiSpace c0); [discriminate|].
  destruct r0 as [|c1 r1]; [apply IH|].
  destruct (strings.space2 c0 c1); [discriminate|].
  destruct r1 as [|c2 r2]; [apply IH|].
  destruct (strings.space3 c0 c1 c2); [discriminate | apply IH].
Qed.

(** A device line has at least one field: its marker. *)
Lemma Fields_device (line : string) :
  deviceLine line = true -> (1 <= length (strings.Fields line))%nat.
Proof.
  unfold deviceLine, strings.Fields. intros H.
  destruct line as [|g [|p [|u [|c rest]]]];
    cbn [strings.HasPrefix] in H; rewrite ?andb_false_r in H; try discriminate.
  repeat (apply andb_true_iff in H as [? H]).
  repeat match goal with E : Ascii.eqb _ _ = true |- _ => apply Ascii.eqb_eq in E; subst end.
  change (strings.fieldsFrom (String "G" (String "P" (String "U" (String ":" rest)))) "")
    with (strings.fieldsFrom (String "P" (String "U" (String ":" rest))) "G").
  pose proof (fieldsFrom_pending (String "P" (String "U" (String ":" rest))) "G" "") as Hne.
  destruct (strings.fieldsFrom _ _); [congruence | simpl; lia].
Qed.

Section BlockParserRecords.

Variable ParseFloat : FloatParser.

Import gpu_metrics.

Lemma scanLine_bare_device (st : scanState) (line : string) :
  readable line = false ->
  scanLine ParseFloat st line = Panicked (IndexOutOfRange 1 1).
Proof.
  intros Hr. unfold readable in Hr. apply orb_false_iff in Hr as [Hd Hl].
  apply negb_false_iff in Hd. apply Nat.leb_gt in Hl.
  pose proof (Fields_device line Hd) as H1.
  unfold scanLine. unfold deviceLine in Hd. rewrite Hd.
  rewrite index_out_of_range by lia.
  replace (length (strings.Fields line)) with 1%nat by lia. reflexivity.
Qed.

Lemma scanLines_bare_device (lines : list string) :
  forall st : scanState,
    forallb readable lines = false ->
    scanLines ParseFloat st lines = Panicked (IndexOutOfRange 1 1).
Proof.
  induction lines as [|line rest IH]; intros st H; simpl in H; [discriminate|].
  cbn [scanLines]. destruct (readable line) eqn:Hr.
  - destruct (scanLine_total ParseFloat st line Hr) as [st1 E]. rewrite E. simpl.
    now apply IH.
  - now rewrite scanLine_bare_device.
Qed.

(** X1: when some line begins with the device marker and has no second
    field (the marker alone, or the index written against the colon),
    [getProcessInfo] panics on [fields[1]] with index 1 out of range for
    length 1, whatever the other lines hold. *)
Theorem X1_bare_device_line_panics (lines : list string) :
  forallb readable lines = false ->
  getProcessInfo ParseFloat (CmdOutput lines) = Panicked (IndexOutOfRange 1 1).
Proof.
  intros H. unfold getProcessInfo.
  now rewrite scanLines_bare_device.
Qed.

Lemma flushLast_same (st st' : scanState) :
  processes st' = processes st -> currentProcess st' = currentProcess st ->
  flushLast st' = flushLast st.
Proof. unfold flushLast. now intros -> ->. Qed.

Lemma nonEmpty_eqb (s : string) : nonEmpty s = negb (String.eqb s "").
Proof. reflexivity. Qed.

Lemma scanLine_names (st st' : scanState) (line : string) :
  scanLine ParseFloat st line = Done st' ->
  map Name (flushLast st')
  = map Name (flushLast st) ++ (if startsRecord line then [nameText line] else []).
Proof.
  intros H. destruct (line_kinds line) as [Hd | [Hn | [Hd Hn]]].
  - assert (startsRecord line = false) as ->
      by (unfold startsRecord, nameLine; now rewrite Hd).
    destruct (readable line) eqn:Hr.
    + destruct (scanLine_device ParseFloat st line Hd Hr) as [gpu E].
      rewrite E in H. injection H as <-.
      rewrite (flushLast_same st) by reflexivity. now rewrite app_nil_r.
    + rewrite scanLine_bare_device in H by exact Hr. discriminate.
  - rewrite (scanLine_name ParseFloat st line Hn) in H. injection H as <-.
    unfold startsRecord. rewrite Hn. cbn [andb]. unfold flushLast at 1.
    cbn [currentProcess processes set_Name Name]. rewrite nonEmpty_eqb.
    fold (flushLast st).
    destruct (String.eqb (nameText line) ""); cbn [negb].
    + now rewrite app_nil_r.
    + now rewrite map_app.
  - assert (startsRecord line = false) as ->
      by (unfold startsRecord, nameLine; now rewrite Hn, andb_false_r).
    destruct (scanLine_other ParseFloat st line Hd Hn) as (cur & E & _ & Hname).
    rewrite E in H. injection H as <-. rewrite app_nil_r.
    unfold flushLast. cbn [currentProcess processes]. rewrite Hname.
    destruct (String.eqb (Name (currentProcess st)) ""); [reflexivity|].
    rewrite !map_app. cbn [map]. now rewrite Hname.
Qed.

Lemma scanLines_names (lines : list string) :
  forall st st' : scanState,
    scanLines ParseFloat st lines = Done st' ->
    map Name (flushLast st')
    = map Name (flushLast st) ++ map nameText (List.filter startsRecord lines).
Proof.
  induction lines as [|line rest IH]; intros st st' H; simpl in H.
  - injection H as <-. now rewrite app_nil_r.
  - destruct (scanLine ParseFloat st line) as [st1| |] eqn:E; simpl in H; try discriminate.
    rewrite (IH _ _ H), (scanLine_names _ _ _ E). cbn [List.filter].
    destruct (startsRecord line); cbn [map]; now rewrite <- app_assoc.
Qed.

(** X2: the names of the records [getProcessInfo] returns are the name
    texts of the lines that start a record, one for one and in the order of
    the lines; no record has an empty name. *)
Theorem X2_names_in_order (lines : list string) (recs : list ProcessInfo) :
  getProcessInfo ParseFloat (CmdOutput lines) = Done recs ->
  map Name recs = map nameText (List.filter startsRecord lines)
  /\ Forall (fun r => Name r <> "") recs.
Proof.
  intros H. unfold getProcessInfo in H.
  destruct (scanLines ParseFloat initialState lines) as [st| |] eqn:E; simpl in H;
    try discriminate.
  injection H as <-.
  pose proof (scanLines_names _ _ _ E) as Hn. cbn in Hn.
  split; [exact Hn|].
  assert (Forall (fun n : string => n <> "") (map Name (flushLast st))) as HF.
  { rewrite Hn. apply List.Forall_forall. intros n Hin.
    apply List.in_map_iff in Hin as (l & <- & Hl).
    apply List.filter_In in Hl as [_ Hl]. unfold startsRecord in Hl.
    apply andb_true_iff in Hl as [_ Hl]. unfold nonEmpty in Hl.
    apply negb_true_iff in Hl. intros Heq. rewrite Heq in Hl. discriminate. }
  clear -HF. induction (flushLast st) as [|r l IH]; [constructor|].
  cbn [map] in HF. inversion HF; subst. constructor; auto.
Qed.

Lemma scanLine_device_index (st : scanState) (line : string) :
  deviceLine line = true -> readable line = true ->
  scanLine ParseFloat st line =
    Done {| processes := processes st; currentGPU := deviceIndex line;
            currentProcess := currentProcess st |}.
Proof.
  intros Hd Hr. unfold scanLine. unfold deviceLine in Hd. rewrite Hd.
  unfold readable, deviceLine in Hr. rewrite Hd in Hr. cbn [negb orb] in Hr.
  apply Nat.leb_le in Hr.
  rewrite (index_in_range _ 1 "") by lia. reflexivity.
Qed.

Lemma readable_not_device (lines : list string) :
  forallb (fun l => negb (deviceLine l)) lines = true -> forallb readable lines = true.
Proof.
  induction lines as [|l lines IH]; simpl; [reflexivity|].
  intros H. apply andb_true_iff in H as [H1 H2]. unfold readable. rewrite H1. simpl. auto.
Qed.


(** Two states that lead to the same result stay so, line after line. *)
Lemma scanLine_sameResult (st1 st2 : scanState) (line : string) :
  sameResult st1 st2 ->
  match scanLine ParseFloat st1 line, scanLine ParseFloat st2 line with
  | Done s1, Done s2 => sameResult s1 s2
  | Panicked p1, Panicked p2 => p1 = p2
  | _, _ => False
  end.
Proof.
  intros (Hp & Hg & Hc).
  destruct (line_kinds line) as [Hd | [Hn | [Hd Hn]]].
  - destruct (readable line) eqn:Hr.
    + rewrite !scanLine_device_index by assumption.
      unfold sameResult. cbn. auto.
    + now rewrite !scanLine_bare_device.
  - rewrite !(scanLine_name ParseFloat _ line Hn). unfold sameResult. cbn.
    rewrite Hg. split; [|auto].
    destruct Hc as [-> | [-> ->]]; now rewrite Hp.
  - destruct (scanLine_other ParseFloat st1 line Hd Hn) as (c1 & E1 & _ & N1).
    destruct (scanLine_other ParseFloat st2 line Hd Hn) as (c2 & E2 & _ & N2).
    destruct Hc as [Hc | [Hc1 Hc2]].
    + assert (st1 = st2) as -> by (destruct st1, st2; simpl in *; congruence).
      rewrite E2. unfold sameResult. auto.
    + rewrite E1, E2. unfold sameResult. cbn. rewrite N1, N2. auto.
Qed.

Lemma scanLines_sameResult (lines : list string) :
  forall st1 st2 : scanState,
    sameResult st1 st2 ->
    res_bind (scanLines ParseFloat st1 lines) (fun st => Done (flushLast st))
    = res_bind (scanLines ParseFloat st2 lines) (fun st => Done (flushLast st)).
Proof.
  induction lines as [|line rest IH]; intros st1 st2 H; cbn [scanLines].
  - cbn [res_bind]. f_equal. destruct H as (Hp & _ & [Hc | [Hc1 Hc2]]).
    + now apply flushLast_same.
    + unfold flushLast. now rewrite Hc1, Hc2.
  - pose proof (scanLine_sameResult st1 st2 line H) as Hs.
    destruct (scanLine ParseFloat st1 line) as [s1|e1|p1],
             (scanLine ParseFloat st2 line) as [s2|e2|p2]; try contradiction.
    + cbn [res_bind]. now apply IH.
    + now subst.
Qed.

Lemma scanLines_leading (pre rest : list string) :
  forall st1 st2 : scanState,
    forallb (fun l => negb (nameLine l)) pre = true ->
    sameResult st1 st2 ->
    Name (currentProcess st1) = "" -> Name (currentProcess st2) = "" ->
    res_bind (scanLines ParseFloat st1 (pre ++ rest)) (fun st => Done (flushLast st))
    = res_bind (scanLines ParseFloat st2 (List.filter deviceLine pre ++ rest))
        (fun st => Done (flushLast st)).
Proof.
  induction pre as [|l pre IH]; intros st1 st2 Hpre H N1 N2.
  - now apply scanLines_sameResult.
  - cbn [forallb] in Hpre. apply andb_true_iff in Hpre as [Hl Hpre].
    apply negb_true_iff in Hl. cbn [List.filter app].
    destruct (deviceLine l) eqn:Hd.
    + cbn [app scanLines]. destruct (readable l) eqn:Hr.
      * rewrite !scanLine_device_index by assumption. cbn [res_bind].
        destruct H as (Hp & Hg & _).
        apply IH; auto. unfold sameResult. cbn. auto.
      * now rewrite !scanLine_bare_device.
    + cbn [scanLines].
      assert (holdsNameMarker l = false) as Hn
        by (unfold nameLine in Hl; rewrite Hd in Hl; exact Hl).
      destruct (scanLine_other ParseFloat st1 l Hd Hn) as (c1 & E1 & _ & Hname).
      rewrite E1. cbn [res_bind].
      destruct H as (Hp & Hg & _).
      apply IH; auto.
      * unfold sameResult. cbn. rewrite Hname. auto.
      * cbn. now rewrite Hname.
Qed.

(** X4: the lines above the first name line leave nothing in the result
    but the device they set: the result is the same without those of them
    that are no device lines, whatever attributes they hold. *)
Theorem X4_lines_before_first_name (pre rest : list string) :
  forallb (fun l => negb (nameLine l)) pre = true ->
  getProcessInfo ParseFloat (CmdOutput (pre ++ rest))
  = getProcessInfo ParseFloat (CmdOutput (List.filter deviceLine pre ++ rest)).
Proof.
  intros H. unfold getProcessInfo.
  apply scanLines_leading; auto. unfold sameResult. auto.
Qed.

Lemma Split_sep (p s : string) (c : ascii) :
  hasByte c p = false -> strings.Split (p ++ String c s) c = p :: strings.Split s c.
Proof.
  induction p as [|a p IH]; intros H; cbn [String.append strings.Split].
  - now rewrite Ascii.eqb_refl.
  - cbn [hasByte] in H. apply orb_false_iff in H as [Ha Hp].
    rewrite Ha, (IH Hp). reflexivity.
Qed.

(** X5: the text the parser takes from a line lies between its first
    colon and its second: what follows a second colon is dropped, so that
    a name with a colon in it is cut there. *)
Theorem X5_text_cut_at_second_colon (st : scanState) (p a b : string) :
  hasByte ":" p = false -> hasByte ":" a = false ->
  colonField (p ++ ":" ++ a ++ ":" ++ b) = Done a
  /\ (nameLine (p ++ ":" ++ a ++ ":" ++ b) = true ->
      exists st',
        scanLine ParseFloat st (p ++ ":" ++ a ++ ":" ++ b) = Done st'
        /\ Name (currentProcess st') = strings.TrimSpace a).
Proof.
  intros Hp Ha.
  assert (strings.Split (p ++ ":" ++ a ++ ":" ++ b) ":" = p :: a :: strings.Split b ":") as ES.
  { change (p ++ ":" ++ a ++ ":" ++ b)%string with (p ++ String ":" (a ++ String ":" b))%string.
    now rewrite !Split_sep. }
  split.
  - unfold colonField. rewrite ES.
    rewrite (index_in_range _ 1 "") by (cbn [length]; lia). reflexivity.
  - intros Hn. rewrite (scanLine_name ParseFloat st _ Hn). eexists. split; [reflexivity|].
    cbn [currentProcess set_Name Name]. unfold nameText. now rewrite ES.
Qed.

End BlockParserRecords.

Lemma X1_witness :
  gpu_metrics.getProcessInfo strconv.ParseFloatDecimal
    (CmdOutput ["GPU: 0"; "    NAME: python"; "GPU:1"; "    NAME: ollama"])
  = Panicked (IndexOutOfRange 1 1).
Proof.
  apply (X1_bare_device_line_panics strconv.ParseFloatDecimal). reflexivity.
Defined.

Lemma X2_witness :
  map Name [sampleProcess 0 "python" "4242" ""; sampleProcess 1 "ollama" "" ""]
  = map nameText
      (List.filter startsRecord
         ["GPU: 0"; "    NAME: python"; "    PID: 4242";
          "GPU: 1"; "    NAME:"; "    NAME: ollama"])
  /\ Forall (fun r => Name r <> "")
       [sampleProcess 0 "python" "4242" ""; sampleProcess 1 "ollama" "" ""].
Proof.
  apply (X2_names_in_order strconv.ParseFloatDecimal
           ["GPU: 0"; "    NAME: python"; "    PID: 4242";
            "GPU: 1"; "    NAME:"; "    NAME: ollama"]).
  vm_compute. reflexivity.
Defined.


Lemma X4_witness :
  gpu_metrics.getProcessInfo strconv.ParseFloatDecimal
    (CmdOutput (["    PID: 1"; "GPU: 3"; "    GFX: 5 ns"] ++ ["    NAME: python"]))
  = gpu_metrics.getProcessInfo strconv.ParseFloatDecimal
      (CmdOutput (List.filter deviceLine ["    PID: 1"; "GPU: 3"; "    GFX: 5 ns"]
                  ++ ["    NAME: python"])).
Proof.
  apply (X4_lines_before_first_name strconv.ParseFloatDecimal). reflexivity.
Defined.

Lemma X5_witness :
  gpu_metrics.colonField ("    NAME" ++ ":" ++ " python3" ++ ":" ++ "worker")%string
  = Done " python3"
  /\ (nameLine ("    NAME" ++ ":" ++ " python3" ++ ":" ++ "worker")%string = true ->
      exists st',
        gpu_metrics.scanLine strconv.ParseFloatDecimal gpu_metrics.initialState
          ("    NAME" ++ ":" ++ " python3" ++ ":" ++ "worker")%string
        = Done st'
        /\ Name (gpu_metrics.currentProcess st') = strings.TrimSpace " python3").
Proof.
  apply (X5_text_cut_at_second_colon strconv.ParseFloatDecimal); reflexivity.
Defined.

(** X6: for the decimal text of an integer [n], the usage is the
    percentage of a second when [n] is positive and at most the largest
    [int64]; it is "0.0%" for every other [n], those past the largest
    [int64] among them, for which [strconv.ParseInt] reports a range
    error. *)
Theorem X6_gfx_usage_of_decimal (n : Z) :
  gpu_metrics.gfxUsage (fmt.itoa n)
  = if (0 <? n) && (n <=? MaxInt64)
    then (fmt.fixed1 (fmt.float64 n / 1e9 * 100)%float ++ "%")%string
    else "0.0%".
Proof.
  unfold gpu_metrics.gfxUsage. rewrite ParseInt_itoa. unfold MinInt64, MaxInt64.
  destruct (n <? - 2 ^ 63) eqn:E1.
  - apply Z.ltb_lt in E1.
    now replace (0 <? n) with false by (symmetry; apply Z.ltb_ge; lia).
  - apply Z.ltb_ge in E1. destruct (2 ^ 63 - 1 <? n) eqn:E2.
    + apply Z.ltb_lt in E2.
      replace (n <=? 2 ^ 63 - 1) with false by (symmetry; apply Z.leb_gt; lia).
      now rewrite andb_false_r.
    + apply Z.ltb_ge in E2.
      replace (n <=? 2 ^ 63 - 1) with true by (symmetry; apply Z.leb_le; lia).
      now rewrite andb_true_r.
Qed.

(** ** The device metrics parser: what it reads *)

Section MetricsParserFields.

Variable ParseFloat : FloatParser.

Import gpu_metrics.

Lemma metricsRow_same (l1 l2 : string) :
  sameMetricsRow l1 l2 -> metricsRow ParseFloat l1 = metricsRow ParseFloat l2.
Proof.
  intros [Hw Hf]. destruct (wideRow l1) eqn:W1; symmetry in Hw.
  - specialize (Hf eq_refl).
    destruct (metricsRow_wide ParseFloat l1 W1) as (m1 & -> & R1).
    destruct (metricsRow_wide ParseFloat l2 Hw) as (m2 & -> & R2).
    do 2 f_equal. unfold rowRecord in R1, R2.
    destruct R1 as (A0 & _ & _ & A1 & A2 & A3 & A4 & A5 & A6 & A7 & A15 & A16).
    destruct R2 as (B0 & _ & _ & B1 & B2 & B3 & B4 & B5 & B6 & B7 & B15 & B16).
    destruct m1, m2. cbn in *. subst.
    rewrite !Hf by (unfold metricsFields; simpl; tauto). reflexivity.
  - now rewrite !metricsRow_narrow.
Qed.

Lemma metricsLoop_same (rows1 rows2 : list string) :
  Forall2 sameMetricsRow rows1 rows2 ->
  forall acc, metricsLoop ParseFloat rows1 acc = metricsLoop ParseFloat rows2 acc.
Proof.
  induction 1 as [|l1 l2 rows1 rows2 Hl _ IH]; intros acc; cbn [metricsLoop]; [reflexivity|].
  rewrite (metricsRow_same l1 l2 Hl).
  destruct (metricsRow ParseFloat l2) as [[m|]| |]; cbn [res_bind]; auto.
Qed.

(** X7: [getGPUMetrics] reads of its input the fields 0 to 7, 15 and 16 of
    the rows below the first line, and whether a row has 17 fields: two
    outputs that agree in these give the same result, whatever their first
    lines, their fields 8 to 14 and their fields past the 17th. *)
Theorem X7_metrics_fields_read (h1 h2 : string) (rows1 rows2 : list string) :
  Forall2 sameMetricsRow rows1 rows2 ->
  getGPUMetrics ParseFloat (CmdOutput (h1 :: rows1))
  = getGPUMetrics ParseFloat (CmdOutput (h2 :: rows2)).
Proof.
  intros H. unfold getGPUMetrics. cbn [tail]. now apply metricsLoop_same.
Qed.

(** X8: a row of 17 fields or more whose first field is the decimal text
    of an integer [n] gives a record with the device index [n], cut off at
    the bounds of [int] when [n] lies outside of them. *)
Theorem X8_device_index_of_decimal (line : string) (n : Z) :
  wideRow line = true -> fieldOf line 0 = fmt.itoa n ->
  exists m,
    metricsRow ParseFloat line = Done (Some m)
    /\ ID m = Z.max MinInt64 (Z.min MaxInt64 n).
Proof.
  intros W F. destruct (metricsRow_wide ParseFloat line W) as (m & E & R).
  exists m. split; [exact E|]. destruct R as (R0 & _).
  rewrite R0, F. unfold strconv.Atoi. rewrite ParseInt_itoa.
  unfold MinInt64, MaxInt64.
  destruct (n <? - 2 ^ 63) eqn:E1; [apply Z.ltb_lt in E1; cbn [fst]; lia|].
  apply Z.ltb_ge in E1.
  destruct (2 ^ 63 - 1 <? n) eqn:E2;
    [apply Z.ltb_lt in E2 | apply Z.ltb_ge in E2]; cbn [fst]; lia.
Qed.

End MetricsParserFields.

Lemma X7_witness :
  gpu_metrics.getGPUMetrics strconv.ParseFloatDecimal
    (CmdOutput ["gpu,power"; "0,95,41,38,12,132,0,900,a,b,c,d,e,f,g,283,196592"; "1,2"])
  = gpu_metrics.getGPUMetrics strconv.ParseFloatDecimal
      (CmdOutput [""; "0,95,41,38,12,132,0,900,,,,,,,,283,196592,more"; ""]).
Proof.
  apply (X7_metrics_fields_read strconv.ParseFloatDecimal).
  constructor; [split; [reflexivity|] |].
  - intros _ k Hk. unfold metricsFields in Hk. simpl in Hk.
    repeat (destruct Hk as [<-|Hk]; [reflexivity|]). contradiction.
  - constructor; [split; [reflexivity | discriminate] | constructor].
Defined.

Lemma X8_witness :
  exists m,
    gpu_metrics.metricsRow strconv.ParseFloatDecimal
      "-3,95,41,38,12,132,0,900,0,0,29,22,0,0,0,283,196592"
    = Done (Some m)
    /\ ID m = Z.max MinInt64 (Z.min MaxInt64 (-3)).
Proof.
  apply (X8_device_index_of_decimal strconv.ParseFloatDecimal); reflexivity.
Defined.

(** ** The CSV process parser: records with too few fields *)

Section CsvParserShort.

Variable ParseFloat : FloatParser.

Import gpu_metrics_csv.

Lemma processRecord_short (record : list string) :
  (length record < 9)%nat ->
  (length record < 2)%nat \/ accepted record = true ->
  processRecord ParseFloat record
  = Panicked (IndexOutOfRange (firstMissing (Z.of_nat (length record)))
                (Z.of_nat (length record))).
Proof.
  intros Hlen Ha.
  destruct record as [|r0 [|r1 rest]]; [reflexivity | reflexivity |].
  destruct Ha as [Ha|Ha]; [simpl in Ha; lia|].
  unfold accepted in Ha. cbn [nth] in Ha.
  apply andb_true_iff in Ha as [Hm Hi]. apply negb_true_iff in Hm.
  unfold processRecord.
  rewrite (index_in_range _ 1 "") by (cbn [length]; lia). cbn [res_bind].
  change (Z.to_nat 1) with 1%nat. cbn [nth]. rewrite Hm.
  rewrite (index_in_range _ 0 "") by (cbn [length]; lia). cbn [res_bind].
  change (Z.to_nat 0) with 0%nat. cbn [nth].
  destruct (strconv.Atoi r0) as [gpuID [e|]]; [discriminate|].
  destruct rest as [|r2 [|r3 [|r4 [|r5 [|r6 [|r7 [|r8 rest]]]]]]];
    try reflexivity.
  simpl in Hlen. lia.
Qed.

Lemma readLoop_passed (n : nat) (passed : list (list string)) (pending : list CsvRecord)
    (acc : list ProcessInfo) :
  (1 <= n)%nat ->
  Forall (fun r => length r = n /\ (2 <= length r)%nat /\ accepted r = false) passed ->
  readLoop ParseFloat (map CsvFields passed ++ pending) (Z.of_nat n) acc
  = readLoop ParseFloat pending (Z.of_nat n) acc.
Proof.
  intros Hn. induction 1 as [|row rows (Hl & H2 & Ha) _ IH]; [reflexivity|].
  cbn [map app readLoop]. rewrite Read_same_count by lia.
  rewrite (processRecord_rejected ParseFloat row H2 Ha). cbn [res_bind]. exact IH.
Qed.

(** X9: when the header has fewer than nine fields, the first record that
    is not passed over makes [getProcessInfo] panic: the record has as
    many fields as the header, and the parser indexes it up to 8. A record
    is passed over for the marker of an idle device or for a device index
    that does not parse; a record of a single field panics at once, on
    [record[1]]. *)
Theorem X9_short_records_panic (header row : list string) (passed : list (list string))
    (rest : list CsvRecord) :
  (1 <= length header < 9)%nat ->
  Forall (fun r => length r = length header /\ (2 <= length r)%nat /\ accepted r = false)
    passed ->
  length row = length header ->
  (length row < 2)%nat \/ accepted row = true ->
  getProcessInfo ParseFloat
    (CmdOutput (CsvFields header :: map CsvFields passed ++ CsvFields row :: rest))
  = Panicked (IndexOutOfRange (firstMissing (Z.of_nat (length row)))
                (Z.of_nat (length row))).
Proof.
  intros Hn Hpassed Hrow Ha. unfold getProcessInfo.
  assert (Read (CsvFields header) 0 = (header, None, Z.of_nat (length header))) as ->
    by reflexivity.
  rewrite readLoop_passed by (auto; lia).
  cbn [readLoop]. rewrite Read_same_count by lia.
  rewrite processRecord_short by (auto; lia). reflexivity.
Qed.

End CsvParserShort.

Lemma X9_witness :
  gpu_metrics_csv.getProcessInfo strconv.ParseFloatDecimal
    (CmdOutput
       (gpu_metrics_csv.CsvFields ["gpu"; "process_info"; "name"]
        :: map gpu_metrics_csv.CsvFields [["0"; "No running processes detected"; "N/A"]]
        ++ gpu_metrics_csv.CsvFields ["1"; ""; "python"] :: []))
  = Panicked (IndexOutOfRange (firstMissing (Z.of_nat (length ["1"; ""; "python"])))
                (Z.of_nat (length ["1"; ""; "python"]))).
Proof.
  apply (X9_short_records_panic strconv.ParseFloatDecimal).
  - simpl; lia.
  - repeat constructor.
  - reflexivity.
  - right. reflexivity.
Defined.

(** ** The utilization history: filling, edges and sharing *)

Section HistoryMore.

Import history.
Local Open Scope heap_scope.

Lemma fold_ringAdd_zeros (k n : nat) :
  forall i : Z,
    0 <= i < Z.of_nat n ->
    fold_left ringAdd (replicate k 0%float) (replicate n 0%float, i)
    = (replicate n 0%float, (i + Z.of_nat k) mod Z.of_nat n).
Proof.
  induction k as [|k IH]; intros i Hi.
  - cbn [replicate fold_left]. now rewrite Z.add_0_r, Z.mod_small.
  - cbn [replicate fold_left]. unfold ringAdd at 2. cbn [fst snd].
    rewrite insert_replicate, length_replicate.
    rewrite IH by (apply Z.mod_pos_bound; lia).
    f_equal. rewrite Zplus_mod_idemp_l. f_equal. lia.
Qed.

Lemma addZeros_addAll (gh : nat) (n : Z) (k : nat) :
  forall j : Z,
    0 <= j -> j + Z.of_nat k = n -> n <= MaxInt64 ->
    addZeros k gh j n = addAll gh (replicate k 0%float).
Proof.
  induction k as [|k IH]; intros j Hj Hk Hn; [reflexivity|].
  cbn [addZeros replicate addAll].
  replace (j <? n) with true by (symmetry; apply Z.ltb_lt; lia).
  rewrite wrap64_small by (unfold MinInt64, MaxInt64 in *; lia).
  rewrite IH by lia. reflexivity.
Qed.

(** X10: a history made with capacity [n] and given any number of values
    shows the last [n] of [n] zeros followed by these values: while it has
    been given fewer than [n], the zeros it was made with come first and
    the values last. *)
Theorem X10_history_shows_last_values (n : Z) (xs : list float) (h : Heap) :
  1 <= n <= MaxInt64 ->
  returns (g <- newGPUHistory n ;; addAll g xs ;; linearize g) h
    (lastN (Z.to_nat n) (replicate (Z.to_nat n) 0%float ++ xs))
  /\ ((length xs <= Z.to_nat n)%nat ->
      lastN (Z.to_nat n) (replicate (Z.to_nat n) 0%float ++ xs)
      = replicate (Z.to_nat n - length xs) 0%float ++ xs).
Proof.
  intros Hn.
  assert (lastN (Z.to_nat n) (replicate (Z.to_nat n) 0%float ++ xs)
          = drop (length xs) (replicate (Z.to_nat n) 0%float ++ xs)) as EL.
  { unfold lastN. rewrite length_app, length_replicate. f_equal. lia. }
  split.
  - destruct (built_spec n xs h Hn) as (g & a & h1 & h2 & E1 & E2 & Hg).
    destruct (linear_fresh (Z.to_nat n) xs ltac:(lia) ltac:(lia)) as [_ L].
    destruct (linearize_spec h2 _ _ _ Hg) as (h3 & E3 & _).
    exists h3. rewrite (bind_done _ _ _ _ _ E1), (bind_done _ _ _ _ _ E2), E3.
    now rewrite L, EL.
  - intros Hx. rewrite EL. rewrite drop_app_le by (rewrite length_replicate; lia).
    now rewrite drop_replicate.
Qed.

(** X11: whatever the width of the terminal, the history [main] makes for
    a chart is built without a panic; its capacity lies between 50 and
    500, and the zeros the loop of [main] appends bring the cursor back to
    0 over values that are all zero, as [newGPUHistory] had left them. *)
Theorem X11_initial_history (width : Z) (h : Heap) :
  exists g a h',
    initHistory (calculateDataPoints width) h = Done (g, h')
    /\ holds h' g a (replicate (Z.to_nat (calculateDataPoints width)) 0%float, 0)
    /\ returns (linearize g) h' (replicate (Z.to_nat (calculateDataPoints width)) 0%float)
    /\ 50 <= calculateDataPoints width <= 500.
Proof.
  pose proof (calculateDataPoints_bounds width) as Hb.
  set (n := calculateDataPoints width) in *.
  assert (1 <= n <= MaxInt64) as Hn by (unfold MaxInt64; lia).
  destruct (built_spec n (replicate (Z.to_nat n) 0%float) h Hn)
    as (g & a & h1 & h2 & E1 & E2 & Hg).
  rewrite fold_ringAdd_zeros in Hg by lia.
  rewrite Z.add_0_l, Z_mod_same_full in Hg.
  destruct (linearize_spec h2 _ _ _ Hg) as (h3 & E3 & _).
  exists g, a, h2. split; [|split; [exact Hg | split; [|exact Hb]]].
  - unfold initHistory. rewrite (bind_done _ _ _ _ _ E1).
    rewrite (addZeros_addAll g n (Z.to_nat n) 0) by lia.
    now rewrite (bind_done _ _ _ _ _ E2).
  - exists h3. rewrite E3. unfold linear. cbn [fst snd].
    change (Z.to_nat 0) with 0%nat. now rewrite drop_0, take_0, app_nil_r.
Qed.

(** X12: a negative capacity panics in [make]. A capacity of 0 makes a
    history that cannot take a value: [add] panics on [gh.values[gh.index]]
    with index 0 out of range for length 0, before it reaches the
    remainder by [maxLen]; [getData] returns its empty [values]. *)
Theorem X12_capacity_edges (n : Z) (v : float) (h : Heap) :
  (n < 0 -> newGPUHistory n h = Panicked MakeLenOutOfRange)
  /\ exists g h',
      newGPUHistory 0 h = Done (g, h')
      /\ add g v h' = Panicked (IndexOutOfRange 0 0)
      /\ returns (linearize g) h' [].
Proof.
  split.
  - intros Hn. unfold newGPUHistory, bind, make.
    now replace (n <? 0) with true by (symmetry; apply Z.ltb_lt; lia).
  - eexists _, _. split; [reflexivity|].
    assert (forall (A : Type) (l : list A) (x : A), (l ++ [x]) !! length l = Some x) as Hlast.
    { intros A l x. rewrite lookup_app_r by lia. now rewrite Nat.sub_diag. }
    split.
    + unfold add, bind, deref. cbn [structs arrays]. rewrite Hlast. reflexivity.
    + eexists. unfold linearize, bind, getData, bind, deref. cbn [structs arrays].
      rewrite Hlast. cbn [index values Z.eqb]. unfold ret, contents, window.
      cbn [array arrays low len]. rewrite Hlast. reflexivity.
Qed.

(** With the cursor off 0, the slice [getData] returns is the one it made. *)
Lemma getData_fresh (h h' : Heap) (gh : nat) (st : GPUHistory) (s : Slice) :
  structs h !! gh = Some st -> index st <> 0 ->
  getData gh h = Done (s, h') ->
  array s = length (arrays h).
Proof.
  intros Hs Hi H. unfold getData in H. unfold bind at 1 in H. unfold deref in H.
  rewrite Hs in H.
  replace (index st =? 0) with false in H by (symmetry; apply Z.eqb_neq; lia).
  unfold bind at 1 in H. unfold make in H.
  destruct (maxLen st <? 0); [discriminate|].
  unfold bind in H.
  repeat match type of H with
         | match ?m with _ => _ end = _ =>
             let x := fresh "x" in
             destruct m as [[x ?]| |]; try discriminate
         end.
  unfold ret in H. now injection H as <- _.
Qed.

(** X13: the slice [getData] returns is the history's own [values] when
    the cursor is at 0, and a copy otherwise: a value appended after the
    call shows through the slice, in its first place, in the first case
    and leaves the slice as it was in the second. *)
Theorem X13_getData_shares_at_cursor_zero (h : Heap) (gh a : nat) (r : ring) (v : float) :
  holds h gh a r ->
  returns (data <- getData gh ;; add gh v ;; contents data) h
    (if r.2 =? 0 then <[0%nat := v]> r.1 else linear r).
Proof.
  intros Hg.
  destruct (getData_spec h gh a r Hg) as (s & h1 & E1 & Hw & Es & (xs & Ea) & Harr).
  assert (holds h1 gh a r) as Hg1.
  { apply (holds_grow h h1 _ _ _ xs []); auto. now rewrite app_nil_r. }
  destruct (add_spec h1 gh a r v Hg1) as (h2 & E2 & Hg2 & _ & Hf).
  unfold returns. rewrite (bind_done _ _ _ _ _ E1), (bind_done _ _ _ _ _ E2).
  destruct (r.2 =? 0) eqn:E0.
  - apply Z.eqb_eq in E0. destruct Hg as (Hs & Ha & Hok).
    unfold getData in E1. unfold bind at 1 in E1. unfold deref in E1.
    rewrite Hs in E1. cbn [index values] in E1. rewrite E0 in E1. cbn in E1.
    injection E1 as <- <-.
    destruct Hg2 as (_ & Ha2 & _). unfold ringAdd in Ha2. cbn [fst snd] in Ha2.
    rewrite E0 in Ha2. change (Z.to_nat 0) with 0%nat in Ha2.
    exists h2. unfold contents.
    rewrite <- (length_insert r.1 0 v).
    now rewrite (window_whole _ _ _ Ha2).
  - apply Z.eqb_neq in E0. destruct Hg as (Hs & Ha & Hok).
    pose proof (getData_fresh h h1 gh _ s Hs E0 E1) as Hfresh.
    pose proof (lookup_lt_Some _ _ _ Ha) as Hlt.
    exists h2. unfold contents. rewrite Hf by lia. now rewrite Hw.
Qed.

(** X14: rebuilding a history of capacity [n] for the capacity [m], as
    the resize branch of [main] does, gives a history that shows the old
    values behind [m - n] zeros when [m] is the larger, and the last [m]
    of the old values otherwise. *)
Theorem X14_resize_pads_or_cuts (n m : Z) (xs : list float) (h : Heap) :
  1 <= n <= MaxInt64 -> 1 <= m <= MaxInt64 ->
  exists old,
    returns (g <- newGPUHistory n ;; addAll g xs ;; linearize g) h old
    /\ length old = Z.to_nat n
    /\ returns (g <- newGPUHistory n ;; addAll g xs ;; g' <- resize g m ;; linearize g') h
         (if n <=? m then replicate (Z.to_nat (m - n)) 0%float ++ old
          else lastN (Z.to_nat m) old).
Proof.
  intros Hn Hm.
  destruct (built_spec n xs h Hn) as (g & a & h1 & h2 & E1 & E2 & Hg).
  set (r := fold_left ringAdd xs (replicate (Z.to_nat n) 0%float, 0)) in *.
  destruct (linearize_spec h2 _ _ _ Hg) as (h3 & E3 & _).
  destruct (resize_spec h2 _ _ _ m Hg Hm) as (q & aq & h4 & E4 & Hq).
  destruct (linearize_spec h4 _ _ _ Hq) as (h5 & E5 & _).
  destruct (linear_fresh (Z.to_nat m) (linear r) ltac:(lia) ltac:(lia)) as [_ Lnew].
  assert (length (linear r) = Z.to_nat n) as Lo.
  { destruct Hg as (_ & _ & Hok). rewrite linear_length by exact Hok.
    unfold r. rewrite fold_ringAdd_length. cbn [fst]. apply length_replicate. }
  exists (linear r). split; [|split; [exact Lo|]].
  - exists h3. now rewrite (bind_done _ _ _ _ _ E1), (bind_done _ _ _ _ _ E2).
  - exists h5.
    rewrite (bind_done _ _ _ _ _ E1), (bind_done _ _ _ _ _ E2), (bind_done _ _ _ _ _ E4).
    rewrite E5, Lnew, Lo. do 2 f_equal.
    destruct (n <=? m) eqn:Enm; [apply Z.leb_le in Enm | apply Z.leb_gt in Enm].
    + rewrite drop_app_le by (rewrite length_replicate; lia).
      rewrite drop_replicate. do 2 f_equal. lia.
    + unfold lastN. rewrite drop_app_ge by (rewrite length_replicate; lia).
      rewrite length_replicate, Lo. reflexivity.
Qed.

(** X15: the number of data points is the width less 4, kept between 50
    and 500; for a width within 4 of the smallest [int] the subtraction
    wraps around and the number is 500. *)
Theorem X15_data_points_of_width (width : Z) :
  MinInt64 <= width <= MaxInt64 ->
  calculateDataPoints width
  = (if width <? MinInt64 + 4 then 500
     else if width <? 54 then 50
     else if 504 <? width then 500
     else width - 4)
  /\ 50 <= calculateDataPoints width <= 500.
Proof.
  intros Hw. split; [|apply calculateDataPoints_bounds].
  unfold calculateDataPoints, MinInt64, MaxInt64 in *.
  destruct (width <? - 2 ^ 63 + 4) eqn:E0;
    [apply Z.ltb_lt in E0 | apply Z.ltb_ge in E0].
  - assert (wrap64 (width - 4) = width - 4 + 2 ^ 64) as ->.
    { unfold wrap64.
      replace (width - 4 + 2 ^ 63) with (width - 4 + 2 ^ 63 + 2 ^ 64 + (-1) * 2 ^ 64) by lia.
      rewrite Z.mod_add by lia. rewrite Z.mod_small by lia. lia. }
    replace (width - 4 + 2 ^ 64 <? 50) with false by (symmetry; apply Z.ltb_ge; lia).
    now replace (500 <? width - 4 + 2 ^ 64) with true by (symmetry; apply Z.ltb_lt; lia).
  - rewrite wrap64_small by (unfold MinInt64, MaxInt64; lia).
    destruct (width <? 54) eqn:E1; [apply Z.ltb_lt in E1 | apply Z.ltb_ge in E1].
    + now replace (width - 4 <? 50) with true by (symmetry; apply Z.ltb_lt; lia).
    + replace (width - 4 <? 50) with false by (symmetry; apply Z.ltb_ge; lia).
      destruct (504 <? width) eqn:E2; [apply Z.ltb_lt in E2 | apply Z.ltb_ge in E2].
      * now replace (500 <? width - 4) with true by (symmetry; apply Z.ltb_lt; lia).
      * now replace (500 <? width - 4) with false by (symmetry; apply Z.ltb_ge; lia).
Qed.

Lemma X10_witness :
  returns (g <- newGPUHistory 4 ;; addAll g [1; 2]%float ;; linearize g) emptyHeap
    (lastN (Z.to_nat 4) (replicate (Z.to_nat 4) 0%float ++ [1; 2]%float))
  /\ ((length [1; 2]%float <= Z.to_nat 4)%nat ->
      lastN (Z.to_nat 4) (replicate (Z.to_nat 4) 0%float ++ [1; 2]%float)
      = replicate (Z.to_nat 4 - length [1; 2]%float) 0%float ++ [1; 2]%float).
Proof.
  apply (X10_history_shows_last_values 4 [1; 2]%float emptyHeap). unfold MaxInt64. lia.
Defined.

Lemma X13_witness :
  returns (data <- getData 0 ;; add 0 9%float ;; contents data)
    {| arrays := [[1; 2; 3]%float];
       structs := [{| values := {| array := 0; low := 0; len := 3 |};
                      maxLen := 3; index := 0 |}] |}
    (if ([1; 2; 3]%float, 0).2 =? 0 then <[0%nat := 9%float]> ([1; 2; 3]%float, 0).1
     else linear ([1; 2; 3]%float, 0)).
Proof.
  apply (X13_getData_shares_at_cursor_zero _ 0 0 ([1; 2; 3]%float, 0) 9%float).
  unfold holds, ringOk, MaxInt64. cbn. repeat split; lia.
Defined.

Lemma X14_witness :
  exists old,
    returns (g <- newGPUHistory 3 ;; addAll g [1; 2; 3; 4]%float ;; linearize g) emptyHeap old
    /\ length old = Z.to_nat 3
    /\ returns (g <- newGPUHistory 3 ;; addAll g [1; 2; 3; 4]%float ;;
                g' <- resize g 5 ;; linearize g') emptyHeap
         (if 3 <=? 5 then replicate (Z.to_nat (5 - 3)) 0%float ++ old
          else lastN (Z.to_nat 5) old).
Proof.
  apply (X14_resize_pads_or_cuts 3 5 [1; 2; 3; 4]%float emptyHeap); unfold MaxInt64; lia.
Defined.

Lemma X15_witness :
  calculateDataPoints 80
  = (if 80 <? MinInt64 + 4 then 500
     else if 80 <? 54 then 50
     else if 504 <? 80 then 500
     else 80 - 4)
  /\ 50 <= calculateDataPoints 80 <= 500.
Proof.
  apply (X15_data_points_of_width 80). unfold MinInt64, MaxInt64. lia.
Defined.

End HistoryMore.

(** ** [sort.Slice] loses and repeats nothing

    Every change [sort.Slice] makes to the slice is a [Swap], so that what
    it leaves is a rearrangement of what it was given, with every
    comparison: also with one that is no order, as the negated one of
    [updateProcessList]. *)

Section SlicePermutation.

Context {A : Type} (less : A -> A -> bool).

Lemma insert_swaps_head (l : list A) :
  forall (i : nat) (x y : A),
    l !! i = Some x -> Permutation (y :: l) (x :: <[i := y]> l).
Proof.
  induction l as [|z l IH]; intros i x y H; [discriminate|].
  destruct i as [|i]; cbn in H.
  - injection H as ->. cbn. apply perm_swap.
  - cbn [insert list_insert]. rewrite perm_swap. rewrite (IH i x y H).
    apply perm_swap.
Qed.

Lemma Swap_perm (data : list A) (i j : Z) : Permutation (sort.Swap data i j) data.
Proof.
  unfold sort.Swap, sort.at_.
  destruct (i <? 0); [reflexivity|]. destruct (data !! Z.to_nat i) as [x|] eqn:Ei; [|reflexivity].
  destruct (j <? 0); [reflexivity|]. destruct (data !! Z.to_nat j) as [y|] eqn:Ej; [|reflexivity].
  pose proof (insert_swaps_head data _ y x Ej) as P1.
  assert (<[Z.to_nat j := x]> data !! Z.to_nat i = Some x) as Ei'.
  { destruct (decide (Z.to_nat i = Z.to_nat j)) as [->|Hne].
    - apply list_lookup_insert_eq. now apply lookup_lt_Some in Ej.
    - now rewrite list_lookup_insert_ne by congruence. }
  pose proof (insert_swaps_head _ _ x y Ei') as P2.
  apply (Permutation_cons_inv (a := x)). now rewrite <- P2, <- P1.
Qed.

Ltac loop_perm IH :=
  repeat match goal with
         | |- context [if ?b then _ else _] => destruct b
         end;
  rewrite ?IH, ?Swap_perm; auto.

Lemma insertDown_perm (n : nat) :
  forall (data : list A) (a j : Z), Permutation (sort.insertDown less n data a j) data.
Proof. induction n as [|n IH]; intros; simpl; loop_perm IH. Qed.

Lemma insertionLoop_perm (n : nat) :
  forall (data : list A) (a b i : Z), Permutation (sort.insertionLoop less n data a b i) data.
Proof.
  induction n as [|n IH]; intros; simpl; loop_perm IH. apply insertDown_perm.
Qed.

Lemma insertionSort_func_perm (data : list A) (a b : Z) :
  Permutation (sort.insertionSort_func less data a b) data.
Proof. apply insertionLoop_perm. Qed.

Lemma siftDown_loop_perm (n : nat) :
  forall (data : list A) (root hi first : Z),
    Permutation (sort.siftDown_loop less n data root hi first) data.
Proof. induction n as [|n IH]; intros; simpl; loop_perm IH. Qed.

Lemma heapBuild_perm (n : nat) :
  forall (data : list A) (i hi first : Z),
    Permutation (sort.heapBuild less n data i hi first) data.
Proof.
  induction n as [|n IH]; intros; simpl; loop_perm IH. apply siftDown_loop_perm.
Qed.

Lemma heapPop_perm (n : nat) :
  forall (data : list A) (i first : Z), Permutation (sort.heapPop less n data i first) data.
Proof.
  induction n as [|n IH]; intros; simpl; loop_perm IH.
  unfold sort.siftDown_func. now rewrite siftDown_loop_perm, Swap_perm.
Qed.

Lemma heapSort_func_perm (data : list A) (a b : Z) :
  Permutation (sort.heapSort_func less data a b) data.
Proof. unfold sort.heapSort_func. now rewrite heapPop_perm, heapBuild_perm. Qed.

Lemma partitionLoop_perm (n : nat) :
  forall (data : list A) (a i j : Z),
    Permutation (sort.partitionLoop less n data a i j).1 data.
Proof. induction n as [|n IH]; intros; cbn [sort.partitionLoop]; loop_perm IH. Qed.

Lemma partition_func_perm (data : list A) (a b pivot : Z) :
  Permutation (sort.partition_func less data a b pivot).1.1 data.
Proof.
  unfold sort.partition_func.
  match goal with |- context [if ?b then _ else _] => destruct b end.
  - cbn [fst]. now rewrite !Swap_perm.
  - match goal with
    | |- context [sort.partitionLoop less ?n ?d ?a ?i ?j] =>
        pose proof (partitionLoop_perm n d a i j) as H;
        destruct (sort.partitionLoop less n d a i j) as [d' j']
    end.
    cbn [fst] in *. now rewrite Swap_perm, H, !Swap_perm.
Qed.

Lemma partitionEqualLoop_perm (n : nat) :
  forall (data : list A) (a i j : Z),
    Permutation (sort.partitionEqualLoop less n data a i j).1 data.
Proof. induction n as [|n IH]; intros; cbn [sort.partitionEqualLoop]; loop_perm IH. Qed.

Lemma partitionEqual_func_perm (data : list A) (a b pivot : Z) :
  Permutation (sort.partitionEqual_func less data a b pivot).1 data.
Proof. unfold sort.partitionEqual_func. now rewrite partitionEqualLoop_perm, Swap_perm. Qed.

Lemma shiftLeft_perm (n : nat) :
  forall (data : list A) (j : Z), Permutation (sort.shiftLeft less n data j) data.
Proof. induction n as [|n IH]; intros; simpl; loop_perm IH. Qed.

Lemma shiftRight_perm (n : nat) :
  forall (data : list A) (j b : Z), Permutation (sort.shiftRight less n data j b) data.
Proof. induction n as [|n IH]; intros; simpl; loop_perm IH. Qed.

Lemma partialInsertionLoop_perm (n : nat) :
  forall (data : list A) (a b i : Z),
    Permutation (sort.partialInsertionLoop less n data a b i).1 data.
Proof.
  induction n as [|n IH]; intros; cbn [sort.partialInsertionLoop]; [reflexivity|].
  repeat match goal with
         | |- context [if ?b then _ else _] => destruct b
         end;
    rewrite ?IH, ?shiftRight_perm, ?shiftLeft_perm, ?Swap_perm; auto.
Qed.

Lemma breakLoop_perm (n : nat) :
  forall (data : list A) (a length0 idx modulus random i : Z),
    Permutation (sort.breakLoop n data a length0 idx modulus random i) data.
Proof. induction n as [|n IH]; intros; simpl; loop_perm IH. Qed.

Lemma breakPatterns_func_perm (data : list A) (a b : Z) :
  Permutation (sort.breakPatterns_func data a b) data.
Proof.
  unfold sort.breakPatterns_func. destruct (8 <=? b - a); [|reflexivity].
  apply breakLoop_perm.
Qed.

Lemma reverseLoop_perm (n : nat) :
  forall (data : list A) (i j : Z), Permutation (sort.reverseLoop n data i j) data.
Proof. induction n as [|n IH]; intros; simpl; loop_perm IH. Qed.

Lemma pdqsort_func_perm (fuel : nat) :
  forall (data sorted : list A) (a b limit : Z) (wasBalanced wasPartitioned : bool),
    sort.pdqsort_func less fuel data a b limit wasBalanced wasPartitioned = Some sorted ->
    Permutation sorted data.
Proof.
  induction fuel as [|fuel IH]; intros data sorted a b limit wb wp H; [discriminate|].
  cbn [sort.pdqsort_func] in H.
  destruct (b - a <=? 12).
  { injection H as <-. apply insertionSort_func_perm. }
  destruct (limit =? 0).
  { injection H as <-. apply heapSort_func_perm. }
  assert (Permutation (if negb wb then (sort.breakPatterns_func data a b, limit - 1)
                       else (data, limit)).1 data) as L1.
  { destruct wb; simpl; [reflexivity | apply breakPatterns_func_perm]. }
  destruct (if negb wb then _ else _) as [d1 limit1]. cbn [fst] in L1.
  destruct (sort.choosePivot_func less d1 a b) as [pivot hint].
  assert (Permutation (if sort.isDecreasing hint
                       then (sort.reverseRange_func d1 a b, b - 1 - (pivot - a),
                             sort.increasingHint)
                       else (d1, pivot, hint)).1.1 data) as L2.
  { destruct (sort.isDecreasing hint); cbn [fst]; [|exact L1].
    unfold sort.reverseRange_func. now rewrite reverseLoop_perm. }
  destruct (if sort.isDecreasing hint then _ else _) as [[d2 pivot2] hint2].
  cbn [fst] in L2.
  assert (Permutation (if wb && wp && sort.isIncreasing hint2
                       then sort.partialInsertionSort_func less d2 a b
                       else (d2, false)).1 data) as L3.
  { destruct (wb && wp && sort.isIncreasing hint2); cbn [fst]; [|exact L2].
    unfold sort.partialInsertionSort_func. now rewrite partialInsertionLoop_perm. }
  destruct (if wb && wp && sort.isIncreasing hint2 then _ else _) as [d3 done].
  cbn [fst] in L3.
  destruct done; [now injection H as <-|].
  destruct ((0 <? a) && negb (sort.Less less d3 (a - 1) pivot2)).
  - pose proof (partitionEqual_func_perm d3 a b pivot2) as L4.
    destruct (sort.partitionEqual_func less d3 a b pivot2) as [d4 mid]. cbn [fst] in L4.
    rewrite (IH _ _ _ _ _ _ _ H). now rewrite L4.
  - pose proof (partition_func_perm d3 a b pivot2) as L4.
    destruct (sort.partition_func less d3 a b pivot2) as [[d4 mid] already].
    cbn [fst] in L4.
    destruct (mid - a <? b - mid).
    + destruct (sort.pdqsort_func less fuel d4 a mid limit1 true true) as [d5|] eqn:E5;
        [|discriminate].
      rewrite (IH _ _ _ _ _ _ _ H), (IH _ _ _ _ _ _ _ E5). now rewrite L4.
    + destruct (sort.pdqsort_func less fuel d4 (mid + 1) b limit1 true true) as [d5|] eqn:E5;
        [|discriminate].
      rewrite (IH _ _ _ _ _ _ _ H), (IH _ _ _ _ _ _ _ E5). now rewrite L4.
Qed.

Lemma Slice_perm (x sorted : list A) :
  sort.Slice less x = Some sorted -> Permutation sorted x.
Proof. unfold sort.Slice. apply pdqsort_func_perm. Qed.

End SlicePermutation.

(** ** [sort.Slice] on short slices: order and stability *)

Section Stable.

Context {A : Type} (less : A -> A -> bool).

Hypothesis less_asym : forall x y, less x y = true -> less y x = false.
Hypothesis less_negtrans :
  forall x y z, less x y = false -> less y z = false -> less x z = false.

Let equivalent (k x : A) : bool := negb (less k x) && negb (less x k).

Lemma StronglySorted_snoc (R : A -> A -> Prop) (l : list A) (x : A) :
  StronglySorted R l -> Forall (fun y => R y x) l -> StronglySorted R (l ++ [x]).
Proof.
  induction 1 as [|y l Hl IH Hy]; intros HF; cbn [app].
  - repeat constructor.
  - inversion HF; subst. constructor; [now apply IH|].
    apply Forall_app. split; [exact Hy | now repeat constructor].
Qed.

Lemma StronglySorted_rev_flip (R : A -> A -> Prop) (l : list A) :
  StronglySorted R l -> StronglySorted (fun u v => R v u) (rev l).
Proof.
  induction 1 as [|x l Hl IH Hx]; cbn [rev]; [constructor|].
  apply StronglySorted_snoc; [exact IH|]. now apply Forall_rev.
Qed.

Lemma insertionSorted_ascending (rest : list A) :
  forall q : list A,
    StronglySorted (fun u v => less u v = false) q ->
    StronglySorted (fun u v => less v u = false) (insertionSorted less q rest).
Proof.
  induction rest as [|x rest IH]; intros q Hq; cbn [insertionSorted].
  - now apply StronglySorted_rev_flip in Hq.
  - apply IH. apply insertBack_descending; auto.
Qed.

Lemma equivalent_not_less (k x y : A) :
  equivalent k x = true -> equivalent k y = true -> less x y = false.
Proof.
  unfold equivalent. intros Hx Hy.
  apply andb_true_iff in Hx as [_ Hx]. apply andb_true_iff in Hy as [Hy _].
  apply negb_true_iff in Hx, Hy. eauto.
Qed.

Lemma insertBack_stable (k x : A) (q : list A) :
  List.filter (equivalent k) (rev (insertBack less x q))
  = List.filter (equivalent k) (rev q) ++ List.filter (equivalent k) [x].
Proof.
  induction q as [|y q IH]; cbn [insertBack]; [reflexivity|].
  destruct (less x y) eqn:E.
  - cbn [rev]. rewrite !List.filter_app, IH, <- !app_assoc. f_equal.
    cbn [List.filter].
    destruct (equivalent k x) eqn:Ex, (equivalent k y) eqn:Ey; try reflexivity.
    rewrite (equivalent_not_less k x y Ex Ey) in E. discriminate.
  - change (x :: y :: q) with ([x] ++ y :: q). rewrite rev_app_distr.
    now rewrite List.filter_app.
Qed.

Lemma insertionSorted_stable (k : A) (rest : list A) :
  forall q : list A,
    List.filter (equivalent k) (insertionSorted less q rest)
    = List.filter (equivalent k) (rev q) ++ List.filter (equivalent k) rest.
Proof.
  induction rest as [|x rest IH]; intros q; cbn [insertionSorted].
  - now rewrite app_nil_r.
  - rewrite IH, insertBack_stable, <- app_assoc. f_equal.
    change (x :: rest) with ([x] ++ rest). now rewrite List.filter_app.
Qed.

(** On up to twelve elements [sort.Slice] sorts, and keeps the elements
    that are equivalent in the order they had. *)
Lemma Slice_short_stable (l : list A) :
  (length l <= 12)%nat ->
  exists sorted,
    sort.Slice less l = Some sorted
    /\ StronglySorted (fun u v => less v u = false) sorted
    /\ forall k, List.filter (equivalent k) sorted = List.filter (equivalent k) l.
Proof.
  intros H. exists (insertionSorted less [] l). rewrite Slice_short by exact H.
  split; [reflexivity|]. split.
  - apply insertionSorted_ascending. constructor.
  - intros k. now rewrite insertionSorted_stable.
Qed.

End Stable.

(** ** The process table: rows, widths and the selection *)

Section Table.

Import process_list.

Lemma length_append (s t : string) :
  String.length (s ++ t) = (String.length s + String.length t)%nat.
Proof. induction s as [|c s IH]; cbn; [reflexivity | now rewrite IH]. Qed.

Lemma length_spaces (n : nat) : String.length (spaces n) = n.
Proof. induction n as [|n IH]; cbn; [reflexivity | now rewrite IH]. Qed.

(** A byte below 128 is a rune of its own. *)
Lemma RuneCount_ascii (c : ascii) (s : string) :
  (strings.code c < 128)%N ->
  RuneCountInString (String c s) = 1 + RuneCountInString s.
Proof.
  intros Hc. cbn [RuneCountInString].
  assert ((194 <=? strings.code c)%N = false) as E2 by (apply N.leb_gt; lia).
  assert ((224 <=? strings.code c)%N = false) as E3 by (apply N.leb_gt; lia).
  assert ((240 <=? strings.code c)%N = false) as E4 by (apply N.leb_gt; lia).
  rewrite E2, E3, E4. cbn [andb].
  destruct s as [|c1 [|c2 [|c3 s]]]; reflexivity.
Qed.

(** A string has at most as many runes as bytes. *)
Lemma RuneCount_bounds (n : nat) :
  forall s : string,
    (String.length s <= n)%nat ->
    0 <= RuneCountInString s <= Z.of_nat (String.length s).
Proof.
  induction n as [|n IH]; intros s Hs.
  - destruct s; [cbn; lia | cbn in Hs; lia].
  - destruct s as [|c0 r0]; [cbn; lia|].
    cbn [String.length] in Hs.
    pose proof (IH r0 ltac:(lia)) as H0.
    cbn [RuneCountInString].
    destruct r0 as [|c1 r1]; [cbn [String.length] in *; lia|].
    pose proof (IH r1 ltac:(cbn [String.length] in Hs; lia)) as H1.
    match goal with |- context [if ?b then _ else _] => destruct b end;
      [cbn [String.length] in *; lia|].
    destruct r1 as [|c2 r2]; [cbn [String.length] in *; lia|].
    pose proof (IH r2 ltac:(cbn [String.length] in Hs; lia)) as H2.
    match goal with |- context [if ?b then _ else _] => destruct b end;
      [cbn [String.length] in *; lia|].
    destruct r2 as [|c3 r3]; [cbn [String.length] in *; lia|].
    pose proof (IH r3 ltac:(cbn [String.length] in Hs; lia)) as H3.
    match goal with |- context [if ?b then _ else _] => destruct b end;
      cbn [String.length] in *; lia.
Qed.

Lemma RuneCount_spaces (n : nat) (s : string) :
  RuneCountInString (spaces n ++ s) = Z.of_nat n + RuneCountInString s.
Proof.
  induction n as [|n IH]; [reflexivity|].
  cbn [spaces String.append]. rewrite RuneCount_ascii by reflexivity. rewrite IH. lia.
Qed.

Lemma RuneCount_rule (n : nat) : RuneCountInString (Repeat "─" n) = Z.of_nat n.
Proof.
  induction n as [|n IH]; [reflexivity|].
  cbn [Repeat String.append].
  match goal with
  | |- RuneCountInString (String ?a (String ?b (String ?c ?r))) = _ =>
      change (RuneCountInString (String a (String b (String c r))))
        with (1 + RuneCountInString r)
  end.
  rewrite IH. lia.
Qed.

Lemma length_padRight (w : Z) (s : string) :
  String.length (padRight w s)
  = (String.length s + Z.to_nat (w - RuneCountInString s))%nat.
Proof. unfold padRight. now rewrite length_append, length_spaces. Qed.

Lemma collect_spec (processes : list ProcessInfo) :
  forall (w : Z) (items : list ProcessListItem),
    exists rows,
      collect processes w 8 items = (items ++ rows, fold_left (fun w p => Z.max w (Z.of_nat (String.length (Name p)))) processes w)
      /\ length rows = length processes
      /\ forall (pre post : list ProcessInfo) (proc : ProcessInfo),
          processes = pre ++ proc :: post ->
          rows !! length pre
          = Some {| gpu := GPU proc; name := Name proc; pid := PID proc;
                    usage := GFXUsage proc;
                    display :=
                      displayOf
                        (fold_left (fun w p => Z.max w (Z.of_nat (String.length (Name p))))
                           (pre ++ [proc]) w) 8 proc |}.
Proof.
  induction processes as [|p ps IH]; intros w items.
  - exists []. cbn. rewrite app_nil_r. split; [reflexivity|]. split; [reflexivity|].
    intros pre post proc H. now destruct pre.
  - cbn [collect fold_left].
    assert ((if w <? Z.of_nat (String.length (Name p))
             then Z.of_nat (String.length (Name p)) else w)
            = Z.max w (Z.of_nat (String.length (Name p)))) as ->.
    { destruct (w <? Z.of_nat (String.length (Name p))) eqn:E;
        [apply Z.ltb_lt in E | apply Z.ltb_ge in E]; lia. }
    set (w1 := Z.max w (Z.of_nat (String.length (Name p)))).
    set (item := {| gpu := GPU p |}).
    destruct (IH w1 (items ++ [item])) as (rows & E & Hl & Hrows).
    exists (item :: rows). rewrite E, <- app_assoc. split; [reflexivity|].
    split; [cbn; lia|].
    intros pre post proc H. destruct pre as [|p0 pre]; cbn in H.
    + injection H as <- <-. reflexivity.
    + injection H as <- ->. cbn [length lookup list_lookup app fold_left].
      now apply Hrows with (post := post).
Qed.

Lemma width_grows (ps : list ProcessInfo) :
  forall w : Z,
    w <= fold_left (fun w p => Z.max w (Z.of_nat (String.length (Name p)))) ps w.
Proof.
  induction ps as [|p ps IH]; intros w; cbn [fold_left]; [lia|].
  specialize (IH (Z.max w (Z.of_nat (String.length (Name p))))). lia.
Qed.

Lemma updateProcessList_rows (g : Globals) (processes : list ProcessInfo) :
  exists g' rows,
    updateProcessList g processes = Some g'
    /\ Rows g' = headerOf (nameWidth processes) 8
                 :: Repeat "─" (String.length (headerOf (nameWidth processes) 8))
                 :: rows
    /\ Permutation rows (map display (collect processes 20 8 []).1)
    /\ length rows = length processes
    /\ SelectedRow g' = SelectedRow g /\ Title g' = Title g
    /\ selectedColumn g' = selectedColumn g /\ sortReverse g' = sortReverse g.
Proof.
  unfold updateProcessList, sortedItems.
  destruct (collect_spec processes 20 []) as (items & E & Hl & _).
  rewrite E. cbn [app fst].
  destruct (Slice_returns (itemLess (selectedColumn g) (sortReverse g)) items) as [sorted Es].
  rewrite Es. eexists _, (map display sorted). split; [reflexivity|].
  pose proof (Slice_perm _ _ _ Es) as HP.
  split; [reflexivity|]. repeat split.
  - now apply Permutation_map.
  - rewrite length_map, (Permutation_length HP). exact Hl.
Qed.

(** X16: [updateProcessList] returns a table of one row for every
    process, under the header and the rule: the rows are a rearrangement
    of the rows of the processes, none lost and none repeated, whatever
    the column and the direction. It leaves the selected row, the title
    and the sort state as they are, so that after a table has shrunk the
    selected row can lie below its last row. *)
Theorem X16_table_rows (g : Globals) (processes : list ProcessInfo) :
  (exists g' rows,
      updateProcessList g processes = Some g'
      /\ Rows g' = headerOf (nameWidth processes) 8
                   :: Repeat "─" (String.length (headerOf (nameWidth processes) 8))
                   :: rows
      /\ Permutation rows (map display (collect processes 20 8 []).1)
      /\ length rows = length processes
      /\ SelectedRow g' = SelectedRow g /\ Title g' = Title g
      /\ selectedColumn g' = selectedColumn g /\ sortReverse g' = sortReverse g)
  /\ (Z.of_nat (length processes) + 2 <= SelectedRow g ->
      exists g',
        updateProcessList g processes = Some g'
        /\ Z.of_nat (length (Rows g')) <= SelectedRow g').
Proof.
  destruct (updateProcessList_rows g processes)
    as (g' & rows & E & ER & HP & Hl & Hs & Ht & Hc & Hr).
  split.
  - exists g', rows. auto 10.
  - intros H. exists g'. split; [exact E|].
    rewrite ER, Hs. cbn [length]. lia.
Qed.

Lemma displayOf_width (w1 w2 : Z) (proc : ProcessInfo) :
  w1 < w2 -> RuneCountInString (Name proc) < w2 ->
  displayOf w1 8 proc <> displayOf w2 8 proc.
Proof.
  intros Hw Hr E. apply (f_equal String.length) in E.
  unfold displayOf in E. rewrite !length_append, !length_padRight in E. lia.
Qed.

(** X17: the row of a process is padded to the longest name among the
    processes up to and including it, and the header to the longest name
    of all: the width grows as the loop goes, so that a row above a longer
    name is laid out for a narrower column than the header, and is not the
    row that the final width would give. *)
Theorem X17_name_column_grows (g : Globals) (pre post : list ProcessInfo)
    (proc : ProcessInfo) :
  (collect (pre ++ proc :: post) 20 8 []).1 !! length pre
  = Some {| gpu := GPU proc; name := Name proc; pid := PID proc; usage := GFXUsage proc;
            display := displayOf (nameWidth (pre ++ [proc])) 8 proc |}
  /\ (collect (pre ++ proc :: post) 20 8 []).2 = nameWidth (pre ++ proc :: post)
  /\ (exists g',
        updateProcessList g (pre ++ proc :: post) = Some g'
        /\ Rows g' !! 0%nat = Some (headerOf (nameWidth (pre ++ proc :: post)) 8))
  /\ nameWidth (pre ++ [proc]) <= nameWidth (pre ++ proc :: post)
  /\ (nameWidth (pre ++ [proc]) < nameWidth (pre ++ proc :: post) ->
      displayOf (nameWidth (pre ++ [proc])) 8 proc
      <> displayOf (nameWidth (pre ++ proc :: post)) 8 proc).
Proof.
  destruct (collect_spec (pre ++ proc :: post) 20 []) as (items & E & Hl & Hrows).
  rewrite E. cbn [app fst snd].
  split; [now apply Hrows with (post := post)|]. split; [reflexivity|]. split; [|split].
  - destruct (updateProcessList_rows g (pre ++ proc :: post)) as (g' & rows & Eg & ER & _).
    exists g'. split; [exact Eg|]. now rewrite ER.
  - unfold nameWidth.
    replace (pre ++ proc :: post) with ((pre ++ [proc]) ++ post)
      by (now rewrite <- app_assoc).
    rewrite (fold_left_app _ (pre ++ [proc]) post). apply width_grows.
  - intros Hlt. apply displayOf_width; [exact Hlt|].
    pose proof (RuneCount_bounds _ (Name proc) (Nat.le_refl _)) as Hb.
    assert (Z.of_nat (String.length (Name proc)) <= nameWidth (pre ++ [proc])) as Hn.
    { unfold nameWidth. rewrite fold_left_app. cbn [fold_left]. lia. }
    lia.
Qed.

Lemma headerOf_runes (w : Z) :
  20 <= w ->
  RuneCountInString (headerOf w 8) = w + 96
  /\ Z.of_nat (String.length (headerOf w 8)) = w + 102.
Proof.
  intros Hw. unfold headerOf.
  set (rest := (" │ " ++ padRight (8 + 5) "PID" ++ " │ " ++ padRight 58 "MEMORY USAGE"
                ++ " │ " ++ padRight 10 "GPU USAGE")%string).
  assert (RuneCountInString rest = 90) as Er by (vm_compute; reflexivity).
  assert (String.length rest = 96%nat) as El by (vm_compute; reflexivity).
  split.
  - unfold padRight at 1. change (RuneCountInString "NAME") with 4.
    cbn [String.append]. rewrite !RuneCount_ascii by reflexivity.
    rewrite RuneCount_spaces, Er. lia.
  - cbn [String.append String.length]. rewrite length_append, length_padRight, El.
    change (RuneCountInString "NAME") with 4. cbn [String.length]. lia.
Qed.

(** X18: the rule under the header is one "─" for every byte of the
    header, and the header holds three "│" of three bytes each: the rule
    is 6 columns longer than the header, which has the width of the name
    column and 96 more. *)
Theorem X18_rule_longer_than_header (g : Globals) (processes : list ProcessInfo) :
  exists g' header rule,
    updateProcessList g processes = Some g'
    /\ Rows g' !! 0%nat = Some header /\ Rows g' !! 1%nat = Some rule
    /\ RuneCountInString header = nameWidth processes + 96
    /\ RuneCountInString rule = Z.of_nat (String.length header)
    /\ RuneCountInString rule = RuneCountInString header + 6.
Proof.
  destruct (updateProcessList_rows g processes) as (g' & rows & E & ER & _).
  assert (20 <= nameWidth processes) as Hw by apply width_grows.
  destruct (headerOf_runes (nameWidth processes) Hw) as [Hr Hl].
  exists g', (headerOf (nameWidth processes) 8),
    (Repeat "─" (String.length (headerOf (nameWidth processes) 8))).
  rewrite ER, RuneCount_rule. repeat split; auto; lia.
Qed.

(** The title names the selected column, with the arrow of one of the two
    directions. *)
Lemma handleProcessListEvents_row (e : string) (g : Globals) :
  Z.of_nat (length (Rows g)) <= MaxInt64 -> rowInRange g -> columnInRange g ->
  exists g',
    handleProcessListEvents e g = Done g'
    /\ rowInRange g' /\ columnInRange g' /\ Rows g' = Rows g.
Proof.
  unfold rowInRange, MaxInt64. intros Hl Hr Hc.
  destruct (handleProcessListEvents_in_range e g Hc) as (g' & E & Hc').
  exists g'. split; [exact E|]. split; [|split; [exact Hc'|]];
    revert E; unfold handleProcessListEvents;
    repeat match goal with
           | |- context [if ?b then _ else _] => destruct b eqn:?
           | |- context [res_bind ?m _] => destruct m; cbn [res_bind]
           end;
    intros E; try discriminate; injection E as <-; cbn; auto;
    repeat match goal with
           | H : (_ <? _) = true |- _ => apply Z.ltb_lt in H
           end;
    unfold wrap64; rewrite Z.mod_small; lia.
Qed.

(** X20: the arrows up and down keep the selected row on a row of the
    table: it stops at the first row and at the last, and stays 0 while
    the table has no rows. No event changes the rows. *)
Theorem X20_selected_row_in_range (es : list string) (g : Globals) :
  Z.of_nat (length (Rows g)) <= MaxInt64 -> rowInRange g -> columnInRange g ->
  exists g', handleAll es g = Done g' /\ rowInRange g' /\ Rows g' = Rows g.
Proof.
  revert g. induction es as [|e es IH]; intros g Hl Hr Hc; cbn [handleAll]; [eauto|].
  destruct (handleProcessListEvents_row e g Hl Hr Hc) as (g1 & -> & Hr1 & Hc1 & ER).
  cbn [res_bind]. destruct (IH g1) as (g' & E & Hr' & ER'); auto; [congruence|].
  exists g'. split; [exact E|]. split; [exact Hr' | congruence].
Qed.

(** X21: a table of at most twelve processes that is sorted in rising
    order comes out in the order of the selected column, and the
    processes with the same key in that column keep the order they came
    in. *)
Theorem X21_short_table_sorted_and_stable (column : Z) (processes : list ProcessInfo) :
  (length processes <= 12)%nat ->
  exists items,
    sortedItems column false processes = Some items
    /\ StronglySorted (fun x y => itemLess column false y x = false) items
    /\ forall k : ProcessListItem,
        List.filter (sameKey column k) items
        = List.filter (sameKey column k) (collect processes 20 8 []).1.
Proof.
  intros H. unfold sortedItems.
  pose proof (collect_length processes 20 8 []) as Hl.
  destruct (collect processes 20 8 []) as [items w]. cbn [fst] in *.
  apply (Slice_short_stable (itemLess column false)).
  - apply itemLess_asym.
  - apply itemLess_negtrans.
  - simpl in Hl. lia.
Qed.

Lemma X20_witness :
  exists g',
    handleAll ["<Down>"; "<Down>"; "<Up>"; "<Right>"]
      {| Rows := ["header"; "rule"; "row"]; SelectedRow := 1; Title := "";
         selectedColumn := 0; sortReverse := false |}
    = Done g'
    /\ rowInRange g'
    /\ Rows g' = Rows {| Rows := ["header"; "rule"; "row"]; SelectedRow := 1; Title := "";
                         selectedColumn := 0; sortReverse := false |}.
Proof.
  apply X20_selected_row_in_range;
    unfold rowInRange, columnInRange, MaxInt64; cbn; lia.
Defined.

Lemma X21_witness :
  exists items,
    sortedItems 1 false
      [sampleProcess 0 "python" "7" "1.0%"; sampleProcess 1 "ollama" "8" "2.0%";
       sampleProcess 0 "python" "9" "3.0%"]
    = Some items
    /\ StronglySorted (fun x y => itemLess 1 false y x = false) items
    /\ forall k : ProcessListItem,
        List.filter (sameKey 1 k) items
        = List.filter (sameKey 1 k)
            (collect [sampleProcess 0 "python" "7" "1.0%"; sampleProcess 1 "ollama" "8" "2.0%";
                      sampleProcess 0 "python" "9" "3.0%"] 20 8 []).1.
Proof.
  apply X21_short_table_sorted_and_stable. simpl. lia.
Defined.

End Table.

(** ** The charts: one tick *)

Lemma index_lookup {A} (xs : list A) (i : nat) (x : A) :
  xs !! i = Some x -> index xs (Z.of_nat i) = Done x.
Proof.
  intros H. pose proof (lookup_lt_Some _ _ _ H) as Hlt. unfold index.
  replace ((0 <=? Z.of_nat i) && (Z.of_nat i <? Z.of_nat (length xs))) with true
    by (symmetry; apply andb_true_iff; split; [apply Z.leb_le | apply Z.ltb_lt]; lia).
  now rewrite Nat2Z.id, H.
Qed.

Section Charts.

Import history dashboard.
Local Open Scope heap_scope.

(** [add] leaves the other histories as they are. *)
Lemma add_frame (h h' : Heap) (gh a : nat) (r : ring) (v : float)
    (gj aj : nat) (rj : ring) :
  holds h gh a r -> add gh v h = Done (tt, h') ->
  holds h gj aj rj -> gj <> gh -> aj <> a -> holds h' gj aj rj.
Proof.
  intros (Hs & Ha & Hi & Hm) E (Hsj & Haj & Hrj) Hg Hne.
  destruct r as [vs i]. simpl in *.
  unfold add, bind, deref, store, assign in E. rewrite Hs in E. simpl in E.
  replace ((0 <=? i) && (i <? Z.of_nat (length vs))) with true in E
    by (symmetry; apply andb_true_iff; split; [apply Z.leb_le | apply Z.ltb_lt]; lia).
  rewrite Ha in E. simpl in E. rewrite Hs in E. simpl in E.
  replace (Z.of_nat (length vs) =? 0) with false in E by (symmetry; apply Z.eqb_neq; lia).
  injection E as <-. unfold holds. simpl.
  rewrite !list_lookup_insert_ne by congruence. auto.
Qed.

Lemma updateCharts_spec (ghs arrs : list nat) (metrics : list GPUMetrics) :
  NoDup ghs -> NoDup arrs -> length arrs = length ghs ->
  forall (i : nat) (charts : list Chart) (h : Heap) (rs : list ring),
    length rs = length ghs -> length charts = length ghs ->
    (forall j g a r,
        ghs !! j = Some g -> arrs !! j = Some a -> rs !! j = Some r -> holds h g a r) ->
    (forall j l c a,
        (j < i <= l)%nat -> charts !! j = Some c -> arrs !! l = Some a ->
        array (Data c) <> a) ->
    exists charts' h' rs',
      updateCharts metrics (Z.of_nat i) charts ghs h = Done (charts', h')
      /\ length charts' = length charts /\ length rs' = length rs
      /\ (forall j g a r,
            ghs !! j = Some g -> arrs !! j = Some a -> rs' !! j = Some r -> holds h' g a r)
      /\ (forall j, (j < i)%nat -> charts' !! j = charts !! j /\ rs' !! j = rs !! j)
      /\ (forall j c ws,
            (j < i)%nat -> charts !! j = Some c -> window h (Data c) = Some ws ->
            window h' (Data c) = Some ws)
      /\ (forall k m r,
            metrics !! k = Some m -> rs !! (i + k)%nat = Some r ->
            rs' !! (i + k)%nat = Some (ringAdd r (GFXUtil m))
            /\ exists c, charts' !! (i + k)%nat = Some c /\ showsMetric h' c m r)
      /\ (forall j, (i + length metrics <= j)%nat ->
            charts' !! j = charts !! j /\ rs' !! j = rs !! j).
Proof.
  intros NG NA Hla.
  induction metrics as [|m ms IH]; intros i charts h rs Hlr Hlc Hall Hsafe.
  - exists charts, h, rs. cbn [updateCharts]. unfold ret.
    split; [reflexivity|]. split; [reflexivity|]. split; [reflexivity|].
    split; [exact Hall|]. split; [auto|]. split; [auto|]. split; [|auto].
    intros k m' r' Hk. destruct k; discriminate.
  - cbn [updateCharts].
    destruct (Z.of_nat (length charts) <=? Z.of_nat i) eqn:Eend.
    { apply Z.leb_le in Eend. exists charts, h, rs. unfold ret.
      split; [reflexivity|]. split; [reflexivity|]. split; [reflexivity|].
      split; [exact Hall|]. split; [auto|]. split; [auto|]. split; [|auto].
      intros k m' r' Hk Hr. apply lookup_lt_Some in Hr. lia. }
    apply Z.leb_gt in Eend.
    destruct (lookup_lt_is_Some_2 ghs i ltac:(lia)) as [g Eg].
    destruct (lookup_lt_is_Some_2 arrs i ltac:(lia)) as [a Ea].
    destruct (lookup_lt_is_Some_2 rs i ltac:(lia)) as [r Er].
    destruct (lookup_lt_is_Some_2 charts i ltac:(lia)) as [c0 Ec].
    pose proof (Hall i g a r Eg Ea Er) as Hg.
    set (v := GFXUtil m).
    destruct (add_spec h g a r v Hg) as (h1 & E1 & Hg1 & Hl1 & Hf1).
    destruct (getData_spec h1 g a (ringAdd r v) Hg1)
      as (s & h2 & E2 & Hw2 & Es2 & (xs & Ea2) & Harr).
    set (chart := {| chartTitle := chartTitleOf m; Data := s; MaxVal := 100%float |}).
    assert (forall j g' a' r',
               j <> i -> ghs !! j = Some g' -> arrs !! j = Some a' -> rs !! j = Some r' ->
               holds h2 g' a' r') as Hother.
    { intros j g' a' r' Hj G A R.
      apply (holds_grow h1 h2 _ _ _ xs []); [exact Ea2 | now rewrite Es2, app_nil_r |].
      apply (add_frame h h1 g a r v); [exact Hg | exact E1 | eauto | |].
      - intros ->. apply Hj. exact (NoDup_lookup ghs j i g NG G Eg).
      - intros ->. apply Hj. exact (NoDup_lookup arrs j i a NA A Ea). }
    assert (holds h2 g a (ringAdd r v)) as Hg2.
    { apply (holds_grow h1 h2 _ _ _ xs []); [exact Ea2 | now rewrite Es2, app_nil_r | exact Hg1]. }
    destruct (IH (S i) (<[i := chart]> charts) h2 (<[i := ringAdd r v]> rs))
      as (charts' & h' & rs' & E & Hlc' & Hlr' & Hall' & Hpre & Hwin & Hshow & Hpost).
    { now rewrite length_insert. }
    { now rewrite length_insert. }
    { intros j g' a' r' G A R. destruct (decide (j = i)) as [->|Hj].
      - rewrite list_lookup_insert_eq in R by lia. injection R as <-.
        rewrite Eg in G. rewrite Ea in A. injection G as <-. injection A as <-. exact Hg2.
      - rewrite list_lookup_insert_ne in R by congruence. eauto. }
    { intros j l c a' Hjl C A. destruct (decide (j = i)) as [->|Hj].
      - rewrite list_lookup_insert_eq in C by lia. injection C as <-.
        change (array s <> a'). destruct Harr as [->| ->].
        + intros <-. pose proof (NoDup_lookup arrs i l a NA Ea A). lia.
        + destruct (lookup_lt_is_Some_2 ghs l) as [gl Egl];
            [apply lookup_lt_Some in A; lia|].
          destruct (lookup_lt_is_Some_2 rs l) as [rl Erl];
            [apply lookup_lt_Some in A; lia|].
          pose proof (holds_array_length _ _ _ _ (Hall l gl a' rl Egl A Erl)). lia.
      - rewrite list_lookup_insert_ne in C by congruence.
        apply (Hsafe j l c a'); auto. lia. }
    exists charts', h', rs'. split.
    { unfold bind at 1. unfold lift at 1. rewrite (index_lookup _ _ _ Eg).
      rewrite (bind_done _ _ _ _ _ E1).
      unfold bind at 1. unfold lift at 1. rewrite (index_lookup _ _ _ Ec).
      unfold bind at 1. unfold lift at 1.
      rewrite (bind_done _ _ _ _ _ E2). cbn [chartTitle Data MaxVal].
      rewrite Nat2Z.id. fold chart.
      replace (Z.of_nat i + 1) with (Z.of_nat (S i)) by lia. exact E. }
    rewrite length_insert in Hlc'. rewrite length_insert in Hlr'.
    split; [exact Hlc'|]. split; [exact Hlr'|]. split; [exact Hall'|].
    split; [|split; [|split]].
    + intros j Hj. destruct (Hpre j ltac:(lia)) as [P1 P2].
      rewrite P1, P2. now rewrite !list_lookup_insert_ne by lia.
    + intros j c ws Hj C W.
      apply (Hwin j c ws); [lia | now rewrite list_lookup_insert_ne by lia |].
      apply (window_grow h1 h2 _ _ xs Ea2).
      rewrite Hf1; [exact W|]. apply (Hsafe j i c a); auto; lia.
    + intros k m' r' Hk Hr. destruct k as [|k].
      * cbn in Hk. injection Hk as <-. rewrite Nat.add_0_r in *.
        rewrite Er in Hr. injection Hr as <-.
        destruct (Hpre i ltac:(lia)) as [P1 P2].
        rewrite P2, list_lookup_insert_eq by lia. split; [reflexivity|].
        exists chart. rewrite P1, list_lookup_insert_eq by lia. split; [reflexivity|].
        unfold showsMetric. cbn [Data MaxVal chartTitle]. repeat split.
        apply (Hwin i chart); [lia | now rewrite list_lookup_insert_eq by lia | exact Hw2].
      * cbn in Hk. replace (i + S k)%nat with (S i + k)%nat in * by lia.
        apply Hshow; [exact Hk|]. now rewrite list_lookup_insert_ne by lia.
    + intros j Hj. cbn [length] in Hj. destruct (Hpost j ltac:(lia)) as [P1 P2].
      rewrite P1, P2. now rewrite !list_lookup_insert_ne by lia.
Qed.

(** The replay of the resize branch leaves the other histories as they
    are. *)
Lemma rangeFrom_frame (s : Slice) (ws : list float) (q aq : nat) (n : nat) :
  forall (k : nat) (h : Heap) (rq : ring),
    window h s = Some ws -> array s <> aq -> holds h q aq rq ->
    (k + n = length ws)%nat ->
    exists h',
      rangeFrom s (Z.of_nat k) n (fun v => add q v) h = Done (tt, h')
      /\ holds h' q aq (fold_left ringAdd (drop k ws) rq)
      /\ length (arrays h') = length (arrays h)
      /\ (forall g a r, holds h g a r -> g <> q -> a <> aq -> holds h' g a r)
      /\ (forall sl, array sl <> aq -> window h' sl = window h sl).
Proof.
  induction n as [|n IH]; intros k h rq Hw Hne Hq Hkn.
  - exists h. simpl. unfold ret. rewrite drop_ge by lia. auto 10.
  - pose proof (window_length _ _ _ Hw) as Hlen.
    destruct (load_window h s ws k Hw ltac:(lia)) as (v & Hv & El).
    destruct (add_spec h q aq rq v Hq) as (h1 & Ea & Hq1 & Hl1 & Hf).
    destruct (IH (S k) h1 (ringAdd rq v)) as (h2 & E2 & Hq2 & Hl2 & Hfr2 & Hw2);
      try lia; auto.
    { now rewrite Hf. }
    exists h2. cbn [rangeFrom].
    rewrite (bind_done _ _ _ _ _ El), (bind_done _ _ _ _ _ Ea).
    replace (Z.of_nat k + 1) with (Z.of_nat (S k)) by lia.
    split; [exact E2|]. split; [now rewrite (drop_S _ _ _ Hv)|].
    split; [congruence|]. split.
    + intros g a r Hg Hgq Haq. apply Hfr2; auto.
      now apply (add_frame h h1 q aq rq v).
    + intros sl Hsl. now rewrite Hw2, Hf.
Qed.

Lemma NoDup_insert_fresh (l : list nat) (i x : nat) :
  NoDup l -> x ∉ l -> NoDup (<[i := x]> l).
Proof.
  revert i. induction l as [|y l IH]; intros i Hl Hx; [exact Hl|].
  apply NoDup_cons in Hl as [Hy Hl]. apply not_elem_of_cons in Hx as [Hxy Hx].
  destruct i as [|i].
  - change (<[0%nat := x]> (y :: l)) with (x :: l). apply NoDup_cons. auto.
  - change (<[S i := x]> (y :: l)) with (y :: <[i := x]> l).
    apply NoDup_cons. split; [|now apply IH].
    intros Hin. apply list_elem_of_lookup in Hin as [j Hj].
    destruct (decide (j = i)) as [->|Hne].
    + destruct (decide (i < length l)%nat).
      * rewrite list_lookup_insert_eq in Hj by lia. congruence.
      * rewrite list_insert_ge in Hj by lia. apply Hy. eapply list_elem_of_lookup_2; eauto.
    + rewrite list_lookup_insert_ne in Hj by congruence.
      apply Hy. eapply list_elem_of_lookup_2; eauto.
Qed.

Lemma resizeCharts_spec (m : Z) (k : nat) :
  1 <= m <= MaxInt64 ->
  forall (i : nat) (charts : list Chart) (ghs arrs : list nat) (rs : list ring) (h : Heap),
    eachHolds h ghs arrs rs -> length charts = length ghs ->
    (i + k = length ghs)%nat ->
    exists charts' ghs' arrs' rs' h',
      resizeCharts k (Z.of_nat i) (Z.of_nat (length ghs)) m charts ghs h
      = Done ((charts', ghs'), h')
      /\ eachHolds h' ghs' arrs' rs'
      /\ length charts' = length charts /\ length ghs' = length ghs
      /\ (forall j c ws,
            (j < i)%nat -> charts !! j = Some c -> window h (Data c) = Some ws ->
            charts' !! j = Some c /\ window h' (Data c) = Some ws)
      /\ (forall j, (j < i)%nat -> rs' !! j = rs !! j)
      /\ (forall j r c0,
            (i <= j)%nat -> rs !! j = Some r -> charts !! j = Some c0 ->
            rs' !! j = Some (resized m r)
            /\ exists c,
                charts' !! j = Some c
                /\ window h' (Data c) = Some (replicate (Z.to_nat m) 0%float)
                /\ chartTitle c = chartTitle c0 /\ MaxVal c = MaxVal c0).
Proof.
  intros Hm. induction k as [|k IH]; intros i charts ghs arrs rs h Hall Hlc Hik.
  - exists charts, ghs, arrs, rs, h. cbn [resizeCharts]. unfold ret.
    split; [reflexivity|]. split; [exact Hall|]. split; [reflexivity|].
    split; [reflexivity|]. split; [auto|]. split; [auto|].
    intros j r c0 Hj Hr. apply lookup_lt_Some in Hr.
    destruct Hall as (_ & _ & _ & Hlr & _). lia.
  - cbn [resizeCharts].
    replace (Z.of_nat i <? Z.of_nat (length ghs)) with true
      by (symmetry; apply Z.ltb_lt; lia).
    destruct Hall as (NG & NA & Hla & Hlr & Hall).
    destruct (lookup_lt_is_Some_2 ghs i ltac:(lia)) as [g Eg].
    destruct (lookup_lt_is_Some_2 arrs i ltac:(lia)) as [a Ea].
    destruct (lookup_lt_is_Some_2 rs i ltac:(lia)) as [r Er].
    destruct (lookup_lt_is_Some_2 charts i ltac:(lia)) as [c0 Ec].
    pose proof (Hall i g a r Eg Ea Er) as Hg.
    destruct (newGPUHistory_spec m h Hm) as (h1 & E1 & Hq1 & Ea1 & s1 & Es1).
    set (q := length (structs h)) in *. set (aq := length (arrays h)) in *.
    assert (forall g' a' r', holds h g' a' r' -> holds h1 g' a' r') as G1
      by (intros g' a' r'; apply (holds_grow h h1 _ _ _ _ _ Ea1 Es1)).
    destruct (getData_spec h1 g a r (G1 _ _ _ Hg))
      as (sl & h2 & E2 & Hw2 & Es2 & (xs & Ea2) & Harr).
    assert (forall g' a' r', holds h1 g' a' r' -> holds h2 g' a' r') as G2.
    { intros g' a' r'. apply (holds_grow h1 h2 _ _ _ xs []); auto.
      now rewrite Es2, app_nil_r. }
    assert (array sl <> aq) as Hne.
    { pose proof (holds_array_length _ _ _ _ Hg).
      destruct Harr as [->| ->]; [unfold aq; lia|]. rewrite Ea1, length_app. simpl.
      unfold aq. lia. }
    pose proof (window_length _ _ _ Hw2) as Hlen.
    destruct (rangeFrom_frame sl (linear r) q aq (len sl) 0 h2 _ Hw2 Hne (G2 _ _ _ Hq1)
                ltac:(lia)) as (h3 & E3 & Hq3 & Hl3 & Hfr3 & Hw3).
    rewrite drop_0 in Hq3. fold (resized m r) in Hq3.
    pose proof (make_spec (Z.to_nat m) h3) as E4. rewrite Z2Nat.id in E4 by lia.
    set (d := {| array := length (arrays h3); low := 0; len := Z.to_nat m |}) in E4.
    set (h4 := {| arrays := arrays h3 ++ [replicate (Z.to_nat m) 0%float];
                  structs := structs h3 |}) in E4.
    assert (forall g' a' r', holds h3 g' a' r' -> holds h4 g' a' r') as G4.
    { intros g' a' r'.
      apply (holds_grow h3 h4 _ _ _ [replicate (Z.to_nat m) 0%float] []); auto.
      cbn. now rewrite app_nil_r. }
    assert (forall j g' a' r',
               ghs !! j = Some g' -> arrs !! j = Some a' -> rs !! j = Some r' ->
               holds h4 g' a' r' /\ g' <> q /\ a' <> aq) as Hold.
    { intros j g' a' r' G A R. pose proof (Hall j g' a' r' G A R) as Hj.
      pose proof (holds_struct_length _ _ _ _ Hj). pose proof (holds_array_length _ _ _ _ Hj).
      assert (g' <> q) by (unfold q; lia). assert (a' <> aq) by (unfold aq; lia).
      split; [|auto]. apply G4, Hfr3; auto. }
    set (chart := {| chartTitle := chartTitle c0; Data := d; MaxVal := MaxVal c0 |}).
    assert (window h4 d = Some (replicate (Z.to_nat m) 0%float)) as Hwd.
    { pose proof (window_whole h4 (length (arrays h3)) (replicate (Z.to_nat m) 0%float)) as W.
      rewrite length_replicate in W. apply W.
      cbn. rewrite lookup_app_r by lia. now rewrite Nat.sub_diag. }
    assert (q ∉ ghs) as Hqf.
    { intros Hin. apply list_elem_of_lookup in Hin as [j Hj].
      destruct (lookup_lt_is_Some_2 arrs j) as [a' Ea']; [apply lookup_lt_Some in Hj; lia|].
      destruct (lookup_lt_is_Some_2 rs j) as [r' Er']; [apply lookup_lt_Some in Hj; lia|].
      destruct (Hold j q a' r' Hj Ea' Er') as (_ & Hq & _). congruence. }
    assert (aq ∉ arrs) as Haf.
    { intros Hin. apply list_elem_of_lookup in Hin as [j Hj].
      destruct (lookup_lt_is_Some_2 ghs j) as [g' Eg']; [apply lookup_lt_Some in Hj; lia|].
      destruct (lookup_lt_is_Some_2 rs j) as [r' Er']; [apply lookup_lt_Some in Hj; lia|].
      destruct (Hold j g' aq r' Eg' Hj Er') as (_ & _ & Ha'). congruence. }
    destruct (IH (S i) (<[i := chart]> charts) (<[i := q]> ghs) (<[i := aq]> arrs)
                (<[i := resized m r]> rs) h4)
      as (charts' & ghs' & arrs' & rs' & h' & E & Hall' & Hlc' & Hlg' & Hpre & Hprs & Hpost).
    { split; [now apply NoDup_insert_fresh|]. split; [now apply NoDup_insert_fresh|].
      rewrite !length_insert. split; [exact Hla|]. split; [exact Hlr|].
      intros j g' a' r' G A R. destruct (decide (j = i)) as [->|Hj].
      - rewrite list_lookup_insert_eq in G by lia.
        rewrite list_lookup_insert_eq in A by lia.
        rewrite list_lookup_insert_eq in R by lia.
        injection G as <-. injection A as <-. injection R as <-. now apply G4.
      - rewrite list_lookup_insert_ne in G by congruence.
        rewrite list_lookup_insert_ne in A by congruence.
        rewrite list_lookup_insert_ne in R by congruence.
        now apply (Hold j). }
    { now rewrite !length_insert. }
    { rewrite length_insert. lia. }
    rewrite !length_insert in *.
    assert (forall sl' ws, window h sl' = Some ws -> window h4 sl' = Some ws) as W4.
    { intros sl' ws W.
      assert (array sl' <> aq) as Hsl.
      { unfold window in W. destruct (arrays h !! array sl') eqn:El; [|discriminate].
        apply lookup_lt_Some in El. unfold aq. lia. }
      apply (window_grow h3 h4 _ _ [replicate (Z.to_nat m) 0%float] eq_refl).
      rewrite Hw3 by exact Hsl.
      apply (window_grow h1 h2 _ _ xs Ea2), (window_grow h h1 _ _ _ Ea1), W. }
    exists charts', ghs', arrs', rs', h'. split.
    { rewrite (bind_done _ _ _ _ _ E1). fold q.
      unfold bind at 1. unfold lift at 1. rewrite (index_lookup _ _ _ Eg).
      rewrite (bind_done _ _ _ _ _ E2). unfold range.
      change 0 with (Z.of_nat 0). rewrite (bind_done _ _ _ _ _ E3).
      unfold bind at 1. unfold lift at 1.
      unfold bind at 1. unfold lift at 1. rewrite (index_lookup _ _ _ Ec).
      rewrite (bind_done _ _ _ _ _ E4). rewrite Nat2Z.id. fold chart.
      replace (Z.of_nat i + 1) with (Z.of_nat (S i)) by lia.
      exact E. }
    split; [exact Hall'|]. split; [exact Hlc'|]. split; [exact Hlg'|].
    split; [|split].
    + intros j c ws Hj C W.
      apply (Hpre j c ws); [lia | now rewrite list_lookup_insert_ne by lia | now apply W4].
    + intros j Hj. rewrite Hprs by lia. now rewrite list_lookup_insert_ne by lia.
    + intros j r' c0' Hj R C. destruct (decide (j = i)) as [->|Hne'].
      * rewrite Er in R. injection R as <-. rewrite Ec in C. injection C as <-.
        rewrite Hprs by lia. rewrite list_lookup_insert_eq by lia. split; [reflexivity|].
        exists chart. destruct (Hpre i chart _ ltac:(lia)
                                  ltac:(now rewrite list_lookup_insert_eq by lia) Hwd)
          as [C' W'].
        auto.
      * destruct (Hpost j r' c0') as (R' & c & C' & W' & T' & M'); try lia;
          try (now rewrite list_lookup_insert_ne by congruence).
        split; [exact R'|]. exists c. auto.
Qed.

(** X24: the resize branch of [main] gives every device a new history of
    the new capacity that holds what the old one showed (behind zeros, or
    cut to its last values), each in an array of its own, and gives every
    chart new data that are all zero: until the next tick the charts show
    nothing of the histories. Titles and largest values stay. *)
Theorem X24_resize_all_charts (m : Z) (charts : list Chart) (ghs arrs : list nat)
    (rs : list ring) (h : Heap) :
  1 <= m <= MaxInt64 ->
  eachHolds h ghs arrs rs -> length charts = length ghs ->
  exists charts' ghs' arrs' h',
    resizeCharts (length ghs) 0 (Z.of_nat (length ghs)) m charts ghs h
    = Done ((charts', ghs'), h')
    /\ eachHolds h' ghs' arrs' (map (resized m) rs)
    /\ length charts' = length charts
    /\ forall j c0,
        charts !! j = Some c0 ->
        exists c,
          charts' !! j = Some c
          /\ window h' (Data c) = Some (replicate (Z.to_nat m) 0%float)
          /\ chartTitle c = chartTitle c0 /\ MaxVal c = MaxVal c0.
Proof.
  intros Hm Hall Hlc.
  destruct (resizeCharts_spec m (length ghs) Hm 0 charts ghs arrs rs h Hall Hlc eq_refl)
    as (charts' & ghs' & arrs' & rs' & h' & E & Hall' & Hlc' & Hlg' & _ & _ & Hpost).
  assert (rs' = map (resized m) rs) as ->.
  { destruct Hall as (_ & _ & _ & Hlr & _). destruct Hall' as (_ & _ & _ & Hlr' & _).
    apply list_eq. intros j. rewrite list_lookup_fmap.
    destruct (rs !! j) as [r|] eqn:R.
    - destruct (lookup_lt_is_Some_2 charts j) as [c0 C];
        [apply lookup_lt_Some in R; lia|].
      destruct (Hpost j r c0 ltac:(lia) R C) as [-> _]. reflexivity.
    - apply lookup_ge_None in R. apply lookup_ge_None. cbn. lia. }
  exists charts', ghs', arrs', h'. split; [exact E|]. split; [exact Hall'|].
  split; [exact Hlc'|].
  intros j c0 C. destruct Hall as (_ & _ & _ & Hlr & _).
  destruct (lookup_lt_is_Some_2 rs j) as [r R]; [apply lookup_lt_Some in C; lia|].
  destruct (Hpost j r c0 ltac:(lia) R C) as [_ Hc]. exact Hc.
Qed.

Lemma X24_witness :
  exists charts' ghs' arrs' h',
    resizeCharts (length [0; 1]%nat) 0 (Z.of_nat (length [0; 1]%nat)) 3 twoCharts
      [0; 1]%nat twoHistories
    = Done ((charts', ghs'), h')
    /\ eachHolds h' ghs' arrs' (map (resized 3) [([1; 2]%float, 1); ([3; 4]%float, 0)])
    /\ length charts' = length twoCharts
    /\ forall j c0,
        twoCharts !! j = Some c0 ->
        exists c,
          charts' !! j = Some c
          /\ window h' (Data c) = Some (replicate (Z.to_nat 3) 0%float)
          /\ chartTitle c = chartTitle c0 /\ MaxVal c = MaxVal c0.
Proof.
  apply (X24_resize_all_charts 3 twoCharts [0; 1]%nat [0; 1]%nat
           [([1; 2]%float, 1); ([3; 4]%float, 0)] twoHistories).
  - unfold MaxInt64. lia.
  - unfold eachHolds.
    assert (NoDup [0; 1]%nat) as ND
      by (apply NoDup_cons; split;
          [intros Hin; apply list_elem_of_singleton in Hin; discriminate
          | apply NoDup_singleton]).
    split; [exact ND|]. split; [exact ND|]. split; [reflexivity|]. split; [reflexivity|].
    intros i g a r Hg Ha Hr.
    destruct i as [|[|i]]; cbn in Hg, Ha, Hr; try discriminate;
      injection Hg as <-; injection Ha as <-; injection Hr as <-;
      unfold holds, ringOk, MaxInt64; cbn; repeat split; lia.
  - reflexivity.
Defined.

(** X22: one tick of the charts. When [getGPUMetrics] returned the
    metrics of some devices, every device that has a metric and a chart
    gets the utilization appended to its history, and its chart shows
    the history in the order of age, with [MaxVal] 100 and the title of
    the metric; the devices past the last metric keep their history and
    their chart, the metrics past the last chart are passed over, and
    nothing panics. When [getGPUMetrics] returned an error, the charts
    and the histories stay as they are. *)
Theorem X22_tick_updates_charts (metrics : list GPUMetrics) (charts : list Chart)
    (ghs arrs : list nat) (rs : list ring) (h : Heap) (e : GoError) :
  eachHolds h ghs arrs rs -> length charts = length ghs ->
  (exists charts' h',
      tickCharts (Done metrics) charts ghs h = Done (charts', h')
      /\ length charts' = length charts
      /\ (forall i m g a r,
            metrics !! i = Some m ->
            ghs !! i = Some g -> arrs !! i = Some a -> rs !! i = Some r ->
            holds h' g a (ringAdd r (GFXUtil m))
            /\ exists c, charts' !! i = Some c /\ showsMetric h' c m r)
      /\ (forall i g a r,
            (length metrics <= i)%nat ->
            ghs !! i = Some g -> arrs !! i = Some a -> rs !! i = Some r ->
            holds h' g a r /\ charts' !! i = charts !! i))
  /\ tickCharts (Failed e) charts ghs h = Done (charts, h).
Proof.
  intros (NG & NA & Hla & Hlr & Hall) Hlc. split; [|reflexivity].
  destruct (updateCharts_spec ghs arrs metrics NG NA Hla 0 charts h rs Hlr Hlc Hall)
    as (charts' & h' & rs' & E & Hlc' & Hlr' & Hall' & _ & _ & Hshow & Hpost).
  { intros j l c a Hj. lia. }
  exists charts', h'. split; [exact E|]. split; [exact Hlc'|]. split.
  - intros i m g a r Hm Hg Ha Hr.
    destruct (Hshow i m r Hm Hr) as (Hr' & Hc). split; [|exact Hc].
    now apply (Hall' i).
  - intros i g a r Hi Hg Ha Hr. destruct (Hpost i Hi) as [P1 P2].
    split; [|exact P1]. apply (Hall' i); auto. now rewrite P2.
Qed.

Lemma X22_witness :
  (exists charts' h',
      tickCharts (Done [sampleMetric]) twoCharts [0; 1]%nat twoHistories
      = Done (charts', h')
      /\ length charts' = length twoCharts
      /\ (forall i m g a r,
            [sampleMetric] !! i = Some m ->
            [0; 1]%nat !! i = Some g -> [0; 1]%nat !! i = Some a ->
            [([1; 2]%float, 1); ([3; 4]%float, 0)] !! i = Some r ->
            holds h' g a (ringAdd r (GFXUtil m))
            /\ exists c, charts' !! i = Some c /\ showsMetric h' c m r)
      /\ (forall i g a r,
            (length [sampleMetric] <= i)%nat ->
            [0; 1]%nat !! i = Some g -> [0; 1]%nat !! i = Some a ->
            [([1; 2]%float, 1); ([3; 4]%float, 0)] !! i = Some r ->
            holds h' g a r /\ charts' !! i = twoCharts !! i))
  /\ tickCharts (Failed (ExecFailed "exit status 1")) twoCharts [0; 1]%nat twoHistories
     = Done (twoCharts, twoHistories).
Proof.
  apply (X22_tick_updates_charts [sampleMetric] twoCharts [0; 1]%nat [0; 1]%nat
           [([1; 2]%float, 1); ([3; 4]%float, 0)] twoHistories).
  - unfold eachHolds.
    assert (NoDup [0; 1]%nat) as ND
      by (apply NoDup_cons; split;
          [intros Hin; apply list_elem_of_singleton in Hin; discriminate
          | apply NoDup_singleton]).
    split; [exact ND|]. split; [exact ND|]. split; [reflexivity|]. split; [reflexivity|].
    intros i g a r Hg Ha Hr.
    destruct i as [|[|i]]; cbn in Hg, Ha, Hr; try discriminate;
      injection Hg as <-; injection Ha as <-; injection Hr as <-;
      unfold holds, ringOk, MaxInt64; cbn; repeat split; lia.
  - reflexivity.
Defined.

End Charts.

(** ** The labeled-block process parser: a record and its block *)

Section BlockParserBlocks.

Variable ParseFloat : FloatParser.

Import gpu_metrics.

(** What a line that is no name line does to the record in progress
    depends on that record and the line alone. *)
Lemma scanLine_current (s s' t : scanState) (line : string) :
  nameLine line = false ->
  currentProcess s' = currentProcess s ->
  scanLine ParseFloat s line = Done t ->
  exists t',
    scanLine ParseFloat s' line = Done t'
    /\ currentProcess t' = currentProcess t
    /\ processes t = processes s /\ processes t' = processes s'
    /\ Name (currentProcess t) = Name (currentProcess s).
Proof.
  intros Hn Hc E. destruct (deviceLine line) eqn:Hd.
  - destruct (readable line) eqn:Hr.
    + rewrite (scanLine_device_index ParseFloat s line Hd Hr) in E. injection E as <-.
      rewrite (scanLine_device_index ParseFloat s' line Hd Hr). eexists. cbn. auto.
    + rewrite scanLine_bare_device in E by exact Hr. discriminate.
  - assert (holdsNameMarker line = false) as Hm
      by (unfold nameLine in Hn; rewrite Hd in Hn; exact Hn).
    destruct (scanLine_other ParseFloat s line Hd Hm) as (c & Ec & _ & Nc).
    rewrite Ec in E. injection E as <-. cbn [currentProcess processes].
    revert Ec. unfold scanLine. unfold deviceLine in Hd. unfold holdsNameMarker in Hm.
    rewrite Hd, Hm, Hc.
    repeat match goal with
           | |- context [if ?b then _ else _] => destruct b
           | |- context [res_bind ?m _] => destruct m; cbn [res_bind]
           end;
      intros Ec; try discriminate; injection Ec as Ec;
      (eexists; split; [reflexivity|]); cbn [currentProcess processes];
      repeat split; try congruence.
    destruct s, s'; cbn in *; congruence.
Qed.

Lemma scanLines_current (block : list string) :
  forall s s' t : scanState,
    forallb (fun l => negb (nameLine l)) block = true ->
    currentProcess s' = currentProcess s ->
    scanLines ParseFloat s block = Done t ->
    exists t',
      scanLines ParseFloat s' block = Done t'
      /\ currentProcess t' = currentProcess t
      /\ processes t = processes s /\ processes t' = processes s'
      /\ Name (currentProcess t) = Name (currentProcess s).
Proof.
  induction block as [|l block IH]; intros s s' t Hb Hc E; cbn [scanLines] in *.
  - injection E as <-. exists s'. auto.
  - cbn [forallb] in Hb. apply andb_true_iff in Hb as [Hl Hb]. apply negb_true_iff in Hl.
    destruct (scanLine ParseFloat s l) as [s1| |] eqn:E1; cbn [res_bind] in E;
      try discriminate.
    destruct (scanLine_current s s' s1 l Hl Hc E1) as (s1' & E1' & Hc1 & P1 & P1' & N1).
    rewrite E1'. cbn [res_bind].
    destruct (IH s1 s1' t Hb Hc1 E) as (t' & E' & Hc' & P & P' & N).
    exists t'. repeat split; congruence.
Qed.

(** The device lines of a run of lines set the device as the run does. *)
Lemma scanLines_devices (pre : list string) :
  forall s s' t : scanState,
    currentGPU s' = currentGPU s ->
    scanLines ParseFloat s pre = Done t ->
    exists t',
      scanLines ParseFloat s' (List.filter deviceLine pre) = Done t'
      /\ currentGPU t' = currentGPU t
      /\ processes t' = processes s' /\ currentProcess t' = currentProcess s'.
Proof.
  induction pre as [|l pre IH]; intros s s' t Hg E; cbn [scanLines List.filter] in *.
  - injection E as <-. exists s'. auto.
  - destruct (scanLine ParseFloat s l) as [s1| |] eqn:E1; cbn [res_bind] in E;
      try discriminate.
    destruct (line_kinds l) as [Hd | [Hn | [Hd Hn]]].
    + rewrite Hd. cbn [scanLines]. destruct (readable l) eqn:Hr.
      * rewrite (scanLine_device_index ParseFloat s l Hd Hr) in E1. injection E1 as <-.
        rewrite (scanLine_device_index ParseFloat s' l Hd Hr). cbn [res_bind].
        destruct (IH {| processes := processes s; currentGPU := deviceIndex l;
                        currentProcess := currentProcess s |}
                     {| processes := processes s'; currentGPU := deviceIndex l;
                        currentProcess := currentProcess s' |} t eq_refl E)
          as (t' & E' & G & P & C).
        exists t'. auto.
      * rewrite scanLine_bare_device in E1 by exact Hr. discriminate.
    + assert (deviceLine l = false) as ->
        by (unfold nameLine in Hn; now destruct (deviceLine l)).
      rewrite (scanLine_name ParseFloat s l Hn) in E1. injection E1 as <-.
      refine (IH _ s' t _ E). cbn. congruence.
    + rewrite Hd. destruct (scanLine_other ParseFloat s l Hd Hn) as (c & Ec & _).
      rewrite Ec in E1. injection E1 as <-.
      refine (IH _ s' t _ E). cbn. congruence.
Qed.

(** X23: a record is made from its own block alone: the record that a
    name line starts is the one record the parser returns for the device
    lines above that line, the line itself and the lines below it down to
    the next name line. *)
Theorem X23_record_from_its_own_block (pre block rest : list string) (line : string) :
  forallb readable pre = true ->
  startsRecord line = true ->
  forallb (fun l => negb (nameLine l)) block = true -> forallb readable block = true ->
  (rest = [] \/ exists l rest', rest = l :: rest' /\ nameLine l = true) ->
  forallb readable rest = true ->
  exists recs r,
    getProcessInfo ParseFloat (CmdOutput (pre ++ line :: block ++ rest)) = Done recs
    /\ recs !! length (List.filter startsRecord pre) = Some r
    /\ getProcessInfo ParseFloat (CmdOutput (List.filter deviceLine pre ++ line :: block))
       = Done [r].
Proof.
  intros Hpre Hline Hblock Hrb Hrest Hrr.
  pose proof (startsRecord_nameLine _ Hline) as Hn.
  assert (nonEmpty (nameText line) = true) as Hne
    by (unfold startsRecord in Hline; now apply andb_true_iff in Hline).
  destruct (scanLines_total ParseFloat pre initialState Hpre) as [st1 E1].
  destruct (scanLines_devices pre initialState initialState st1 eq_refl E1)
    as (st1' & E1' & G1 & P1 & C1).
  pose proof (scanLines_count ParseFloat _ _ _ E1) as Hcount. cbn in Hcount.
  pose proof (scanLine_name ParseFloat st1 line Hn) as E2.
  pose proof (scanLine_name ParseFloat st1' line Hn) as E2'.
  rewrite C1, P1, G1 in E2'. cbn [initialState currentProcess processes ProcessInfo_zero
    Name String.eqb] in E2'.
  set (st2 := {| processes := _ |}) in E2. set (st2' := {| processes := [] |}) in E2'.
  destruct (scanLines_total ParseFloat block st2 Hrb) as [st3 E3].
  destruct (scanLines_current block st2 st2' st3 Hblock eq_refl E3)
    as (st3' & E3' & C3 & P3 & P3' & N3).
  cbn [st2 st2' processes currentProcess set_Name Name] in P3, P3', N3.
  assert (String.eqb (Name (currentProcess st3)) "" = false) as Hname.
  { rewrite N3. unfold nonEmpty in Hne. now apply negb_true_iff in Hne. }
  assert (length (processes st3) = length (List.filter startsRecord pre)) as Hlen.
  { rewrite P3, <- Hcount. unfold flushLast. reflexivity. }
  destruct (scanLines_total ParseFloat rest st3 Hrr) as [st4 E4].
  exists (flushLast st4), (currentProcess st3). split; [|split].
  - unfold getProcessInfo. rewrite scanLines_app, E1. cbn [res_bind scanLines].
    rewrite E2. cbn [res_bind]. rewrite scanLines_app, E3. cbn [res_bind].
    now rewrite E4.
  - destruct Hrest as [->|(l & rest' & -> & Hl)].
    + cbn in E4. injection E4 as <-. unfold flushLast. rewrite Hname, <- Hlen.
      now rewrite list_lookup_middle.
    + cbn [scanLines] in E4. rewrite (scanLine_name ParseFloat st3 l Hl) in E4.
      cbn [res_bind] in E4. rewrite Hname in E4.
      destruct (scanLines_extends ParseFloat _ _ _ E4) as [ext Ex].
      cbn [processes] in Ex. rewrite Ex, <- app_assoc, <- Hlen. cbn [app].
      now rewrite list_lookup_middle.
  - unfold getProcessInfo. rewrite scanLines_app, E1'. cbn [res_bind scanLines].
    rewrite E2'. cbn [res_bind]. rewrite E3'. cbn [res_bind].
    unfold flushLast. rewrite C3, Hname, P3'. reflexivity.
Qed.

End BlockParserBlocks.

Lemma X23_witness :
  exists recs r,
    gpu_metrics.getProcessInfo strconv.ParseFloatDecimal
      (CmdOutput (["GPU: 0"; "    NAME: bash"; "    PID: 1"; "GPU: 1"]
                  ++ "    NAME: python"
                  :: ["    PID: 4242"; "    GTT_MEM: 2.5 MB"; "    GFX: 500000000 ns"]
                  ++ ["    NAME: ollama"; "    PID: 7"]))
    = Done recs
    /\ recs !! length (List.filter startsRecord
                         ["GPU: 0"; "    NAME: bash"; "    PID: 1"; "GPU: 1"])
       = Some r
    /\ gpu_metrics.getProcessInfo strconv.ParseFloatDecimal
         (CmdOutput (List.filter deviceLine ["GPU: 0"; "    NAME: bash"; "    PID: 1"; "GPU: 1"]
                     ++ "    NAME: python"
                     :: ["    PID: 4242"; "    GTT_MEM: 2.5 MB"; "    GFX: 500000000 ns"]))
       = Done [r].
Proof.
  apply (X23_record_from_its_own_block strconv.ParseFloatDecimal); try reflexivity.
  right. eexists _, _. split; reflexivity.
Defined.

(** ** [sort.Slice] sorts

    [sort.Slice] leaves its slice in the order of the comparison, on
    every path it takes: the insertion sort of short ranges, the heap sort
    it falls back to, and the rounds that break patterns, choose a pivot
    and partition. The comparison has to be transitive, and so has its
    negation; an order is, and so is the negation of an order that
    [updateProcessList] sorts with in falling order. Of the slice before
    the range it works on, [pdqsort_func] relies on the last element alone:
    no element of the range comes before it. *)

Section SelSwap.

Context {A : Type} (less : A -> A -> bool) (dflt : A).

Local Abbreviation len d := (Z.of_nat (length d)).
Local Abbreviation el d i := (sel dflt d i).

Lemma at_sel (d : list A) (i : Z) :
  0 <= i < len d -> sort.at_ d i = Some (el d i).
Proof.
  intros H. unfold sort.at_, sel.
  replace (i <? 0) with false by (symmetry; apply Z.ltb_ge; lia).
  destruct (lookup_lt_is_Some_2 d (Z.to_nat i) ltac:(lia)) as [x E].
  rewrite E. f_equal. symmetry. now apply nth_lookup_Some.
Qed.

Lemma Less_sel (d : list A) (i j : Z) :
  0 <= i < len d -> 0 <= j < len d ->
  sort.Less less d i j = less (el d i) (el d j).
Proof. intros Hi Hj. unfold sort.Less. now rewrite !at_sel. Qed.

Lemma sel_insert (d : list A) (i : nat) (x : A) (k : Z) :
  (i < length d)%nat -> 0 <= k ->
  el (<[i := x]> d) k = if k =? Z.of_nat i then x else el d k.
Proof.
  intros Hi Hk. unfold sel.
  destruct (k =? Z.of_nat i) eqn:E.
  - apply Z.eqb_eq in E. subst k. rewrite Nat2Z.id.
    apply nth_lookup_Some. now apply list_lookup_insert_eq.
  - apply Z.eqb_neq in E.
    destruct (d !! Z.to_nat k) as [y|] eqn:Ek.
    + rewrite (nth_lookup_Some _ _ _ _ Ek).
      apply nth_lookup_Some. rewrite list_lookup_insert_ne by lia. exact Ek.
    + apply lookup_ge_None in Ek.
      rewrite !List.nth_overflow; [reflexivity | lia | rewrite length_insert; lia].
Qed.

Lemma sel_Swap (d : list A) (i j k : Z) :
  0 <= i < len d -> 0 <= j < len d -> 0 <= k ->
  el (sort.Swap d i j) k = el d (transp i j k).
Proof.
  intros Hi Hj Hk. unfold sort.Swap. rewrite !at_sel by lia.
  rewrite sel_insert by (rewrite ?length_insert; lia || auto).
  rewrite sel_insert by (lia || auto).
  rewrite !Z2Nat.id by lia. unfold transp.
  destruct (k =? i) eqn:E1; [reflexivity|].
  destruct (k =? j) eqn:E2; reflexivity.
Qed.

End SelSwap.

Section Ranges.

Context {A : Type} (less : A -> A -> bool) (dflt : A).

Hypothesis less_trans :
  forall x y z, less x y = true -> less y z = true -> less x z = true.
Hypothesis less_negtrans :
  forall x y z, less x y = false -> less y z = false -> less x z = false.

Local Abbreviation len d := (Z.of_nat (length d)).
Local Abbreviation el d i := (sel dflt d i).
Local Abbreviation ok x y := (notAfter less x y).

Lemma notAfter_refl (x : A) : ok x x.
Proof. unfold notAfter. destruct (less x x); auto. Qed.

Lemma notAfter_true (x y : A) : less x y = true -> ok x y.
Proof. unfold notAfter. auto. Qed.

Lemma notAfter_false (x y : A) : less x y = false -> ok y x.
Proof. unfold notAfter. auto. Qed.

Lemma notAfter_trans (x y z : A) : ok x y -> ok y z -> ok x z.
Proof.
  unfold notAfter. intros [H1|H1] [H2|H2]; eauto.
  - destruct (less x z) eqn:E1; [auto|]. right.
    destruct (less z x) eqn:E2; [|reflexivity].
    rewrite (less_trans z x y E2 H1) in H2. discriminate.
  - destruct (less x z) eqn:E1; [auto|]. right.
    destruct (less z x) eqn:E2; [|reflexivity].
    rewrite (less_trans y z x H2 E2) in H1. discriminate.
Qed.

Lemma within_refl (a b : Z) (d : list A) : within dflt a b d d.
Proof. repeat split; eauto. Qed.

Lemma within_trans (a b : Z) (d1 d2 d3 : list A) :
  within dflt a b d1 d2 -> within dflt a b d2 d3 -> within dflt a b d1 d3.
Proof.
  intros (L1 & O1 & I1) (L2 & O2 & I2). split; [congruence|]. split.
  - intros k Hk Hn. rewrite O2, O1; auto.
  - intros k Ha Hb. destruct (I2 k Ha Hb) as (k' & Ha' & Hb' & ->). eauto.
Qed.

Lemma within_mono (a b a' b' : Z) (d d' : list A) :
  0 <= a' -> a' <= a -> b <= b' -> within dflt a b d d' -> within dflt a' b' d d'.
Proof.
  intros H0 Ha Hb (L & O & I). split; [exact L|]. split.
  - intros k Hk Hn. apply O; [exact Hk | lia].
  - intros k Hk1 Hk2. destruct (decide (a <= k < b)) as [Hin|Hout].
    + destruct (I k) as (k' & ? & ? & E); try lia. exists k'. repeat split; try lia. exact E.
    + exists k. repeat split; try lia. apply O; [lia | exact Hout].
Qed.

Lemma within_Swap (a b : Z) (d : list A) (i j : Z) :
  0 <= a -> b <= len d -> a <= i < b -> a <= j < b ->
  within dflt a b d (sort.Swap d i j).
Proof.
  intros H0 Hb Hi Hj. split; [apply Swap_length|]. split.
  - intros k Hk Hn. rewrite sel_Swap by lia. unfold transp.
    destruct (Z.eqb_spec k i); [lia|]. destruct (Z.eqb_spec k j); [lia|]. reflexivity.
  - intros k Hk1 Hk2. exists (transp i j k). rewrite sel_Swap by lia.
    split; [|split; [|reflexivity]]; unfold transp;
      destruct (Z.eqb_spec k i); try lia; destruct (Z.eqb_spec k j); lia.
Qed.

Lemma within_length (a b : Z) (d d' : list A) : within dflt a b d d' -> len d' = len d.
Proof. intros (L & _). now rewrite L. Qed.

Lemma within_all (P : A -> Prop) (a b : Z) (d d' : list A) :
  within dflt a b d d' ->
  (forall k, a <= k -> k < b -> P (el d k)) ->
  forall k, a <= k -> k < b -> P (el d' k).
Proof.
  intros (_ & _ & I) H k Ha Hb. destruct (I k Ha Hb) as (k' & ? & ? & ->). auto.
Qed.

Lemma within_outside (a b : Z) (d d' : list A) (k : Z) :
  within dflt a b d d' -> 0 <= k -> k < a \/ b <= k -> el d' k = el d k.
Proof. intros (_ & O & _) Hk Hn. apply O; [exact Hk | lia]. Qed.

Lemma lowerBound_within (a b : Z) (d d' : list A) :
  within dflt a b d d' -> lowerBound less dflt d a b -> lowerBound less dflt d' a b.
Proof.
  intros W H Ha i Hi1 Hi2.
  rewrite (within_outside a b d d' (a - 1) W) by lia.
  apply (within_all (fun x => less x (el d (a - 1)) = false) a b d d' W); auto.
Qed.

Lemma sortedRange_outside (a b lo hi : Z) (d d' : list A) :
  0 <= lo -> within dflt a b d d' -> hi <= a \/ b <= lo ->
  sortedRange less dflt d lo hi -> sortedRange less dflt d' lo hi.
Proof.
  intros H0 W Hd S i j Hi Hij Hj.
  rewrite !(within_outside a b d d') by (auto; lia). now apply S.
Qed.

(** A sorted range grows by the elements that come after their
    neighbours. *)
Lemma sortedRange_extend (d : list A) (a i : Z) (n : nat) :
  a < i ->
  sortedRange less dflt d a i ->
  (forall k, i <= k -> k < i + Z.of_nat n ->
     less (el d k) (el d (k - 1)) = false) ->
  sortedRange less dflt d a (i + Z.of_nat n).
Proof.
  intros Hai S. induction n as [|n IH]; intros H.
  - now replace (i + Z.of_nat 0) with i by lia.
  - assert (sortedRange less dflt d a (i + Z.of_nat n)) as S' by (apply IH; intros; apply H; lia).
    intros p q Hp Hpq Hq.
    destruct (decide (q < i + Z.of_nat n)) as [Hlt|Hge]; [now apply S'|].
    assert (q = i + Z.of_nat n) as -> by lia.
    destruct (decide (p = i + Z.of_nat n - 1)) as [->|Hne];
      [apply notAfter_false, H; lia|].
    apply (notAfter_trans _ (el d (i + Z.of_nat n - 1)));
      [apply S'; lia | apply notAfter_false, H; lia].
Qed.


(** ** The insertion sort of a range *)

Lemma insertDown_stop (d : list A) (a j i : Z) :
  (forall p q, a <= p -> p < q -> q <= i -> p <> j -> q <> j -> ok (el d p) (el d q)) ->
  (forall q, j < q -> q <= i -> ok (el d j) (el d q)) ->
  a = j \/ less (el d j) (el d (j - 1)) = false ->
  sortedRange less dflt d a (i + 1).
Proof.
  intros H1 H2 Hs p q Hp Hpq Hq.
  destruct (decide (p = j)) as [->|Hpj]; [apply H2; lia|].
  destruct (decide (q = j)) as [->|Hqj]; [|apply H1; lia].
  destruct Hs as [->|Hs]; [lia|]. apply notAfter_false in Hs.
  destruct (decide (p = j - 1)) as [->|Hne]; [exact Hs|].
  apply (notAfter_trans _ (el d (j - 1))); [apply H1; lia | exact Hs].
Qed.

Lemma insertDown_sorted (n : nat) :
  forall (d : list A) (a j i : Z),
    0 <= a -> a <= j -> j <= i -> i < len d ->
    (Z.to_nat (j - a) <= n)%nat ->
    (forall p q, a <= p -> p < q -> q <= i -> p <> j -> q <> j -> ok (el d p) (el d q)) ->
    (forall q, j < q -> q <= i -> ok (el d j) (el d q)) ->
    sortedRange less dflt (sort.insertDown less n d a j) a (i + 1)
    /\ within dflt a (i + 1) d (sort.insertDown less n d a j).
Proof.
  induction n as [|n IH]; intros d a j i H0 Haj Hji Hi Hn H1 H2.
  - split; [|apply within_refl]. apply (insertDown_stop d a j i H1 H2). lia.
  - cbn [sort.insertDown]. destruct (Z.ltb_spec a j) as [Hlt|Hge]; cbn [andb].
    2:{ split; [|apply within_refl]. apply (insertDown_stop d a j i H1 H2). lia. }
    rewrite (Less_sel less dflt) by lia.
    destruct (less (el d j) (el d (j - 1))) eqn:E.
    2:{ split; [|apply within_refl]. apply (insertDown_stop d a j i H1 H2). auto. }
    assert (within dflt a (i + 1) d (sort.Swap d j (j - 1))) as W
      by (apply within_Swap; lia).
    destruct (IH (sort.Swap d j (j - 1)) a (j - 1) i) as [S W']; try lia.
    + rewrite Swap_length. lia.
    + intros p q Hp Hpq Hq Hpj Hqj. rewrite !sel_Swap by lia. unfold transp.
      destruct (Z.eqb_spec q j) as [->|?], (Z.eqb_spec p j) as [->|?];
        try destruct (Z.eqb_spec q (j - 1)); try destruct (Z.eqb_spec p (j - 1));
        try lia; apply H1; lia.
    + intros q Hq1 Hq2. rewrite !sel_Swap by lia. unfold transp.
      destruct (Z.eqb_spec (j - 1) j); [lia|]. rewrite Z.eqb_refl.
      destruct (Z.eqb_spec q j) as [->|?]; [now apply notAfter_true|].
      destruct (Z.eqb_spec q (j - 1)); [lia|]. apply H2; lia.
    + split; [exact S|]. eapply within_trans; eauto.
Qed.

Lemma insertionLoop_sorted (n : nat) :
  forall (d : list A) (a b i : Z),
    0 <= a -> a < i -> i <= b -> b <= len d ->
    (Z.to_nat (b - i) <= n)%nat ->
    sortedRange less dflt d a i ->
    sortedRange less dflt (sort.insertionLoop less n d a b i) a b
    /\ within dflt a b d (sort.insertionLoop less n d a b i).
Proof.
  induction n as [|n IH]; intros d a b i H0 Hai Hib Hb Hn S.
  - assert (i = b) as -> by lia. split; [exact S | apply within_refl].
  - cbn [sort.insertionLoop]. destruct (Z.ltb_spec i b) as [Hlt|Hge].
    2:{ assert (i = b) as -> by lia. split; [exact S | apply within_refl]. }
    destruct (insertDown_sorted (Z.to_nat (i - a)) d a i i) as [S1 W1]; try lia.
    + intros p q Hp Hpq Hq Hpi Hqi. apply S; lia.
    + destruct (IH (sort.insertDown less (Z.to_nat (i - a)) d a i) a b (i + 1)) as [S2 W2];
        try lia; auto.
      * rewrite insertDown_length. lia.
      * split; [exact S2|]. eapply within_trans; [|exact W2].
        apply (within_mono a (i + 1)); auto; lia.
Qed.

Lemma insertionSort_func_sorted (d : list A) (a b : Z) :
  0 <= a -> a <= b -> b <= len d ->
  sortedRange less dflt (sort.insertionSort_func less d a b) a b
  /\ within dflt a b d (sort.insertionSort_func less d a b).
Proof.
  intros H0 Hab Hb. unfold sort.insertionSort_func.
  destruct (decide (a = b)) as [->|Hne].
  - replace (Z.to_nat (b - b)) with 0%nat by lia. cbn.
    split; [|apply within_refl]. intros i j ? ? ?. lia.
  - apply insertionLoop_sorted; try lia. intros i j ? ? ?. lia.
Qed.

(** ** The two partitions *)

Lemma countUp_spec (n : nat) (cond : Z -> bool) :
  forall i j : Z,
    (Z.to_nat (j - i + 1) <= n)%nat ->
    (forall k, i <= k -> k < sort.countUp n cond i j -> cond k = true)
    /\ (sort.countUp n cond i j <= j -> cond (sort.countUp n cond i j) = false).
Proof.
  induction n as [|n IH]; intros i j Hn; cbn [sort.countUp].
  - split; intros; lia.
  - destruct (Z.leb_spec i j) as [Hij|Hij]; cbn [andb]; [|split; intros; lia].
    destruct (cond i) eqn:E; [|split; intros; [lia | exact E]].
    destruct (IH (i + 1) j ltac:(lia)) as [H1 H2]. split; [|exact H2].
    intros k Hk1 Hk2. destruct (decide (k = i)) as [->|Hne]; [exact E | apply H1; lia].
Qed.

Lemma countDown_spec (n : nat) (cond : Z -> bool) :
  forall i j : Z,
    (Z.to_nat (j - i + 1) <= n)%nat ->
    (forall k, sort.countDown n cond i j < k -> k <= j -> cond k = true)
    /\ (i <= sort.countDown n cond i j -> cond (sort.countDown n cond i j) = false).
Proof.
  induction n as [|n IH]; intros i j Hn; cbn [sort.countDown].
  - split; intros; lia.
  - destruct (Z.leb_spec i j) as [Hij|Hij]; cbn [andb]; [|split; intros; lia].
    destruct (cond j) eqn:E; [|split; intros; [lia | exact E]].
    destruct (IH i (j - 1) ltac:(lia)) as [H1 H2]. split; [|exact H2].
    intros k Hk1 Hk2. destruct (decide (k = j)) as [->|Hne]; [exact E | apply H1; lia].
Qed.

(** One round of the loop of a partition: the two indices move towards
    each other over the elements that are on their side, and the two they
    stop at change places. *)
Lemma scan_step (low : A -> bool) (cu cd : Z -> bool) (d : list A) (a b i j : Z) :
  0 <= a -> a < i -> i <= j + 1 -> j < b -> b <= len d ->
  (forall k, a < k -> k < b -> cu k = low (el d k)) ->
  (forall k, a < k -> k < b -> cd k = negb (low (el d k))) ->
  (forall k, a < k -> k < i -> low (el d k) = true) ->
  (forall k, j < k -> k < b -> low (el d k) = false) ->
  let i1 := sort.countUp (sort.steps i j) cu i j in
  let j1 := sort.countDown (sort.steps i1 j) cd i1 j in
  i <= i1 /\ j1 <= j
  /\ if j1 <? i1
     then j1 = i1 - 1
          /\ (forall k, a < k -> k < i1 -> low (el d k) = true)
          /\ (forall k, j1 < k -> k < b -> low (el d k) = false)
     else i1 < j1
          /\ (forall k, a < k -> k < i1 + 1 -> low (el (sort.Swap d i1 j1) k) = true)
          /\ (forall k, j1 - 1 < k -> k < b -> low (el (sort.Swap d i1 j1) k) = false).
Proof.
  intros H0 Hai Hij Hjb Hb Hcu Hcd Hlo Hhi i1 j1.
  pose proof (countUp_bounds (sort.steps i j) cu i j) as Bi.
  pose proof (countDown_bounds (sort.steps i1 j) cd i1 j) as Bj.
  destruct (countUp_spec (sort.steps i j) cu i j ltac:(unfold sort.steps; lia)) as [U1 U2].
  destruct (countDown_spec (sort.steps i1 j) cd i1 j ltac:(unfold sort.steps; lia)) as [D1 D2].
  fold i1 in Bi, U1, U2. fold j1 in Bj, D1, D2.
  assert (forall k, a < k -> k < i1 -> low (el d k) = true) as Hlo'.
  { intros k Hk1 Hk2. destruct (decide (k < i)); [now apply Hlo|].
    rewrite <- Hcu by lia. apply U1; lia. }
  assert (forall k, j1 < k -> k < b -> low (el d k) = false) as Hhi'.
  { intros k Hk1 Hk2. destruct (decide (j < k)); [now apply Hhi|].
    apply negb_true_iff. rewrite <- Hcd by lia. apply D1; lia. }
  split; [lia|]. split; [lia|].
  destruct (Z.ltb_spec j1 i1) as [Hlt|Hge].
  - split; [lia|]. split; assumption.
  - assert (low (el d i1) = false) as Li by (rewrite <- Hcu by lia; apply U2; lia).
    assert (low (el d j1) = true) as Lj
      by (apply negb_false_iff; rewrite <- Hcd by lia; apply D2; lia).
    assert (i1 <> j1) as Hne by (intros E; rewrite E, Lj in Li; discriminate).
    split; [lia|]. split.
    + intros k Hk1 Hk2. rewrite sel_Swap by lia. unfold transp.
      destruct (Z.eqb_spec k i1); [exact Lj|].
      destruct (Z.eqb_spec k j1); [lia|]. apply Hlo'; lia.
    + intros k Hk1 Hk2. rewrite sel_Swap by lia. unfold transp.
      destruct (Z.eqb_spec k i1); [lia|].
      destruct (Z.eqb_spec k j1); [exact Li|]. apply Hhi'; lia.
Qed.

Lemma partitionLoop_spec (p : A) (n : nat) :
  forall (d : list A) (a b i j : Z),
    0 <= a -> a < i -> i <= j + 1 -> j < b -> b <= len d ->
    (S (sort.steps i j) <= n)%nat ->
    el d a = p ->
    (forall k, a < k -> k < i -> less (el d k) p = true) ->
    (forall k, j < k -> k < b -> less (el d k) p = false) ->
    a <= (sort.partitionLoop less n d a i j).2
    /\ (sort.partitionLoop less n d a i j).2 < b
    /\ within dflt (a + 1) b d (sort.partitionLoop less n d a i j).1
    /\ (forall k, a < k -> k <= (sort.partitionLoop less n d a i j).2 ->
          less (el (sort.partitionLoop less n d a i j).1 k) p = true)
    /\ (forall k, (sort.partitionLoop less n d a i j).2 < k -> k < b ->
          less (el (sort.partitionLoop less n d a i j).1 k) p = false).
Proof.
  induction n as [|n IH]; intros d a b i j H0 Hai Hij Hjb Hb Hn Hp Hlo Hhi; [lia|].
  cbn [sort.partitionLoop].
  pose proof (scan_step (fun x => less x p) (fun i => sort.Less less d i a)
                (fun j => negb (sort.Less less d j a)) d a b i j H0 Hai Hij Hjb Hb) as St.
  cbv zeta in St.
  set (i1 := sort.countUp _ _ i j) in *.
  set (j1 := sort.countDown _ _ i1 j) in *.
  destruct St as (Bi & Bj & St); auto.
  { intros k Hk1 Hk2. rewrite (Less_sel less dflt) by lia. now rewrite Hp. }
  { intros k Hk1 Hk2. rewrite (Less_sel less dflt) by lia. now rewrite Hp. }
  destruct (j1 <? i1).
  - destruct St as (E & L & H). cbn [fst snd].
    split; [lia|]. split; [lia|]. split; [apply within_refl|]. split.
    + intros k Hk1 Hk2. apply L; lia.
    + exact H.
  - destruct St as (Hlt & L & H).
    assert (within dflt (a + 1) b d (sort.Swap d i1 j1)) as W by (apply within_Swap; lia).
    destruct (IH (sort.Swap d i1 j1) a b (i1 + 1) (j1 - 1)) as (R1 & R2 & R3 & R4 & R5);
      try lia; auto.
    + rewrite Swap_length. lia.
    + unfold sort.steps in *. lia.
    + rewrite (within_outside (a + 1) b d) by (auto; lia). exact Hp.
    + split; [lia|]. split; [lia|]. split; [eapply within_trans; eauto|]. split; assumption.
Qed.

Lemma partition_finish (p : A) (d : list A) (a b j : Z) :
  0 <= a -> a <= j -> j < b -> b <= len d ->
  el d a = p ->
  (forall k, a < k -> k <= j -> less (el d k) p = true) ->
  (forall k, j < k -> k < b -> less (el d k) p = false) ->
  within dflt a b d (sort.Swap d j a)
  /\ (forall k, a <= k -> k < j ->
        less (el (sort.Swap d j a) k) (el (sort.Swap d j a) j) = true)
  /\ (forall k, j < k -> k < b ->
        less (el (sort.Swap d j a) k) (el (sort.Swap d j a) j) = false).
Proof.
  intros H0 Haj Hjb Hb Hp Hlo Hhi. split; [apply within_Swap; lia|].
  assert (el (sort.Swap d j a) j = p) as ->.
  { rewrite sel_Swap by lia. unfold transp. now rewrite Z.eqb_refl. }
  split; intros k Hk1 Hk2; rewrite sel_Swap by lia; unfold transp;
    destruct (Z.eqb_spec k j); try lia; destruct (Z.eqb_spec k a); try lia.
  - subst k. apply Hlo; lia.
  - apply Hlo; lia.
  - apply Hhi; lia.
Qed.

(** [partition_func]: the pivot comes to stand at the index returned, the
    elements before it on its left and no such element on its right. *)
Lemma partition_func_spec (d : list A) (a b pivot : Z) :
  0 <= a -> a < b -> b <= len d -> a <= pivot -> pivot < b ->
  a <= (sort.partition_func less d a b pivot).1.2
  /\ (sort.partition_func less d a b pivot).1.2 < b
  /\ within dflt a b d (sort.partition_func less d a b pivot).1.1
  /\ (forall k, a <= k -> k < (sort.partition_func less d a b pivot).1.2 ->
        less (el (sort.partition_func less d a b pivot).1.1 k)
             (el (sort.partition_func less d a b pivot).1.1
                 (sort.partition_func less d a b pivot).1.2) = true)
  /\ (forall k, (sort.partition_func less d a b pivot).1.2 < k -> k < b ->
        less (el (sort.partition_func less d a b pivot).1.1 k)
             (el (sort.partition_func less d a b pivot).1.1
                 (sort.partition_func less d a b pivot).1.2) = false).
Proof.
  intros H0 Hab Hb Hp1 Hp2. unfold sort.partition_func.
  assert (within dflt a b d (sort.Swap d a pivot)) as W0 by (apply within_Swap; lia).
  pose proof (Swap_length d a pivot) as L0.
  set (d0 := sort.Swap d a pivot) in *.
  pose proof (scan_step (fun x => less x (el d0 a)) (fun i => sort.Less less d0 i a)
                (fun j => negb (sort.Less less d0 j a)) d0 a b (a + 1) (b - 1)) as St.
  cbv zeta in St.
  set (i1 := sort.countUp _ _ (a + 1) (b - 1)) in *.
  set (j1 := sort.countDown _ _ i1 (b - 1)) in *.
  destruct St as (Bi & Bj & St); try lia.
  { intros k Hk1 Hk2. now rewrite (Less_sel less dflt) by lia. }
  { intros k Hk1 Hk2. now rewrite (Less_sel less dflt) by lia. }
  destruct (j1 <? i1).
  - destruct St as (E & L & H). cbn [fst snd].
    destruct (partition_finish (el d0 a) d0 a b j1) as (F1 & F2 & F3); try lia; auto.
    { intros k Hk1 Hk2. apply L; lia. }
    split; [lia|]. split; [lia|]. split; [eapply within_trans; eauto|]. split; assumption.
  - destruct St as (Hlt & L & H).
    assert (within dflt (a + 1) b d0 (sort.Swap d0 i1 j1)) as W1 by (apply within_Swap; lia).
    pose proof (partitionLoop_spec (el d0 a) (S (sort.steps (i1 + 1) (j1 - 1)))
                  (sort.Swap d0 i1 j1) a b (i1 + 1) (j1 - 1)) as P.
    destruct (sort.partitionLoop less _ _ a (i1 + 1) (j1 - 1)) as [d2 j2].
    cbn [fst snd] in *.
    destruct P as (R1 & R2 & R3 & R4 & R5); try lia; auto.
    { rewrite Swap_length. lia. }
    { apply (within_outside (a + 1) b d0); auto; lia. }
    assert (within dflt (a + 1) b d0 d2) as W2 by (eapply within_trans; eauto).
    destruct (partition_finish (el d0 a) d2 a b j2) as (F1 & F2 & F3); try lia; auto.
    { rewrite (within_length _ _ _ _ W2). lia. }
    { apply (within_outside (a + 1) b d0); auto; lia. }
    split; [lia|]. split; [lia|]. split; [|split; assumption].
    eapply within_trans; [exact W0|]. eapply within_trans; [|exact F1].
    apply (within_mono (a + 1) b); auto; lia.
Qed.

Lemma partitionEqualLoop_spec (p : A) (n : nat) :
  forall (d : list A) (a b i j : Z),
    0 <= a -> a < i -> i <= j + 1 -> j < b -> b <= len d ->
    (S (sort.steps i j) <= n)%nat ->
    el d a = p ->
    (forall k, a < k -> k < i -> less p (el d k) = false) ->
    (forall k, j < k -> k < b -> less p (el d k) = true) ->
    i <= (sort.partitionEqualLoop less n d a i j).2
    /\ (sort.partitionEqualLoop less n d a i j).2 <= b
    /\ within dflt (a + 1) b d (sort.partitionEqualLoop less n d a i j).1
    /\ (forall k, a < k -> k < (sort.partitionEqualLoop less n d a i j).2 ->
          less p (el (sort.partitionEqualLoop less n d a i j).1 k) = false)
    /\ (forall k, (sort.partitionEqualLoop less n d a i j).2 <= k -> k < b ->
          less p (el (sort.partitionEqualLoop less n d a i j).1 k) = true).
Proof.
  induction n as [|n IH]; intros d a b i j H0 Hai Hij Hjb Hb Hn Hp Hlo Hhi; [lia|].
  cbn [sort.partitionEqualLoop].
  pose proof (scan_step (fun x => negb (less p x)) (fun i => negb (sort.Less less d a i))
                (fun j => sort.Less less d a j) d a b i j H0 Hai Hij Hjb Hb) as St.
  cbv zeta in St.
  set (i1 := sort.countUp _ _ i j) in *.
  set (j1 := sort.countDown _ _ i1 j) in *.
  destruct St as (Bi & Bj & St).
  { intros k Hk1 Hk2. rewrite (Less_sel less dflt) by lia. now rewrite Hp. }
  { intros k Hk1 Hk2. rewrite (Less_sel less dflt) by lia.
    now rewrite Hp, negb_involutive. }
  { intros k Hk1 Hk2. apply negb_true_iff. now apply Hlo. }
  { intros k Hk1 Hk2. apply negb_false_iff. now apply Hhi. }
  destruct (j1 <? i1).
  - destruct St as (E & L & H). cbn [fst snd].
    split; [lia|]. split; [lia|]. split; [apply within_refl|]. split.
    + intros k Hk1 Hk2. apply negb_true_iff. apply L; lia.
    + intros k Hk1 Hk2. apply negb_false_iff. apply H; lia.
  - destruct St as (Hlt & L & H).
    assert (within dflt (a + 1) b d (sort.Swap d i1 j1)) as W by (apply within_Swap; lia).
    destruct (IH (sort.Swap d i1 j1) a b (i1 + 1) (j1 - 1)) as (R1 & R2 & R3 & R4 & R5);
      try lia.
    + rewrite Swap_length. lia.
    + unfold sort.steps in *. lia.
    + rewrite (within_outside (a + 1) b d) by (auto; lia). exact Hp.
    + intros k Hk1 Hk2. apply negb_true_iff. apply L; lia.
    + intros k Hk1 Hk2. apply negb_false_iff. apply H; lia.
    + split; [lia|]. split; [lia|]. split; [eapply within_trans; eauto|]. split; assumption.
Qed.

(** [partitionEqual_func]: the pivot comes to stand at [a]; the elements
    that do not come after it are before the index returned, the others
    from it on. *)
Lemma partitionEqual_func_spec (d : list A) (a b pivot : Z) :
  0 <= a -> a < b -> b <= len d -> a <= pivot -> pivot < b ->
  a + 1 <= (sort.partitionEqual_func less d a b pivot).2
  /\ (sort.partitionEqual_func less d a b pivot).2 <= b
  /\ within dflt a b d (sort.partitionEqual_func less d a b pivot).1
  /\ el (sort.partitionEqual_func less d a b pivot).1 a = el d pivot
  /\ (forall k, a < k -> k < (sort.partitionEqual_func less d a b pivot).2 ->
        less (el d pivot) (el (sort.partitionEqual_func less d a b pivot).1 k) = false)
  /\ (forall k, (sort.partitionEqual_func less d a b pivot).2 <= k -> k < b ->
        less (el d pivot) (el (sort.partitionEqual_func less d a b pivot).1 k) = true).
Proof.
  intros H0 Hab Hb Hp1 Hp2. unfold sort.partitionEqual_func.
  assert (within dflt a b d (sort.Swap d a pivot)) as W0 by (apply within_Swap; lia).
  pose proof (Swap_length d a pivot) as L0.
  assert (el (sort.Swap d a pivot) a = el d pivot) as Ea.
  { rewrite sel_Swap by lia. unfold transp. now rewrite Z.eqb_refl. }
  set (d0 := sort.Swap d a pivot) in *.
  destruct (partitionEqualLoop_spec (el d pivot) (S (sort.steps (a + 1) (b - 1)))
              d0 a b (a + 1) (b - 1)) as (R1 & R2 & R3 & R4 & R5); try lia; auto.
  split; [lia|]. split; [lia|]. split; [|split; [|split; [exact R4 | exact R5]]].
  - eapply within_trans; [exact W0|]. apply (within_mono (a + 1) b); auto; lia.
  - rewrite (within_outside (a + 1) b d0 _ a) by (auto; lia). exact Ea.
Qed.

(** ** The steps that only rearrange the range *)

Lemma reverseLoop_within (n : nat) :
  forall (d : list A) (a b i j : Z),
    0 <= a -> a <= i -> j < b -> b <= len d ->
    within dflt a b d (sort.reverseLoop n d i j).
Proof.
  induction n as [|n IH]; intros d a b i j H0 Hi Hj Hb; cbn [sort.reverseLoop].
  - apply within_refl.
  - destruct (Z.ltb_spec i j); [|apply within_refl].
    eapply within_trans; [apply (within_Swap a b d i j); lia|].
    apply IH; try lia. rewrite Swap_length. lia.
Qed.

Lemma breakLoop_within (n : nat) :
  forall (d : list A) (a length0 idx modulus random i k : Z),
    0 <= a -> a + length0 <= len d -> 0 < length0 ->
    0 <= k -> modulus = 2 ^ k -> modulus <= 2 * length0 ->
    a <= idx + i -> idx + i + Z.of_nat n <= a + length0 ->
    within dflt a (a + length0) d (sort.breakLoop n d a length0 idx modulus random i).
Proof.
  induction n as [|n IH]; intros d a l idx m r i k H0 Hb Hl Hk Hm Hm2 Hi1 Hi2;
    cbn [sort.breakLoop].
  - apply within_refl.
  - set (r' := sort.xorshiftNext r).
    assert (0 <= Z.land r' (m - 1) < m) as Ho.
    { replace (m - 1) with (Z.ones k) by (rewrite Z.ones_equiv; lia).
      rewrite Z.land_ones by exact Hk. rewrite <- Hm. apply Z.mod_pos_bound. lia. }
    set (o := Z.land r' (m - 1)) in *.
    apply (within_trans _ _ _
             (sort.Swap d (idx + i) (a + (if l <=? o then o - l else o)))).
    + apply within_Swap; try lia. destruct (Z.leb_spec l o); lia.
    + apply (IH _ a l idx m r' (i + 1) k); try lia. rewrite Swap_length. lia.
Qed.

Lemma breakPatterns_func_within (d : list A) (a b : Z) :
  0 <= a -> a <= b -> b <= len d ->
  within dflt a b d (sort.breakPatterns_func d a b).
Proof.
  intros H0 Hab Hb. unfold sort.breakPatterns_func.
  destruct (Z.leb_spec 8 (b - a)) as [H8|H8]; [|apply within_refl].
  replace b with (a + (b - a)) at 1 by lia.
  assert (sort.bitsLen (b - a) = Z.log2 (b - a) + 1) as E.
  { unfold sort.bitsLen. destruct (Z.leb_spec (b - a) 0); [lia | reflexivity]. }
  pose proof (Z.log2_nonneg (b - a)) as Hlog.
  pose proof (Z.log2_spec (b - a) ltac:(lia)) as [Hp _].
  assert (0 <= (b - a) / 4 * 2 - 1 /\ (b - a) / 4 * 2 + 2 <= b - a) as Hq
    by (Z.div_mod_to_equations; lia).
  apply (breakLoop_within 3 d a (b - a) _ _ _ 0 (Z.log2 (b - a) + 1)); try lia.
  - rewrite E, Z.shiftl_1_l. reflexivity.
  - rewrite E, Z.shiftl_1_l, Z.pow_add_r by lia. change (2 ^ 1) with 2. lia.
Qed.

Lemma order2_func_cases (d : list A) (x y s : Z) :
  ((sort.order2_func less d x y s).1.1 = x /\ (sort.order2_func less d x y s).1.2 = y)
  \/ ((sort.order2_func less d x y s).1.1 = y /\ (sort.order2_func less d x y s).1.2 = x).
Proof. unfold sort.order2_func. destruct (sort.Less less d y x); cbn; auto. Qed.

Lemma median_func_cases (d : list A) (x y z s : Z) :
  (sort.median_func less d x y z s).1 = x
  \/ (sort.median_func less d x y z s).1 = y
  \/ (sort.median_func less d x y z s).1 = z.
Proof.
  unfold sort.median_func.
  pose proof (order2_func_cases d x y s) as H1.
  destruct (sort.order2_func less d x y s) as [[x1 y1] s1]. cbn [fst snd] in H1.
  pose proof (order2_func_cases d y1 z s1) as H2.
  destruct (sort.order2_func less d y1 z s1) as [[y2 z2] s2]. cbn [fst snd] in H2.
  pose proof (order2_func_cases d x1 y2 s2) as H3.
  destruct (sort.order2_func less d x1 y2 s2) as [[x3 y3] s3]. cbn [fst snd] in *.
  intuition congruence.
Qed.

(** The pivot is chosen in the range. *)
Lemma choosePivot_func_bounds (d : list A) (a b : Z) :
  8 <= b - a ->
  a <= (sort.choosePivot_func less d a b).1 /\ (sort.choosePivot_func less d a b).1 < b.
Proof.
  intros H8. unfold sort.choosePivot_func.
  replace (8 <=? b - a) with true by (symmetry; apply Z.leb_le; lia).
  assert (0 < (b - a) / 4 /\ (b - a) / 4 * 3 < b - a) as Hq by (Z.div_mod_to_equations; lia).
  assert (50 <= b - a -> 1 < (b - a) / 4 /\ (b - a) / 4 * 3 + 1 < b - a) as Hq'
    by (intros; Z.div_mod_to_equations; lia).
  set (q := (b - a) / 4) in *.
  assert (forall x y z s p,
             a <= x < b -> a <= y < b -> a <= z < b ->
             sort.median_func less d x y z s = p ->
             a <= (let '(j, swaps) := p in
                   if swaps =? 0 then (j, sort.increasingHint)
                   else if swaps =? 12 then (j, sort.decreasingHint)
                   else (j, sort.unknownHint)).1 < b) as Hm.
  { intros x y z s [j w] Hx Hy Hz E.
    pose proof (median_func_cases d x y z s) as C. rewrite E in C. cbn [fst] in C.
    destruct (w =? 0); [cbn; lia|]. destruct (w =? 12); cbn; lia. }
  destruct (Z.leb_spec 50 (b - a)) as [H50|H50].
  - specialize (Hq' H50).
    unfold sort.medianAdjacent_func.
    pose proof (median_func_cases d (a + q * 1 - 1) (a + q * 1) (a + q * 1 + 1) 0) as C1.
    destruct (sort.median_func less d (a + q * 1 - 1) _ _ 0) as [i1 s1]. cbn [fst] in C1.
    pose proof (median_func_cases d (a + q * 2 - 1) (a + q * 2) (a + q * 2 + 1) s1) as C2.
    destruct (sort.median_func less d (a + q * 2 - 1) _ _ s1) as [i2 s2]. cbn [fst] in C2.
    pose proof (median_func_cases d (a + q * 3 - 1) (a + q * 3) (a + q * 3 + 1) s2) as C3.
    destruct (sort.median_func less d (a + q * 3 - 1) _ _ s2) as [i3 s3]. cbn [fst] in C3.
    apply (Hm i1 i2 i3 s3); [lia | lia | lia | reflexivity].
  - apply (Hm (a + q * 1) (a + q * 2) (a + q * 3) 0); [lia | lia | lia | reflexivity].
Qed.

(** ** The insertion sort that gives up *)

(** With nothing before the range that comes after an element of it, the
    loop that shifts to the left stops in the range. *)
Lemma shiftLeft_insertDown (n : nat) :
  forall (d : list A) (a j : Z),
    0 <= a -> a <= j -> j < len d ->
    (0 < a -> less (el d j) (el d (a - 1)) = false) ->
    sort.shiftLeft less n d j = sort.insertDown less n d a j.
Proof.
  induction n as [|n IH]; intros d a j H0 Haj Hj Hlow; [reflexivity|].
  cbn [sort.shiftLeft sort.insertDown].
  destruct (Z.ltb_spec a j) as [Hlt|Hge]; cbn [andb].
  - replace (1 <=? j) with true by (symmetry; apply Z.leb_le; lia).
    destruct (sort.Less less d j (j - 1)) eqn:E; cbn [negb]; [|reflexivity].
    apply IH; try lia.
    + rewrite Swap_length. lia.
    + intros Ha. rewrite !sel_Swap by lia. unfold transp.
      destruct (Z.eqb_spec (j - 1) j); [lia|]. rewrite Z.eqb_refl.
      destruct (Z.eqb_spec (a - 1) j); [lia|].
      destruct (Z.eqb_spec (a - 1) (j - 1)); [lia|]. auto.
  - assert (j = a) as -> by lia.
    destruct (Z.leb_spec 1 a); [|reflexivity].
    rewrite (Less_sel less dflt) by lia. rewrite Hlow by lia. reflexivity.
Qed.

Lemma shiftRight_within (n : nat) :
  forall (d : list A) (j b : Z),
    1 <= j -> b <= len d ->
    within dflt (j - 1) b d (sort.shiftRight less n d j b).
Proof.
  induction n as [|n IH]; intros d j b Hj Hb; cbn [sort.shiftRight].
  - apply within_refl.
  - destruct (Z.ltb_spec j b); [|apply within_refl].
    destruct (negb (sort.Less less d j (j - 1))); [apply within_refl|].
    apply (within_trans _ _ _ (sort.Swap d j (j - 1))).
    + apply within_Swap; lia.
    + apply (within_mono (j + 1 - 1) b); try lia.
      apply IH; try lia. rewrite Swap_length. lia.
Qed.

Lemma partialInsertionLoop_spec (n : nat) :
  forall (d : list A) (a b i : Z),
    0 <= a -> a < i -> i <= b -> b <= len d ->
    lowerBound less dflt d a b ->
    sortedRange less dflt d a i ->
    within dflt a b d (sort.partialInsertionLoop less n d a b i).1
    /\ ((sort.partialInsertionLoop less n d a b i).2 = true ->
        sortedRange less dflt (sort.partialInsertionLoop less n d a b i).1 a b).
Proof.
  induction n as [|n IH]; intros d a b i H0 Hai Hib Hb Hlow S;
    cbn [sort.partialInsertionLoop].
  - split; [apply within_refl | discriminate].
  - pose proof (countUp_bounds (sort.steps i (b - 1))
                  (fun i => negb (sort.Less less d i (i - 1))) i (b - 1)) as Bi.
    destruct (countUp_spec (sort.steps i (b - 1))
                (fun i => negb (sort.Less less d i (i - 1))) i (b - 1)
                ltac:(unfold sort.steps; lia)) as [U1 U2].
    set (i1 := sort.countUp _ _ i (b - 1)) in *.
    assert (sortedRange less dflt d a i1) as S1.
    { replace i1 with (i + Z.of_nat (Z.to_nat (i1 - i))) by lia.
      apply sortedRange_extend; auto.
      intros k Hk1 Hk2. specialize (U1 k ltac:(lia) ltac:(lia)).
      apply negb_true_iff in U1. rewrite (Less_sel less dflt) in U1 by lia. exact U1. }
    destruct (Z.eqb_spec i1 b) as [E|Hne].
    { cbn [fst snd]. split; [apply within_refl|]. intros _. now rewrite <- E. }
    destruct (b - a <? 50).
    { cbn [fst snd]. split; [apply within_refl | discriminate]. }
    specialize (U2 ltac:(lia)). apply negb_false_iff in U2.
    rewrite (Less_sel less dflt) in U2 by lia.
    assert (within dflt a b d (sort.Swap d i1 (i1 - 1))) as W1 by (apply within_Swap; lia).
    pose proof (Swap_length d i1 (i1 - 1)) as L1.
    set (d1 := sort.Swap d i1 (i1 - 1)) in *.
    assert (forall k, 0 <= k -> k < i1 - 1 -> el d1 k = el d k) as Same.
    { intros k Hk1 Hk2. unfold d1. rewrite sel_Swap by lia. unfold transp.
      destruct (Z.eqb_spec k i1); [lia|]. destruct (Z.eqb_spec k (i1 - 1)); [lia|].
      reflexivity. }
    set (d2 := if 2 <=? i1 - a then sort.shiftLeft less (Z.to_nat i1) d1 (i1 - 1) else d1).
    assert (sortedRange less dflt d2 a i1 /\ within dflt a b d1 d2) as [S2 W2].
    { unfold d2. destruct (Z.leb_spec 2 (i1 - a)) as [H2|H2].
      - assert (0 < a -> less (el d1 (i1 - 1)) (el d1 (a - 1)) = false) as Hpred.
        { intros Ha. rewrite (Same (a - 1)) by lia.
          unfold d1. rewrite sel_Swap by lia. unfold transp.
          destruct (Z.eqb_spec (i1 - 1) i1); [lia|]. rewrite Z.eqb_refl.
          apply Hlow; lia. }
        rewrite (shiftLeft_insertDown _ d1 a) by (auto; lia).
        destruct (insertDown_sorted (Z.to_nat i1) d1 a (i1 - 1) (i1 - 1)) as [S2 W2];
          try lia.
        + intros p q Hp Hpq Hq Hp' Hq'. rewrite !Same by lia. apply S1; lia.
        + replace (i1 - 1 + 1) with i1 in * by lia. split; [exact S2|].
          apply (within_mono a i1); auto; lia.
      - split; [|apply within_refl]. intros p q ? ? ?. lia. }
    pose proof (within_length _ _ _ _ W2) as L2.
    set (d3 := if 2 <=? b - i1 then sort.shiftRight less (Z.to_nat (b - i1)) d2 (i1 + 1) b
               else d2).
    assert (within dflt i1 b d2 d3) as W3.
    { unfold d3. destruct (2 <=? b - i1); [|apply within_refl].
      replace i1 with (i1 + 1 - 1) at 1 by lia. apply shiftRight_within; lia. }
    assert (within dflt a b d d3) as W.
    { eapply within_trans; [exact W1|]. eapply within_trans; [exact W2|].
      apply (within_mono i1 b); auto; lia. }
    destruct (IH d3 a b i1) as [W' S']; try lia.
    + rewrite (within_length _ _ _ _ W). lia.
    + apply (lowerBound_within a b d); auto.
    + apply (sortedRange_outside i1 b a i1 d2); auto; lia.
    + split; [|exact S']. eapply within_trans; eauto.
Qed.

Lemma partialInsertionSort_func_spec (d : list A) (a b : Z) :
  0 <= a -> a < b -> b <= len d ->
  lowerBound less dflt d a b ->
  within dflt a b d (sort.partialInsertionSort_func less d a b).1
  /\ ((sort.partialInsertionSort_func less d a b).2 = true ->
      sortedRange less dflt (sort.partialInsertionSort_func less d a b).1 a b).
Proof.
  intros H0 Hab Hb Hlow. apply partialInsertionLoop_spec; try lia; auto.
  intros p q ? ? ?. lia.
Qed.

(** ** The heap sort of a range *)

Ltac swapped :=
  rewrite ?sel_Swap by lia; unfold transp;
  repeat match goal with
         | |- context [Z.eqb ?x ?y] => destruct (Z.eqb_spec x y); try lia
         end.

Lemma heapFrom_leaf (d : list A) (first lo hi root : Z) :
  heapFrom less dflt d first lo hi root -> hi <= 2 * root + 1 ->
  heapFrom less dflt d first lo hi (-1).
Proof.
  intros H Hr i c Hi _ Hc Hhi. apply H; auto. lia.
Qed.

Lemma siftDown_loop_heap (n : nat) :
  forall (d : list A) (root lo hi first : Z),
    0 <= first -> first + hi <= len d -> 0 <= lo -> lo <= root ->
    (Z.to_nat (hi - root) <= n)%nat ->
    heapFrom less dflt d first lo hi root ->
    (forall p c, lo <= p -> root = 2 * p + 1 \/ root = 2 * p + 2 ->
       c = 2 * root + 1 \/ c = 2 * root + 2 -> c < hi ->
       ok (el d (first + c)) (el d (first + p))) ->
    heapFrom less dflt (sort.siftDown_loop less n d root hi first) first lo hi (-1)
    /\ within dflt first (first + hi) d (sort.siftDown_loop less n d root hi first).
Proof.
  induction n as [|n IH]; intros d root lo hi first H0 Hb Hlo Hroot Hn Hheap Hgrand;
    cbn [sort.siftDown_loop].
  - split; [|apply within_refl]. apply (heapFrom_leaf d first lo hi root); auto. lia.
  - destruct (Z.leb_spec hi (2 * root + 1)) as [Hleaf|Hchild].
    { split; [|apply within_refl]. apply (heapFrom_leaf d first lo hi root); auto. }
    set (child := if (2 * root + 1 + 1 <? hi)
                     && sort.Less less d (first + (2 * root + 1)) (first + (2 * root + 1) + 1)
                  then 2 * root + 1 + 1 else 2 * root + 1).
    assert ((child = 2 * root + 1 \/ child = 2 * root + 2) /\ child < hi
            /\ forall c, c = 2 * root + 1 \/ c = 2 * root + 2 -> c < hi ->
                 ok (el d (first + c)) (el d (first + child))) as (Hc & Hchi & Hbig).
    { unfold child. destruct (Z.ltb_spec (2 * root + 1 + 1) hi) as [H2|H2]; cbn [andb].
      - rewrite (Less_sel less dflt) by lia.
        replace (first + (2 * root + 1) + 1) with (first + (2 * root + 2)) by lia.
        replace (2 * root + 1 + 1) with (2 * root + 2) by lia.
        destruct (less (el d (first + (2 * root + 1))) (el d (first + (2 * root + 2)))) eqn:E.
        + split; [lia|]. split; [lia|]. intros c [->| ->] Hc.
          * now apply notAfter_true.
          * apply notAfter_refl.
        + split; [lia|]. split; [lia|]. intros c [->| ->] Hc.
          * apply notAfter_refl.
          * now apply notAfter_false.
      - split; [lia|]. split; [lia|]. intros c [->| ->] Hc; [apply notAfter_refl | lia]. }
    clearbody child.
    rewrite (Less_sel less dflt) by lia.
    destruct (less (el d (first + root)) (el d (first + child))) eqn:E; cbn [negb].
    2:{ split; [|apply within_refl]. intros i c Hi _ Hci Hchi'.
        destruct (decide (i = root)) as [->|Hne]; [|apply Hheap; auto].
        apply (notAfter_trans _ (el d (first + child))); auto.
        now apply notAfter_false. }
    assert (within dflt first (first + hi) d (sort.Swap d (first + root) (first + child)))
      as W by (apply within_Swap; lia).
    pose proof (Swap_length d (first + root) (first + child)) as L.
    destruct (IH (sort.Swap d (first + root) (first + child)) child lo hi first)
      as [Hheap' W']; try lia.
    + intros i c Hi Hne Hci Hchi'. swapped.
      * apply (Hgrand i child); auto; lia.
      * now apply notAfter_true.
      * apply Hbig; auto; lia.
      * apply Hheap; auto; lia.
    + intros p c Hp Hpc Hcc Hchi'. swapped. apply Hheap; auto; lia.
    + split; [exact Hheap'|]. eapply within_trans; eauto.
Qed.

Lemma heapBuild_heap (n : nat) :
  forall (d : list A) (i hi first : Z),
    0 <= first -> first + hi <= len d -> -1 <= i ->
    (Z.to_nat (i + 1) <= n)%nat ->
    heapFrom less dflt d first (i + 1) hi (-1) ->
    heapFrom less dflt (sort.heapBuild less n d i hi first) first 0 hi (-1)
    /\ within dflt first (first + hi) d (sort.heapBuild less n d i hi first).
Proof.
  induction n as [|n IH]; intros d i hi first H0 Hb Hi Hn Hheap; cbn [sort.heapBuild].
  - split; [|apply within_refl]. now replace 0 with (i + 1) by lia.
  - destruct (Z.leb_spec 0 i) as [Hge|Hlt].
    2:{ split; [|apply within_refl]. now replace 0 with (i + 1) by lia. }
    unfold sort.siftDown_func.
    destruct (siftDown_loop_heap (Z.to_nat hi) d i i hi first) as [Hheap' W]; try lia.
    + intros j c Hj Hne Hc Hhi. apply Hheap; auto; lia.
    + destruct (IH (sort.siftDown_loop less (Z.to_nat hi) d i hi first) (i - 1) hi first)
        as [Hheap2 W2]; try lia.
      * rewrite siftDown_loop_length. lia.
      * now replace (i - 1 + 1) with i by lia.
      * split; [exact Hheap2|]. eapply within_trans; eauto.
Qed.

(** Everything in a heap may stand before its root. *)
Lemma heap_root (d : list A) (first hi : Z) :
  heapFrom less dflt d first 0 hi (-1) ->
  forall (n : nat) (k : Z), (Z.to_nat k < n)%nat -> 0 <= k -> k < hi ->
    ok (el d (first + k)) (el d (first + 0)).
Proof.
  intros H. induction n as [|n IH]; intros k Hn Hk Hhi; [lia|].
  destruct (decide (k = 0)) as [->|Hne]; [apply notAfter_refl|].
  apply (notAfter_trans _ (el d (first + (k - 1) / 2))).
  - apply H; Z.div_mod_to_equations; lia.
  - apply IH; Z.div_mod_to_equations; lia.
Qed.

Lemma heapPop_sorted (n : nat) :
  forall (d : list A) (i hi first : Z),
    0 <= first -> first + hi <= len d -> -1 <= i -> i < hi ->
    (Z.to_nat (i + 1) <= n)%nat ->
    heapFrom less dflt d first 0 (i + 1) (-1) ->
    sortedRange less dflt d (first + i + 1) (first + hi) ->
    (forall k q, first <= k -> k <= first + i -> first + i < q -> q < first + hi ->
       ok (el d k) (el d q)) ->
    sortedRange less dflt (sort.heapPop less n d i first) first (first + hi)
    /\ within dflt first (first + hi) d (sort.heapPop less n d i first).
Proof.
  induction n as [|n IH]; intros d i hi first H0 Hb Hi Hhi Hn Hheap Hsorted Hcross;
    cbn [sort.heapPop].
  - split; [|apply within_refl]. now replace first with (first + i + 1) at 1 by lia.
  - destruct (Z.leb_spec 0 i) as [Hge|Hlt].
    2:{ split; [|apply within_refl]. now replace first with (first + i + 1) at 1 by lia. }
    assert (forall x, first <= x -> x <= first + i -> ok (el d x) (el d first)) as Hroot.
    { intros x Hx1 Hx2. replace x with (first + (x - first)) by lia.
      replace (el d first) with (el d (first + 0)) by (f_equal; lia).
      apply (heap_root d first (i + 1) Hheap (S (Z.to_nat i))); lia. }
    assert (within dflt first (first + hi) d (sort.Swap d first (first + i))) as W1
      by (apply within_Swap; lia).
    pose proof (Swap_length d first (first + i)) as L1.
    set (d1 := sort.Swap d first (first + i)) in *.
    unfold sort.siftDown_func.
    destruct (siftDown_loop_heap (Z.to_nat i) d1 0 0 i first) as [Hheap2 W2]; try lia.
    + intros j c Hj Hne Hc Hci. unfold d1. swapped. apply Hheap; auto; lia.
    + set (d2 := sort.siftDown_loop less (Z.to_nat i) d1 0 i first) in *.
      assert (forall q, first + i <= q -> q < first + hi -> el d2 q = el d1 q) as Hout
        by (intros q Hq1 Hq2; apply (within_outside first (first + i)); auto; lia).
      assert (forall q, first + i < q -> q < first + hi -> el d1 q = el d q) as Hout1
        by (intros q Hq1 Hq2; unfold d1; swapped; reflexivity).
      assert (el d1 (first + i) = el d first) as Htop
        by (unfold d1; swapped; try reflexivity; f_equal; lia).
      destruct (IH d2 (i - 1) hi first) as [S3 W3]; try lia.
      * rewrite (within_length _ _ _ _ W2). lia.
      * now replace (i - 1 + 1) with i by lia.
      * replace (first + (i - 1) + 1) with (first + i) by lia.
        intros p q Hp Hpq Hq. rewrite !Hout by lia.
        destruct (decide (p = first + i)) as [->|Hne].
        -- rewrite Htop, Hout1 by lia. apply Hcross; lia.
        -- rewrite !Hout1 by lia. apply Hsorted; lia.
      * intros k q Hk1 Hk2 Hq1 Hq2. rewrite (Hout q) by lia.
        apply (within_all (fun x => ok x (el d1 q)) first (first + i) d1 d2 W2);
          try lia.
        intros k' Hk1' Hk2'.
        destruct (decide (q = first + i)) as [->|Hne].
        -- rewrite Htop. unfold d1. swapped; apply Hroot; lia.
        -- rewrite (Hout1 q) by lia. unfold d1. swapped; apply Hcross; lia.
      * split; [exact S3|]. eapply within_trans; [exact W1|].
        eapply within_trans; [|exact W3].
        apply (within_mono first (first + i)); auto; lia.
Qed.

Lemma heapSort_func_sorted (d : list A) (a b : Z) :
  0 <= a -> a < b -> b <= len d ->
  sortedRange less dflt (sort.heapSort_func less d a b) a b
  /\ within dflt a b d (sort.heapSort_func less d a b).
Proof.
  intros H0 Hab Hb. unfold sort.heapSort_func.
  rewrite Z.quot_div_nonneg by lia.
  destruct (heapBuild_heap (Z.to_nat (b - a)) d ((b - a - 1) / 2) (b - a) a) as [Hheap W];
    try (Z.div_mod_to_equations; lia).
  { intros i c Hi Hne Hc Hhi. Z.div_mod_to_equations; lia. }
  replace (a + (b - a)) with b in * by lia.
  set (d1 := sort.heapBuild less _ d _ (b - a) a) in *.
  destruct (heapPop_sorted (Z.to_nat (b - a)) d1 (b - a - 1) (b - a) a) as [S W2]; try lia.
  - rewrite (within_length _ _ _ _ W). lia.
  - now replace (b - a - 1 + 1) with (b - a) by lia.
  - intros p q ? ? ?. lia.
  - replace (a + (b - a)) with b in * by lia. split; [exact S|].
    eapply within_trans; eauto.
Qed.

(** ** [pdqsort_func] sorts its range *)

Lemma partitioned_left (d d' : list A) (a mid b : Z) :
  0 <= a -> a <= mid ->
  within dflt a mid d d' ->
  partitioned less dflt d a mid b -> partitioned less dflt d' a mid b.
Proof.
  intros H0 Hm W [Hlo Hhi].
  assert (el d' mid = el d mid) as E by (apply (within_outside a mid); auto; lia).
  split; intros k Hk1 Hk2; rewrite E.
  - apply (within_all (fun x => less x (el d mid) = true) a mid d d' W); auto.
  - rewrite (within_outside a mid d d') by (auto; lia). now apply Hhi.
Qed.

Lemma partitioned_right (d d' : list A) (a mid b : Z) :
  0 <= a -> a <= mid ->
  within dflt (mid + 1) b d d' ->
  partitioned less dflt d a mid b -> partitioned less dflt d' a mid b.
Proof.
  intros H0 Hm W [Hlo Hhi].
  assert (el d' mid = el d mid) as E by (apply (within_outside (mid + 1) b); auto; lia).
  split; intros k Hk1 Hk2; rewrite E.
  - rewrite (within_outside (mid + 1) b d d') by (auto; lia). now apply Hlo.
  - apply (within_all (fun x => less x (el d mid) = false) (mid + 1) b d d' W); auto;
      try lia. intros; apply Hhi; lia.
Qed.

Lemma lowerBound_right (d : list A) (a mid b : Z) :
  a <= mid ->
  lowerBound less dflt d a b -> partitioned less dflt d a mid b ->
  lowerBound less dflt d (mid + 1) b.
Proof.
  intros Hm Hlow [Hlo Hhi] _ i Hi1 Hi2.
  replace (mid + 1 - 1) with mid by lia. apply Hhi; lia.
Qed.

Lemma lowerBound_left (d : list A) (a mid b : Z) :
  mid <= b -> lowerBound less dflt d a b -> lowerBound less dflt d a mid.
Proof. intros Hm Hlow Ha i Hi1 Hi2. apply Hlow; lia. Qed.

Lemma sortedRange_join (d : list A) (a mid b : Z) :
  partitioned less dflt d a mid b ->
  sortedRange less dflt d a mid -> sortedRange less dflt d (mid + 1) b ->
  sortedRange less dflt d a b.
Proof.
  intros [Hlo Hhi] S1 S2 i j Hi Hij Hj.
  destruct (decide (j < mid)) as [Hjm|Hjm]; [apply S1; lia|].
  destruct (decide (mid < i)) as [Him|Him]; [apply S2; lia|].
  destruct (decide (j = mid)) as [->|Hj']; [apply notAfter_true, Hlo; lia|].
  destruct (decide (i = mid)) as [->|Hi']; [apply notAfter_false, Hhi; lia|].
  apply (notAfter_trans _ (el d mid));
    [apply notAfter_true, Hlo; lia | apply notAfter_false, Hhi; lia].
Qed.

Lemma pdqsort_func_sorted (fuel : nat) :
  forall (d sorted : list A) (a b limit : Z) (wasBalanced wasPartitioned : bool),
    0 <= a -> a <= b -> b <= len d ->
    lowerBound less dflt d a b ->
    sort.pdqsort_func less fuel d a b limit wasBalanced wasPartitioned = Some sorted ->
    sortedRange less dflt sorted a b /\ within dflt a b d sorted.
Proof.
  induction fuel as [|fuel IH]; intros d sorted a b limit wb wp H0 Hab Hb Hlow H;
    [discriminate|].
  cbn [sort.pdqsort_func] in H.
  destruct (Z.leb_spec (b - a) 12) as [H12|H12].
  { injection H as <-. now apply insertionSort_func_sorted. }
  destruct (limit =? 0).
  { injection H as <-. apply heapSort_func_sorted; lia. }
  assert (within dflt a b d (if negb wb then (sort.breakPatterns_func d a b, limit - 1)
                             else (d, limit)).1) as W1.
  { destruct wb; cbn [negb fst]; [apply within_refl|].
    now apply breakPatterns_func_within. }
  destruct (if negb wb then _ else _) as [d1 limit1]. cbn [fst] in W1.
  pose proof (within_length _ _ _ _ W1) as L1.
  pose proof (choosePivot_func_bounds d1 a b ltac:(lia)) as Hpv.
  destruct (sort.choosePivot_func less d1 a b) as [pivot hint]. cbn [fst] in Hpv.
  assert (within dflt a b d (if sort.isDecreasing hint
                             then (sort.reverseRange_func d1 a b, b - 1 - (pivot - a),
                                   sort.increasingHint)
                             else (d1, pivot, hint)).1.1
          /\ a <= (if sort.isDecreasing hint
                   then (sort.reverseRange_func d1 a b, b - 1 - (pivot - a),
                         sort.increasingHint)
                   else (d1, pivot, hint)).1.2 < b) as [W2 Hpv2].
  { destruct (sort.isDecreasing hint); cbn [fst snd]; [|split; [exact W1 | lia]].
    split; [|lia]. eapply within_trans; [exact W1|].
    unfold sort.reverseRange_func. apply reverseLoop_within; lia. }
  destruct (if sort.isDecreasing hint then _ else _) as [[d2 pivot2] hint2].
  cbn [fst snd] in W2, Hpv2.
  pose proof (within_length _ _ _ _ W2) as L2.
  assert (within dflt a b d (if wb && wp && sort.isIncreasing hint2
                             then sort.partialInsertionSort_func less d2 a b
                             else (d2, false)).1
          /\ ((if wb && wp && sort.isIncreasing hint2
               then sort.partialInsertionSort_func less d2 a b
               else (d2, false)).2 = true ->
              sortedRange less dflt (if wb && wp && sort.isIncreasing hint2
                                     then sort.partialInsertionSort_func less d2 a b
                                     else (d2, false)).1 a b)) as [W3 S3].
  { destruct (wb && wp && sort.isIncreasing hint2); cbn [fst snd];
      [|split; [exact W2 | discriminate]].
    destruct (partialInsertionSort_func_spec d2 a b) as [W S]; try lia.
    - now apply (lowerBound_within a b d).
    - split; [|exact S]. eapply within_trans; eauto. }
  destruct (if wb && wp && sort.isIncreasing hint2 then _ else _) as [d3 done].
  cbn [fst snd] in W3, S3.
  destruct done; [injection H as <-; auto|]. clear S3.
  pose proof (within_length _ _ _ _ W3) as L3.
  pose proof (lowerBound_within a b d d3 W3 Hlow) as Hlow3.
  destruct ((0 <? a) && negb (sort.Less less d3 (a - 1) pivot2)) eqn:Eq.
  - apply andb_true_iff in Eq as [Ha Hpred]. apply Z.ltb_lt in Ha.
    apply negb_true_iff in Hpred. rewrite (Less_sel less dflt) in Hpred by lia.
    destruct (partitionEqual_func_spec d3 a b pivot2) as (M1 & M2 & W4 & Ea & Hlo' & Hhi);
      try lia.
    destruct (sort.partitionEqual_func less d3 a b pivot2) as [d4 mid].
    cbn [fst snd] in M1, M2, W4, Ea, Hlo', Hhi.
    pose proof (within_length _ _ _ _ W4) as L4.
    pose proof (lowerBound_within a b d3 d4 W4 Hlow3) as Hlow4.
    assert (forall k, a <= k -> k < mid -> less (el d3 pivot2) (el d4 k) = false) as Hlo.
    { intros k Hk1 Hk2. destruct (decide (k = a)) as [->|Hne]; [|apply Hlo'; lia].
      rewrite Ea. apply (less_negtrans _ (el d3 (a - 1))); [|exact Hpred].
      apply Hlow3; lia. }
    destruct (IH d4 sorted mid b limit1 wb wp) as [S5 W5]; try lia; auto.
    { intros _ i Hi1 Hi2.
      destruct (less (el d4 i) (el d4 (mid - 1))) eqn:E; [|reflexivity].
      pose proof (Hlo (mid - 1) ltac:(lia) ltac:(lia)) as C.
      rewrite (less_trans _ _ _ (Hhi i Hi1 Hi2) E) in C. discriminate. }
    assert (within dflt a b d4 sorted) as W5' by (apply (within_mono mid b); auto; lia).
    pose proof (lowerBound_within a b d4 sorted W5' Hlow4) as Hlow5.
    assert (el sorted (a - 1) = el d3 (a - 1)) as Epred.
    { rewrite (within_outside a b d4 sorted) by (auto; lia).
      apply (within_outside a b d3 d4); auto; lia. }
    split.
    + intros i j Hi Hij Hj.
      destruct (decide (mid <= i)) as [Hmi|Hmi]; [apply S5; lia|].
      rewrite (within_outside mid b d4 sorted i) by (auto; lia).
      apply (notAfter_trans _ (el d3 pivot2)); [apply notAfter_false, Hlo; lia|].
      apply (notAfter_trans _ (el d3 (a - 1))); [now apply notAfter_false|].
      rewrite <- Epred. apply notAfter_false, Hlow5; lia.
    + eapply within_trans; [exact W3|]. eapply within_trans; eauto.
  - clear Eq.
    destruct (partition_func_spec d3 a b pivot2) as (M1 & M2 & W4 & Hlo & Hhi); try lia.
    destruct (sort.partition_func less d3 a b pivot2) as [[d4 mid] already].
    cbn [fst snd] in M1, M2, W4, Hlo, Hhi.
    pose proof (within_length _ _ _ _ W4) as L4.
    pose proof (lowerBound_within a b d3 d4 W4 Hlow3) as Hlow4.
    assert (partitioned less dflt d4 a mid b) as P4 by (split; assumption).
    assert (within dflt a b d d4) as W04 by (eapply within_trans; eauto).
    destruct (mid - a <? b - mid).
    + destruct (sort.pdqsort_func less fuel d4 a mid limit1 true true) as [d5|] eqn:E5;
        [|discriminate].
      destruct (IH d4 d5 a mid limit1 true true) as [S5 W5]; try lia; auto.
      { apply (lowerBound_left d4 a mid b); auto; lia. }
      pose proof (within_length _ _ _ _ W5) as L5.
      assert (within dflt a b d4 d5) as W5' by (apply (within_mono a mid); auto; lia).
      pose proof (partitioned_left d4 d5 a mid b H0 M1 W5 P4) as P5.
      destruct (IH d5 sorted (mid + 1) b limit1 (((b - a) / 8) <=? (mid - a)) already)
        as [S6 W6]; try lia; auto.
      { apply (lowerBound_right d5 a mid b); auto.
        apply (lowerBound_within a b d4); auto. }
      split.
      * apply (sortedRange_join sorted a mid b); auto.
        -- apply (partitioned_right d5 sorted a mid b); auto.
        -- apply (sortedRange_outside (mid + 1) b a mid d5); auto; lia.
      * eapply within_trans; [exact W04|]. eapply within_trans; [exact W5'|].
        apply (within_mono (mid + 1) b); auto; lia.
    + destruct (sort.pdqsort_func less fuel d4 (mid + 1) b limit1 true true) as [d5|] eqn:E5;
        [|discriminate].
      destruct (IH d4 d5 (mid + 1) b limit1 true true) as [S5 W5]; try lia; auto.
      { apply (lowerBound_right d4 a mid b); auto. }
      pose proof (within_length _ _ _ _ W5) as L5.
      assert (within dflt a b d4 d5) as W5' by (apply (within_mono (mid + 1) b); auto; lia).
      pose proof (partitioned_right d4 d5 a mid b H0 M1 W5 P4) as P5.
      destruct (IH d5 sorted a mid limit1 (((b - a) / 8) <=? (b - mid)) already)
        as [S6 W6]; try lia; auto.
      { apply (lowerBound_left d5 a mid b); [lia|].
        apply (lowerBound_within a b d4); auto. }
      split.
      * apply (sortedRange_join sorted a mid b); auto.
        -- apply (partitioned_left d5 sorted a mid b); auto.
        -- apply (sortedRange_outside a mid (mid + 1) b d5); auto; lia.
      * eapply within_trans; [exact W04|]. eapply within_trans; [exact W5'|].
        apply (within_mono a mid); auto; lia.
Qed.

Lemma Slice_sortedRange (x sorted : list A) :
  sort.Slice less x = Some sorted -> sortedRange less dflt sorted 0 (len sorted).
Proof.
  unfold sort.Slice. intros H.
  rewrite (pdqsort_func_length _ _ _ _ _ _ _ _ _ H).
  destruct (pdqsort_func_sorted (S (length x)) x sorted 0 (len x)
              (sort.bitsLen (len x)) true true) as [Hs _]; try lia; auto.
  intros Ha. lia.
Qed.

Lemma sortedRange_StronglySorted (l : list A) :
  sortedRange less dflt l 0 (len l) -> StronglySorted (notAfter less) l.
Proof.
  induction l as [|x l IH]; intros H; constructor.
  - apply IH. intros i j Hi Hij Hj.
    specialize (H (i + 1) (j + 1) ltac:(lia) ltac:(lia) ltac:(cbn [length]; lia)).
    unfold sel in *. replace (Z.to_nat (i + 1)) with (S (Z.to_nat i)) in H by lia.
    replace (Z.to_nat (j + 1)) with (S (Z.to_nat j)) in H by lia. exact H.
  - apply List.Forall_forall. intros y Hy.
    destruct (List.In_nth l y dflt Hy) as (n & Hn & <-).
    specialize (H 0 (Z.of_nat (S n)) ltac:(lia) ltac:(lia) ltac:(cbn [length]; lia)).
    unfold sel in H. rewrite Nat2Z.id in H. exact H.
Qed.

End Ranges.

(** [sort.Slice] sorts, with every comparison that is transitive and whose
    negation is transitive: an order, and the negation of an order. *)
Lemma Slice_sorted {A : Type} (less : A -> A -> bool) (x sorted : list A) :
  (forall x y z, less x y = true -> less y z = true -> less x z = true) ->
  (forall x y z, less x y = false -> less y z = false -> less x z = false) ->
  sort.Slice less x = Some sorted -> StronglySorted (notAfter less) sorted.
Proof.
  intros Ht Hn H. destruct sorted as [|y s] eqn:E; [constructor|]. rewrite <- E in *.
  apply (sortedRange_StronglySorted less y).
  now apply (Slice_sortedRange less y Ht Hn x).
Qed.

(** ** The process table: the order of the rows *)

Section TableOrder.

Import process_list.

Lemma itemLess_trans (column : Z) (x y z : ProcessListItem) :
  itemLess column false x y = true -> itemLess column false y z = true ->
  itemLess column false x z = true.
Proof.
  intros H1 H2. destruct (itemLess column false x z) eqn:E; [reflexivity|].
  pose proof (itemLess_asym column y z H2) as H3.
  rewrite (itemLess_negtrans column x z y E H3) in H1. discriminate.
Qed.

Lemma itemLess_reversed_trans (column : Z) (x y z : ProcessListItem) :
  itemLess column true x y = true -> itemLess column true y z = true ->
  itemLess column true x z = true.
Proof.
  rewrite !itemLess_reversed, !negb_true_iff. apply itemLess_negtrans.
Qed.

Lemma itemLess_reversed_negtrans (column : Z) (x y z : ProcessListItem) :
  itemLess column true x y = false -> itemLess column true y z = false ->
  itemLess column true x z = false.
Proof.
  rewrite !itemLess_reversed, !negb_false_iff. apply itemLess_trans.
Qed.

Lemma notAfter_inOrder (column : Z) (reverse : bool) (x y : ProcessListItem) :
  notAfter (itemLess column reverse) x y -> inOrder column reverse x y.
Proof.
  unfold notAfter, inOrder. destruct reverse.
  - rewrite !itemLess_reversed, negb_true_iff, negb_false_iff.
    intros [H|H]; [exact H | now apply itemLess_asym].
  - intros [H|H]; [now apply itemLess_asym | exact H].
Qed.

Lemma StronglySorted_weaken {A : Type} (R R' : A -> A -> Prop) (l : list A) :
  (forall x y, R x y -> R' x y) -> StronglySorted R l -> StronglySorted R' l.
Proof.
  intros HR. induction 1 as [|x l Hl IH Hx]; constructor; [exact IH|].
  eapply Forall_impl; eauto.
Qed.

(** X25: whatever the number of processes, the column and the direction,
    the rows of the table [updateProcessList] returns stand in the order
    of the selected column: with [sortReverse] clear no row stands above a
    row that comes before it in the column, and with [sortReverse] set no
    row stands above a row that comes after it. The rows are the rows of
    the processes, none lost and none repeated. *)
Theorem X25_table_in_order (g : Globals) (processes : list ProcessInfo) :
  exists g' items,
    updateProcessList g processes = Some g'
    /\ Rows g' = headerOf (nameWidth processes) 8
                 :: Repeat "─" (String.length (headerOf (nameWidth processes) 8))
                 :: map display items
    /\ Permutation items (collect processes 20 8 []).1
    /\ StronglySorted (inOrder (selectedColumn g) (sortReverse g)) items.
Proof.
  unfold updateProcessList, sortedItems.
  destruct (collect_spec processes 20 []) as (items & E & Hl & _).
  rewrite E. cbn [app fst].
  destruct (Slice_returns (itemLess (selectedColumn g) (sortReverse g)) items) as [sorted Es].
  rewrite Es. eexists _, sorted. split; [reflexivity|]. split; [reflexivity|].
  split; [exact (Slice_perm _ _ _ Es)|].
  apply (StronglySorted_weaken (notAfter (itemLess (selectedColumn g) (sortReverse g)))).
  - apply notAfter_inOrder.
  - apply (Slice_sorted _ items); [| |exact Es]; destruct (sortReverse g).
    + exact (itemLess_reversed_trans _).
    + exact (itemLess_trans _).
    + exact (itemLess_reversed_negtrans _).
    + exact (itemLess_negtrans _).
Qed.

End TableOrder.

(** ** The process table: a sort and its reverse *)

Lemma less_bytesBefore (s t : string) : strings.less s t = true <-> bytesBefore s t.
Proof.
  unfold strings.less. split.
  - revert t. induction s as [|a s IH]; intros [|b t]; cbn [String.compare]; try discriminate.
    + intros _. exists "", "", (String b t). auto.
    + unfold Ascii.compare. destruct (N.compare_spec (N_of_ascii a) (N_of_ascii b)) as [E|E|E].
      * intros H. destruct (IH t H) as (p & s' & t' & -> & -> & Hd).
        apply (f_equal ascii_of_N) in E. rewrite !ascii_N_embedding in E. subst b.
        exists (String a p), s', t'. auto.
      * intros _. exists "", (String a s), (String b t). auto.
      * discriminate.
  - intros (p & s' & t' & -> & -> & Hd). induction p as [|c p IH]; cbn [append String.compare].
    + destruct s' as [|a s'], t' as [|b t']; try contradiction; cbn [String.compare]; auto.
      unfold Ascii.compare. now rewrite (proj2 (N.compare_lt_iff _ _) Hd).
    + unfold Ascii.compare. rewrite N.compare_refl. exact IH.
Qed.

Lemma less_antisym (s t : string) :
  strings.less s t = false -> strings.less t s = false -> s = t.
Proof.
  unfold strings.less. rewrite (String.compare_antisym t s).
  destruct (String.compare s t) eqn:E; cbn; try discriminate.
  intros _ _. now apply String.compare_eq_iff.
Qed.

Section Unique.

Context {A : Type} (R : A -> A -> Prop).

Hypothesis R_antisym : forall x y, R x y -> R y x -> x = y.

(** A list has one arrangement that is in order. *)
Lemma StronglySorted_unique (l1 : list A) :
  forall l2 : list A,
    Permutation l1 l2 -> StronglySorted R l1 -> StronglySorted R l2 -> l1 = l2.
Proof.
  induction l1 as [|x l1 IH]; intros l2 HP S1 S2.
  - apply Permutation_nil in HP. now subst.
  - destruct l2 as [|y l2]; [symmetry in HP; now apply Permutation_nil in HP|].
    apply StronglySorted_inv in S1 as [S1 F1]. apply StronglySorted_inv in S2 as [S2 F2].
    assert (x = y) as ->.
    { assert (List.In x (y :: l2)) as Hx by (apply (Permutation_in x HP); now left).
      assert (List.In y (x :: l1)) as Hy
        by (apply (Permutation_in y (Permutation_sym HP)); now left).
      destruct Hx as [->|Hx]; [reflexivity|]. destruct Hy as [->|Hy]; [reflexivity|].
      rewrite List.Forall_forall in F1, F2. apply R_antisym; auto. }
    f_equal. apply IH; auto. now apply Permutation_cons_inv in HP.
Qed.

End Unique.

Lemma StronglySorted_map {A B : Type} (f : A -> B) (R : B -> B -> Prop) (l : list A) :
  StronglySorted (fun x y => R (f x) (f y)) l -> StronglySorted R (map f l).
Proof.
  induction 1 as [|x l Hl IH Hx]; cbn [map]; constructor; [exact IH|].
  rewrite List.Forall_forall in *. intros y Hy.
  apply List.in_map_iff in Hy as (z & <- & Hz). auto.
Qed.

(** Two arrangements of a list that agree in a key that no two elements
    share are the same. *)
Lemma same_keys_same_list {A B : Type} (f : A -> B) (l1 : list A) :
  forall l2 : list A,
    Permutation l1 l2 -> map f l1 = map f l2 -> NoDup (map f l1) -> l1 = l2.
Proof.
  induction l1 as [|x l1 IH]; intros l2 HP HM HN.
  - apply Permutation_nil in HP. now subst.
  - destruct l2 as [|y l2]; [discriminate|].
    cbn [map] in HM, HN. injection HM as Hxy HM.
    apply NoDup_cons in HN as [Hx HN].
    assert (x = y) as ->.
    { assert (List.In y (x :: l1)) as Hy
        by (apply (Permutation_in y (Permutation_sym HP)); now left).
      destruct Hy as [->|Hy]; [reflexivity|]. exfalso. apply Hx.
      rewrite Hxy. apply list_elem_of_In. now apply List.in_map. }
    f_equal. apply IH; auto. now apply Permutation_cons_inv in HP.
Qed.

Section Reverse.

Import process_list.

Lemma collect_keys (processes : list ProcessInfo) :
  forall (w : Z) (items : list ProcessListItem),
    map name (collect processes w 8 items).1 = map name items ++ map Name processes
    /\ map usage (collect processes w 8 items).1 = map usage items ++ map GFXUsage processes.
Proof.
  induction processes as [|p ps IH]; intros w items; cbn [collect map fst].
  - now rewrite !app_nil_r.
  - destruct (IH (if w <? Z.of_nat (String.length (Name p))
                  then Z.of_nat (String.length (Name p)) else w)
                 (items ++ [{| gpu := GPU p; name := Name p; pid := PID p;
                               usage := GFXUsage p;
                               display :=
                                 displayOf (if w <? Z.of_nat (String.length (Name p))
                                            then Z.of_nat (String.length (Name p)) else w)
                                           8 p |}])) as [E1 E2].
    rewrite E1, E2, !map_app, <- !app_assoc. split; reflexivity.
Qed.

(** The items come out of [sort.Slice] in the order of the column, for
    every column and both directions. *)
Lemma sortedItems_in_order (column : Z) (reverse : bool) (processes : list ProcessInfo) :
  exists items,
    sortedItems column reverse processes = Some items
    /\ Permutation items (collect processes 20 8 []).1
    /\ StronglySorted (inOrder column reverse) items.
Proof.
  unfold sortedItems.
  destruct (collect processes 20 8 []) as [its w]. cbn [fst].
  destruct (Slice_returns (itemLess column reverse) its) as [sorted Es].
  exists sorted. split; [exact Es|]. split; [exact (Slice_perm _ _ _ Es)|].
  apply (StronglySorted_weaken (notAfter (itemLess column reverse))).
  - apply notAfter_inOrder.
  - apply (Slice_sorted _ its); [| |exact Es]; destruct reverse.
    + exact (itemLess_reversed_trans _).
    + exact (itemLess_trans _).
    + exact (itemLess_reversed_negtrans _).
    + exact (itemLess_negtrans _).
Qed.

(** The keys of a column come out in rising order, and in the reverse of
    it when the direction is reversed. *)
Lemma sortedItems_keys (column : Z) (key : ProcessListItem -> string)
    (processes : list ProcessInfo) :
  (forall x y, itemLess column false x y = strings.less (key x) (key y)) ->
  exists items items',
    sortedItems column false processes = Some items
    /\ sortedItems column true processes = Some items'
    /\ Permutation items (collect processes 20 8 []).1
    /\ Permutation items' (collect processes 20 8 []).1
    /\ StronglySorted (fun s t => strings.less t s = false) (map key items)
    /\ StronglySorted (fun s t => strings.less s t = false) (map key items')
    /\ map key items' = rev (map key items).
Proof.
  intros Hkey.
  destruct (sortedItems_in_order column false processes) as (items & E & HP & HS).
  destruct (sortedItems_in_order column true processes) as (items' & E' & HP' & HS').
  exists items, items'. split; [exact E|]. split; [exact E'|].
  split; [exact HP|]. split; [exact HP'|].
  assert (StronglySorted (fun s t => strings.less t s = false) (map key items)) as K.
  { apply StronglySorted_map. eapply StronglySorted_weaken; [|exact HS].
    intros x y H. unfold inOrder in H. now rewrite <- Hkey. }
  assert (StronglySorted (fun s t => strings.less s t = false) (map key items')) as K'.
  { apply StronglySorted_map. eapply StronglySorted_weaken; [|exact HS'].
    intros x y H. unfold inOrder in H. now rewrite <- Hkey. }
  split; [exact K|]. split; [exact K'|].
  rewrite <- (rev_involutive (map key items')). f_equal.
  apply (StronglySorted_unique (fun s t => strings.less t s = false)).
  - intros x y H1 H2. now apply less_antisym.
  - rewrite <- Permutation_rev. apply Permutation_map. now rewrite HP', HP.
  - now apply StronglySorted_rev_flip in K'.
  - exact K.
Qed.

(** C7 (amended): sorting by name in reverse gives the names in the exact
    reverse of sorting by name, for every list of records, and the rows of
    the one are the rows of the other. The rows themselves stand in the
    exact reverse, ties included, when the list has at most twelve records
    (for this many [sort.Slice] is an insertion sort, in which the negated
    comparison also reverses the order of equal names), and for every
    length when no two records have the same name. *)
Theorem C7_reversed_is_reverse (processes : list ProcessInfo) :
  exists items items',
    sortedItems 1 false processes = Some items
    /\ sortedItems 1 true processes = Some items'
    /\ map name items' = rev (map name items)
    /\ Permutation items' (rev items)
    /\ ((length processes <= 12)%nat \/ NoDup (map Name processes) -> items' = rev items).
Proof.
  destruct (sortedItems_keys 1 name processes ltac:(reflexivity))
    as (items & items' & E & E' & HP & HP' & K & K' & HK).
  exists items, items'. split; [exact E|]. split; [exact E'|]. split; [exact HK|].
  split; [now rewrite <- Permutation_rev, HP', HP|].
  intros [Hl|Hn].
  - destruct (sortedItems_reversed 1 processes Hl) as (items0 & E0 & E0').
    congruence.
  - rewrite <- (rev_involutive items'). f_equal.
    apply (same_keys_same_list name).
    + rewrite <- Permutation_rev. now rewrite HP', HP.
    + now rewrite map_rev, HK, rev_involutive.
    + rewrite map_rev, HK, rev_involutive.
      destruct (collect_keys processes 20 []) as [Hnames _]. cbn [map app] in Hnames.
      apply (Permutation_map name) in HP. rewrite Hnames in HP.
      now rewrite HP.
Qed.

(** C8: on the usage column the table is ordered by the text of the
    usage, byte by byte, and not by its value. For every list of records
    the usage texts of the rows are in the rising order of Go's [<] on
    strings, and in the falling order when the direction is reversed; this
    order is the order of the bytes, in which "9.0%" comes after "80.0%",
    though 9.0 is less than 80.0. *)
Theorem C8_usage_sorted_as_text (processes : list ProcessInfo) :
  (exists items items',
      sortedItems 3 false processes = Some items
      /\ sortedItems 3 true processes = Some items'
      /\ Permutation (map usage items) (map GFXUsage processes)
      /\ Permutation (map usage items') (map GFXUsage processes)
      /\ StronglySorted (fun s t => strings.less t s = false) (map usage items)
      /\ StronglySorted (fun s t => strings.less s t = false) (map usage items')
      /\ map usage items' = rev (map usage items))
  /\ (forall s t : string, strings.less s t = true <-> bytesBefore s t)
  /\ (forall x y : ProcessListItem,
        itemLess 3 false x y = strings.less (usage x) (usage y))
  /\ strings.less "80.0%" "9.0%" = true
  /\ (fst (strconv.ParseFloatDecimal "9.0") <? fst (strconv.ParseFloatDecimal "80.0"))%float
     = true
  /\ fmap (M := option) (map usage)
       (sortedItems 3 false [sampleProcess 0 "a" "1" "9.0%"; sampleProcess 0 "b" "2" "80.0%"])
     = Some ["80.0%"; "9.0%"].
Proof.
  split.
  { destruct (sortedItems_keys 3 usage processes ltac:(reflexivity))
      as (items & items' & E & E' & HP & HP' & K & K' & HK).
    exists items, items'.
    destruct (collect_keys processes 20 []) as [_ Hu]. cbn [map app] in Hu.
    repeat split; auto.
    - rewrite <- Hu. now apply Permutation_map.
    - rewrite <- Hu. now apply Permutation_map. }
  split; [exact less_bytesBefore|].
  repeat split; vm_compute; reflexivity.
Qed.

End Reverse.

(** ** The process table: the title and the sort state *)

Section Titles.

Import process_list.

Lemma titleOf_text (column : Z) (arrow : bool) :
  0 <= column <= 3 -> titleOf column arrow = Done (titleText column arrow).
Proof.
  intros H.
  assert (column = 0 \/ column = 1 \/ column = 2 \/ column = 3) as Hc by lia.
  destruct Hc as [->|[->|[->| ->]]]; reflexivity.
Qed.

(** One event, beside the three things the title depends on. *)
Lemma handleProcessListEvents_arrow (e : string) (g : Globals) (arrow : bool) :
  columnInRange g -> Title g = titleText (selectedColumn g) arrow ->
  exists g',
    handleProcessListEvents e g = Done g'
    /\ columnInRange g'
    /\ selectedColumn g' = (afterEvent (selectedColumn g, sortReverse g, arrow) e).1.1
    /\ sortReverse g' = (afterEvent (selectedColumn g, sortReverse g, arrow) e).1.2
    /\ Title g'
       = titleText (selectedColumn g')
           (afterEvent (selectedColumn g, sortReverse g, arrow) e).2.
Proof.
  unfold columnInRange. intros H Ht. unfold handleProcessListEvents, afterEvent.
  destruct (String.eqb_spec e "<Up>") as [->|_].
  { cbn. eexists. split; [reflexivity|]. destruct (0 <? SelectedRow g); auto. }
  destruct (String.eqb_spec e "<Down>") as [->|_].
  { cbn. eexists. split; [reflexivity|].
    destruct (SelectedRow g <? Z.of_nat (length (Rows g)) - 1); auto. }
  destruct (String.eqb e "<Left>").
  { destruct (Z.ltb_spec 0 (selectedColumn g)) as [E|E]; [|eexists; cbn; eauto].
    assert (wrap64 (selectedColumn g - 1) = selectedColumn g - 1) as ->.
    { unfold wrap64. rewrite Z.mod_small; lia. }
    rewrite titleOf_text by lia. cbn [res_bind].
    eexists. split; [reflexivity|]. cbn. repeat split; lia. }
  destruct (String.eqb e "<Right>").
  { change (Z.of_nat (length columns) - 1) with 3.
    destruct (Z.ltb_spec (selectedColumn g) 3) as [E|E]; [|eexists; cbn; eauto].
    assert (wrap64 (selectedColumn g + 1) = selectedColumn g + 1) as ->.
    { unfold wrap64. rewrite Z.mod_small; lia. }
    rewrite titleOf_text by lia. cbn [res_bind].
    eexists. split; [reflexivity|]. cbn. repeat split; lia. }
  destruct (String.eqb e "<Enter>" || String.eqb e "<Space>"); eexists; cbn; eauto.
Qed.

Lemma handleAll_arrow (es : list string) :
  forall (g : Globals) (arrow : bool),
    columnInRange g -> Title g = titleText (selectedColumn g) arrow ->
    exists g',
      handleAll es g = Done g'
      /\ columnInRange g'
      /\ selectedColumn g'
         = (fold_left afterEvent es (selectedColumn g, sortReverse g, arrow)).1.1
      /\ sortReverse g'
         = (fold_left afterEvent es (selectedColumn g, sortReverse g, arrow)).1.2
      /\ Title g'
         = titleText (selectedColumn g')
             (fold_left afterEvent es (selectedColumn g, sortReverse g, arrow)).2.
Proof.
  induction es as [|e es IH]; intros g arrow Hc Ht; cbn [handleAll fold_left].
  - exists g. cbn. auto.
  - destruct (handleProcessListEvents_arrow e g arrow Hc Ht) as (g1 & -> & Hc1 & E1 & E2 & E3).
    cbn [res_bind].
    destruct (afterEvent (selectedColumn g, sortReverse g, arrow) e) as [[c r] a].
    cbn [fst snd] in E1, E2, E3. rewrite <- E1, <- E2. now apply IH.
Qed.

(** An event that is no [<Left>] and no [<Right>] leaves the column and
    the title. *)
Lemma handleProcessListEvents_other (e : string) (g : Globals) :
  e <> "<Left>" -> e <> "<Right>" ->
  exists g',
    handleProcessListEvents e g = Done g'
    /\ selectedColumn g' = selectedColumn g /\ Title g' = Title g.
Proof.
  intros Hl Hr. unfold handleProcessListEvents.
  destruct (String.eqb e "<Up>").
  { eexists. split; [reflexivity|]. destruct (0 <? SelectedRow g); auto. }
  destruct (String.eqb e "<Down>").
  { eexists. split; [reflexivity|].
    destruct (SelectedRow g <? Z.of_nat (length (Rows g)) - 1); auto. }
  destruct (String.eqb_spec e "<Left>"); [contradiction|].
  destruct (String.eqb_spec e "<Right>"); [contradiction|].
  destruct (String.eqb e "<Enter>" || String.eqb e "<Space>"); eauto.
Qed.

Lemma handleAll_other (es : list string) :
  forall g : Globals,
    Forall (fun e => e <> "<Left>" /\ e <> "<Right>") es ->
    exists g',
      handleAll es g = Done g'
      /\ selectedColumn g' = selectedColumn g /\ Title g' = Title g.
Proof.
  induction es as [|e es IH]; intros g H; cbn [handleAll]; [eauto|].
  apply Forall_cons in H as [[Hl Hr] H].
  destruct (handleProcessListEvents_other e g Hl Hr) as (g1 & -> & E1 & E2).
  cbn [res_bind]. destruct (IH g1 H) as (g' & E & E3 & E4).
  exists g'. split; [exact E|]. split; congruence.
Qed.

(** An event that changes the column writes the title, with the direction
    it finds. *)
Lemma handleProcessListEvents_changed (e : string) (g g' : Globals) :
  columnInRange g ->
  handleProcessListEvents e g = Done g' -> selectedColumn g' <> selectedColumn g ->
  Title g' = titleText (selectedColumn g') (sortReverse g)
  /\ sortReverse g' = sortReverse g.
Proof.
  unfold columnInRange. intros H. unfold handleProcessListEvents.
  destruct (String.eqb e "<Up>").
  { destruct (0 <? SelectedRow g); intros [= <-]; cbn; congruence. }
  destruct (String.eqb e "<Down>").
  { destruct (SelectedRow g <? Z.of_nat (length (Rows g)) - 1); intros [= <-]; cbn;
      congruence. }
  destruct (String.eqb e "<Left>").
  { destruct (Z.ltb_spec 0 (selectedColumn g)) as [E|E]; [|intros [= <-]; congruence].
    assert (wrap64 (selectedColumn g - 1) = selectedColumn g - 1) as ->.
    { unfold wrap64. rewrite Z.mod_small; lia. }
    rewrite titleOf_text by lia. cbn [res_bind]. intros [= <-]. cbn. auto. }
  destruct (String.eqb e "<Right>").
  { change (Z.of_nat (length columns) - 1) with 3.
    destruct (Z.ltb_spec (selectedColumn g) 3) as [E|E]; [|intros [= <-]; congruence].
    assert (wrap64 (selectedColumn g + 1) = selectedColumn g + 1) as ->.
    { unfold wrap64. rewrite Z.mod_small; lia. }
    rewrite titleOf_text by lia. cbn [res_bind]. intros [= <-]. cbn. auto. }
  destruct (String.eqb e "<Enter>" || String.eqb e "<Space>"); intros [= <-]; cbn; congruence.
Qed.

(** X19: after any events the title names the column that is selected.
    Its arrow is the direction the sort had when the column was last
    changed, not the direction it has now: an event that changes the
    column writes the title with the direction it finds, [<Left>] in the
    first column and [<Right>] in the last change nothing, and [<Enter>]
    and [<Space>] turn the direction and leave the title. After [<Right>]
    and [<Enter>] the title is "Process List (Sort: Name ↑)" while the
    table is sorted in falling order. *)
Theorem X19_title_names_selected_column (es : list string) (g : Globals) :
  (exists g',
      handleAll es initial = Done g'
      /\ selectedColumn g' = (fold_left afterEvent es (0, false, false)).1.1
      /\ sortReverse g' = (fold_left afterEvent es (0, false, false)).1.2
      /\ Title g'
         = titleText (selectedColumn g') (fold_left afterEvent es (0, false, false)).2
      /\ titleOf (selectedColumn g') (fold_left afterEvent es (0, false, false)).2
         = Done (Title g'))
  /\ (forall (es1 es2 : list string) (e : string) (g1 g2 : Globals),
        handleAll es1 initial = Done g1 ->
        handleProcessListEvents e g1 = Done g2 ->
        selectedColumn g2 <> selectedColumn g1 ->
        Forall (fun e' => e' <> "<Left>" /\ e' <> "<Right>") es2 ->
        exists g3,
          handleAll (es1 ++ e :: es2) initial = Done g3
          /\ selectedColumn g3 = selectedColumn g2
          /\ Title g3 = titleText (selectedColumn g2) (sortReverse g1))
  /\ (exists g',
        handleAll ["<Right>"; "<Enter>"] initial = Done g'
        /\ Title g' = "Process List (Sort: Name ↑)" /\ sortReverse g' = true)
  /\ (exists g1,
        handleProcessListEvents "<Enter>" g = Done g1
        /\ Title g1 = Title g /\ sortReverse g1 = negb (sortReverse g))
  /\ (exists g1,
        handleProcessListEvents "<Space>" g = Done g1
        /\ Title g1 = Title g /\ sortReverse g1 = negb (sortReverse g)).
Proof.
  assert (columnInRange initial) as Hi by (unfold columnInRange; cbn; lia).
  assert (Title initial = titleText (selectedColumn initial) false) as Ht by reflexivity.
  split; [|split; [|split; [|split]]].
  - destruct (handleAll_arrow es initial false Hi Ht) as (g' & E & Hc & E1 & E2 & E3).
    exists g'. cbn [selectedColumn sortReverse initial] in E1, E2, E3.
    repeat split; auto. rewrite E3. now apply titleOf_text.
  - intros es1 es2 e g1 g2 E1 E2 Hne Hes2.
    destruct (handleAll_arrow es1 initial false Hi Ht) as (g1' & E1' & Hc1 & _).
    assert (g1' = g1) as -> by congruence.
    destruct (handleProcessListEvents_changed e g1 g2 Hc1 E2 Hne) as [T2 _].
    destruct (handleAll_other es2 g2 Hes2) as (g3 & E3 & C3 & T3).
    exists g3. split; [|split; congruence].
    clear - E1 E2 E3. revert E1. generalize initial.
    induction es1 as [|e1 es1 IH]; intros g0; cbn [handleAll app].
    + intros [= ->]. rewrite E2. exact E3.
    + destruct (handleProcessListEvents e1 g0); cbn [res_bind]; try discriminate. apply IH.
  - eexists. split; [reflexivity|]. split; reflexivity.
  - eexists. split; [reflexivity|]. split; reflexivity.
  - eexists. split; [reflexivity|]. split; reflexivity.
Qed.

End Titles.
